(** * A strict CSV codec: shallow embedding of [csv.c] and its properties

    The development follows the layout of [csv.c]: the error value and the
    allocation wrappers, the row container, the parse buffer, the parser's
    two-state automaton, and the writer.

    Modelling conventions.
    - A [char] is a byte ([ascii]).  An [int] is a [Z]; [fgetc] yields the
      byte's value in [0..255] or [EOF = -1].  Plain [char] is signed, as on
      x86-64 with gcc and clang: where an [int] is compared with a [char],
      the [char] is promoted by sign extension ([int_of_plain_char]), so
      that a byte from 128 on stands for a negative value and the byte 255
      for [-1], the value of [EOF].
    - The process state is a [world]: the stream the parser or writer was
      created on, the memory, and the cell [*err] the caller passed.
    - Memory: the store keeps the contents of the blocks that hold error
      objects and their messages, the only objects whose address the
      interface exposes.  Rows, fields and buffers are owned and never
      aliased; they are modelled by their contents, and for them [malloc]
      matters through its outcome only.  [plan] lists the outcomes of the
      coming [malloc] calls ([true]: success); once the list is exhausted
      every call succeeds.  The module [Mem] embeds the containers, the
      parser call and the two examples a second time, on the blocks
      themselves, and is shown to agree with the embedding on contents.
    - [int] counters ([len], [capacity]) are mathematical integers: the
      model covers runs in which they stay below [2^31]. *)

From Stdlib Require Import ZArith List Ascii String Bool Lia.
From stdpp Require Import gmap.
Import ListNotations.

Local Open Scope Z_scope.

(** ** Characters and C strings *)

Definition char : Type := ascii.

Definition NUL : char := "000"%char.
Definition QUOTE_CHAR : char := "034"%char.
Definition COMMA_CHAR : char := ","%char.
Definition CR_CHAR : char := "013"%char.
Definition LF_CHAR : char := "010"%char.

(** The value of a [char] converted to [unsigned char] and then to [int]. *)
Definition int_of_char (c : char) : Z := Z.of_N (N_of_ascii c).

(** The value of a plain [char] promoted to [int], as in [c == d] with [c]
    an [int] and [d] a [char]: the bytes below 128 have their own value, the
    bytes from 128 on the values [-128 .. -1]. *)
Definition int_of_plain_char (c : char) : Z :=
  if int_of_char c <? 128 then int_of_char c else int_of_char c - 256.

(** The conversion of an [int] holding a byte value back to [char]. *)
Definition char_of_int (c : Z) : char := ascii_of_N (Z.to_N c).

Definition EOF : Z := -1.
Definition NULL : Z := 0.

(** The bytes of a character array that precede its first NUL: what
    [strlen], [strcpy], [fputs] and a [for (p = s; *p != '\0'; p++)] loop
    see of it. *)
Fixpoint c_str (s : list char) : list char :=
  match s with
  | [] => []
  | c :: s' => if Ascii.eqb c NUL then [] else c :: c_str s'
  end.

(** A string literal: its characters followed by NUL. *)
Definition lit (s : string) : list char := list_ascii_of_string s ++ [NUL].

Definition CR_STR : list char := [CR_CHAR; NUL].
Definition LF_STR : list char := [LF_CHAR; NUL].
Definition CRLF_STR : list char := [CR_CHAR; LF_CHAR; NUL].
Definition DOUBLE_QUOTES_STR : list char := [QUOTE_CHAR; QUOTE_CHAR; NUL].

Definition SUCCEED : Z := 0.
Definition FAIL : Z := -1.

(** ** Streams *)

Record FILE := {
  rd : list char;        (* the bytes not yet read *)
  rd_fail : bool;        (* reading past the last byte is a read error *)
  ferr : bool;           (* the error indicator *)
  wr : list char;        (* the bytes written so far *)
  wr_plan : list bool;   (* outcomes of the coming writes *)
  errmsg : list char     (* the text [strerror(errno)] gives after a failure *)
}.

(** ** Memory *)

Inductive obj :=
| OError (error_code : Z) (message : Z)   (* a [csv_error_t] *)
| OString (s : list char).                (* a character array *)

Record mem := {
  store : gmap Z obj;    (* contents of the live blocks holding errors *)
  brk : nat;             (* the number of blocks [malloc] has handed out *)
  plan : list bool       (* outcomes of the coming [malloc] calls *)
}.

(** ** The process state and its monad *)

Record world := {
  file : FILE;
  heap : mem;
  err : Z                (* the cell [*err]: [NULL] or the address of an error *)
}.

Definition M (A : Type) : Type := world -> A * world.

Definition ret {A} (a : A) : M A := fun w => (a, w).

Definition bind {A B} (c : M A) (k : A -> M B) : M B :=
  fun w => let (a, w') := c w in k a w'.

Notation "'do' x <- c ; k" := (bind c (fun x => k))
  (at level 10, x name, c at level 100, k at level 200).
Notation "'do' ' p <- c ; k" := (bind c (fun x => match x with p => k end))
  (at level 10, p pattern, c at level 100, k at level 200).
Notation "c ;; k" := (bind c (fun _ => k))
  (at level 100, k at level 200, right associativity).

(** [*err = e] *)
Definition set_err (e : Z) : M unit :=
  fun w => (tt, {| file := file w; heap := heap w; err := e |}).

(** *** stdio *)

Definition fgetc : M Z := fun w =>
  let f := file w in
  match rd f with
  | c :: rest =>
      (int_of_char c,
       {| file := {| rd := rest; rd_fail := rd_fail f; ferr := ferr f; wr := wr f;
                     wr_plan := wr_plan f; errmsg := errmsg f |};
          heap := heap w; err := err w |})
  | [] =>
      (EOF,
       {| file := {| rd := []; rd_fail := rd_fail f; ferr := ferr f || rd_fail f;
                     wr := wr f; wr_plan := wr_plan f; errmsg := errmsg f |};
          heap := heap w; err := err w |})
  end.

Definition ungetc (c : Z) : M unit := fun w =>
  let f := file w in
  (tt, {| file := {| rd := char_of_int c :: rd f; rd_fail := rd_fail f; ferr := ferr f;
                     wr := wr f; wr_plan := wr_plan f; errmsg := errmsg f |};
          heap := heap w; err := err w |}).

Definition ferror : M bool := fun w => (ferr (file w), w).

Definition strerror_errno : M (list char) := fun w => (errmsg (file w), w).

(** [fputs(str, file)]: a non-negative value on success, [EOF] on failure. *)
Definition fputs (str : list char) : M Z := fun w =>
  let f := file w in
  match wr_plan f with
  | false :: pl =>
      (EOF,
       {| file := {| rd := rd f; rd_fail := rd_fail f; ferr := true; wr := wr f;
                     wr_plan := pl; errmsg := errmsg f |};
          heap := heap w; err := err w |})
  | pl =>
      (1,
       {| file := {| rd := rd f; rd_fail := rd_fail f; ferr := ferr f;
                     wr := wr f ++ c_str str; wr_plan := tl pl; errmsg := errmsg f |};
          heap := heap w; err := err w |})
  end.

(** *** stdlib *)

(** The first heap address; the addresses below it are static storage. *)
Definition heap_base : Z := 16.

(** [malloc]: [NULL] on failure, else a block at a fresh address (the size
    asked for plays no role in the model). *)
Definition malloc : M Z := fun w =>
  let m := heap w in
  match plan m with
  | false :: pl =>
      (NULL, {| file := file w;
                heap := {| store := store m; brk := brk m; plan := pl |};
                err := err w |})
  | pl =>
      (heap_base + Z.of_nat (brk m),
       {| file := file w;
          heap := {| store := store m; brk := S (brk m); plan := tl pl |};
          err := err w |})
  end.

(** [free(p)]: the block leaves the store; [free(NULL)] does nothing. *)
Definition free (p : Z) : M unit := fun w =>
  let m := heap w in
  (tt, {| file := file w;
          heap := {| store := delete p (store m); brk := brk m; plan := plan m |};
          err := err w |}).

(** A write through a pointer into a live block. *)
Definition poke (p : Z) (o : obj) : M unit := fun w =>
  let m := heap w in
  (tt, {| file := file w;
          heap := {| store := <[p := o]> (store m); brk := brk m; plan := plan m |};
          err := err w |}).

(** ** The error value *)

Definition CSV_ENOMEMORY : Z := 1.
Definition CSV_EINVALID_FIELD_DELIMITER : Z := 2.
Definition CSV_EIO : Z := 3.
Definition CSV_EINVALID_FORMAT : Z := 4.
Definition CSV_EINVALID_QUOTE_STYLE : Z := 5.
Definition CSV_EINVALID_LINEBREAK : Z := 6.

(** Static storage: the global error [GLOBAL_OOM] and the string literal its
    message points to.  Nothing in the library writes to either, so they are
    kept apart from the store. *)
Definition GLOBAL_OOM_addr : Z := 1.
Definition GLOBAL_OOM_message_addr : Z := 2.

Definition out_of_memory : list char := lit "out of memory".

Definition static_obj (p : Z) : option obj :=
  if p =? GLOBAL_OOM_addr then Some (OError CSV_ENOMEMORY GLOBAL_OOM_message_addr)
  else if p =? GLOBAL_OOM_message_addr then Some (OString out_of_memory)
  else None.

(** Reading the object a pointer refers to. *)
Definition load (m : mem) (p : Z) : option obj :=
  match static_obj p with
  | Some o => Some o
  | None => store m !! p
  end.

(** [err->error_code] *)
Definition error_code_at (m : mem) (p : Z) : option Z :=
  match load m p with
  | Some (OError c _) => Some c
  | _ => None
  end.

(** [err->message] *)
Definition message_at (m : mem) (p : Z) : option Z :=
  match load m p with
  | Some (OError _ q) => Some q
  | _ => None
  end.

Definition csv_error_oom : Z := GLOBAL_OOM_addr.

Definition xmalloc : M Z :=
  do p <- malloc;
  if p =? NULL then set_err csv_error_oom ;; ret NULL
  else ret p.

Definition csv_error_new (error_code : Z) (message : list char) : M Z :=
  if error_code =? CSV_ENOMEMORY then ret csv_error_oom
  else
    do e <- malloc;
    if e =? NULL then ret csv_error_oom
    else
      poke e (OError error_code NULL) ;;
      do msg <- malloc;
      if msg =? NULL then free e ;; ret csv_error_oom
      else
        poke e (OError error_code msg) ;;
        poke msg (OString (c_str message ++ [NUL])) ;;
        ret e.

Definition csv_error_free (e : Z) : M unit := fun w =>
  match error_code_at (heap w) e with
  | Some c =>
      if c =? CSV_ENOMEMORY then (tt, w)
      else
        match message_at (heap w) e with
        | Some msg => (free msg ;; free e) w
        | None => (tt, w)
        end
  | None => (tt, w)       (* not an error object: outside the interface *)
  end.

(** ** Field delimiters *)

Definition INVALID_FILED_DELIMITER_STR : list char :=
  [CR_CHAR; LF_CHAR; QUOTE_CHAR; NUL].

Fixpoint is_valid_field_delimiter_from (p : list char) (c : char) : Z :=
  match p with
  | [] => 1
  | x :: p' =>
      if Ascii.eqb x NUL then 1
      else if Ascii.eqb x c then 0
      else is_valid_field_delimiter_from p' c
  end.

Definition is_valid_field_delimiter (c : char) : Z :=
  is_valid_field_delimiter_from INVALID_FILED_DELIMITER_STR c.

(** ** The parser object

    [parser->file] is the stream of the world the parser runs in. *)

Record csv_parser_t := { field_delimiter : char }.

Definition csv_parser_new : M (option csv_parser_t) :=
  do parser <- xmalloc;
  if parser =? NULL then ret None
  else ret (Some {| field_delimiter := COMMA_CHAR |}).

Definition csv_parser_new_with_field_delimiter (delim : char) : M (option csv_parser_t) :=
  if is_valid_field_delimiter delim =? 0 then
    do e <- csv_error_new CSV_EINVALID_FIELD_DELIMITER (lit "invalid field delimiter");
    set_err e ;; ret None
  else
    do parser <- csv_parser_new;
    match parser with
    | Some _ => ret (Some {| field_delimiter := delim |})
    | None => ret None
    end.

(** ** The row container

    [r_fields] lists the blocks [fields[0] .. fields[len-1]], each with its
    terminating NUL; [len] is its length.  The slots from [len] on hold
    [NULL] and are never read. *)

Record csv_row_t := {
  r_capacity : Z;
  r_fields : list (list char)
}.

Definition r_len (row : csv_row_t) : Z := Z.of_nat (length (r_fields row)).

Definition csv_row_new : M (option csv_row_t) :=
  do row <- xmalloc;
  if row =? NULL then ret None
  else
    do fields <- xmalloc;
    if fields =? NULL then ret None
    else ret (Some {| r_capacity := 32; r_fields := [] |}).

Definition csv_row_free (row : csv_row_t) : M unit := ret tt.

Definition csv_row_reset (row : csv_row_t) : csv_row_t :=
  {| r_capacity := r_capacity row; r_fields := [] |}.

Definition csv_row_expand_fields (row : csv_row_t) : M (Z * csv_row_t) :=
  let new_cap := r_capacity row * 2 in
  do new_fields <- xmalloc;
  if new_fields =? NULL then ret (FAIL, row)
  else ret (SUCCEED, {| r_capacity := new_cap; r_fields := r_fields row |}).

Definition csv_row_field_count (row : csv_row_t) : Z := r_len row.

Definition csv_row_field_get (row : csv_row_t) (idx : Z) : list char :=
  nth (Z.to_nat idx) (r_fields row) [].

Definition csv_row_append_field (row : csv_row_t) (field : list char) (len : nat)
  : M (Z * csv_row_t) :=
  do '(res, row) <-
    (if r_len row >=? r_capacity row then csv_row_expand_fields row
     else ret (SUCCEED, row));
  if res =? FAIL then ret (FAIL, row)
  else
    do s <- xmalloc;
    if s =? NULL then ret (FAIL, row)
    else
      ret (SUCCEED,
           {| r_capacity := r_capacity row;
              r_fields := r_fields row ++ [firstn len field ++ [NUL]] |}).

(** ** The parse buffer

    [b_p] lists the bytes [p[0] .. p[len-1]]; [len] is its length. *)

Record buffer_t := {
  b_capacity : Z;
  b_p : list char
}.

Definition b_len (buffer : buffer_t) : Z := Z.of_nat (length (b_p buffer)).

Definition buffer_new : M (option buffer_t) :=
  do buffer <- xmalloc;
  if buffer =? NULL then ret None
  else
    do p <- xmalloc;
    if p =? NULL then ret None
    else ret (Some {| b_capacity := 256; b_p := [] |}).

Definition buffer_free (buffer : buffer_t) : M unit := ret tt.

Definition buffer_reset (buffer : buffer_t) : buffer_t :=
  {| b_capacity := b_capacity buffer; b_p := [] |}.

Definition buffer_putc (buffer : buffer_t) (c : char) : M (Z * buffer_t) :=
  do '(res, buffer) <-
    (if b_len buffer >=? b_capacity buffer then
       let new_cap := b_capacity buffer * 2 in
       do new_p <- xmalloc;
       if new_p =? NULL then ret (FAIL, buffer)
       else ret (SUCCEED, {| b_capacity := new_cap; b_p := b_p buffer |})
     else ret (SUCCEED, buffer));
  if res =? FAIL then ret (FAIL, buffer)
  else ret (SUCCEED, {| b_capacity := b_capacity buffer; b_p := b_p buffer ++ [c] |}).

Definition csv_row_append_field_with_buffer (row : csv_row_t) (buffer : buffer_t)
  : M (Z * csv_row_t) :=
  csv_row_append_field row (b_p buffer) (length (b_p buffer)).

(** ** The parser automaton *)

Inductive PARSE_STATE := ST_START | ST_INFIELD.

Definition consume_end_of_line (c : Z) : M unit :=
  if c =? int_of_plain_char CR_CHAR then
    do lookahead <- fgetc;
    if negb (lookahead =? int_of_plain_char LF_CHAR) && negb (lookahead =? EOF)
    then ungetc lookahead
    else ret tt
  else ret tt.

(** The label [FAILURE_RETURN]. *)
Definition FAILURE_RETURN (row : csv_row_t) (buffer : buffer_t) : M (option csv_row_t) :=
  csv_row_free row ;; buffer_free buffer ;; ret None.

(** [*err = csv_error_new(code, message); goto FAILURE_RETURN;] *)
Definition fail_with (code : Z) (message : list char)
    (row : csv_row_t) (buffer : buffer_t) : M (option csv_row_t) :=
  do e <- csv_error_new code message;
  set_err e ;; FAILURE_RETURN row buffer.

(** Append the buffer as the row's last field and return the row. *)
Definition append_and_return (row : csv_row_t) (buffer : buffer_t) : M (option csv_row_t) :=
  do '(res, row) <- csv_row_append_field_with_buffer row buffer;
  if res =? FAIL then FAILURE_RETURN row buffer
  else buffer_free buffer ;; ret (Some row).

Definition msg_should_be_quoted : list char :=
  list_ascii_of_string "quote(" ++ [QUOTE_CHAR] ++ lit ") should be quoted".

Definition msg_closing_quote : list char :=
  list_ascii_of_string "closing quote can only followed by `" ++ [CR_CHAR; LF_CHAR]
    ++ lit "` or field_delimiter".

(** The body of [while (1)] in [csv_parse_next_row].  Every iteration reads
    a byte or returns, so [fuel] above the number of unread bytes is never
    used up: [parse_loop_spec] below holds for every such [fuel]. *)
Fixpoint parse_loop (fuel : nat) (parser : csv_parser_t) (row : csv_row_t)
    (buffer : buffer_t) (state : PARSE_STATE) (quoted : bool) : M (option csv_row_t) :=
  match fuel with
  | O => ret None
  | S fuel =>
    do c <- fgetc;
    match state with
    | ST_START =>
        if c =? int_of_plain_char QUOTE_CHAR then
          parse_loop fuel parser row buffer ST_INFIELD true
        else if c =? EOF then
          do io <- ferror;
          if io then
            do msg <- strerror_errno;
            fail_with CSV_EIO msg row buffer
          else if r_len row >? 0 then
            append_and_return row buffer
          else
            csv_row_free row ;; buffer_free buffer ;; ret None
        else if (c =? int_of_plain_char CR_CHAR) || (c =? int_of_plain_char LF_CHAR) then
          consume_end_of_line c ;;
          if r_len row >? 0 then append_and_return row buffer
          else buffer_free buffer ;; ret (Some row)
        else if c =? int_of_plain_char (field_delimiter parser) then
          do '(res, row) <- csv_row_append_field_with_buffer row buffer;
          if res =? FAIL then FAILURE_RETURN row buffer
          else parse_loop fuel parser row (buffer_reset buffer) ST_START false
        else
          do '(res, buffer) <- buffer_putc buffer (char_of_int c);
          if res =? FAIL then FAILURE_RETURN row buffer
          else parse_loop fuel parser row buffer ST_INFIELD quoted
    | ST_INFIELD =>
        if c =? int_of_plain_char QUOTE_CHAR then
          if negb quoted then
            fail_with CSV_EINVALID_FORMAT msg_should_be_quoted row buffer
          else
            do lookahead <- fgetc;
            if lookahead =? int_of_plain_char QUOTE_CHAR then
              do '(res, buffer) <- buffer_putc buffer QUOTE_CHAR;
              if res =? FAIL then FAILURE_RETURN row buffer
              else parse_loop fuel parser row buffer ST_INFIELD quoted
            else if lookahead =? int_of_plain_char (field_delimiter parser) then
              do '(res, row) <- csv_row_append_field_with_buffer row buffer;
              if res =? FAIL then FAILURE_RETURN row buffer
              else parse_loop fuel parser row (buffer_reset buffer) ST_START false
            else if (lookahead =? int_of_plain_char CR_CHAR) || (lookahead =? int_of_plain_char LF_CHAR) then
              consume_end_of_line c ;;
              append_and_return row buffer
            else
              fail_with CSV_EINVALID_FORMAT msg_closing_quote row buffer
        else if c =? EOF then
          do io <- ferror;
          if io then
            do msg <- strerror_errno;
            fail_with CSV_EIO msg row buffer
          else if quoted then
            fail_with CSV_EINVALID_FORMAT (lit "unclosed quote") row buffer
          else
            append_and_return row buffer
        else if (c =? int_of_plain_char CR_CHAR) || (c =? int_of_plain_char LF_CHAR) then
          if quoted then
            do '(res, buffer) <- buffer_putc buffer (char_of_int c);
            if res =? FAIL then FAILURE_RETURN row buffer
            else parse_loop fuel parser row buffer ST_INFIELD quoted
          else
            consume_end_of_line c ;;
            append_and_return row buffer
        else if c =? int_of_plain_char (field_delimiter parser) then
          if quoted then
            do '(res, buffer) <- buffer_putc buffer (char_of_int c);
            if res =? FAIL then FAILURE_RETURN row buffer
            else parse_loop fuel parser row buffer ST_INFIELD quoted
          else
            do '(res, row) <- csv_row_append_field_with_buffer row buffer;
            if res =? FAIL then FAILURE_RETURN row buffer
            else parse_loop fuel parser row (buffer_reset buffer) ST_START false
        else
          do '(res, buffer) <- buffer_putc buffer (char_of_int c);
          if res =? FAIL then FAILURE_RETURN row buffer
          else parse_loop fuel parser row buffer ST_INFIELD quoted
    end
  end.

Definition csv_parse_next_row (parser : csv_parser_t) : M (option csv_row_t) :=
  do buffer <- buffer_new;
  match buffer with
  | None => ret None
  | Some buffer =>
      do row <- csv_row_new;
      match row with
      | None => ret None
      | Some row =>
          fun w => parse_loop (S (length (rd (file w)))) parser row buffer ST_START false w
      end
  end.

(** The caller's loop of the reading example:
    [while ((row = csv_parse_next_row(parser, &err)) != NULL) ...],
    collecting the rows.  A call that returns a row has read a byte, so
    [fuel] above the number of unread bytes is never used up. *)
Fixpoint parse_rows (fuel : nat) (parser : csv_parser_t) : M (list csv_row_t) :=
  match fuel with
  | O => ret []
  | S fuel =>
      do row <- csv_parse_next_row parser;
      match row with
      | None => ret []
      | Some row =>
          do rows <- parse_rows fuel parser;
          ret (row :: rows)
      end
  end.

Definition parse_all (parser : csv_parser_t) : M (list csv_row_t) :=
  fun w => parse_rows (S (length (rd (file w)))) parser w.

(** ** The writer *)

Definition QUOTE_ALL : Z := 0.
Definition QUOTE_MINIMAL : Z := 1.

Definition LINEBREAK_LF : Z := 0.
Definition LINEBREAK_CRLF : Z := 1.
Definition LINEBREAK_CR : Z := 2.

(** [writer->file] is the stream of the world the writer runs in. *)
Record csv_writer_t := {
  w_field_delimiter : char;
  quote_style : Z;
  line_break : Z
}.

Definition csv_writer_new (delim : char) (quote_style line_break : Z)
  : M (option csv_writer_t) :=
  if is_valid_field_delimiter delim =? 0 then
    do e <- csv_error_new CSV_EINVALID_FIELD_DELIMITER (lit "invalid field delimiter");
    set_err e ;; ret None
  else if negb (quote_style =? QUOTE_ALL) && negb (quote_style =? QUOTE_MINIMAL) then
    do e <- csv_error_new CSV_EINVALID_QUOTE_STYLE (lit "invalid quote style");
    set_err e ;; ret None
  else if negb (line_break =? LINEBREAK_LF) && negb (line_break =? LINEBREAK_CRLF)
          && negb (line_break =? LINEBREAK_CR) then
    do e <- csv_error_new CSV_EINVALID_LINEBREAK (lit "invalid line break");
    set_err e ;; ret None
  else
    do writer <- xmalloc;
    if writer =? NULL then ret None
    else ret (Some {| w_field_delimiter := delim;
                      quote_style := quote_style;
                      line_break := line_break |}).

Definition csv_writer_default : M (option csv_writer_t) :=
  csv_writer_new COMMA_CHAR QUOTE_MINIMAL LINEBREAK_LF.

Definition csv_write_str (writer : csv_writer_t) (str : list char) : M Z :=
  do r <- fputs str;
  if r <? 0 then
    do msg <- strerror_errno;
    do e <- csv_error_new CSV_EIO msg;
    set_err e ;; ret FAIL
  else ret SUCCEED.

Definition csv_write_char (writer : csv_writer_t) (c : char) : M Z :=
  csv_write_str writer [c; NUL].

Definition csv_write_newline (writer : csv_writer_t) : M Z :=
  let newline :=
    if line_break writer =? LINEBREAK_LF then LF_STR
    else if line_break writer =? LINEBREAK_CRLF then CRLF_STR
    else CR_STR in
  csv_write_str writer newline.

(** The first loop of [csv_write_field]: does a character before the
    terminating NUL call for quoting? *)
Fixpoint scan_need_quote (writer : csv_writer_t) (p : list char) : bool :=
  match p with
  | [] => false
  | c :: p' =>
      if Ascii.eqb c NUL then false
      else if Ascii.eqb c CR_CHAR || Ascii.eqb c LF_CHAR || Ascii.eqb c QUOTE_CHAR
              || Ascii.eqb c (w_field_delimiter writer) then true
      else scan_need_quote writer p'
  end.

(** The second loop of [csv_write_field]: the content, quotes doubled. *)
Fixpoint write_content (writer : csv_writer_t) (p : list char) : M Z :=
  match p with
  | [] => ret SUCCEED
  | c :: p' =>
      if Ascii.eqb c NUL then ret SUCCEED
      else
        do res <- (if Ascii.eqb c QUOTE_CHAR then csv_write_str writer DOUBLE_QUOTES_STR
                   else csv_write_char writer c);
        if res =? FAIL then ret FAIL
        else write_content writer p'
  end.

Definition csv_write_field (writer : csv_writer_t) (field : list char)
    (field_idx field_count : Z) : M Z :=
  let need_quote :=
    if quote_style writer =? QUOTE_ALL then true
    else scan_need_quote writer field in
  do r1 <- (if need_quote then csv_write_char writer QUOTE_CHAR else ret SUCCEED);
  if need_quote && (r1 =? FAIL) then ret FAIL
  else
    do res <- write_content writer field;
    if res =? FAIL then ret FAIL
    else
      do r2 <- (if need_quote then csv_write_char writer QUOTE_CHAR else ret SUCCEED);
      if need_quote && (r2 =? FAIL) then ret FAIL
      else if field_idx <? field_count - 1 then
        csv_write_char writer (w_field_delimiter writer)
      else ret SUCCEED.

(** The loop [for (i = 0; i < field_count; i++)] of [csv_write_row], over the
    fields from index [i] on. *)
Fixpoint write_fields (writer : csv_writer_t) (fields : list (list char))
    (i field_count : Z) : M Z :=
  match fields with
  | [] => ret SUCCEED
  | field :: rest =>
      do res <- csv_write_field writer field i field_count;
      if res =? FAIL then ret FAIL
      else write_fields writer rest (i + 1) field_count
  end.

Definition csv_write_row (writer : csv_writer_t) (row : csv_row_t) : M Z :=
  let field_count := csv_row_field_count row in
  do res <-
    (if field_count =? 0 then ret SUCCEED
     else if (field_count =? 1) && Ascii.eqb (nth 0 (csv_row_field_get row 0) NUL) NUL then
       csv_write_str writer DOUBLE_QUOTES_STR
     else write_fields writer (r_fields row) 0 field_count);
  if res =? FAIL then ret FAIL
  else csv_write_newline writer.

(** Writing the rows of a list in order, stopping at the first failure. *)
Fixpoint write_rows (writer : csv_writer_t) (rows : list csv_row_t) : M Z :=
  match rows with
  | [] => ret SUCCEED
  | row :: rest =>
      do res <- csv_write_row writer row;
      if res =? FAIL then ret FAIL
      else write_rows writer rest
  end.

(** ** Initial states *)

(** A stream holding [bytes] to read, with nothing written yet; [clean]
    streams end in end-of-file and accept every write. *)
Definition stream (bytes : list char) : FILE :=
  {| rd := bytes; rd_fail := false; ferr := false; wr := []; wr_plan := [];
     errmsg := lit "Input/output error" |}.

(** The memory at program start: an empty store, every [malloc] succeeds. *)
Definition mem0 : mem := {| store := ∅; brk := O; plan := [] |}.

Definition world0 (bytes : list char) : world :=
  {| file := stream bytes; heap := mem0; err := NULL |}.

(** The bytes of a string literal, without terminator. *)
Definition bytes (s : string) : list char := list_ascii_of_string s.

(** ** Assumptions on the environment *)

(** Every coming [malloc] succeeds. *)
Definition never_oom (m : mem) : Prop := forallb id (plan m) = true.

(** Every coming write to the stream succeeds. *)
Definition writes_ok (f : FILE) : Prop := forallb id (wr_plan f) = true.

(** What [ferror] reports once [fgetc] has returned [EOF]. *)
Definition io_error (f : FILE) : bool := ferr f || rd_fail f.

(** ** The automaton without its plumbing

    [scan] is the loop of [csv_parse_next_row] on the unread bytes [l] when
    no allocation fails: same tests in the same order, the row and the
    buffer reduced to their contents.  [parse_loop_spec] below relates the
    two; the properties of the parser are proved through it. *)

Inductive outcome :=
| Row (fields : list (list char)) (rest : list char)  (* a row; the bytes left unread *)
| End                                                 (* [NULL], [*err] untouched *)
| Err (code : Z).                                     (* [NULL], [*err] set *)

Definition is_eol (c : char) : bool := Ascii.eqb c CR_CHAR || Ascii.eqb c LF_CHAR.

(** The unread bytes after [consume_end_of_line(c, file)]. *)
Definition after_eol (c : char) (l : list char) : list char :=
  if Ascii.eqb c CR_CHAR then
    match l with
    | x :: l' => if Ascii.eqb x LF_CHAR then l' else l
    | [] => []
    end
  else l.

Definition close_field (fs : list (list char)) (buf : list char) : list (list char) :=
  fs ++ [buf ++ [NUL]].

(** [c == d] for a byte [c] that [fgetc] has read and the delimiter [d], and
    [EOF == d]: the delimiter is promoted as a plain [char]. *)
Definition is_delimiter (d c : char) : bool := int_of_char c =? int_of_plain_char d.

Definition eof_is_delimiter (d : char) : bool := EOF =? int_of_plain_char d.

Fixpoint scan (d : char) (io : bool) (l : list char) (state : PARSE_STATE) (quoted : bool)
    (fs : list (list char)) (buf : list char) : outcome :=
  match l with
  | [] =>
      match state with
      | ST_START =>
          if io then Err CSV_EIO
          else if Z.of_nat (length fs) >? 0 then Row (close_field fs buf) []
          else End
      | ST_INFIELD =>
          if io then Err CSV_EIO
          else if quoted then Err CSV_EINVALID_FORMAT
          else Row (close_field fs buf) []
      end
  | c :: l' =>
      match state with
      | ST_START =>
          if Ascii.eqb c QUOTE_CHAR then scan d io l' ST_INFIELD true fs buf
          else if is_eol c then
            Row (if Z.of_nat (length fs) >? 0 then close_field fs buf else fs) (after_eol c l')
          else if is_delimiter d c then scan d io l' ST_START false (close_field fs buf) []
          else scan d io l' ST_INFIELD quoted fs (buf ++ [c])
      | ST_INFIELD =>
          if Ascii.eqb c QUOTE_CHAR then
            if negb quoted then Err CSV_EINVALID_FORMAT
            else
              match l' with
              | [] =>
                  if eof_is_delimiter d then
                    scan d io l' ST_START false (close_field fs buf) []
                  else Err CSV_EINVALID_FORMAT
              | x :: l'' =>
                  if Ascii.eqb x QUOTE_CHAR then
                    scan d io l'' ST_INFIELD quoted fs (buf ++ [QUOTE_CHAR])
                  else if is_delimiter d x then
                    scan d io l'' ST_START false (close_field fs buf) []
                  else if is_eol x then Row (close_field fs buf) (after_eol c l'')
                  else Err CSV_EINVALID_FORMAT
              end
          else if is_eol c then
            if quoted then scan d io l' ST_INFIELD quoted fs (buf ++ [c])
            else Row (close_field fs buf) (after_eol c l')
          else if is_delimiter d c then
            if quoted then scan d io l' ST_INFIELD quoted fs (buf ++ [c])
            else scan d io l' ST_START false (close_field fs buf) []
          else scan d io l' ST_INFIELD quoted fs (buf ++ [c])
      end
  end.

(** How a call's result [(r, w')] from the world [w] realises an outcome. *)
Definition realises (o : outcome) (w : world) (r : option csv_row_t) (w' : world) : Prop :=
  match o with
  | Row fs rest =>
      (exists row, r = Some row /\ r_fields row = fs) /\
      rd (file w') = rest /\ err w' = err w
  | End => r = None /\ rd (file w') = [] /\ err w' = err w
  | Err code =>
      r = None /\ err w' <> NULL /\ error_code_at (heap w') (err w') = Some code
  end.

(** What a call leaves as it was. *)
Definition frame (w w' : world) : Prop :=
  rd_fail (file w') = rd_fail (file w) /\
  io_error (file w') = io_error (file w) /\
  wr (file w') = wr (file w) /\
  wr_plan (file w') = wr_plan (file w) /\
  errmsg (file w') = errmsg (file w).

(** ** A weakest-precondition reading of the monad *)

Definition wp {A} (c : M A) (Q : A -> world -> Prop) (w : world) : Prop :=
  Q (fst (c w)) (snd (c w)).

(** What one run of the loop of [csv_parse_next_row] guarantees, from the
    world [w] with the row, buffer, state and flag given: whatever the
    allocator does (first three parts), and when no allocation fails. *)
Definition loop_post (d : char) (w : world) (row : csv_row_t) (buffer : buffer_t)
    (state : PARSE_STATE) (quoted : bool) (r : option csv_row_t) (w' : world) : Prop :=
  frame w w' /\
  (forall row', r = Some row' ->
     err w' = err w /\
     (r_fields row' = [] ->
        r_fields row = [] /\ state = ST_START /\
        exists c rest, rd (file w) = c :: rest /\ is_eol c = true)) /\
  (r = None ->
     (err w' <> NULL /\ exists code, error_code_at (heap w') (err w') = Some code) \/
     (err w' = err w /\ state = ST_START /\ r_fields row = [] /\
      rd (file w) = [] /\ io_error (file w) = false)) /\
  (never_oom (heap w) ->
     realises (scan d (io_error (file w)) (rd (file w)) state quoted
                 (r_fields row) (b_p buffer)) w r w' /\
     never_oom (heap w')).

(** What a call of [csv_parse_next_row] guarantees from the world [w]. *)
Definition call_post (d : char) (w : world) (r : option csv_row_t) (w' : world) : Prop :=
  frame w w' /\
  (forall row', r = Some row' ->
     err w' = err w /\
     (r_fields row' = [] -> exists c rest, rd (file w) = c :: rest /\ is_eol c = true)) /\
  (r = None ->
     (err w' <> NULL /\ exists code, error_code_at (heap w') (err w') = Some code) \/
     (err w' = err w /\ rd (file w) = [] /\ io_error (file w) = false)) /\
  (never_oom (heap w) ->
     realises (scan d (io_error (file w)) (rd (file w)) ST_START false [] []) w r w' /\
     never_oom (heap w')).

(** ** Vocabulary of the statements *)

(** The call [res] failed with an error of kind [code]: it returned [NULL]
    and left in [*err] the address of an error object of that kind. *)
Definition fails_with (code : Z) (res : option csv_row_t * world) : Prop :=
  fst res = None /\ err (snd res) <> NULL /\
  error_code_at (heap (snd res)) (err (snd res)) = Some code.

(** The three line terminators. *)
Definition terminator (t : list char) : Prop :=
  t = [LF_CHAR] \/ t = [CR_CHAR] \/ t = [CR_CHAR; LF_CHAR].

(** The block [csv_row_append_field] stores for the bytes [s]. *)
Definition block (s : list char) : list char := s ++ [NUL].

(** ** The grammar of the spec

    [unquoted := (any byte except delimiter, CR, LF, quote)*],
    [quoted := quote (any byte except quote | quote quote)* quote]. *)

(** A byte that may appear in an unquoted field. *)
Definition is_plain (d : char) (c : char) : bool :=
  negb (Ascii.eqb c QUOTE_CHAR) && negb (is_eol c) && negb (Ascii.eqb c d).

(** The body of a quoted field holding [s]: every quote doubled. *)
Fixpoint escape (s : list char) : list char :=
  match s with
  | [] => []
  | c :: s' =>
      if Ascii.eqb c QUOTE_CHAR then QUOTE_CHAR :: QUOTE_CHAR :: escape s'
      else c :: escape s'
  end.

(** [field_text d e s]: [e] is a source form of the field with content [s]. *)
Inductive field_text (d : char) : list char -> list char -> Prop :=
| unquoted_text s : forallb (is_plain d) s = true -> field_text d s s
| quoted_text s : field_text d (QUOTE_CHAR :: escape s ++ [QUOTE_CHAR]) s.

(** [closed_fields d p fs]: [p] is a sequence of fields, each followed by
    the delimiter, with contents [fs]. *)
Inductive closed_fields (d : char) : list char -> list (list char) -> Prop :=
| closed_nil : closed_fields d [] []
| closed_cons e s p fs :
    field_text d e s -> closed_fields d p fs ->
    closed_fields d (e ++ d :: p) (s :: fs).

(** What may not follow the closing quote of a quoted field: the end of
    the input, or a byte that is neither the delimiter nor a line
    terminator (a quote there would make the pair an escaped quote). *)
Definition bad_follow (d : char) (rest : list char) : Prop :=
  match rest with
  | [] => True
  | x :: _ =>
      Ascii.eqb x QUOTE_CHAR = false /\ Ascii.eqb x d = false /\ is_eol x = false
  end.

(** The three structural violations, in the row that starts the input [l]:
    after some complete fields [p], ... *)

(** ... a quote inside an unquoted field; *)
Definition quote_in_unquoted (d : char) (l : list char) : Prop :=
  exists p fs u rest,
    closed_fields d p fs /\ u <> [] /\ forallb (is_plain d) u = true /\
    l = p ++ u ++ QUOTE_CHAR :: rest.

(** ... a closing quote followed by something else than the delimiter or a
    line terminator; *)
Definition bad_closing_quote (d : char) (l : list char) : Prop :=
  exists p fs s rest,
    closed_fields d p fs /\ bad_follow d rest /\
    l = p ++ QUOTE_CHAR :: escape s ++ QUOTE_CHAR :: rest.

(** ... the input ending inside a quoted field. *)
Definition unclosed_quote (d : char) (l : list char) : Prop :=
  exists p fs s, closed_fields d p fs /\ l = p ++ QUOTE_CHAR :: escape s.

(** A violation in the input [l] of a stream whose end is a read error iff
    [io]: the third one needs the input to end, not the reading to fail. *)
Definition violation (d : char) (io : bool) (l : list char) : Prop :=
  quote_in_unquoted d l \/ bad_closing_quote d l \/
  (unclosed_quote d l /\ io = false).

(** ** What the writer emits

    The bytes [csv_write_field] and [csv_write_row] add to the stream when
    no write fails (lemmas [csv_write_field_ok], [csv_write_row_ok]). *)

Definition needs_quoting (d : char) (c : char) : bool :=
  Ascii.eqb c CR_CHAR || Ascii.eqb c LF_CHAR || Ascii.eqb c QUOTE_CHAR || Ascii.eqb c d.

Definition need_quote_of (writer : csv_writer_t) (field : list char) : bool :=
  if quote_style writer =? QUOTE_ALL then true
  else existsb (needs_quoting (w_field_delimiter writer)) (c_str field).

Definition newline_bytes (writer : csv_writer_t) : list char :=
  if line_break writer =? LINEBREAK_LF then [LF_CHAR]
  else if line_break writer =? LINEBREAK_CRLF then [CR_CHAR; LF_CHAR]
  else [CR_CHAR].

Definition field_image (writer : csv_writer_t) (field : list char)
    (field_idx field_count : Z) : list char :=
  (if need_quote_of writer field then [QUOTE_CHAR] else []) ++
  escape (c_str field) ++
  (if need_quote_of writer field then [QUOTE_CHAR] else []) ++
  (if field_idx <? field_count - 1 then c_str [w_field_delimiter writer; NUL] else []).

Fixpoint fields_image (writer : csv_writer_t) (fields : list (list char))
    (i field_count : Z) : list char :=
  match fields with
  | [] => []
  | field :: rest =>
      field_image writer field i field_count ++
      fields_image writer rest (i + 1) field_count
  end.

Definition row_image (writer : csv_writer_t) (row : csv_row_t) : list char :=
  (match r_fields row with
   | [] => []
   | [field] =>
       if Ascii.eqb (nth 0 field NUL) NUL then [QUOTE_CHAR; QUOTE_CHAR]
       else fields_image writer [field] 0 1
   | fields => fields_image writer fields 0 (Z.of_nat (length fields))
   end) ++ newline_bytes writer.

(** A call on the writer succeeded and added [out] to the stream. *)
Definition wrote (out : list char) (w : world) (res : Z) (w' : world) : Prop :=
  res = SUCCEED /\ wr (file w') = wr (file w) ++ out /\ writes_ok (file w') /\
  rd (file w') = rd (file w) /\ heap w' = heap w /\ err w' = err w.


(** The writer configurations [csv_writer_new] accepts. *)
Definition valid_writer (writer : csv_writer_t) : Prop :=
  is_valid_field_delimiter (w_field_delimiter writer) = 1 /\
  (quote_style writer = QUOTE_ALL \/ quote_style writer = QUOTE_MINIMAL) /\
  (line_break writer = LINEBREAK_LF \/ line_break writer = LINEBREAK_CRLF \/
   line_break writer = LINEBREAK_CR).

(** A field block cut at its first NUL. *)
Definition truncate_field (field : list char) : list char := block (c_str field).

Definition truncate_row (row : csv_row_t) : csv_row_t :=
  {| r_capacity := r_capacity row; r_fields := map truncate_field (r_fields row) |}.

(** The addresses [malloc] has not handed out hold nothing. *)
Definition fresh (m : mem) : Prop :=
  forall n, (brk m <= n)%nat -> store m !! (heap_base + Z.of_nat n) = None.

(** One of the next two [malloc] calls fails (the second is made only if the
    first succeeds). *)
Definition fails_within_two (pl : list bool) : bool :=
  match pl with
  | false :: _ => true
  | _ :: false :: _ => true
  | _ => false
  end.

(** ** Vocabulary of the round trip *)

(** The bytes [write_rows] adds to the stream when no write fails. *)
Fixpoint rows_image (writer : csv_writer_t) (rows : list csv_row_t) : list char :=
  match rows with
  | [] => []
  | row :: rest => row_image writer row ++ rows_image writer rest
  end.

Definition no_nul (s : list char) : bool := forallb (fun c => negb (Ascii.eqb c NUL)) s.

(** A legal row: its fields are the blocks of byte strings without NUL. *)
Definition legal_row (row : csv_row_t) : Prop :=
  exists fs, r_fields row = map block fs /\ forallb no_nul fs = true.

(** The caller's loop on the unread bytes [l] when no allocation fails: the
    fields of the rows returned, and the kind of the error that ended the
    loop, if any. *)
Fixpoint scan_rows (fuel : nat) (d : char) (io : bool) (l : list char)
  : list (list (list char)) * option Z :=
  match fuel with
  | O => ([], None)
  | S fuel =>
      match scan d io l ST_START false [] [] with
      | Row fs rest =>
          let (rows, e) := scan_rows fuel d io rest in (fs :: rows, e)
      | End => ([], None)
      | Err code => ([], Some code)
      end
  end.

(** The input does not go on with LF (which a preceding CR would absorb). *)
Definition no_lf_ahead (rest : list char) : Prop :=
  match rest with
  | c :: _ => Ascii.eqb c LF_CHAR = false
  | [] => True
  end.

(** ** Vocabulary of terminator insensitivity *)

(** [line d e fs q]: [e] is the text of a row whose fields have the contents
    [fs]; [q] tells whether the row ends with the closing quote of a quoted
    field.  The empty text is the row of zero fields. *)
Inductive line (d : char) : list char -> list (list char) -> bool -> Prop :=
| line_empty : line d [] [] false
| line_unquoted p fs s :
    closed_fields d p fs -> forallb (is_plain d) s = true ->
    s <> [] \/ fs <> [] ->
    line d (p ++ s) (fs ++ [s]) false
| line_quoted p fs s :
    closed_fields d p fs ->
    line d (p ++ QUOTE_CHAR :: escape s ++ [QUOTE_CHAR]) (fs ++ [s]) true.

(** The input made of the lines [es], each followed by its terminator in
    [ts]. *)
Fixpoint assemble (es ts : list (list char)) : list char :=
  match es, ts with
  | e :: es', t :: ts' => e ++ t ++ assemble es' ts'
  | _, _ => []
  end.

(** [admissible d es fss ts]: the lines [es] have the contents [fss] and
    [ts] is a choice of terminators for them: each is LF, CR or CR LF; no
    lone CR comes directly before an LF (the two would read as one CR LF);
    and a line that ends with a closing quote is ended by LF or CR. *)
Inductive admissible (d : char)
  : list (list char) -> list (list (list char)) -> list (list char) -> Prop :=
| admissible_nil : admissible d [] [] []
| admissible_cons e fs q t es fss ts :
    line d e fs q -> terminator t ->
    (t = [CR_CHAR] -> no_lf_ahead (assemble es ts)) ->
    (q = true -> t <> [CR_CHAR; LF_CHAR]) ->
    admissible d es fss ts ->
    admissible d (e :: es) (fs :: fss) (t :: ts).

(** ** Vocabulary of errors in memory *)

(** [err->message], as the string it points to. *)
Definition error_message_at (m : mem) (p : Z) : option (list char) :=
  match message_at m p with
  | Some q =>
      match load m q with
      | Some (OString s) => Some s
      | _ => None
      end
  | None => None
  end.

(** [*err] holds an error of kind [code] whose message is a copy of the C
    string [msg]. *)
Definition raised (code : Z) (msg : list char) (w : world) : Prop :=
  err w <> NULL /\
  error_code_at (heap w) (err w) = Some code /\
  error_message_at (heap w) (err w) = Some (c_str msg ++ [NUL]).

(** ** Vocabulary of the containers *)

(** A row or buffer has room for at least one element and holds no more
    elements than it has room for. *)
Definition row_ok (row : csv_row_t) : Prop :=
  0 < r_capacity row /\ r_len row <= r_capacity row.

Definition buffer_ok (buffer : buffer_t) : Prop :=
  0 < b_capacity buffer /\ b_len buffer <= b_capacity buffer.

(** The next [malloc] fails. *)
Definition next_fails (m : mem) : Prop := exists pl, plan m = false :: pl.

(** What a call leaves of the world when it touches neither the stream nor
    the store: only [malloc]'s counter and plan moved on. *)
Definition quiet (w w' : world) : Prop :=
  file w' = file w /\ store (heap w') = store (heap w) /\
  (brk (heap w) <= brk (heap w'))%nat.

(** ** Vocabulary of what a call of the parser changes *)

(** From [w] to [w'] the stream was read forward: the unread bytes of [w']
    are what is left of those of [w]. *)
Definition read_on (w w' : world) : Prop :=
  exists pre, rd (file w) = pre ++ rd (file w').

(** From [w] to [w1] bytes were read and blocks allocated, and nothing else
    happened. *)
Definition advance (w w1 : world) : Prop :=
  frame w w1 /\ read_on w w1 /\
  store (heap w1) = store (heap w) /\ (brk (heap w) <= brk (heap w1))%nat /\
  err w1 = err w.

(** The kinds and messages of the errors [csv_parse_next_row] creates: a
    read error with the text of [strerror(errno)], and the three format
    errors. *)
Definition parser_error (code : Z) (msg : list char) (f : FILE) : Prop :=
  (code = CSV_EIO /\ msg = errmsg f) \/
  (code = CSV_EINVALID_FORMAT /\
   (msg = msg_should_be_quoted \/ msg = msg_closing_quote \/ msg = lit "unclosed quote")).

(** The store of [w'] is that of [w] with one more error object, of kind
    [code] and with a copy of [msg] as its message, in two blocks that were
    not allocated in [w]; [*err] points to it. *)
Definition new_error (code : Z) (msg : list char) (w w' : world) : Prop :=
  exists n,
    (brk (heap w) <= n)%nat /\
    err w' = heap_base + Z.of_nat n /\
    store (heap w') =
      <[heap_base + Z.of_nat (S n) := OString (c_str msg ++ [NUL])]>
        (<[heap_base + Z.of_nat n := OError code (heap_base + Z.of_nat (S n))]>
           (store (heap w))).

(** What a call that returned [NULL] has done to [*err] and the store:
    nothing; or [*err] points to the static out-of-memory error and the
    store is as it was; or there is a new error of the parser. *)
Definition null_outcome (w w' : world) : Prop :=
  (err w' = err w /\ store (heap w') = store (heap w)) \/
  (err w' = csv_error_oom /\ store (heap w') = store (heap w)) \/
  (exists code msg, parser_error code msg (file w) /\ new_error code msg w w').

(** What a run of the parser's loop, or a call, guarantees whatever the
    allocator does. *)
Definition call_inv (w : world) (r : option csv_row_t) (w' : world) : Prop :=
  frame w w' /\ read_on w w' /\ (brk (heap w) <= brk (heap w'))%nat /\
  fresh (heap w') /\
  match r with
  | Some _ => err w' = err w /\ store (heap w') = store (heap w)
  | None => null_outcome w w'
  end.

(** What a run of the loop from the world [w], the row [row] and the state
    [st] guarantees: [call_inv]; a byte is taken if there is one; and at the
    end of the input a row is returned only for a field under way or a row
    that has fields. *)
Definition loop_run (w : world) (row : csv_row_t) (st : PARSE_STATE)
    (r : option csv_row_t) (w' : world) : Prop :=
  call_inv w r w' /\
  (rd (file w) <> [] -> (length (rd (file w')) < length (rd (file w)))%nat) /\
  (r <> None -> rd (file w) = [] -> st = ST_INFIELD \/ r_fields row <> []).



(** ** Vocabulary of the writer's outcomes *)

(** What a call on the writer that was to add [out] to the stream has done,
    whatever the stream and the allocator do: it succeeded and added [out];
    or it failed after adding a first part of [out], the stream's error
    indicator is set, and [*err] points to an error of kind [CSV_EIO] with
    the text of [strerror(errno)], or to the static out-of-memory error if
    that one could not be allocated.  The input side of the stream is not
    touched. *)
Definition write_outcome (out : list char) (w : world) (res : Z) (w' : world) : Prop :=
  rd (file w') = rd (file w) /\ errmsg (file w') = errmsg (file w) /\
  ((res = SUCCEED /\ wr (file w') = wr (file w) ++ out /\
    err w' = err w /\ heap w' = heap w) \/
   (res = FAIL /\
    (exists p s, out = p ++ s /\ wr (file w') = wr (file w) ++ p) /\
    ferr (file w') = true /\
    (err w' = csv_error_oom \/ raised CSV_EIO (errmsg (file w)) w'))).

(** The fields [fields] joined by the delimiter [d]. *)
Fixpoint join (d : char) (fields : list (list char)) : list char :=
  match fields with
  | [] => []
  | [f] => f
  | f :: rest => f ++ d :: join d rest
  end.

(** The form in which the writer puts the content [s] of a field of a row of
    [n] fields: between quotes, every quote doubled, if all fields are to be
    quoted, if [s] holds a CR, an LF, a quote or the delimiter, or if [s] is
    empty and the only field of its row; as it is otherwise. *)
Definition field_form (writer : csv_writer_t) (n : nat) (s : list char) : list char :=
  if (quote_style writer =? QUOTE_ALL)
     || existsb (needs_quoting (w_field_delimiter writer)) s
     || (Nat.eqb n 1 && Nat.eqb (length s) 0)
  then QUOTE_CHAR :: escape s ++ [QUOTE_CHAR]
  else s.

(** ** The example that dumps a table

    [dump_table_to_csv] of [example_dump_mysql_db.c].  What the C library
    and the database client do is given ([dump_env]): whether [fopen] opens
    the file, what [mysql_query] returns, and what [mysql_use_result]
    returns, [NULL] or a result: the descriptors of its columns, which
    [mysql_fetch_field] yields one by one, and its rows, which
    [mysql_fetch_row] yields one by one, each an array of
    [mysql_num_fields] values, the value of an SQL NULL being a null
    pointer.  Three steps can have undefined behaviour, and the call has no
    result then ([None]): [sprintf] into [filename[256]], when the name of
    the table has more than 251 bytes (and into [sql[1024]]), [row[i]],
    when the array has no value at [i], and [strlen(row[i])], when
    [row[i]] is a null pointer.  The stream, once opened, is the stream of the world.
    The messages printed to [stderr], [fclose] and [mysql_free_result] are
    left out; the writer is a value, so that [csv_writer_free] has nothing
    to do. *)

Record MYSQL_FIELD := { name : list char; name_length : nat }.

(** A row: the array of its values, [None] for a null pointer. *)
Definition MYSQL_ROW : Type := list (option (list char)).

Record MYSQL_RES := {
  res_fields : list MYSQL_FIELD;
  res_rows : list MYSQL_ROW
}.

Record dump_env := {
  fopen : bool;                          (* [fopen(filename, "w") != NULL] *)
  mysql_query : Z;                       (* what [mysql_query(conn, sql)] returns *)
  mysql_use_result : option MYSQL_RES    (* what [mysql_use_result(conn)] returns *)
}.

Definition strlen (s : list char) : nat := length (c_str s).

(** A call whose behaviour is defined. *)
Definition some {A} (c : M A) : M (option A) := do a <- c; ret (Some a).

(** [while ((field = mysql_fetch_field(result)) != NULL)] *)
Fixpoint append_names (csv_row : csv_row_t) (fields : list MYSQL_FIELD)
  : M (Z * csv_row_t) :=
  match fields with
  | [] => ret (SUCCEED, csv_row)
  | field :: rest =>
      do '(res, csv_row) <- csv_row_append_field csv_row (name field) (name_length field);
      if res =? -1 then ret (FAIL, csv_row)
      else append_names csv_row rest
  end.

(** [for (i = 0; i < n_fields; i++)]: [n_fields - i] values are left to
    append, and [row] is the array from [row[i]] on. *)
Fixpoint append_values (csv_row : csv_row_t) (n_fields : nat) (row : MYSQL_ROW)
  : M (option (Z * csv_row_t)) :=
  match n_fields with
  | O => ret (Some (SUCCEED, csv_row))
  | S n_fields =>
      match row with
      | [] => ret None                       (* [row[i]] beyond the array *)
      | None :: _ => ret None                (* [strlen] of a null pointer *)
      | Some value :: rest =>
          do '(res, csv_row) <- csv_row_append_field csv_row value (strlen value);
          if res =? -1 then ret (Some (FAIL, csv_row))
          else append_values csv_row n_fields rest
      end
  end.

(** [while ((row = mysql_fetch_row(result)) != NULL)] *)
Fixpoint dump_rows (csv_writer : csv_writer_t) (csv_row : csv_row_t) (n_fields : nat)
    (rows : list MYSQL_ROW) : M (option (Z * csv_row_t)) :=
  match rows with
  | [] => ret (Some (SUCCEED, csv_row))
  | row :: rest =>
      do appended <- append_values csv_row n_fields row;
      match appended with
      | None => ret None
      | Some (res, csv_row) =>
          if res =? -1 then ret (Some (FAIL, csv_row))
          else
            do res <- csv_write_row csv_writer csv_row;
            if res =? -1 then ret (Some (FAIL, csv_row))
            else dump_rows csv_writer (csv_row_reset csv_row) n_fields rest
      end
  end.

(** The label [FAILURE_RETURN] of [dump_table_to_csv]. *)
Definition dump_FAILURE_RETURN (csv_row : option csv_row_t) : M Z :=
  (match csv_row with
   | Some csv_row => csv_row_free csv_row
   | None => ret tt
   end) ;;
  (fun w => if err w =? NULL then (tt, w) else csv_error_free (err w) w) ;;
  ret (-1).

(** The part of [dump_table_to_csv] that uses the codec: from
    [csv_writer_default] to the end, on the result [result]. *)
Definition dump_result (result : MYSQL_RES) : M (option Z) :=
  do csv_writer <- csv_writer_default;
  match csv_writer with
  | None => some (dump_FAILURE_RETURN None)
  | Some csv_writer =>
      do csv_row <- csv_row_new;
      match csv_row with
      | None => some (dump_FAILURE_RETURN None)
      | Some csv_row =>
          do '(res, csv_row) <- append_names csv_row (res_fields result);
          if res =? -1 then some (dump_FAILURE_RETURN (Some csv_row))
          else
            do res <- csv_write_row csv_writer csv_row;
            if res =? -1 then some (dump_FAILURE_RETURN (Some csv_row))
            else
              let n_fields := length (res_fields result) in
              do dumped <-
                dump_rows csv_writer (csv_row_reset csv_row) n_fields (res_rows result);
              match dumped with
              | None => ret None
              | Some (res, csv_row) =>
                  if res =? -1 then some (dump_FAILURE_RETURN (Some csv_row))
                  else csv_row_free csv_row ;; ret (Some 0)
              end
      end
  end.

Definition dump_table_to_csv (env : dump_env) (table : list char) : M (option Z) :=
  set_err NULL ;;
  (* sprintf(filename, "%s.csv", table) into char filename[256] *)
  if 256 <? Z.of_nat (strlen table) + 5 then ret None
  else if negb (fopen env) then some (dump_FAILURE_RETURN None)
  (* sprintf(sql, "SELECT * FROM `%s`", table) into char sql[1024] *)
  else if 1024 <? Z.of_nat (strlen table) + 17 then ret None
  else if negb (mysql_query env =? 0) then some (dump_FAILURE_RETURN None)
  else
    match mysql_use_result env with
    | None => some (dump_FAILURE_RETURN None)
    | Some result => dump_result result
    end.

(** The string a value holds; nothing for a null pointer. *)
Definition string_of (v : option (list char)) : list char :=
  match v with
  | Some s => c_str s
  | None => []
  end.

(** The values of a row without SQL NULL. *)
Definition strings (values : list (list char)) : MYSQL_ROW := map Some values.

(** The result has no SQL NULL. *)
Definition no_null (result : MYSQL_RES) : Prop :=
  Forall (Forall (fun v => v <> None)) (res_rows result).

(** Every row of the result has one value per column. *)
Definition rectangular (result : MYSQL_RES) : Prop :=
  Forall (fun r => length r = length (res_fields result)) (res_rows result).


(** A result of a call whose behaviour is defined. *)
Definition defined {A} (Q : A -> world -> Prop) (o : option A) (w : world) : Prop :=
  match o with
  | Some a => Q a w
  | None => False
  end.

(** The row that holds the byte strings [fs]. *)
Definition row_of (fs : list (list char)) : csv_row_t :=
  {| r_capacity := 32; r_fields := map block fs |}.

(** A call has added [out] to the stream and changed nothing else that the
    codec can see: the input side, [*err] and the store are as they were,
    and no write or allocation has failed or will. *)
Definition dumped (out : list char) (w w' : world) : Prop :=
  wr (file w') = wr (file w) ++ out /\ writes_ok (file w') /\
  rd (file w') = rd (file w) /\ err w' = err w /\ never_oom (heap w').

(** * The containers in memory

    The embedding above keeps rows and buffers as values and lets
    [csv_row_free], [csv_row_reset] and [buffer_free] do nothing.  [Mem]
    gives the same functions on the blocks [malloc] hands out: a row is the
    address of a [csv_row_t], which points to its array of field pointers,
    which point to the fields; a buffer is the address of a [buffer_t],
    which points to its bytes.  An access outside a live block (a read or
    write through a pointer that was freed or never allocated, an index
    outside an array, a second [free]) is undefined behaviour: the run has
    no result.  [malloc] never hands out an address twice, so a pointer to a
    freed block stays dead.  Errors stay in the store of the embedding
    above, reached through [lift]. *)
Module Mem.

Inductive block :=
| BRow (len capacity : Z) (fields : Z)   (* a [csv_row_t] *)
| BSlots (slots : list Z)                (* a [char *] array *)
| BChars (chars : list char)             (* a [char] array *)
| BBuffer (len capacity : Z) (p : Z).    (* a [buffer_t] *)

Record state := {
  base : world;              (* the stream, the allocator, [*err], the errors *)
  cells : gmap Z block       (* the live blocks of rows and buffers *)
}.

Definition MM (A : Type) : Type := state -> option (A * state).

Definition mret {A} (a : A) : MM A := fun s => Some (a, s).

Definition mbind {A B} (c : MM A) (k : A -> MM B) : MM B :=
  fun s =>
    match c s with
    | Some (a, s') => k a s'
    | None => None
    end.

Declare Scope mem_scope.
Notation "'do' x <- c ; k" := (mbind c (fun x => k))
  (at level 10, x name, c at level 100, k at level 200) : mem_scope.
Notation "'do' ' p <- c ; k" := (mbind c (fun x => match x with p => k end))
  (at level 10, p pattern, c at level 100, k at level 200) : mem_scope.
Notation "c ;; k" := (mbind c (fun _ => k))
  (at level 100, k at level 200, right associativity) : mem_scope.
Local Open Scope mem_scope.

Definition undefined {A} : MM A := fun _ => None.

(** A call that does not touch the blocks of rows and buffers. *)
Definition lift {A} (c : M A) : MM A :=
  fun s => let (a, w') := c (base s) in Some (a, {| base := w'; cells := cells s |}).

(** The value of a pointer that was never written: neither [NULL] nor the
    address of a block. *)
Definition junk : Z := -1.

(** [xmalloc], the new block then holding [b] (what it holds before the
    first write: [junk] pointers, NUL bytes). *)
Definition alloc (b : block) : MM Z :=
  do p <- lift xmalloc;
  if p =? NULL then mret NULL
  else fun s => Some (p, {| base := base s; cells := <[p := b]> (cells s) |}).

(** [free(p)]: nothing for [NULL]; undefined if [p] is not a live block. *)
Definition free (p : Z) : MM unit :=
  fun s =>
    if p =? NULL then Some (tt, s)
    else
      match cells s !! p with
      | Some _ => Some (tt, {| base := base s; cells := delete p (cells s) |})
      | None => None
      end.

(** A read and a write through a pointer. *)
Definition load (p : Z) : MM block :=
  fun s =>
    match cells s !! p with
    | Some b => Some (b, s)
    | None => None
    end.

Definition store (p : Z) (b : block) : MM unit :=
  fun s =>
    match cells s !! p with
    | Some _ => Some (tt, {| base := base s; cells := <[p := b]> (cells s) |})
    | None => None
    end.

(** [a[i]] and [a[i] = q] for an array of pointers, [a[i]] and [a[i] = c]
    for an array of bytes. *)
Definition slot_get (a : Z) (i : Z) : MM Z :=
  do b <- load a;
  match b with
  | BSlots slots =>
      if i <? 0 then undefined
      else
        match slots !! Z.to_nat i with
        | Some q => mret q
        | None => undefined
        end
  | _ => undefined
  end.

Definition slot_set (a : Z) (i : Z) (q : Z) : MM unit :=
  do b <- load a;
  match b with
  | BSlots slots =>
      if (0 <=? i) && (i <? Z.of_nat (length slots))
      then store a (BSlots (<[Z.to_nat i := q]> slots))
      else undefined
  | _ => undefined
  end.

Definition char_get (a : Z) (i : Z) : MM char :=
  do b <- load a;
  match b with
  | BChars chars =>
      if i <? 0 then undefined
      else
        match chars !! Z.to_nat i with
        | Some c => mret c
        | None => undefined
        end
  | _ => undefined
  end.

Definition char_set (a : Z) (i : Z) (c : char) : MM unit :=
  do b <- load a;
  match b with
  | BChars chars =>
      if (0 <=? i) && (i <? Z.of_nat (length chars))
      then store a (BChars (<[Z.to_nat i := c]> chars))
      else undefined
  | _ => undefined
  end.

(** [for (i = from; i < to; i++) body(i);] where the body changes neither
    [i] nor [to]. *)
Fixpoint for_loop (count : nat) (i : Z) (body : Z -> MM unit) : MM unit :=
  match count with
  | O => mret tt
  | S count' => body i ;; for_loop count' (i + 1) body
  end.

Definition for_ (from to : Z) (body : Z -> MM unit) : MM unit :=
  for_loop (Z.to_nat (to - from)) from body.

(** The members [len], [capacity] and [fields] of the row at [row]. *)
Definition row_get (row : Z) : MM (Z * Z * Z) :=
  do r <- load row;
  match r with
  | BRow len capacity fields => mret (len, capacity, fields)
  | _ => undefined
  end.

(** ** The row container *)

Definition csv_row_new : MM Z :=
  do row <- alloc (BRow 0 0 junk);
  if row =? NULL then mret NULL
  else
    store row (BRow 0 32 junk) ;;
    do fields <- alloc (BSlots (repeat junk 32));
    if fields =? NULL then free row ;; mret NULL
    else
      store row (BRow 0 32 fields) ;;
      for_ 0 32 (fun i => slot_set fields i NULL) ;;
      mret row.

Definition csv_row_free (row : Z) : MM unit :=
  do '(len, capacity, fields) <- row_get row;
  for_ 0 capacity (fun i => do q <- slot_get fields i; free q) ;;
  free fields ;;
  free row.

Definition csv_row_reset (row : Z) : MM unit :=
  do '(len, capacity, fields) <- row_get row;
  for_ 0 len (fun i => do q <- slot_get fields i; free q ;; slot_set fields i NULL) ;;
  store row (BRow 0 capacity fields).

Definition csv_row_expand_fields (row : Z) : MM Z :=
  do '(len, capacity, fields) <- row_get row;
  let new_cap := capacity * 2 in
  do new_fields <- alloc (BSlots (repeat junk (Z.to_nat new_cap)));
  if new_fields =? NULL then mret FAIL
  else
    for_ 0 len (fun i => do q <- slot_get fields i; slot_set new_fields i q) ;;
    for_ len new_cap (fun i => slot_set new_fields i NULL) ;;
    free fields ;;
    store row (BRow len new_cap new_fields) ;;
    mret SUCCEED.

Definition csv_row_field_count (row : Z) : MM Z :=
  do '(len, capacity, fields) <- row_get row;
  mret len.

Definition csv_row_field_get (row : Z) (idx : Z) : MM Z :=
  do '(len, capacity, fields) <- row_get row;
  slot_get fields idx.

(** [field] lists the bytes from the address [field] on, to the end of its
    block. *)
Definition csv_row_append_field (row : Z) (field : list char) (len : nat) : MM Z :=
  do '(rlen, capacity, fields) <- row_get row;
  do res <- (if rlen >=? capacity then csv_row_expand_fields row else mret SUCCEED);
  if res =? FAIL then mret FAIL
  else
    do s <- alloc (BChars (repeat NUL (len + 1)));
    if s =? NULL then mret FAIL
    else
      for_ 0 (Z.of_nat len)
        (fun i =>
           match field !! Z.to_nat i with
           | Some c => char_set s i c
           | None => undefined
           end) ;;
      char_set s (Z.of_nat len) NUL ;;
      do '(rlen, capacity, fields) <- row_get row;
      slot_set fields rlen s ;;
      store row (BRow (rlen + 1) capacity fields) ;;
      mret SUCCEED.

(** ** The parse buffer *)

Definition buffer_get (buffer : Z) : MM (Z * Z * Z) :=
  do b <- load buffer;
  match b with
  | BBuffer len capacity p => mret (len, capacity, p)
  | _ => undefined
  end.

Definition chars_get (p : Z) : MM (list char) :=
  do a <- load p;
  match a with
  | BChars chars => mret chars
  | _ => undefined
  end.

Definition buffer_new : MM Z :=
  do buffer <- alloc (BBuffer 0 0 junk);
  if buffer =? NULL then mret NULL
  else
    store buffer (BBuffer 0 256 junk) ;;
    do p <- alloc (BChars (repeat NUL 256));
    if p =? NULL then free buffer ;; mret NULL
    else store buffer (BBuffer 0 256 p) ;; mret buffer.

Definition buffer_free (buffer : Z) : MM unit :=
  do '(len, capacity, p) <- buffer_get buffer;
  free p ;;
  free buffer.

Definition buffer_reset (buffer : Z) : MM unit :=
  do '(len, capacity, p) <- buffer_get buffer;
  store buffer (BBuffer 0 capacity p).

Definition buffer_putc (buffer : Z) (c : char) : MM Z :=
  do '(len, capacity, p) <- buffer_get buffer;
  do res <-
    (if len >=? capacity then
       let new_cap := capacity * 2 in
       do new_p <- alloc (BChars (repeat NUL (Z.to_nat new_cap)));
       if new_p =? NULL then mret FAIL
       else
         for_ 0 capacity (fun i => do x <- char_get p i; char_set new_p i x) ;;
         store buffer (BBuffer len new_cap p) ;;
         free p ;;
         store buffer (BBuffer len new_cap new_p) ;;
         mret SUCCEED
     else mret SUCCEED);
  if res =? FAIL then mret FAIL
  else
    do '(len, capacity, p) <- buffer_get buffer;
    char_set p len c ;;
    store buffer (BBuffer (len + 1) capacity p) ;;
    mret SUCCEED.

Definition csv_row_append_field_with_buffer (row buffer : Z) : MM Z :=
  do '(len, capacity, p) <- buffer_get buffer;
  do chars <- chars_get p;
  if len <? 0 then undefined
  else csv_row_append_field row chars (Z.to_nat len).

(** ** The parser *)

Definition FAILURE_RETURN (row buffer : Z) : MM Z :=
  csv_row_free row ;; buffer_free buffer ;; mret NULL.

Definition fail_with (code : Z) (message : list char) (row buffer : Z) : MM Z :=
  do e <- lift (csv_error_new code message);
  lift (set_err e) ;; FAILURE_RETURN row buffer.

Definition append_and_return (row buffer : Z) : MM Z :=
  do res <- csv_row_append_field_with_buffer row buffer;
  if res =? FAIL then FAILURE_RETURN row buffer
  else buffer_free buffer ;; mret row.

Definition append_and_go (row buffer : Z) (k : MM Z) : MM Z :=
  do res <- csv_row_append_field_with_buffer row buffer;
  if res =? FAIL then FAILURE_RETURN row buffer
  else buffer_reset buffer ;; k.

Definition putc_and_go (row buffer : Z) (c : char) (k : MM Z) : MM Z :=
  do res <- buffer_putc buffer c;
  if res =? FAIL then FAILURE_RETURN row buffer
  else k.

Fixpoint parse_loop (fuel : nat) (parser : csv_parser_t) (row buffer : Z)
    (state : PARSE_STATE) (quoted : bool) : MM Z :=
  match fuel with
  | O => undefined
  | S fuel =>
    do c <- lift fgetc;
    match state with
    | ST_START =>
        if c =? int_of_plain_char QUOTE_CHAR then
          parse_loop fuel parser row buffer ST_INFIELD true
        else if c =? EOF then
          do io <- lift ferror;
          if io then
            do msg <- lift strerror_errno;
            fail_with CSV_EIO msg row buffer
          else
            do '(len, capacity, fields) <- row_get row;
            if len >? 0 then append_and_return row buffer
            else csv_row_free row ;; buffer_free buffer ;; mret NULL
        else if (c =? int_of_plain_char CR_CHAR) || (c =? int_of_plain_char LF_CHAR) then
          lift (consume_end_of_line c) ;;
          do '(len, capacity, fields) <- row_get row;
          if len >? 0 then append_and_return row buffer
          else buffer_free buffer ;; mret row
        else if c =? int_of_plain_char (field_delimiter parser) then
          append_and_go row buffer (parse_loop fuel parser row buffer ST_START false)
        else
          putc_and_go row buffer (char_of_int c)
            (parse_loop fuel parser row buffer ST_INFIELD quoted)
    | ST_INFIELD =>
        if c =? int_of_plain_char QUOTE_CHAR then
          if negb quoted then
            fail_with CSV_EINVALID_FORMAT msg_should_be_quoted row buffer
          else
            do lookahead <- lift fgetc;
            if lookahead =? int_of_plain_char QUOTE_CHAR then
              putc_and_go row buffer QUOTE_CHAR
                (parse_loop fuel parser row buffer ST_INFIELD quoted)
            else if lookahead =? int_of_plain_char (field_delimiter parser) then
              append_and_go row buffer (parse_loop fuel parser row buffer ST_START false)
            else if (lookahead =? int_of_plain_char CR_CHAR) || (lookahead =? int_of_plain_char LF_CHAR) then
              lift (consume_end_of_line c) ;;
              append_and_return row buffer
            else
              fail_with CSV_EINVALID_FORMAT msg_closing_quote row buffer
        else if c =? EOF then
          do io <- lift ferror;
          if io then
            do msg <- lift strerror_errno;
            fail_with CSV_EIO msg row buffer
          else if quoted then
            fail_with CSV_EINVALID_FORMAT (lit "unclosed quote") row buffer
          else
            append_and_return row buffer
        else if (c =? int_of_plain_char CR_CHAR) || (c =? int_of_plain_char LF_CHAR) then
          if quoted then
            putc_and_go row buffer (char_of_int c)
              (parse_loop fuel parser row buffer ST_INFIELD quoted)
          else
            lift (consume_end_of_line c) ;;
            append_and_return row buffer
        else if c =? int_of_plain_char (field_delimiter parser) then
          if quoted then
            putc_and_go row buffer (char_of_int c)
              (parse_loop fuel parser row buffer ST_INFIELD quoted)
          else
            append_and_go row buffer (parse_loop fuel parser row buffer ST_START false)
        else
          putc_and_go row buffer (char_of_int c)
            (parse_loop fuel parser row buffer ST_INFIELD quoted)
    end
  end.

Definition csv_parse_next_row (parser : csv_parser_t) : MM Z :=
  do buffer <- buffer_new;
  if buffer =? NULL then mret NULL
  else
    do row <- csv_row_new;
    if row =? NULL then mret NULL
    else
      fun s =>
        parse_loop (S (length (rd (file (base s))))) parser row buffer ST_START false s.

(** ** The caller's loop of the reading example *)

(** The bytes from the address [p] to the end of its block, for a reader
    that stops at the first NUL: undefined if the block holds none. *)
Definition field_at (p : Z) : MM (list char) :=
  do chars <- chars_get p;
  if existsb (fun c => Ascii.eqb c NUL) chars then mret chars
  else undefined.

(** [printf("%s", p)], giving the string printed. *)
Definition string_at (p : Z) : MM (list char) :=
  do chars <- field_at p;
  mret (c_str chars).

(** [for (i = 0; i < csv_row_field_count(row); i++)
      printf("%s", csv_row_field_get(row, i));]
    giving the strings printed. *)
Fixpoint print_fields (count : nat) (row : Z) (i : Z) : MM (list (list char)) :=
  match count with
  | O => mret []
  | S count' =>
      do q <- csv_row_field_get row i;
      do str <- string_at q;
      do rest <- print_fields count' row (i + 1);
      mret (str :: rest)
  end.

(** [while ((row = csv_parse_next_row(parser, &err)) != NULL)
      { ... print the fields ...; csv_row_free(row); }]
    giving what was printed, row by row. *)
Fixpoint read_rows (fuel : nat) (parser : csv_parser_t) : MM (list (list (list char))) :=
  match fuel with
  | O => undefined
  | S fuel =>
      do row <- csv_parse_next_row parser;
      if row =? NULL then mret []
      else
        do n <- csv_row_field_count row;
        do strs <- print_fields (Z.to_nat n) row 0;
        csv_row_free row ;;
        do rest <- read_rows fuel parser;
        mret (strs :: rest)
  end.

(** The body of [main] in the reading example from its loop on: the loop,
    then [if (err != NULL) csv_error_free(err);].  The parser object and
    the stream stay with the caller. *)
Definition read_csv (parser : csv_parser_t) : MM (list (list (list char))) :=
  do out <- (fun s => read_rows (S (length (rd (file (base s))))) parser s);
  do e <- lift (fun w => (err w, w));
  (if e =? NULL then mret tt else lift (csv_error_free e)) ;;
  mret out.

(** ** The writer on a row in memory *)

(** The loop [for (i = 0; i < field_count; i++)] of [csv_write_row], from
    index [i] on. *)
Fixpoint write_fields (writer : csv_writer_t) (row : Z) (count : nat)
    (i field_count : Z) : MM Z :=
  match count with
  | O => mret SUCCEED
  | S count' =>
      do q <- csv_row_field_get row i;
      do field <- field_at q;
      do res <- lift (csv_write_field writer field i field_count);
      if res =? FAIL then mret FAIL
      else write_fields writer row count' (i + 1) field_count
  end.

Definition csv_write_row (writer : csv_writer_t) (row : Z) : MM Z :=
  do field_count <- csv_row_field_count row;
  do res <-
    (if field_count =? 0 then mret SUCCEED
     else
       do single <-
         (if field_count =? 1 then
            do q <- csv_row_field_get row 0;
            do c <- char_get q 0;
            mret (Ascii.eqb c NUL)
          else mret false);
       if single then lift (csv_write_str writer DOUBLE_QUOTES_STR)
       else write_fields writer row (Z.to_nat field_count) 0 field_count);
  if res =? FAIL then mret FAIL
  else lift (csv_write_newline writer).

(** ** The example that dumps a table, in memory *)

Fixpoint append_names (csv_row : Z) (fields : list MYSQL_FIELD) : MM Z :=
  match fields with
  | [] => mret SUCCEED
  | field :: rest =>
      do res <- csv_row_append_field csv_row (name field) (name_length field);
      if res =? -1 then mret FAIL
      else append_names csv_row rest
  end.

Fixpoint append_values (csv_row : Z) (n_fields : nat) (row : MYSQL_ROW) : MM Z :=
  match n_fields with
  | O => mret SUCCEED
  | S n_fields =>
      match row with
      | [] => undefined                      (* [row[i]] beyond the array *)
      | None :: _ => undefined               (* [strlen] of a null pointer *)
      | Some value :: rest =>
          do res <- csv_row_append_field csv_row value (strlen value);
          if res =? -1 then mret FAIL
          else append_values csv_row n_fields rest
      end
  end.

Fixpoint dump_rows (csv_writer : csv_writer_t) (csv_row : Z) (n_fields : nat)
    (rows : list MYSQL_ROW) : MM Z :=
  match rows with
  | [] => mret SUCCEED
  | row :: rest =>
      do res <- append_values csv_row n_fields row;
      if res =? -1 then mret FAIL
      else
        do res <- csv_write_row csv_writer csv_row;
        if res =? -1 then mret FAIL
        else csv_row_reset csv_row ;; dump_rows csv_writer csv_row n_fields rest
  end.

(** The label [FAILURE_RETURN] of [dump_table_to_csv]. *)
Definition dump_FAILURE_RETURN (csv_row : Z) : MM Z :=
  (if csv_row =? NULL then mret tt else csv_row_free csv_row) ;;
  lift (fun w => if err w =? NULL then (tt, w) else csv_error_free (err w) w) ;;
  mret (-1).

(** From [csv_writer_default] to the end, on the result [result]. *)
Definition dump_result (result : MYSQL_RES) : MM Z :=
  do csv_writer <- lift csv_writer_default;
  match csv_writer with
  | None => dump_FAILURE_RETURN NULL
  | Some csv_writer =>
      do csv_row <- csv_row_new;
      if csv_row =? NULL then dump_FAILURE_RETURN NULL
      else
        do res <- append_names csv_row (res_fields result);
        if res =? -1 then dump_FAILURE_RETURN csv_row
        else
          do res <- csv_write_row csv_writer csv_row;
          if res =? -1 then dump_FAILURE_RETURN csv_row
          else
            csv_row_reset csv_row ;;
            let n_fields := length (res_fields result) in
            do res <- dump_rows csv_writer csv_row n_fields (res_rows result);
            if res =? -1 then dump_FAILURE_RETURN csv_row
            else csv_row_free csv_row ;; mret 0
  end.

Definition dump_table_to_csv (env : dump_env) (table : list char) : MM Z :=
  lift (set_err NULL) ;;
  (* sprintf(filename, "%s.csv", table) into char filename[256] *)
  if 256 <? Z.of_nat (strlen table) + 5 then undefined
  else if negb (fopen env) then dump_FAILURE_RETURN NULL
  (* sprintf(sql, "SELECT * FROM `%s`", table) into char sql[1024] *)
  else if 1024 <? Z.of_nat (strlen table) + 17 then undefined
  else if negb (mysql_query env =? 0) then dump_FAILURE_RETURN NULL
  else
    match mysql_use_result env with
    | None => dump_FAILURE_RETURN NULL
    | Some result => dump_result result
    end.

(** ** Vocabulary of the memory *)

(** [m] without the blocks at the addresses [ps]. *)
Definition without (ps : list Z) (m : gmap Z block) : gmap Z block :=
  foldr delete m ps.

(** Every live block is one that [malloc] handed out. *)
Definition allocated (s : state) : Prop :=
  forall k, is_Some (cells s !! k) ->
    heap_base <= k < heap_base + Z.of_nat (brk (heap (base s))).

(** In [m], [row] is the address of a row with the contents [r]: its array
    is the block at [fields], the fields are the blocks at [ptrs], in order,
    each with a NUL in it, and the slots after them hold [NULL]. *)
Definition row_at (m : gmap Z block) (row : Z) (r : csv_row_t)
    (fields : Z) (ptrs : list Z) : Prop :=
  m !! row = Some (BRow (r_len r) (r_capacity r) fields) /\
  m !! fields =
    Some (BSlots (ptrs ++ repeat NULL (Z.to_nat (r_capacity r) - length ptrs))) /\
  Forall2 (fun q f => m !! q = Some (BChars f)) ptrs (r_fields r) /\
  NoDup ptrs /\
  Forall (fun f => elem_of NUL f) (r_fields r) /\
  row_ok r.

(** In [m], [buffer] is the address of a buffer with the contents [b]: its
    bytes are the first ones of the block at [p], which has [capacity]
    bytes. *)
Definition buffer_at (m : gmap Z block) (buffer : Z) (b : buffer_t) (p : Z) : Prop :=
  m !! buffer = Some (BBuffer (b_len b) (b_capacity b) p) /\
  (exists chars,
     m !! p = Some (BChars chars) /\
     length chars = Z.to_nat (b_capacity b) /\
     firstn (length (b_p b)) chars = b_p b) /\
  buffer_ok b.

(** While a call of the parser runs: the row and the buffer it works on
    are in memory, apart from each other, and [m0] is what the memory holds
    besides them. *)
Definition parsing (m0 : gmap Z block) (s : state) (row : Z) (r : csv_row_t)
    (buffer : Z) (b : buffer_t) : Prop :=
  allocated s /\
  exists fields ptrs p,
    row_at (cells s) row r fields ptrs /\
    buffer_at (cells s) buffer b p /\
    ~ elem_of p ptrs /\
    without (buffer :: p :: row :: fields :: ptrs) (cells s) = m0.

(** What a call leaves: the row it returns, in memory, and nothing else
    besides [m0]; or [NULL] and [m0]. *)
Definition returned (m0 : gmap Z block) (res : Z) (ra : option csv_row_t)
    (s' : state) : Prop :=
  allocated s' /\
  match ra with
  | Some r =>
      res <> NULL /\
      exists fields ptrs,
        row_at (cells s') res r fields ptrs /\
        without (res :: fields :: ptrs) (cells s') = m0
  | None => res = NULL /\ cells s' = m0
  end.

(** [m'] is [m] and the two blocks of a new, empty buffer. *)
Definition buffer_left (m m' : gmap Z block) : Prop :=
  exists buffer p chars,
    m !! buffer = None /\ m !! p = None /\ buffer <> p /\
    length chars = 256%nat /\
    m' = <[buffer := BBuffer 0 256 p]> (<[p := BChars chars]> m).

(** The first two allocations to come succeed and one of the two after
    them fails: [buffer_new] gives a buffer and [csv_row_new] then fails. *)
Definition row_fails_after_buffer (pl : list bool) : bool :=
  negb (fails_within_two pl) && fails_within_two (tl (tl pl)).

(** The run of [cm] is defined and ends in a state that [Q] holds of. *)
Definition mwp {A} (cm : MM A) (Q : A -> state -> Prop) (s : state) : Prop :=
  match cm s with
  | Some (a, s') => Q a s'
  | None => False
  end.

(** The run of [cm] is defined, and what it does to the stream, the
    allocator, [*err] and the errors is what [ca] does in the embedding
    with rows and buffers as values; [R] relates the two results. *)
Definition sim {A B} (cm : MM A) (ca : M B) (R : A -> B -> state -> Prop)
    (s : state) : Prop :=
  mwp cm (fun a s' => base s' = snd (ca (base s)) /\ R a (fst (ca (base s))) s') s.

End Mem.

(** * Properties *)

(** ** Characters *)

#[local] Arguments Ascii.eqb : simpl nomatch.

Lemma char_of_int_of_char (c : char) : char_of_int (int_of_char c) = c.
Proof.
  unfold char_of_int, int_of_char. rewrite N2Z.id. apply ascii_N_embedding.
Qed.

Lemma int_of_char_inj (a b : char) : int_of_char a = int_of_char b -> a = b.
Proof.
  intros H. rewrite <- (char_of_int_of_char a), <- (char_of_int_of_char b).
  now rewrite H.
Qed.

Lemma int_of_char_eqb (a b : char) : (int_of_char a =? int_of_char b) = Ascii.eqb a b.
Proof.
  destruct (Ascii.eqb_spec a b) as [->|Hne].
  - apply Z.eqb_refl.
  - apply Z.eqb_neq. intros H. apply Hne. now apply int_of_char_inj.
Qed.

Lemma int_of_char_nonneg (a : char) : 0 <= int_of_char a.
Proof. unfold int_of_char. apply N2Z.is_nonneg. Qed.

Lemma int_of_char_EOF (a : char) : (int_of_char a =? EOF) = false.
Proof. apply Z.eqb_neq. pose proof (int_of_char_nonneg a). unfold EOF. lia. Qed.

Lemma EOF_int_of_char (a : char) : (EOF =? int_of_char a) = false.
Proof. rewrite Z.eqb_sym. apply int_of_char_EOF. Qed.

Lemma EOF_EOF : (EOF =? EOF) = true.
Proof. reflexivity. Qed.

(** The character constants are below 128: promoted, they have the value
    of their byte. *)
Lemma plain_QUOTE_CHAR : int_of_plain_char QUOTE_CHAR = int_of_char QUOTE_CHAR.
Proof. reflexivity. Qed.

Lemma plain_CR_CHAR : int_of_plain_char CR_CHAR = int_of_char CR_CHAR.
Proof. reflexivity. Qed.

Lemma plain_LF_CHAR : int_of_plain_char LF_CHAR = int_of_char LF_CHAR.
Proof. reflexivity. Qed.

Lemma is_delimiter_eqb (d c : char) :
  (int_of_char c =? int_of_plain_char d) = is_delimiter d c.
Proof. reflexivity. Qed.

Lemma eof_is_delimiter_eqb (d : char) : (EOF =? int_of_plain_char d) = eof_is_delimiter d.
Proof. reflexivity. Qed.

(** A delimiter below 128 is told by its byte, and is not [EOF]. *)
Lemma int_of_plain_char_ascii (d : char) :
  int_of_char d < 128 -> int_of_plain_char d = int_of_char d.
Proof. unfold int_of_plain_char. intros H. apply Z.ltb_lt in H. now rewrite H. Qed.

Lemma is_delimiter_ascii (d c : char) :
  int_of_char d < 128 -> is_delimiter d c = Ascii.eqb c d.
Proof.
  intros H. unfold is_delimiter. rewrite (int_of_plain_char_ascii d H).
  apply int_of_char_eqb.
Qed.

Lemma eof_is_delimiter_ascii (d : char) :
  int_of_char d < 128 -> eof_is_delimiter d = false.
Proof.
  intros H. unfold eof_is_delimiter. rewrite (int_of_plain_char_ascii d H).
  apply EOF_int_of_char.
Qed.

(** A delimiter from 128 on is never the byte read. *)
Lemma is_delimiter_high (d c : char) :
  128 <= int_of_char d -> is_delimiter d c = false.
Proof.
  intros H. unfold is_delimiter, int_of_plain_char.
  destruct (Z.ltb_spec (int_of_char d) 128) as [?|_]; [lia|].
  apply Z.eqb_neq. pose proof (int_of_char_nonneg c).
  assert (int_of_char d < 256).
  { unfold int_of_char. pose proof (N_ascii_bounded d). lia. }
  lia.
Qed.

Create Rewrite HintDb chr.
#[local] Hint Rewrite plain_QUOTE_CHAR plain_CR_CHAR plain_LF_CHAR
  int_of_char_eqb int_of_char_EOF EOF_int_of_char EOF_EOF
  char_of_int_of_char : chr.

Ltac chr := autorewrite with chr; rewrite ?is_delimiter_eqb, ?eof_is_delimiter_eqb.

(** The tests on a delimiter that is known to be below 128. *)
Ltac ascii_d :=
  repeat match goal with
  | H : int_of_char ?d < 128 |- _ =>
      first [ rewrite (is_delimiter_ascii d _ H)
            | rewrite (eof_is_delimiter_ascii d H) ]
  end.

Ltac ascii_d_in H0 :=
  repeat match goal with
  | H : int_of_char ?d < 128 |- _ =>
      first [ rewrite (is_delimiter_ascii d _ H) in H0
            | rewrite (eof_is_delimiter_ascii d H) in H0 ]
  end.

Ltac asc :=
  ascii_d;
  repeat match goal with
  | Hx : context [is_delimiter _ _] |- _ => progress ascii_d_in Hx
  | Hx : context [eof_is_delimiter _] |- _ => progress ascii_d_in Hx
  end.

(** Only the delimiter's own byte passes the test. *)
Lemma is_delimiter_true (d c : char) : is_delimiter d c = true -> c = d.
Proof.
  intros H. destruct (Z.ltb_spec (int_of_char d) 128) as [Hlt|Hge].
  - rewrite (is_delimiter_ascii d c Hlt) in H. now apply Ascii.eqb_eq.
  - rewrite (is_delimiter_high d c Hge) in H. discriminate.
Qed.

#[local] Arguments int_of_plain_char : simpl never.
#[local] Arguments is_delimiter : simpl never.
#[local] Arguments eof_is_delimiter : simpl never.

(** ** Rules of the weakest-precondition reading *)

Lemma wp_ret {A} (a : A) (Q : A -> world -> Prop) w : Q a w -> wp (ret a) Q w.
Proof. exact (fun H => H). Qed.

Lemma wp_bind {A B} (c : M A) (k : A -> M B) (Q : B -> world -> Prop) w :
  wp c (fun a w' => wp (k a) Q w') w -> wp (bind c k) Q w.
Proof. unfold wp, bind. destruct (c w) as [a w']. exact (fun H => H). Qed.

Lemma wp_mono {A} (c : M A) (Q Q' : A -> world -> Prop) w :
  wp c Q w -> (forall a w', Q a w' -> Q' a w') -> wp c Q' w.
Proof. unfold wp. intros H HQ. now apply HQ. Qed.

Lemma wp_run {A} (c : M A) (Q : A -> world -> Prop) w a w' :
  wp c Q w -> c w = (a, w') -> Q a w'.
Proof. unfold wp. intros H E. now rewrite E in H. Qed.

(** [wp_call lem]: run the first call of a [bind] by its specification. *)
Ltac wp_call lem :=
  apply wp_bind; eapply wp_mono; [ apply lem | cbv beta ].

(** ** Allocation *)

Lemma error_code_at_oom (m : mem) :
  error_code_at m csv_error_oom = Some CSV_ENOMEMORY.
Proof. reflexivity. Qed.

Lemma csv_error_oom_not_null : csv_error_oom <> NULL.
Proof. discriminate. Qed.

Lemma never_oom_tl (m : mem) :
  never_oom m -> forall b pl, plan m = b :: pl -> b = true /\ forallb id pl = true.
Proof.
  unfold never_oom. intros H b pl E. rewrite E in H. simpl in H.
  apply andb_true_iff in H. now destruct b.
Qed.

Lemma heap_addr_not_null (n : nat) : (heap_base + Z.of_nat n =? NULL) = false.
Proof. apply Z.eqb_neq. unfold heap_base, NULL. lia. Qed.

Lemma malloc_spec w :
  wp malloc (fun p w' =>
    file w' = file w /\ err w' = err w /\ store (heap w') = store (heap w) /\
    ((p = NULL /\ brk (heap w') = brk (heap w)) \/
     (p = heap_base + Z.of_nat (brk (heap w)) /\ brk (heap w') = S (brk (heap w)))) /\
    (never_oom (heap w) -> p <> NULL /\ never_oom (heap w'))) w.
Proof.
  unfold wp, malloc. destruct (plan (heap w)) as [|[] pl] eqn:E; simpl;
    repeat split; auto;
    try (unfold heap_base, NULL; lia);
    match goal with Hok : never_oom _ |- _ =>
      destruct (never_oom_tl _ Hok _ _ E); first [ congruence | assumption ]
    end.
Qed.

Lemma xmalloc_spec w :
  wp xmalloc (fun p w' =>
    file w' = file w /\ store (heap w') = store (heap w) /\
    (p <> NULL -> err w' = err w) /\
    (p = NULL -> err w' = csv_error_oom) /\
    (never_oom (heap w) -> p <> NULL /\ never_oom (heap w'))) w.
Proof.
  unfold xmalloc. wp_call malloc_spec.
  intros p w' (Hf & He & Hs & Hp & Hok).
  destruct (Z.eqb_spec p NULL) as [->|Hne].
  - unfold wp; simpl. repeat split; auto; try congruence;
      match goal with H : never_oom _ |- _ => now apply Hok in H end.
  - apply wp_ret. repeat split; auto; try congruence;
      match goal with H : never_oom _ |- _ => now apply Hok in H end.
Qed.

Lemma static_obj_heap (n : nat) : static_obj (heap_base + Z.of_nat n) = None.
Proof.
  unfold static_obj, GLOBAL_OOM_addr, GLOBAL_OOM_message_addr, heap_base.
  destruct (Z.eqb_spec (16 + Z.of_nat n) 1); [lia|].
  destruct (Z.eqb_spec (16 + Z.of_nat n) 2); [lia|]. reflexivity.
Qed.

Lemma never_oom_plan (m : mem) :
  never_oom m ->
  match plan m with
  | false :: _ => False
  | _ => forallb id (tl (plan m)) = true
  end.
Proof.
  unfold never_oom. destruct (plan m) as [|[] pl]; simpl; auto. discriminate.
Qed.

Lemma wp_poke (p : Z) (o : obj) (Q : unit -> world -> Prop) w :
  Q tt {| file := file w;
          heap := {| store := <[p := o]> (store (heap w)); brk := brk (heap w);
                     plan := plan (heap w) |};
          err := err w |} ->
  wp (poke p o) Q w.
Proof. exact (fun H => H). Qed.

Lemma wp_free (p : Z) (Q : unit -> world -> Prop) w :
  Q tt {| file := file w;
          heap := {| store := delete p (store (heap w)); brk := brk (heap w);
                     plan := plan (heap w) |};
          err := err w |} ->
  wp (free p) Q w.
Proof. exact (fun H => H). Qed.

Lemma wp_set_err (e : Z) (Q : unit -> world -> Prop) w :
  Q tt {| file := file w; heap := heap w; err := e |} -> wp (set_err e) Q w.
Proof. exact (fun H => H). Qed.

Lemma wp_ferror (Q : bool -> world -> Prop) w :
  Q (ferr (file w)) w -> wp ferror Q w.
Proof. exact (fun H => H). Qed.

Lemma wp_strerror_errno (Q : list char -> world -> Prop) w :
  Q (errmsg (file w)) w -> wp strerror_errno Q w.
Proof. exact (fun H => H). Qed.

Lemma csv_error_new_spec (code : Z) (msg : list char) w :
  wp (csv_error_new code msg) (fun e w' =>
    file w' = file w /\ err w' = err w /\ e <> NULL /\
    (exists c, error_code_at (heap w') e = Some c) /\
    (never_oom (heap w) -> code <> CSV_ENOMEMORY ->
       error_code_at (heap w') e = Some code /\ never_oom (heap w'))) w.
Proof.
  unfold csv_error_new.
  destruct (Z.eqb_spec code CSV_ENOMEMORY) as [->|Hne].
  { apply wp_ret. repeat apply conj; auto; try discriminate; try congruence.
    eexists; apply error_code_at_oom. }
  wp_call malloc_spec. intros e w1 (Hf1 & He1 & Hs1 & Hp1 & Hok1).
  destruct (Z.eqb_spec e NULL) as [->|Hn1].
  { apply wp_ret. repeat apply conj; auto; try discriminate.
    - eexists; apply error_code_at_oom.
    - intros H. now apply Hok1 in H. }
  destruct Hp1 as [[? _]|[-> Hb1]]; [congruence|].
  apply wp_bind, wp_poke. wp_call malloc_spec.
  intros m w2 (Hf2 & He2 & Hs2 & Hp2 & Hok2). simpl in *.
  destruct (Z.eqb_spec m NULL) as [->|Hn2].
  { apply wp_bind, wp_free, wp_ret. simpl. repeat apply conj; auto; try congruence.
    - eexists; apply error_code_at_oom.
    - intros H. apply Hok1 in H. destruct H as [_ H]. now apply Hok2 in H. }
  destruct Hp2 as [[? _]|[-> Hb2]]; [congruence|].
  apply wp_bind, wp_poke, wp_bind, wp_poke, wp_ret. simpl.
  assert (Hc : error_code_at
            {| store := <[heap_base + Z.of_nat (brk (heap w1)) :=
                          OString (c_str msg ++ [NUL])]>
                        (<[heap_base + Z.of_nat (brk (heap w)) := OError code
                             (heap_base + Z.of_nat (brk (heap w1)))]> (store (heap w2)));
               brk := brk (heap w2); plan := plan (heap w2) |}
            (heap_base + Z.of_nat (brk (heap w))) = Some code).
  { unfold error_code_at, load; simpl. rewrite static_obj_heap.
    rewrite lookup_insert_ne by lia. now rewrite lookup_insert_eq. }
  repeat apply conj; auto; try congruence; eauto.
  intros H _. apply Hok1 in H. destruct H as [_ H]. apply Hok2 in H.
  split; [exact Hc | apply H].
Qed.

(** ** The row container and the buffer *)

(** Use the hypotheses of the form [never_oom m -> _] whose premise holds. *)
Ltac use_ok :=
  repeat match goal with
  | Hok : never_oom ?m -> _, H : never_oom ?m |- _ =>
      specialize (Hok H); destruct Hok
  end.

Ltac fin :=
  intros; use_ok; simpl in *; repeat apply conj; intros; use_ok;
  try congruence; eauto 6.

Lemma csv_row_expand_fields_spec (row : csv_row_t) w :
  wp (csv_row_expand_fields row) (fun rr w' =>
    file w' = file w /\
    ((fst rr = SUCCEED /\ r_fields (snd rr) = r_fields row /\ err w' = err w) \/
     (fst rr = FAIL /\ err w' = csv_error_oom)) /\
    (never_oom (heap w) -> fst rr = SUCCEED /\ never_oom (heap w'))) w.
Proof.
  unfold csv_row_expand_fields. wp_call xmalloc_spec.
  intros p w' (Hf & _ & He & Hn & Hok).
  destruct (Z.eqb_spec p NULL) as [->|Hne]; apply wp_ret; fin.
Qed.

Lemma csv_row_append_field_spec (row : csv_row_t) (field : list char) (len : nat) w :
  wp (csv_row_append_field row field len) (fun rr w' =>
    file w' = file w /\
    ((fst rr = SUCCEED /\
      r_fields (snd rr) = r_fields row ++ [firstn len field ++ [NUL]] /\
      err w' = err w) \/
     (fst rr = FAIL /\ err w' = csv_error_oom)) /\
    (never_oom (heap w) -> fst rr = SUCCEED /\ never_oom (heap w'))) w.
Proof.
  unfold csv_row_append_field. apply wp_bind.
  assert (H1 : wp (if r_len row >=? r_capacity row then csv_row_expand_fields row
                   else ret (SUCCEED, row))
            (fun rr w' =>
               file w' = file w /\
               ((fst rr = SUCCEED /\ r_fields (snd rr) = r_fields row /\ err w' = err w) \/
                (fst rr = FAIL /\ err w' = csv_error_oom)) /\
               (never_oom (heap w) -> fst rr = SUCCEED /\ never_oom (heap w'))) w).
  { destruct (r_len row >=? r_capacity row).
    - apply csv_row_expand_fields_spec.
    - apply wp_ret. fin. }
  eapply wp_mono; [exact H1|]. clear H1. cbv beta.
  intros [res row1] w1 (Hf1 & Hr1 & Hok1). simpl in *.
  destruct (Z.eqb_spec res FAIL) as [->|Hne].
  { apply wp_ret. destruct Hr1 as [(? & _)|(_ & ?)]; [discriminate|]. fin. }
  destruct Hr1 as [(_ & Hfs & He1)|(? & _)]; [|congruence].
  wp_call xmalloc_spec. intros p w2 (Hf2 & _ & He2 & Hn2 & Hok2).
  destruct (Z.eqb_spec p NULL) as [->|Hp]; apply wp_ret; [fin|].
  fin. left. fin. rewrite He2; auto.
Qed.

Lemma csv_row_append_field_with_buffer_spec (row : csv_row_t) (buffer : buffer_t) w :
  wp (csv_row_append_field_with_buffer row buffer) (fun rr w' =>
    file w' = file w /\
    ((fst rr = SUCCEED /\
      r_fields (snd rr) = close_field (r_fields row) (b_p buffer) /\
      err w' = err w) \/
     (fst rr = FAIL /\ err w' = csv_error_oom)) /\
    (never_oom (heap w) -> fst rr = SUCCEED /\ never_oom (heap w'))) w.
Proof.
  unfold csv_row_append_field_with_buffer, close_field.
  eapply wp_mono; [apply csv_row_append_field_spec|]. cbv beta.
  intros rr w'. now rewrite firstn_all.
Qed.

Lemma buffer_putc_spec (buffer : buffer_t) (c : char) w :
  wp (buffer_putc buffer c) (fun rb w' =>
    file w' = file w /\
    ((fst rb = SUCCEED /\ b_p (snd rb) = b_p buffer ++ [c] /\ err w' = err w) \/
     (fst rb = FAIL /\ err w' = csv_error_oom)) /\
    (never_oom (heap w) -> fst rb = SUCCEED /\ never_oom (heap w'))) w.
Proof.
  unfold buffer_putc. apply wp_bind.
  destruct (b_len buffer >=? b_capacity buffer).
  - wp_call xmalloc_spec. intros p w1 (Hf & _ & He & Hn & Hok).
    destruct (Z.eqb_spec p NULL) as [->|Hp]; apply wp_ret; simpl; apply wp_ret; fin.
  - apply wp_ret. simpl. apply wp_ret. fin.
Qed.

Lemma buffer_new_spec w :
  wp buffer_new (fun ob w' =>
    file w' = file w /\
    ((exists b, ob = Some b /\ b_p b = [] /\ err w' = err w) \/
     (ob = None /\ err w' = csv_error_oom)) /\
    (never_oom (heap w) -> ob <> None /\ never_oom (heap w'))) w.
Proof.
  unfold buffer_new. wp_call xmalloc_spec. intros p w1 (Hf1 & _ & He1 & Hn1 & Hok1).
  destruct (Z.eqb_spec p NULL) as [->|Hp]; [apply wp_ret; fin|].
  wp_call xmalloc_spec. intros q w2 (Hf2 & _ & He2 & Hn2 & Hok2).
  destruct (Z.eqb_spec q NULL) as [->|Hq]; apply wp_ret; [fin|].
  fin. left. eexists. fin. rewrite He2; auto.
Qed.

Lemma csv_row_new_spec w :
  wp csv_row_new (fun orow w' =>
    file w' = file w /\
    ((exists row, orow = Some row /\ r_fields row = [] /\ err w' = err w) \/
     (orow = None /\ err w' = csv_error_oom)) /\
    (never_oom (heap w) -> orow <> None /\ never_oom (heap w'))) w.
Proof.
  unfold csv_row_new. wp_call xmalloc_spec. intros p w1 (Hf1 & _ & He1 & Hn1 & Hok1).
  destruct (Z.eqb_spec p NULL) as [->|Hp]; [apply wp_ret; fin|].
  wp_call xmalloc_spec. intros q w2 (Hf2 & _ & He2 & Hn2 & Hok2).
  destruct (Z.eqb_spec q NULL) as [->|Hq]; apply wp_ret; [fin|].
  fin. left. eexists. fin. rewrite He2; auto.
Qed.

(** ** The steps of the automaton *)

Lemma frame_refl w : frame w w.
Proof. unfold frame. auto. Qed.

Lemma frame_trans w1 w2 w3 : frame w1 w2 -> frame w2 w3 -> frame w1 w3.
Proof.
  unfold frame. intros (A1 & A2 & A3 & A4 & A5) (B1 & B2 & B3 & B4 & B5).
  repeat apply conj; congruence.
Qed.

Lemma frame_file w w' : file w' = file w -> frame w w'.
Proof. unfold frame. intros ->. auto. Qed.

Lemma fgetc_cons (c : char) (rest : list char) w :
  rd (file w) = c :: rest ->
  exists w', fgetc w = (int_of_char c, w') /\
    rd (file w') = rest /\ frame w w' /\ heap w' = heap w /\ err w' = err w.
Proof.
  intros E. unfold fgetc. rewrite E. eexists. split; [reflexivity|].
  unfold frame, io_error. simpl. auto 8.
Qed.

Lemma fgetc_nil w :
  rd (file w) = [] ->
  exists w', fgetc w = (EOF, w') /\
    rd (file w') = [] /\ frame w w' /\ heap w' = heap w /\ err w' = err w /\
    ferr (file w') = io_error (file w).
Proof.
  intros E. unfold fgetc. rewrite E. eexists. split; [reflexivity|].
  unfold frame, io_error. simpl. repeat apply conj; auto.
  now destruct (ferr (file w)), (rd_fail (file w)).
Qed.

Lemma consume_end_of_line_spec (a : char) w :
  wp (consume_end_of_line (int_of_char a)) (fun _ w' =>
    rd (file w') = after_eol a (rd (file w)) /\ frame w w' /\
    heap w' = heap w /\ err w' = err w) w.
Proof.
  unfold consume_end_of_line, after_eol. autorewrite with chr.
  destruct (Ascii.eqb a CR_CHAR); [|apply wp_ret; auto using frame_refl].
  apply wp_bind. unfold wp at 1.
  destruct (rd (file w)) as [|x l] eqn:E.
  - destruct (fgetc_nil w E) as (w' & -> & Hrd & Hfr & Hh & He & _). simpl.
    autorewrite with chr. simpl. apply wp_ret. auto.
  - destruct (fgetc_cons x l w E) as (w' & -> & Hrd & Hfr & Hh & He). simpl.
    autorewrite with chr. destruct (Ascii.eqb x LF_CHAR); simpl.
    + apply wp_ret. auto.
    + unfold wp, ungetc. simpl. autorewrite with chr. rewrite Hrd.
      destruct Hfr as (F1 & F2 & F3 & F4 & F5).
      unfold frame, io_error in *. simpl. auto 8.
Qed.

Lemma fail_with_spec (code : Z) (msg : list char) row buffer w :
  wp (fail_with code msg row buffer) (fun r w' =>
    r = None /\ file w' = file w /\ err w' <> NULL /\
    (exists c, error_code_at (heap w') (err w') = Some c) /\
    (never_oom (heap w) -> code <> CSV_ENOMEMORY ->
       error_code_at (heap w') (err w') = Some code /\ never_oom (heap w'))) w.
Proof.
  unfold fail_with. wp_call csv_error_new_spec.
  intros e w1 (Hf & He & Hn & Hc & Hok).
  apply wp_bind, wp_set_err. unfold FAILURE_RETURN, csv_row_free, buffer_free.
  apply wp_bind, wp_ret, wp_bind, wp_ret, wp_ret. simpl. auto.
Qed.

Lemma append_and_return_spec row buffer w :
  wp (append_and_return row buffer) (fun r w' =>
    file w' = file w /\
    ((exists row', r = Some row' /\
        r_fields row' = close_field (r_fields row) (b_p buffer) /\ err w' = err w) \/
     (r = None /\ err w' = csv_error_oom)) /\
    (never_oom (heap w) -> r <> None /\ never_oom (heap w'))) w.
Proof.
  unfold append_and_return. wp_call csv_row_append_field_with_buffer_spec.
  intros [res row1] w1 (Hf & Hr & Hok). simpl in *.
  unfold FAILURE_RETURN, csv_row_free, buffer_free.
  destruct (Z.eqb_spec res FAIL) as [->|Hne].
  - apply wp_bind, wp_ret, wp_bind, wp_ret, wp_ret.
    destruct Hr as [(? & _)|(_ & ?)]; [discriminate|]. fin.
  - apply wp_bind, wp_ret, wp_ret.
    destruct Hr as [(_ & ? & ?)|(? & _)]; [|congruence]. fin.
Qed.

Lemma realises_shift o w w1 r w' :
  err w1 = err w -> realises o w1 r w' -> realises o w r w'.
Proof. unfold realises. intros E. destruct o; try rewrite <- E; auto. Qed.

Lemma loop_post_step d w w1 row row1 buffer buffer1 st st1 q q1 r w' :
  frame w w1 -> err w1 = err w ->
  st1 = ST_INFIELD \/ r_fields row1 <> [] ->
  (never_oom (heap w) ->
     never_oom (heap w1) /\
     scan d (io_error (file w1)) (rd (file w1)) st1 q1 (r_fields row1) (b_p buffer1) =
     scan d (io_error (file w)) (rd (file w)) st q (r_fields row) (b_p buffer)) ->
  loop_post d w1 row1 buffer1 st1 q1 r w' ->
  loop_post d w row buffer st q r w'.
Proof.
  intros Hfr He Hprog Hscan (P1 & P2 & P3 & P4). unfold loop_post.
  split; [|split; [|split]].
  - eapply frame_trans; eauto.
  - intros row' Hr. destruct (P2 row' Hr) as [E1 E2]. split; [congruence|].
    intros Hnil. destruct (E2 Hnil) as (F1 & F2 & _).
    destruct Hprog as [->|Hne]; [discriminate | contradiction].
  - intros Hr. destruct (P3 Hr) as [?|(_ & F2 & F1 & _)]; [now left|].
    destruct Hprog as [->|Hne]; [discriminate | contradiction].
  - intros Hok. destruct (Hscan Hok) as [Hok1 Hsc].
    destruct (P4 Hok1) as [Q1 Q2]. split; [|exact Q2].
    rewrite <- Hsc. eapply realises_shift; eauto.
Qed.

Lemma close_field_not_nil fs buf : close_field fs buf <> [].
Proof. unfold close_field. destruct fs; discriminate. Qed.

(** A run that ends in [fail_with]. *)
Lemma post_fail d w w1 row buffer st q code msg :
  frame w w1 -> heap w1 = heap w -> code <> CSV_ENOMEMORY ->
  scan d (io_error (file w)) (rd (file w)) st q (r_fields row) (b_p buffer) = Err code ->
  wp (fail_with code msg row buffer) (loop_post d w row buffer st q) w1.
Proof.
  intros Hfr Hh Hc Hs. eapply wp_mono; [apply fail_with_spec|]. cbv beta.
  intros r w' (-> & Hf & Hn & Hex & Hok). unfold loop_post.
  split; [|split; [|split]].
  - eapply frame_trans; [exact Hfr | now apply frame_file].
  - discriminate.
  - intros _. now left.
  - intros H. rewrite Hs. rewrite <- Hh in H. destruct (Hok H Hc) as [Hcode Hok'].
    split; [|exact Hok']. simpl. auto.
Qed.

(** A run that ends in [append_and_return]. *)
Lemma post_append d w w1 row buffer st q :
  frame w w1 -> heap w1 = heap w -> err w1 = err w ->
  scan d (io_error (file w)) (rd (file w)) st q (r_fields row) (b_p buffer) =
    Row (close_field (r_fields row) (b_p buffer)) (rd (file w1)) ->
  wp (append_and_return row buffer) (loop_post d w row buffer st q) w1.
Proof.
  intros Hfr Hh He Hs. eapply wp_mono; [apply append_and_return_spec|]. cbv beta.
  intros r w' (Hf & Hr & Hok). unfold loop_post.
  split; [|split; [|split]].
  - eapply frame_trans; [exact Hfr | now apply frame_file].
  - intros row' ->. destruct Hr as [(row1 & Hr1 & Hfs & He1)|(? & _)]; [|discriminate].
    injection Hr1 as <-. split; [congruence|].
    intros Hnil. rewrite Hnil in Hfs. symmetry in Hfs.
    now apply close_field_not_nil in Hfs.
  - intros ->. destruct Hr as [(row1 & ? & _)|(_ & He1)]; [discriminate|].
    left. rewrite He1. split; [apply csv_error_oom_not_null|].
    eexists. apply error_code_at_oom.
  - intros H. rewrite Hs. rewrite <- Hh in H. destruct (Hok H) as [Hne Hok'].
    split; [|exact Hok'].
    destruct Hr as [(row1 & -> & Hfs & He1)|(-> & _)]; [|contradiction].
    simpl. repeat apply conj; eauto; congruence.
Qed.

(** A run that fails for lack of memory. *)
Lemma post_oom d w w' row buffer st q :
  frame w w' -> err w' = csv_error_oom -> ~ never_oom (heap w) ->
  loop_post d w row buffer st q None w'.
Proof.
  intros Hfr He Hno. unfold loop_post. split; [|split; [|split]]; auto.
  - discriminate.
  - intros _. left. rewrite He. split; [apply csv_error_oom_not_null|].
    eexists. apply error_code_at_oom.
  - intros H. contradiction.
Qed.

(** A step that stores a byte and goes on in [ST_INFIELD]. *)
Lemma step_putc parser fuel w w1 row buffer st q x q' :
  (forall buffer0 w2, (length (rd (file w2)) < fuel)%nat ->
     wp (parse_loop fuel parser row buffer0 ST_INFIELD q')
        (loop_post (field_delimiter parser) w2 row buffer0 ST_INFIELD q') w2) ->
  frame w w1 -> heap w1 = heap w -> err w1 = err w ->
  (length (rd (file w1)) < fuel)%nat ->
  scan (field_delimiter parser) (io_error (file w)) (rd (file w)) st q
       (r_fields row) (b_p buffer) =
  scan (field_delimiter parser) (io_error (file w)) (rd (file w1)) ST_INFIELD q'
       (r_fields row) (b_p buffer ++ [x]) ->
  wp (do '(res, buffer0) <- buffer_putc buffer x;
      if res =? FAIL then FAILURE_RETURN row buffer0
      else parse_loop fuel parser row buffer0 ST_INFIELD q')
     (loop_post (field_delimiter parser) w row buffer st q) w1.
Proof.
  intros IH Hfr Hh He Hfuel Hs. wp_call buffer_putc_spec.
  intros [res buffer0] w2 (Hf & Hr & Hok). simpl in *.
  destruct (Z.eqb_spec res FAIL) as [->|Hne].
  - unfold FAILURE_RETURN, csv_row_free, buffer_free.
    apply wp_bind, wp_ret, wp_bind, wp_ret, wp_ret.
    destruct Hr as [(? & _)|(_ & He2)]; [discriminate|].
    apply post_oom; auto.
    + eapply frame_trans; [exact Hfr | now apply frame_file].
    + rewrite <- Hh. intros H. destruct (Hok H). discriminate.
  - destruct Hr as [(_ & Hb & He2)|(? & _)]; [|contradiction].
    eapply wp_mono; [apply IH; now rewrite Hf|]. cbv beta. intros r w'.
    apply loop_post_step.
    + eapply frame_trans; [exact Hfr | now apply frame_file].
    + congruence.
    + now left.
    + intros H. rewrite <- Hh in H. destruct (Hok H) as [_ Hok2]. split; [exact Hok2|].
      rewrite Hs, Hb, Hf. destruct Hfr as (_ & -> & _). reflexivity.
Qed.

(** A step that closes a field and goes on in [ST_START]. *)
Lemma step_append parser fuel w w1 row buffer st q :
  (forall row0 buffer0 w2, (length (rd (file w2)) < fuel)%nat ->
     wp (parse_loop fuel parser row0 buffer0 ST_START false)
        (loop_post (field_delimiter parser) w2 row0 buffer0 ST_START false) w2) ->
  frame w w1 -> heap w1 = heap w -> err w1 = err w ->
  (length (rd (file w1)) < fuel)%nat ->
  scan (field_delimiter parser) (io_error (file w)) (rd (file w)) st q
       (r_fields row) (b_p buffer) =
  scan (field_delimiter parser) (io_error (file w)) (rd (file w1)) ST_START false
       (close_field (r_fields row) (b_p buffer)) [] ->
  wp (do '(res, row0) <- csv_row_append_field_with_buffer row buffer;
      if res =? FAIL then FAILURE_RETURN row0 buffer
      else parse_loop fuel parser row0 (buffer_reset buffer) ST_START false)
     (loop_post (field_delimiter parser) w row buffer st q) w1.
Proof.
  intros IH Hfr Hh He Hfuel Hs. wp_call csv_row_append_field_with_buffer_spec.
  intros [res row0] w2 (Hf & Hr & Hok). simpl in *.
  destruct (Z.eqb_spec res FAIL) as [->|Hne].
  - unfold FAILURE_RETURN, csv_row_free, buffer_free.
    apply wp_bind, wp_ret, wp_bind, wp_ret, wp_ret.
    destruct Hr as [(? & _)|(_ & He2)]; [discriminate|].
    apply post_oom; auto.
    + eapply frame_trans; [exact Hfr | now apply frame_file].
    + rewrite <- Hh. intros H. destruct (Hok H). discriminate.
  - destruct Hr as [(_ & Hb & He2)|(? & _)]; [|contradiction].
    eapply wp_mono; [apply IH; now rewrite Hf|]. cbv beta. intros r w'.
    apply loop_post_step.
    + eapply frame_trans; [exact Hfr | now apply frame_file].
    + congruence.
    + right. rewrite Hb. apply close_field_not_nil.
    + intros H. rewrite <- Hh in H. destruct (Hok H) as [_ Hok2]. split; [exact Hok2|].
      rewrite Hs, Hb, Hf. destruct Hfr as (_ & -> & _). reflexivity.
Qed.

Lemma parse_loop_spec (parser : csv_parser_t) :
  forall fuel row buffer st q w,
    (length (rd (file w)) < fuel)%nat ->
    wp (parse_loop fuel parser row buffer st q)
       (loop_post (field_delimiter parser) w row buffer st q) w.
Proof.
  induction fuel as [|fuel IH]; intros row buffer st q w Hfuel; [lia|].
  cbn [parse_loop]. apply wp_bind. unfold wp at 1.
  destruct (rd (file w)) as [|c l] eqn:E.
  - destruct (fgetc_nil w E) as (w1 & -> & Hrd & Hfr & Hh & He & Hio). cbn [fst snd].
    destruct st; autorewrite with chr; cbn [negb].
    + apply wp_bind, wp_ferror. rewrite Hio.
      destruct (io_error (file w)) eqn:Eio.
      * apply wp_bind, wp_strerror_errno.
        apply post_fail; [assumption | assumption | discriminate |].
           rewrite E, Eio; reflexivity.
      * destruct (r_len row >? 0) eqn:Elen.
        -- apply post_append; [assumption | assumption | assumption |].
           rewrite E, Eio, Hrd. simpl.
           unfold r_len in Elen. now rewrite Elen.
        -- unfold csv_row_free, buffer_free.
           apply wp_bind, wp_ret, wp_bind, wp_ret, wp_ret.
           assert (Hnil : r_fields row = []).
           { unfold r_len in Elen. destruct (r_fields row); [reflexivity|].
             simpl in Elen. discriminate. }
           unfold loop_post. split; [|split; [|split]]; auto.
           ++ discriminate.
           ++ intros _. right. auto.
           ++ intros H. rewrite E, Eio, Hnil. simpl.
              split; [auto | now rewrite Hh].
    + apply wp_bind, wp_ferror. rewrite Hio.
      destruct (io_error (file w)) eqn:Eio.
      * apply wp_bind, wp_strerror_errno.
        apply post_fail; [assumption | assumption | discriminate |].
           rewrite E, Eio; reflexivity.
      * destruct q.
        -- apply post_fail; [assumption | assumption | discriminate |].
           rewrite E, Eio; reflexivity.
        -- apply post_append; [assumption | assumption | assumption |].
           rewrite E, Eio, Hrd. reflexivity.
  - destruct (fgetc_cons c l w E) as (w1 & -> & Hrd & Hfr & Hh & He). cbn [fst snd].
    assert (Hl : (length (rd (file w1)) < fuel)%nat) by (rewrite Hrd; simpl in Hfuel; lia).
    assert (Hio : io_error (file w1) = io_error (file w)) by apply Hfr.
    destruct st; chr.
    + (* ST_START *)
      destruct (Ascii.eqb c QUOTE_CHAR) eqn:Eq.
      { eapply wp_mono; [apply IH; exact Hl|]. cbv beta. intros r w'.
        apply loop_post_step; auto.
        intros H. split; [now rewrite Hh|].
        rewrite E, Hio, Hrd. cbn [scan]. now rewrite Eq. }
      fold (is_eol c). destruct (is_eol c) eqn:Eeol.
      { wp_call consume_end_of_line_spec. intros [] w2 (Hrd2 & Hfr2 & Hh2 & He2).
        assert (Hfr' : frame w w2) by (eapply frame_trans; eauto).
        destruct (r_len row >? 0) eqn:Elen.
        - apply post_append; try congruence.
          rewrite E. cbn [scan]. rewrite Eq, Eeol. unfold r_len in Elen.
          rewrite Elen. now rewrite Hrd2, Hrd.
        - unfold buffer_free. apply wp_bind, wp_ret, wp_ret.
          assert (Hnil : r_fields row = []).
          { unfold r_len in Elen. destruct (r_fields row); [reflexivity|].
            simpl in Elen. discriminate. }
          unfold loop_post. split; [|split; [|split]]; auto.
          + intros row' [= <-]. split; [congruence|]. intros _. eauto 6.
          + discriminate.
          + intros H. split; [|congruence].
            rewrite E. cbn [scan]. rewrite Eq, Eeol, Hnil. simpl.
            repeat apply conj; eauto; congruence. }
      destruct (is_delimiter (field_delimiter parser) c) eqn:Ed.
      { apply step_append; auto.
        rewrite E, Hrd. cbn [scan]. now rewrite Eq, Eeol, Ed. }
      apply step_putc; auto.
      rewrite E, Hrd. cbn [scan]. now rewrite Eq, Eeol, Ed.
    + (* ST_INFIELD *)
      destruct (Ascii.eqb c QUOTE_CHAR) eqn:Eq.
      { destruct q; cbn [negb].
        2:{ apply post_fail; [assumption | assumption | discriminate |].
            rewrite E. cbn [scan]. now rewrite Eq. }
        apply wp_bind. unfold wp at 1.
        destruct l as [|x l2].
        - destruct (fgetc_nil w1 Hrd) as (w2 & -> & Hrd2 & Hfr2 & Hh2 & He2 & _).
          cbn [fst snd]. chr. cbn [orb].
          assert (Hfr' : frame w w2) by (eapply frame_trans; eauto).
          destruct (eof_is_delimiter (field_delimiter parser)) eqn:Ee.
          { apply step_append; auto; try congruence.
            rewrite E, Hrd2. cbn [scan]. now rewrite Eq, Ee. }
          apply post_fail; [assumption | congruence | discriminate |].
          rewrite E. cbn [scan]. now rewrite Eq, Ee.
        - destruct (fgetc_cons x l2 w1 Hrd) as (w2 & -> & Hrd2 & Hfr2 & Hh2 & He2).
          cbn [fst snd]. chr.
          assert (Hfr' : frame w w2) by (eapply frame_trans; eauto).
          assert (Hl2 : (length (rd (file w2)) < fuel)%nat)
            by (rewrite Hrd2; rewrite Hrd in Hl; simpl in Hl; lia).
          destruct (Ascii.eqb x QUOTE_CHAR) eqn:Eq2.
          { apply step_putc; auto; try congruence.
            rewrite E, Hrd2. cbn [scan]. now rewrite Eq, Eq2. }
          destruct (is_delimiter (field_delimiter parser) x) eqn:Ed.
          { apply step_append; auto; try congruence.
            rewrite E, Hrd2. cbn [scan]. now rewrite Eq, Eq2, Ed. }
          fold (is_eol x). destruct (is_eol x) eqn:Eeol.
          { wp_call consume_end_of_line_spec. intros [] w3 (Hrd3 & Hfr3 & Hh3 & He3).
            apply post_append; try congruence; [eapply frame_trans; eauto|].
            rewrite E. cbn [scan]. rewrite Eq, Eq2, Ed, Eeol. now rewrite Hrd3, Hrd2. }
          apply post_fail; [assumption | congruence | discriminate |].
          rewrite E. cbn [scan]. now rewrite Eq, Eq2, Ed, Eeol. }
      fold (is_eol c). destruct (is_eol c) eqn:Eeol.
      { destruct q.
        - apply step_putc; auto.
          rewrite E, Hrd. cbn [scan]. now rewrite Eq, Eeol.
        - wp_call consume_end_of_line_spec. intros [] w2 (Hrd2 & Hfr2 & Hh2 & He2).
          apply post_append; try congruence; [eapply frame_trans; eauto|].
          rewrite E. cbn [scan]. rewrite Eq, Eeol. now rewrite Hrd2, Hrd. }
      destruct (is_delimiter (field_delimiter parser) c) eqn:Ed.
      { destruct q.
        - apply step_putc; auto.
          rewrite E, Hrd. cbn [scan]. now rewrite Eq, Eeol, Ed.
        - apply step_append; auto.
          rewrite E, Hrd. cbn [scan]. now rewrite Eq, Eeol, Ed. }
      apply step_putc; auto.
      rewrite E, Hrd. cbn [scan]. now rewrite Eq, Eeol, Ed.
Qed.

(** ** One call of [csv_parse_next_row] *)

Lemma csv_parse_next_row_spec (parser : csv_parser_t) w :
  wp (csv_parse_next_row parser) (call_post (field_delimiter parser) w) w.
Proof.
  unfold csv_parse_next_row. wp_call buffer_new_spec.
  intros ob w1 (Hf1 & Hb & Hok1).
  destruct Hb as [(b & -> & Hb & He1)|(-> & He1)].
  2:{ apply wp_ret. unfold call_post. split; [|split; [|split]].
      - now apply frame_file.
      - discriminate.
      - intros _. left. rewrite He1. split; [apply csv_error_oom_not_null|].
        eexists; apply error_code_at_oom.
      - intros H. destruct (Hok1 H) as [Hne _]. contradiction. }
  wp_call csv_row_new_spec. intros orow w2 (Hf2 & Hr & Hok2).
  destruct Hr as [(row & -> & Hr & He2)|(-> & He2)].
  2:{ apply wp_ret. unfold call_post. split; [|split; [|split]].
      - apply frame_file. congruence.
      - discriminate.
      - intros _. left. rewrite He2. split; [apply csv_error_oom_not_null|].
        eexists; apply error_code_at_oom.
      - intros H. destruct (Hok1 H) as [_ H1]. destruct (Hok2 H1) as [Hne _].
        contradiction. }
  assert (Hw : wp (parse_loop (S (length (rd (file w2)))) parser row b ST_START false)
                  (loop_post (field_delimiter parser) w2 row b ST_START false) w2)
    by (apply parse_loop_spec; lia).
  unfold wp in Hw |- *.
  destruct (parse_loop (S (length (rd (file w2)))) parser row b ST_START false w2)
    as [r w'].
  cbn [fst snd] in *. destruct Hw as (P1 & P2 & P3 & P4).
  assert (Hfile : file w2 = file w) by congruence.
  unfold call_post. split; [|split; [|split]].
  - eapply frame_trans; [apply frame_file; exact Hfile | exact P1].
  - intros row' Hrow. destruct (P2 row' Hrow) as [E1 E2]. split; [congruence|].
    intros Hnil. destruct (E2 Hnil) as (_ & _ & c & rest & Hc & Heol).
    exists c, rest. rewrite <- Hfile. auto.
  - intros Hnone. destruct (P3 Hnone) as [?|(E1 & _ & _ & E2 & E3)]; [now left|].
    right. rewrite <- Hfile. repeat apply conj; congruence.
  - intros H. destruct (Hok1 H) as [_ H1]. destruct (Hok2 H1) as [_ H2].
    destruct (P4 H2) as [Q1 Q2]. split; [|exact Q2].
    rewrite Hr, Hb, Hfile in Q1. eapply realises_shift; [|exact Q1]. congruence.
Qed.

Lemma parse_call_ok (parser : csv_parser_t) w r w' :
  never_oom (heap w) ->
  csv_parse_next_row parser w = (r, w') ->
  realises (scan (field_delimiter parser) (io_error (file w)) (rd (file w))
              ST_START false [] []) w r w'.
Proof.
  intros Hok Hcall.
  pose proof (wp_run _ _ _ _ _ (csv_parse_next_row_spec parser w) Hcall) as (_ & _ & _ & H).
  now destruct (H Hok).
Qed.

Lemma valid_delimiter (d : char) :
  is_valid_field_delimiter d = 1 ->
  Ascii.eqb CR_CHAR d = false /\ Ascii.eqb LF_CHAR d = false /\
  Ascii.eqb QUOTE_CHAR d = false.
Proof.
  unfold is_valid_field_delimiter, INVALID_FILED_DELIMITER_STR. cbn.
  destruct (Ascii.eqb CR_CHAR d); [discriminate|].
  destruct (Ascii.eqb LF_CHAR d); [discriminate|].
  destruct (Ascii.eqb QUOTE_CHAR d); [discriminate|]. auto.
Qed.

Lemma valid_delimiter_tests (d : char) :
  is_valid_field_delimiter d = 1 ->
  is_delimiter d CR_CHAR = false /\ is_delimiter d LF_CHAR = false /\
  is_delimiter d QUOTE_CHAR = false.
Proof.
  intros Hd. destruct (valid_delimiter d Hd) as (H1 & H2 & H3).
  repeat apply conj.
  - destruct (is_delimiter d CR_CHAR) eqn:E; [|reflexivity].
    apply is_delimiter_true in E. subst d. discriminate.
  - destruct (is_delimiter d LF_CHAR) eqn:E; [|reflexivity].
    apply is_delimiter_true in E. subst d. discriminate.
  - destruct (is_delimiter d QUOTE_CHAR) eqn:E; [|reflexivity].
    apply is_delimiter_true in E. subst d. discriminate.
Qed.

(** ** The three outcomes of a call *)

(** C4.  A call made with [*err = NULL] ends in exactly one of three
    shapes.  [NULL] with [*err] still unset is the end-of-input sentinel: it
    is returned only when the very first read hits end of file without a
    stream error, and it is returned then whenever memory suffices.  [NULL]
    with [*err] set points to an error object.  A row comes with [*err]
    unset, and a row of zero fields only from an input that starts with a
    line terminator (and such an input gives one, memory sufficing). *)
Theorem three_outcomes (parser : csv_parser_t) (w : world)
    (r : option csv_row_t) (w' : world) :
  err w = NULL ->
  csv_parse_next_row parser w = (r, w') ->
  (r = None /\ err w' = NULL -> rd (file w) = [] /\ io_error (file w) = false) /\
  (never_oom (heap w) -> rd (file w) = [] -> io_error (file w) = false ->
     r = None /\ err w' = NULL) /\
  (r = None -> err w' <> NULL ->
     exists code, error_code_at (heap w') (err w') = Some code) /\
  (forall row, r = Some row ->
     err w' = NULL /\
     (r_fields row = [] ->
        exists c rest, rd (file w) = c :: rest /\ is_eol c = true)) /\
  (never_oom (heap w) ->
     forall c rest, rd (file w) = c :: rest -> is_eol c = true ->
     exists row, r = Some row /\ r_fields row = []).
Proof.
  intros He0 Hcall.
  pose proof (wp_run _ _ _ _ _ (csv_parse_next_row_spec parser w) Hcall)
    as (_ & P2 & P3 & P4).
  split; [|split; [|split; [|split]]].
  - intros [-> He]. destruct (P3 eq_refl) as [(Hne & _)|(_ & ? & ?)]; [contradiction|auto].
  - intros Hok Hrd Hio. destruct (P4 Hok) as [Hre _].
    rewrite Hrd, Hio in Hre. cbn in Hre. destruct Hre as (? & _ & ?). split; congruence.
  - intros Hr Hne. destruct (P3 Hr) as [(_ & ?)|(? & _)]; [assumption|congruence].
  - intros row Hr. destruct (P2 row Hr) as [E1 E2]. split; [congruence | exact E2].
  - intros Hok c rest Hrd Heol. destruct (P4 Hok) as [Hre _].
    rewrite Hrd in Hre. cbn in Hre.
    assert (Hq : Ascii.eqb c QUOTE_CHAR = false).
    { unfold is_eol in Heol. apply orb_true_iff in Heol.
      destruct Heol as [H|H]; apply Ascii.eqb_eq in H; subst c; reflexivity. }
    rewrite Hq, Heol in Hre. cbn in Hre. destruct Hre as ((row & ? & ?) & _).
    eauto.
Qed.

Lemma three_outcomes_witness :
  let w := world0 [] in
  let res := csv_parse_next_row {| field_delimiter := COMMA_CHAR |} w in
  err w = NULL /\ never_oom (heap w) /\ rd (file w) = [] /\
  io_error (file w) = false /\
  fst res = None /\ err (snd res) = NULL.
Proof.
  intros w res.
  assert (H0 : err w = NULL) by reflexivity.
  assert (H1 : never_oom (heap w)) by reflexivity.
  assert (H2 : rd (file w) = []) by reflexivity.
  assert (H3 : io_error (file w) = false) by reflexivity.
  destruct (three_outcomes {| field_delimiter := COMMA_CHAR |} w (fst res) (snd res)
              H0 (surjective_pairing res)) as (_ & H & _).
  destruct (H H1 H2 H3) as [Hr He].
  exact (conj H0 (conj H1 (conj H2 (conj H3 (conj Hr He))))).
Defined.

(** ** The automaton on the grammar *)

Section Scan.

Variable d : char.
Hypothesis d_valid : is_valid_field_delimiter d = 1.
Hypothesis d_ascii : int_of_char d < 128.
Variable io : bool.

Lemma d_not_quote : Ascii.eqb d QUOTE_CHAR = false.
Proof. destruct (valid_delimiter d d_valid) as (_ & _ & H). now rewrite Ascii.eqb_sym. Qed.

Lemma d_not_eol : is_eol d = false.
Proof.
  destruct (valid_delimiter d d_valid) as (H1 & H2 & _). unfold is_eol.
  now rewrite (Ascii.eqb_sym d CR_CHAR), (Ascii.eqb_sym d LF_CHAR), H1, H2.
Qed.

Lemma is_plain_tests c :
  is_plain d c = true ->
  Ascii.eqb c QUOTE_CHAR = false /\ is_eol c = false /\ Ascii.eqb c d = false.
Proof.
  unfold is_plain. intros H.
  apply andb_true_iff in H. destruct H as [H H3].
  apply andb_true_iff in H. destruct H as [H1 H2].
  apply negb_true_iff in H1, H2, H3. auto.
Qed.

Lemma scan_unquoted s : forall l fs buf,
  forallb (is_plain d) s = true ->
  scan d io (s ++ d :: l) ST_INFIELD false fs buf =
  scan d io l ST_START false (close_field fs (buf ++ s)) [].
Proof.
  induction s as [|c s IH]; intros l fs buf Hs.
  - cbn; ascii_d. rewrite d_not_quote, d_not_eol, Ascii.eqb_refl, app_nil_r. reflexivity.
  - cbn in Hs; ascii_d_in Hs. apply andb_true_iff in Hs. destruct Hs as [Hc Hs].
    destruct (is_plain_tests c Hc) as (H1 & H2 & H3).
    cbn; ascii_d. rewrite H1, H2, H3. rewrite IH by assumption.
    now rewrite <- app_assoc.
Qed.

Lemma scan_quoted s : forall l fs buf,
  scan d io (escape s ++ QUOTE_CHAR :: d :: l) ST_INFIELD true fs buf =
  scan d io l ST_START false (close_field fs (buf ++ s)) [].
Proof.
  induction s as [|c s IH]; intros l fs buf.
  - cbn; ascii_d. rewrite d_not_quote, Ascii.eqb_refl, app_nil_r. reflexivity.
  - cbn [escape]. destruct (Ascii.eqb c QUOTE_CHAR) eqn:Eq.
    + apply Ascii.eqb_eq in Eq. subst c. cbn; ascii_d. rewrite IH.
      now rewrite <- app_assoc.
    + cbn; ascii_d. rewrite Eq.
      destruct (is_eol c); [|destruct (Ascii.eqb c d)];
        rewrite IH, <- app_assoc; reflexivity.
Qed.

Lemma scan_field e s l fs :
  field_text d e s ->
  scan d io (e ++ d :: l) ST_START false fs [] =
  scan d io l ST_START false (close_field fs s) [].
Proof.
  intros [s' Hs|s'].
  - destruct s' as [|c s'].
    + cbn; ascii_d. now rewrite d_not_quote, d_not_eol, Ascii.eqb_refl.
    + cbn in Hs; ascii_d_in Hs. apply andb_true_iff in Hs. destruct Hs as [Hc Hs].
      destruct (is_plain_tests c Hc) as (H1 & H2 & H3).
      cbn; ascii_d. rewrite H1, H2, H3. now rewrite scan_unquoted.
  - cbn; ascii_d. rewrite <- app_assoc. cbn; ascii_d. now rewrite scan_quoted.
Qed.

Lemma scan_closed_fields p fs' : forall l fs,
  closed_fields d p fs' ->
  scan d io (p ++ l) ST_START false fs [] =
  scan d io l ST_START false (fs ++ map block fs') [].
Proof.
  intros l fs H. revert fs. induction H as [|e s p fs' He Hp IH]; intros fs.
  - cbn; ascii_d. now rewrite app_nil_r.
  - rewrite <- app_assoc. cbn [app]. rewrite (scan_field e s) by assumption.
    rewrite IH. unfold close_field, block. cbn; ascii_d. now rewrite <- app_assoc.
Qed.

End Scan.

(** ** Trailing delimiter *)

Lemma is_eol_not_quote c : is_eol c = true -> Ascii.eqb c QUOTE_CHAR = false.
Proof.
  unfold is_eol. intros H. apply orb_true_iff in H.
  destruct H as [H|H]; apply Ascii.eqb_eq in H; subst c; reflexivity.
Qed.

Lemma length_pos_gtb {A} (l : list A) : l <> [] -> (Z.of_nat (length l) >? 0) = true.
Proof. destruct l; [contradiction|]. intros _. apply Z.gtb_lt. cbn [length]. lia. Qed.

(** X25.  In [ST_START] with at least one field in the row and the buffer
    empty, a line terminator or a clean end of file makes the loop return
    the row with an empty field appended, whatever the delimiter.  With a
    valid delimiter below 128, an input row made of fields each followed by
    the delimiter, then a terminator or the clean end of the input, parses
    to those fields followed by an empty one.  (A delimiter from 128 on is
    never recognised: [trailing_delimiter_signed_char].) *)
Theorem trailing_delimiter (parser : csv_parser_t) :
  (forall fuel row buffer q w,
     never_oom (heap w) -> (length (rd (file w)) < fuel)%nat ->
     r_fields row <> [] -> b_p buffer = [] ->
     (exists c rest, rd (file w) = c :: rest /\ is_eol c = true) \/
     (rd (file w) = [] /\ io_error (file w) = false) ->
     exists row',
       fst (parse_loop fuel parser row buffer ST_START q w) = Some row' /\
       r_fields row' = r_fields row ++ [block []]) /\
  (forall p fs w,
     is_valid_field_delimiter (field_delimiter parser) = 1 ->
     int_of_char (field_delimiter parser) < 128 ->
     never_oom (heap w) ->
     closed_fields (field_delimiter parser) p fs -> fs <> [] ->
     (exists c rest, rd (file w) = p ++ c :: rest /\ is_eol c = true) \/
     (rd (file w) = p /\ io_error (file w) = false) ->
     exists row,
       fst (csv_parse_next_row parser w) = Some row /\
       r_fields row = map block (fs ++ [[]]) /\
       err (snd (csv_parse_next_row parser w)) = err w).
Proof.
  split.
  - intros fuel row buffer q w Hok Hfuel Hne Hb Hin.
    pose proof (parse_loop_spec parser fuel row buffer ST_START q w Hfuel) as Hw.
    unfold wp in Hw. destruct (parse_loop fuel parser row buffer ST_START q w) as [r w'].
    cbn [fst snd] in *. destruct Hw as (_ & _ & _ & P4).
    destruct (P4 Hok) as [Hre _]. rewrite Hb in Hre.
    destruct Hin as [(c & rest & Hrd & Heol)|[Hrd Hio]]; rewrite Hrd in Hre.
    + cbn in Hre. rewrite (is_eol_not_quote c Heol), Heol, (length_pos_gtb _ Hne) in Hre.
      destruct Hre as ((row' & -> & Hfs) & _). exists row'. auto.
    + rewrite Hio in Hre. cbn in Hre. rewrite (length_pos_gtb _ Hne) in Hre.
      destruct Hre as ((row' & -> & Hfs) & _). exists row'. auto.
  - intros p fs w Hd Ha Hok Hp Hne Hin.
    destruct (csv_parse_next_row parser w) as [r w'] eqn:Hcall. cbn [fst snd].
    pose proof (parse_call_ok parser w r w' Hok Hcall) as Hre.
    assert (Hlen : (Z.of_nat (length ([] ++ map block fs)) >? 0) = true).
    { apply length_pos_gtb. destruct fs; [contradiction|discriminate]. }
    assert (Hfin : close_field ([] ++ map block fs) [] = map block (fs ++ [[]])).
    { unfold close_field. cbn. now rewrite map_app. }
    destruct Hin as [(c & rest & Hrd & Heol)|[Hrd Hio]]; rewrite Hrd in Hre.
    + rewrite (scan_closed_fields _ Hd Ha _ p fs) in Hre by assumption.
      cbn [scan] in Hre.
      rewrite (is_eol_not_quote c Heol), Heol, Hlen, Hfin in Hre.
      destruct Hre as ((row' & -> & Hfs) & _ & He). exists row'. auto.
    + rewrite <- (app_nil_r p) in Hre.
      rewrite (scan_closed_fields _ Hd Ha _ p fs) in Hre by assumption.
      rewrite Hio in Hre. cbn [scan] in Hre. rewrite Hlen, Hfin in Hre.
      destruct Hre as ((row' & -> & Hfs) & _ & He). exists row'. auto.
Qed.

(** ** Format errors *)

Section Format.

Variable d : char.
Hypothesis d_valid : is_valid_field_delimiter d = 1.
Hypothesis d_ascii : int_of_char d < 128.
Variable io : bool.

Lemma violation_after_field e s l :
  field_text d e s -> violation d io l -> violation d io (e ++ d :: l).
Proof.
  intros He [H|[H|[H Hio]]].
  - destruct H as (p & fs & u & rest & Hp & Hu & Hpl & ->).
    left. exists (e ++ d :: p), (s :: fs), u, rest.
    repeat apply conj; auto; [now constructor|]. now rewrite <- app_assoc.
  - destruct H as (p & fs & s' & rest & Hp & Hb & ->).
    right; left. exists (e ++ d :: p), (s :: fs), s', rest.
    repeat apply conj; auto; [now constructor|]. now rewrite <- app_assoc.
  - destruct H as (p & fs & s' & Hp & ->).
    right; right. split; [|exact Hio]. exists (e ++ d :: p), (s :: fs), s'.
    split; [now constructor|]. now rewrite <- app_assoc.
Qed.

(** *** From a violation to the error *)

Lemma scan_unquoted_quote u : forall rest fs buf,
  forallb (is_plain d) u = true ->
  scan d io (u ++ QUOTE_CHAR :: rest) ST_INFIELD false fs buf = Err CSV_EINVALID_FORMAT.
Proof.
  induction u as [|c u IH]; intros rest fs buf Hu.
  - reflexivity.
  - cbn in Hu; ascii_d_in Hu. apply andb_true_iff in Hu. destruct Hu as [Hc Hu].
    destruct (is_plain_tests d c Hc) as (H1 & H2 & H3).
    cbn; ascii_d. rewrite H1, H2, H3. now apply IH.
Qed.

Lemma scan_quoted_bad s : forall rest fs buf,
  bad_follow d rest ->
  scan d io (escape s ++ QUOTE_CHAR :: rest) ST_INFIELD true fs buf =
  Err CSV_EINVALID_FORMAT.
Proof.
  induction s as [|c s IH]; intros rest fs buf Hb.
  - destruct rest as [|x rest]; [cbn; ascii_d; reflexivity|].
    destruct Hb as (H1 & H2 & H3). cbn; ascii_d. now rewrite H1, H2, H3.
  - cbn [escape]. destruct (Ascii.eqb c QUOTE_CHAR) eqn:Eq.
    + apply Ascii.eqb_eq in Eq. subst c. cbn; ascii_d. now apply IH.
    + cbn; ascii_d. rewrite Eq.
      destruct (is_eol c); [|destruct (Ascii.eqb c d)]; now apply IH.
Qed.

Lemma scan_quoted_open s : forall fs buf,
  io = false ->
  scan d io (escape s) ST_INFIELD true fs buf = Err CSV_EINVALID_FORMAT.
Proof.
  induction s as [|c s IH]; intros fs buf Hio.
  - cbn; ascii_d. now rewrite Hio.
  - cbn [escape]. destruct (Ascii.eqb c QUOTE_CHAR) eqn:Eq.
    + apply Ascii.eqb_eq in Eq. subst c. cbn; ascii_d. now apply IH.
    + cbn; ascii_d. rewrite Eq.
      destruct (is_eol c); [|destruct (Ascii.eqb c d)]; now apply IH.
Qed.

Lemma violation_scan l fs :
  violation d io l -> scan d io l ST_START false fs [] = Err CSV_EINVALID_FORMAT.
Proof.
  intros [H|[H|[H Hio]]].
  - destruct H as (p & fs' & u & rest & Hp & Hu & Hpl & ->).
    rewrite (scan_closed_fields d d_valid d_ascii io p fs') by assumption.
    destruct u as [|c u]; [contradiction|].
    cbn in Hpl; ascii_d_in Hpl. apply andb_true_iff in Hpl. destruct Hpl as [Hc Hpl].
    destruct (is_plain_tests d c Hc) as (H1 & H2 & H3).
    cbn; ascii_d. rewrite H1, H2, H3. now apply scan_unquoted_quote.
  - destruct H as (p & fs' & s & rest & Hp & Hb & ->).
    rewrite (scan_closed_fields d d_valid d_ascii io p fs') by assumption.
    cbn; ascii_d. now apply scan_quoted_bad.
  - destruct H as (p & fs' & s & Hp & ->).
    rewrite (scan_closed_fields d d_valid d_ascii io p fs') by assumption.
    cbn; ascii_d. now apply scan_quoted_open.
Qed.

(** *** From the error to a violation *)

Lemma scan_unquoted_inv l : forall fs buf,
  scan d io l ST_INFIELD false fs buf = Err CSV_EINVALID_FORMAT ->
  (exists u rest, forallb (is_plain d) u = true /\ l = u ++ QUOTE_CHAR :: rest) \/
  (exists u l' fs', forallb (is_plain d) u = true /\ l = u ++ d :: l' /\
     scan d io l' ST_START false fs' [] = Err CSV_EINVALID_FORMAT).
Proof.
  induction l as [|c l IH]; intros fs buf H.
  - cbn in H; ascii_d_in H. destruct io; discriminate.
  - cbn in H; ascii_d_in H. destruct (Ascii.eqb c QUOTE_CHAR) eqn:Eq.
    { apply Ascii.eqb_eq in Eq. subst c. left. exists [], l. auto. }
    destruct (is_eol c) eqn:Eeol; [discriminate|].
    destruct (Ascii.eqb c d) eqn:Ed.
    { apply Ascii.eqb_eq in Ed. subst c. right. exists [], l. eauto. }
    assert (Hc : is_plain d c = true) by (unfold is_plain; now rewrite Eq, Eeol, Ed).
    destruct (IH _ _ H) as [(u & rest & Hu & ->)|(u & l' & fs' & Hu & -> & Hs)].
    + left. exists (c :: u), rest. cbn; ascii_d. now rewrite Hc, Hu.
    + right. exists (c :: u), l', fs'. cbn; ascii_d. now rewrite Hc, Hu.
Qed.

Lemma scan_quoted_inv n : forall l fs buf,
  (length l <= n)%nat ->
  scan d io l ST_INFIELD true fs buf = Err CSV_EINVALID_FORMAT ->
  (exists s rest, bad_follow d rest /\ l = escape s ++ QUOTE_CHAR :: rest) \/
  (exists s, l = escape s /\ io = false) \/
  (exists s l' fs', l = escape s ++ QUOTE_CHAR :: d :: l' /\
     scan d io l' ST_START false fs' [] = Err CSV_EINVALID_FORMAT).
Proof.
  induction n as [|n IH]; intros l fs buf Hn H.
  - destruct l; [|simpl in Hn; lia].
    cbn in H; ascii_d_in H. right; left. exists []. destruct io; [discriminate|auto].
  - destruct l as [|c l].
    { cbn in H; ascii_d_in H. right; left. exists []. destruct io; [discriminate|auto]. }
    cbn in H; ascii_d_in H. simpl in Hn. destruct (Ascii.eqb c QUOTE_CHAR) eqn:Eq.
    + apply Ascii.eqb_eq in Eq. subst c. destruct l as [|x l].
      { left. exists [], []. cbn; ascii_d. auto. }
      asc. destruct (Ascii.eqb x QUOTE_CHAR) eqn:Eq2.
      { apply Ascii.eqb_eq in Eq2. subst x. simpl in Hn.
        destruct (IH l _ _ ltac:(lia) H)
          as [(s & rest & Hb & ->)|[(s & -> & Hio)|(s & l' & fs' & -> & Hs)]].
        - left. exists (QUOTE_CHAR :: s), rest. auto.
        - right; left. exists (QUOTE_CHAR :: s). auto.
        - right; right. exists (QUOTE_CHAR :: s), l', fs'. auto. }
      destruct (Ascii.eqb x d) eqn:Ed.
      { apply Ascii.eqb_eq in Ed. subst x. right; right. exists [], l. eauto. }
      destruct (is_eol x) eqn:Eeol; [discriminate|].
      left. exists [], (x :: l). cbn; ascii_d. auto.
    + assert (Hrec : scan d io l ST_INFIELD true fs (buf ++ [c]) = Err CSV_EINVALID_FORMAT).
      { destruct (is_eol c); [exact H|]. destruct (Ascii.eqb c d); exact H. }
      destruct (IH l _ _ ltac:(lia) Hrec)
        as [(s & rest & Hb & ->)|[(s & -> & Hio)|(s & l' & fs' & -> & Hs)]].
      * left. exists (c :: s), rest. cbn; ascii_d. now rewrite Eq.
      * right; left. exists (c :: s). cbn; ascii_d. now rewrite Eq.
      * right; right. exists (c :: s), l', fs'. cbn; ascii_d. now rewrite Eq.
Qed.

Lemma scan_violation n : forall l fs,
  (length l <= n)%nat ->
  scan d io l ST_START false fs [] = Err CSV_EINVALID_FORMAT -> violation d io l.
Proof.
  induction n as [|n IH]; intros l fs Hn H.
  - destruct l; [|simpl in Hn; lia].
    cbn in H; ascii_d_in H. destruct io; [discriminate|]. destruct (_ >? _); discriminate.
  - destruct l as [|c l].
    { cbn in H; ascii_d_in H. destruct io; [discriminate|]. destruct (_ >? _); discriminate. }
    cbn in H; ascii_d_in H. simpl in Hn. destruct (Ascii.eqb c QUOTE_CHAR) eqn:Eq.
    { apply Ascii.eqb_eq in Eq. subst c.
      destruct (scan_quoted_inv (length l) l _ _ (le_n _) H)
        as [(s & rest & Hb & ->)|[(s & -> & Hio)|(s & l' & fs' & -> & Hs)]].
      - right; left. exists [], [], s, rest.
        split; [apply closed_nil|]. split; [exact Hb | reflexivity].
      - right; right. split; [|exact Hio]. exists [], [], s.
        split; [apply closed_nil | reflexivity].
      - assert (Hl : (length l' <= n)%nat).
        { rewrite length_app in Hn. simpl in Hn. lia. }
        pose proof (violation_after_field (QUOTE_CHAR :: escape s ++ [QUOTE_CHAR]) s l'
                      (quoted_text d s) (IH l' fs' Hl Hs)) as Hv.
        rewrite <- app_comm_cons, <- app_assoc in Hv. exact Hv. }
    destruct (is_eol c) eqn:Eeol; [discriminate|].
    destruct (Ascii.eqb c d) eqn:Ed.
    { apply Ascii.eqb_eq in Ed. subst c.
      apply (violation_after_field [] [] l (unquoted_text d [] eq_refl)).
      apply (IH l _ ltac:(lia) H). }
    assert (Hc : is_plain d c = true) by (unfold is_plain; now rewrite Eq, Eeol, Ed).
    destruct (scan_unquoted_inv l _ _ H)
      as [(u & rest & Hu & ->)|(u & l' & fs' & Hu & -> & Hs)].
    + left. exists [], [], (c :: u), rest.
      split; [apply closed_nil|]. split; [discriminate|].
      split; [cbn; now rewrite Hc, Hu | reflexivity].
    + assert (Hl : (length l' <= n)%nat).
      { rewrite length_app in Hn. simpl in Hn. lia. }
      assert (Hcu : forallb (is_plain d) (c :: u) = true) by (cbn; now rewrite Hc, Hu).
      apply (violation_after_field (c :: u) (c :: u) l' (unquoted_text d _ Hcu)).
      apply (IH l' fs' Hl Hs).
Qed.

Lemma scan_violation_iff l fs :
  scan d io l ST_START false fs [] = Err CSV_EINVALID_FORMAT <-> violation d io l.
Proof.
  split; [apply (scan_violation (length l)); lia | apply violation_scan].
Qed.

End Format.

(** X24.  With a valid delimiter below 128, enough memory and [*err = NULL]
    at the call, [csv_parse_next_row] fails with [CSV_EINVALID_FORMAT]
    exactly when the row at the head of the input has a quote inside an
    unquoted field,
    or a closing quote followed by something else than the delimiter or a
    line terminator (the end of the input included), or when the input ends,
    without a read error, inside a quoted field. *)
Theorem invalid_format_iff (parser : csv_parser_t) (w : world) :
  is_valid_field_delimiter (field_delimiter parser) = 1 ->
  int_of_char (field_delimiter parser) < 128 ->
  never_oom (heap w) ->
  err w = NULL ->
  fails_with CSV_EINVALID_FORMAT (csv_parse_next_row parser w) <->
  quote_in_unquoted (field_delimiter parser) (rd (file w)) \/
  bad_closing_quote (field_delimiter parser) (rd (file w)) \/
  (unclosed_quote (field_delimiter parser) (rd (file w)) /\ io_error (file w) = false).
Proof.
  intros Hd Ha Hok He0.
  change (fails_with CSV_EINVALID_FORMAT (csv_parse_next_row parser w) <->
          violation (field_delimiter parser) (io_error (file w)) (rd (file w))).
  rewrite <- (scan_violation_iff _ Hd Ha _ _ []).
  destruct (csv_parse_next_row parser w) as [r w'] eqn:Hcall.
  pose proof (parse_call_ok parser w r w' Hok Hcall) as Hre.
  unfold fails_with. cbn [fst snd].
  destruct (scan _ _ _ _ _ _ _) as [fs rest| |code]; cbn in Hre.
  - destruct Hre as ((row & -> & _) & _). split; [intros (? & _)|]; discriminate.
  - destruct Hre as (_ & _ & He). split; [intros (_ & Hne & _)|discriminate].
    congruence.
  - destruct Hre as (-> & Hne & Hc). split.
    + intros (_ & _ & Hc'). congruence.
    + intros [= ->]. auto.
Qed.

Lemma invalid_format_iff_witness :
  let parser := {| field_delimiter := COMMA_CHAR |} in
  let w := world0 (bytes "ab" ++ [QUOTE_CHAR] ++ bytes "cd" ++ [LF_CHAR]) in
  is_valid_field_delimiter (field_delimiter parser) = 1 /\
  int_of_char (field_delimiter parser) < 128 /\
  never_oom (heap w) /\ err w = NULL /\
  quote_in_unquoted (field_delimiter parser) (rd (file w)) /\
  fails_with CSV_EINVALID_FORMAT (csv_parse_next_row parser w).
Proof.
  intros parser w.
  assert (Hd : is_valid_field_delimiter (field_delimiter parser) = 1) by reflexivity.
  assert (Ha : int_of_char (field_delimiter parser) < 128) by reflexivity.
  assert (Hm : never_oom (heap w)) by reflexivity.
  assert (He : err w = NULL) by reflexivity.
  assert (Hq : quote_in_unquoted (field_delimiter parser) (rd (file w))).
  { exists [], [], (bytes "ab"), (bytes "cd" ++ [LF_CHAR]).
    split; [apply closed_nil|]. split; [discriminate|]. split; reflexivity. }
  pose proof (proj2 (invalid_format_iff parser w Hd Ha Hm He) (or_introl Hq)) as Hf.
  exact (conj Hd (conj Ha (conj Hm (conj He (conj Hq Hf))))).
Defined.

Lemma trailing_delimiter_witness :
  let parser := {| field_delimiter := COMMA_CHAR |} in
  let w := world0 (bytes "a,b," ++ [LF_CHAR] ++ bytes "c") in
  is_valid_field_delimiter (field_delimiter parser) = 1 /\
  int_of_char (field_delimiter parser) < 128 /\
  never_oom (heap w) /\
  closed_fields (field_delimiter parser) (bytes "a,b,") [bytes "a"; bytes "b"] /\
  exists row,
    fst (csv_parse_next_row parser w) = Some row /\
    r_fields row = [block (bytes "a"); block (bytes "b"); block []].
Proof.
  intros parser w.
  assert (Hd : is_valid_field_delimiter (field_delimiter parser) = 1) by reflexivity.
  assert (Ha : int_of_char (field_delimiter parser) < 128) by reflexivity.
  assert (Hm : never_oom (heap w)) by reflexivity.
  assert (Hc : closed_fields (field_delimiter parser) (bytes "a,b,") [bytes "a"; bytes "b"]).
  { apply (closed_cons COMMA_CHAR (bytes "a") (bytes "a") (bytes "b,") [bytes "b"]).
    - apply unquoted_text. reflexivity.
    - apply (closed_cons COMMA_CHAR (bytes "b") (bytes "b") [] []).
      + apply unquoted_text. reflexivity.
      + apply closed_nil. }
  split; [exact Hd|]. split; [exact Ha|]. split; [exact Hm|]. split; [exact Hc|].
  destruct (proj2 (trailing_delimiter parser) (bytes "a,b,") [bytes "a"; bytes "b"] w
              Hd Ha Hm Hc ltac:(discriminate)
              (or_introl (ex_intro _ LF_CHAR (ex_intro _ (bytes "c") (conj eq_refl eq_refl)))))
    as (row & Hr & Hf & _).
  exists row. split; assumption.
Defined.

(** ** The writer *)

Lemma writes_ok_plan (f : FILE) :
  writes_ok f ->
  match wr_plan f with
  | false :: _ => False
  | _ => forallb id (tl (wr_plan f)) = true
  end.
Proof.
  unfold writes_ok. destruct (wr_plan f) as [|[] pl]; simpl; auto. discriminate.
Qed.

Lemma csv_write_str_ok (writer : csv_writer_t) (str : list char) w :
  writes_ok (file w) ->
  wp (csv_write_str writer str) (wrote (c_str str) w) w.
Proof.
  intros Hok. apply writes_ok_plan in Hok.
  unfold csv_write_str. apply wp_bind. unfold wp at 1, fputs.
  destruct (wr_plan (file w)) as [|[] pl] eqn:E; try contradiction;
    cbn [fst snd]; apply wp_ret; unfold wrote, writes_ok; cbn;
    rewrite ?E; auto 8.
Qed.

Lemma wrote_refl w : writes_ok (file w) -> wrote [] w SUCCEED w.
Proof. unfold wrote. intros H. rewrite app_nil_r. auto 8. Qed.

Lemma wrote_trans out1 out2 w w1 w2 res :
  wrote out1 w SUCCEED w1 -> wrote out2 w1 res w2 -> wrote (out1 ++ out2) w res w2.
Proof.
  unfold wrote. intros (_ & A2 & A3 & A4 & A5 & A6) (B1 & B2 & B3 & B4 & B5 & B6).
  repeat apply conj; try congruence. rewrite B2, A2. now rewrite app_assoc.
Qed.

Lemma c_str_char (c : char) : Ascii.eqb c NUL = false -> c_str [c; NUL] = [c].
Proof. intros H. cbn. now rewrite H. Qed.

Lemma write_content_ok (writer : csv_writer_t) (p : list char) : forall w,
  writes_ok (file w) ->
  wp (write_content writer p) (wrote (escape (c_str p)) w) w.
Proof.
  induction p as [|c p IH]; intros w Hok.
  - apply wp_ret. now apply wrote_refl.
  - cbn [write_content c_str]. destruct (Ascii.eqb c NUL) eqn:En.
    { apply wp_ret. now apply wrote_refl. }
    cbn [escape]. apply wp_bind.
    destruct (Ascii.eqb c QUOTE_CHAR) eqn:Eq.
    + eapply wp_mono; [apply csv_write_str_ok; exact Hok|]. cbv beta.
      intros res w1 Hw. pose proof Hw as (-> & _ & Hok1 & _). cbn.
      eapply wp_mono; [apply IH; exact Hok1|]. cbv beta. intros res w2 Hw2.
      apply (wrote_trans [QUOTE_CHAR; QUOTE_CHAR] _ _ _ _ _ Hw Hw2).
    + unfold csv_write_char.
      eapply wp_mono; [apply csv_write_str_ok; exact Hok|]. cbv beta.
      intros res w1 Hw. pose proof Hw as (-> & _ & Hok1 & _). cbn.
      rewrite (c_str_char c En) in Hw.
      eapply wp_mono; [apply IH; exact Hok1|]. cbv beta. intros res w2 Hw2.
      apply (wrote_trans [c] _ _ _ _ _ Hw Hw2).
Qed.

Lemma scan_need_quote_spec (writer : csv_writer_t) (p : list char) :
  scan_need_quote writer p = existsb (needs_quoting (w_field_delimiter writer)) (c_str p).
Proof.
  induction p as [|c p IH]; [reflexivity|].
  cbn [scan_need_quote c_str]. destruct (Ascii.eqb c NUL); [reflexivity|].
  cbn [existsb]. unfold needs_quoting at 1.
  destruct (_ || _ || _ || _); [reflexivity | exact IH].
Qed.

Lemma csv_write_field_ok (writer : csv_writer_t) (field : list char) (i n : Z) w :
  writes_ok (file w) ->
  wp (csv_write_field writer field i n) (wrote (field_image writer field i n) w) w.
Proof.
  intros Hok. unfold csv_write_field, field_image, need_quote_of.
  rewrite scan_need_quote_spec.
  set (nq := if quote_style writer =? QUOTE_ALL then true
             else existsb (needs_quoting (w_field_delimiter writer)) (c_str field)).
  apply wp_bind.
  assert (H1 : wp (if nq then csv_write_char writer QUOTE_CHAR else ret SUCCEED)
                  (wrote (if nq then [QUOTE_CHAR] else []) w) w).
  { destruct nq; [apply csv_write_str_ok; exact Hok | apply wp_ret; now apply wrote_refl]. }
  eapply wp_mono; [exact H1|]. cbv beta. clear H1.
  intros r1 w1 Hw1. pose proof Hw1 as (-> & _ & Hok1 & _).
  replace (nq && (SUCCEED =? FAIL)) with false by (now destruct nq).
  apply wp_bind. eapply wp_mono; [apply write_content_ok; exact Hok1|]. cbv beta.
  intros res w2 Hw2. pose proof Hw2 as (-> & _ & Hok2 & _). cbn [Z.eqb SUCCEED FAIL].
  change (SUCCEED =? FAIL) with false. cbv iota.
  apply wp_bind.
  assert (H3 : wp (if nq then csv_write_char writer QUOTE_CHAR else ret SUCCEED)
                  (wrote (if nq then [QUOTE_CHAR] else []) w2) w2).
  { destruct nq; [apply csv_write_str_ok; exact Hok2 | apply wp_ret; now apply wrote_refl]. }
  eapply wp_mono; [exact H3|]. cbv beta. clear H3.
  intros r3 w3 Hw3. pose proof Hw3 as (-> & _ & Hok3 & _).
  replace (nq && (SUCCEED =? FAIL)) with false by (now destruct nq).
  pose proof (wrote_trans _ _ _ _ _ _ Hw1 (wrote_trans _ _ _ _ _ _ Hw2 Hw3)) as Hw.
  destruct (i <? n - 1).
  - unfold csv_write_char.
    eapply wp_mono; [apply csv_write_str_ok; exact Hok3|]. cbv beta.
    intros r4 w4 Hw4. pose proof Hw4 as (-> & _).
    pose proof (wrote_trans _ _ _ _ _ _ Hw Hw4) as Hfin.
    now rewrite <- !app_assoc in Hfin.
  - apply wp_ret. pose proof (wrote_trans _ _ _ _ _ _ Hw (wrote_refl w3 Hok3)) as Hfin.
    now rewrite <- !app_assoc in Hfin.
Qed.

Lemma write_fields_ok (writer : csv_writer_t) (fields : list (list char)) :
  forall (i n : Z) w,
  writes_ok (file w) ->
  wp (write_fields writer fields i n) (wrote (fields_image writer fields i n) w) w.
Proof.
  induction fields as [|field rest IH]; intros i n w Hok.
  - apply wp_ret. now apply wrote_refl.
  - cbn [write_fields fields_image]. apply wp_bind.
    eapply wp_mono; [apply csv_write_field_ok; exact Hok|]. cbv beta.
    intros res w1 Hw1. pose proof Hw1 as (-> & _ & Hok1 & _).
    change (SUCCEED =? FAIL) with false. cbv iota.
    eapply wp_mono; [apply IH; exact Hok1|]. cbv beta. intros res w2 Hw2.
    apply (wrote_trans _ _ _ _ _ _ Hw1 Hw2).
Qed.

Lemma csv_write_newline_ok (writer : csv_writer_t) w :
  writes_ok (file w) ->
  wp (csv_write_newline writer) (wrote (newline_bytes writer) w) w.
Proof.
  intros Hok. unfold csv_write_newline, newline_bytes.
  destruct (line_break writer =? LINEBREAK_LF);
    [|destruct (line_break writer =? LINEBREAK_CRLF)].
  - exact (csv_write_str_ok writer LF_STR w Hok).
  - exact (csv_write_str_ok writer CRLF_STR w Hok).
  - exact (csv_write_str_ok writer CR_STR w Hok).
Qed.

Lemma csv_write_row_ok (writer : csv_writer_t) (row : csv_row_t) w :
  writes_ok (file w) ->
  wp (csv_write_row writer row) (wrote (row_image writer row) w) w.
Proof.
  intros Hok. unfold csv_write_row, row_image, csv_row_field_count, r_len,
    csv_row_field_get.
  apply wp_bind.
  set (body := match r_fields row with
               | [] => []
               | [field] =>
                   if Ascii.eqb (nth 0 field NUL) NUL then [QUOTE_CHAR; QUOTE_CHAR]
                   else fields_image writer [field] 0 1
               | fields => fields_image writer fields 0 (Z.of_nat (length fields))
               end).
  assert (H1 : wp (if Z.of_nat (length (r_fields row)) =? 0 then ret SUCCEED
                   else if (Z.of_nat (length (r_fields row)) =? 1)
                           && Ascii.eqb (nth 0 (nth (Z.to_nat 0) (r_fields row) []) NUL) NUL
                   then csv_write_str writer DOUBLE_QUOTES_STR
                   else write_fields writer (r_fields row) 0
                          (Z.of_nat (length (r_fields row))))
                  (wrote body w) w).
  { subst body. destruct (r_fields row) as [|f [|f2 fs]].
    - apply wp_ret. now apply wrote_refl.
    - change (Z.of_nat (length [f])) with 1.
      change (1 =? 0) with false. change (1 =? 1) with true.
      change (Z.to_nat 0) with O. cbn [nth andb].
      destruct (Ascii.eqb (nth 0 f NUL) NUL).
      + exact (csv_write_str_ok writer DOUBLE_QUOTES_STR w Hok).
      + exact (write_fields_ok writer [f] 0 1 w Hok).
    - replace (Z.of_nat (length (f :: f2 :: fs)) =? 0) with false
        by (symmetry; apply Z.eqb_neq; cbn [length]; lia).
      replace (Z.of_nat (length (f :: f2 :: fs)) =? 1) with false
        by (symmetry; apply Z.eqb_neq; cbn [length]; lia).
      cbn [andb]. exact (write_fields_ok writer _ 0 _ w Hok). }
  eapply wp_mono; [exact H1|]. cbv beta. clear H1.
  intros res w1 Hw1. pose proof Hw1 as (-> & _ & Hok1 & _).
  change (SUCCEED =? FAIL) with false. cbv iota.
  eapply wp_mono; [apply csv_write_newline_ok; exact Hok1|]. cbv beta.
  intros res w2 Hw2. apply (wrote_trans _ _ _ _ _ _ Hw1 Hw2).
Qed.

(** ** Empty row and empty single field *)

Lemma newline_bytes_terminator (writer : csv_writer_t) :
  valid_writer writer -> terminator (newline_bytes writer).
Proof.
  intros (_ & _ & [H|[H|H]]); unfold newline_bytes, terminator; rewrite H; cbn; auto.
Qed.

(** The bytes a call leaves unread after a quoted last field: the closing
    quote's look-ahead has taken the first byte of the terminator, and
    [consume_end_of_line] is then given the quote, so that of a CR LF
    terminator the LF stays in the stream. *)
Lemma closing_quote_residue (parser : csv_parser_t) (s t rest : list char) (w : world) :
  is_valid_field_delimiter (field_delimiter parser) = 1 ->
  never_oom (heap w) ->
  terminator t ->
  rd (file w) = QUOTE_CHAR :: escape s ++ QUOTE_CHAR :: t ++ rest ->
  exists row,
    fst (csv_parse_next_row parser w) = Some row /\
    r_fields row = [block s] /\
    rd (file (snd (csv_parse_next_row parser w))) = tl t ++ rest.
Proof.
  intros Hd Hok Ht Hrd.
  destruct (valid_delimiter_tests _ Hd) as (Hcr & Hlf & Hq).
  destruct (csv_parse_next_row parser w) as [r w'] eqn:Hcall.
  pose proof (parse_call_ok parser w r w' Hok Hcall) as Hre.
  rewrite Hrd in Hre. cbn [scan] in Hre. cbn [Ascii.eqb] in Hre.
  assert (Hgen : forall buf,
    scan (field_delimiter parser) (io_error (file w))
      (escape s ++ QUOTE_CHAR :: t ++ rest) ST_INFIELD true [] buf =
    Row [block (buf ++ s)] (tl t ++ rest)).
  { clear Hre Hrd. induction s as [|c s IH]; intros buf.
    - destruct Ht as [-> | [-> | ->]]; cbn; rewrite ?Hq, ?Hcr, ?Hlf; cbn;
        now rewrite app_nil_r.
    - cbn [escape]. destruct (Ascii.eqb c QUOTE_CHAR) eqn:Eq.
      + apply Ascii.eqb_eq in Eq. subst c. cbn. rewrite IH. now rewrite <- app_assoc.
      + cbn. rewrite Eq.
        destruct (is_eol c); [|destruct (is_delimiter (field_delimiter parser) c)];
          rewrite IH, <- app_assoc; reflexivity. }
  change (Ascii.eqb QUOTE_CHAR QUOTE_CHAR) with true in Hre. cbv iota in Hre.
  rewrite Hgen in Hre. cbn in Hre.
  destruct Hre as ((row & -> & Hfs) & Hrest & _). exists row. auto.
Qed.

(** ** Quote doubling *)









(** ** Fields are read as C strings *)

Lemma c_str_truncate (s : list char) : c_str (truncate_field s) = c_str s.
Proof.
  unfold truncate_field, block. induction s as [|c s IH]; [reflexivity|].
  cbn [c_str]. destruct (Ascii.eqb c NUL) eqn:E; [reflexivity|].
  cbn [c_str app]. now rewrite E, IH.
Qed.

Lemma nth0_truncate (s : list char) : nth 0 (truncate_field s) NUL = nth 0 s NUL.
Proof.
  unfold truncate_field, block. destruct s as [|c s]; [reflexivity|].
  cbn [c_str]. destruct (Ascii.eqb c NUL) eqn:E; [|reflexivity].
  apply Ascii.eqb_eq in E. now subst c.
Qed.

Lemma write_content_truncate (writer : csv_writer_t) (s : list char) : forall w,
  write_content writer (truncate_field s) w = write_content writer s w.
Proof.
  unfold truncate_field, block. induction s as [|c s IH]; intros w; [reflexivity|].
  cbn [c_str write_content]. destruct (Ascii.eqb c NUL) eqn:E; [reflexivity|].
  cbn [app write_content]. rewrite E. unfold bind.
  destruct ((if Ascii.eqb c QUOTE_CHAR then csv_write_str writer DOUBLE_QUOTES_STR
             else csv_write_char writer c) w) as [res w1].
  destruct (res =? FAIL); [reflexivity | apply IH].
Qed.

Lemma csv_write_field_truncate (writer : csv_writer_t) (field : list char) (i n : Z) w :
  csv_write_field writer (truncate_field field) i n w = csv_write_field writer field i n w.
Proof.
  unfold csv_write_field. rewrite !scan_need_quote_spec, c_str_truncate.
  set (nq := if quote_style writer =? QUOTE_ALL then true else _).
  unfold bind.
  destruct ((if nq then csv_write_char writer QUOTE_CHAR else ret SUCCEED) w) as [r1 w1].
  destruct (nq && (r1 =? FAIL)); [reflexivity|].
  now rewrite write_content_truncate.
Qed.

Lemma write_fields_truncate (writer : csv_writer_t) (fields : list (list char)) :
  forall (i n : Z) w,
  write_fields writer (map truncate_field fields) i n w = write_fields writer fields i n w.
Proof.
  induction fields as [|f fields IH]; intros i n w; [reflexivity|].
  cbn [map write_fields]. unfold bind. rewrite csv_write_field_truncate.
  destruct (csv_write_field writer f i n w) as [res w1].
  destruct (res =? FAIL); [reflexivity | apply IH].
Qed.

Lemma csv_write_row_truncate (writer : csv_writer_t) (row : csv_row_t) w :
  csv_write_row writer (truncate_row row) w = csv_write_row writer row w.
Proof.
  unfold csv_write_row, truncate_row, csv_row_field_count, r_len, csv_row_field_get.
  cbn [r_fields]. rewrite length_map. unfold bind.
  assert (Hfirst : nth 0 (nth (Z.to_nat 0) (map truncate_field (r_fields row)) []) NUL =
                   nth 0 (nth (Z.to_nat 0) (r_fields row) []) NUL).
  { destruct (r_fields row) as [|f fs]; [reflexivity|]. cbn. apply nth0_truncate. }
  rewrite Hfirst.
  destruct (Z.of_nat (length (r_fields row)) =? 0); [reflexivity|].
  destruct ((Z.of_nat (length (r_fields row)) =? 1) && _); [reflexivity|].
  now rewrite write_fields_truncate.
Qed.

Lemma c_str_block (s : list char) : c_str (block s) = c_str s.
Proof.
  unfold block. induction s as [|c s IH]; [reflexivity|].
  cbn [app c_str]. destruct (Ascii.eqb c NUL); [reflexivity | now rewrite IH].
Qed.

(** C10.  The writer reads every field as a NUL-terminated string:
    [csv_write_field] and [csv_write_row] behave on a field block as on the
    block cut at its first NUL, and what [csv_write_field] emits (when no
    write fails) is built from the bytes before that NUL; the special case
    of the single empty field applies as soon as the sole field's first
    byte is NUL; and a row whose last field was appended by
    [csv_row_append_field] with a length reaching beyond an embedded NUL is
    written as if that field ended at the NUL. *)
Theorem fields_are_c_strings (writer : csv_writer_t) :
  (forall field i n w,
     csv_write_field writer field i n w =
     csv_write_field writer (truncate_field field) i n w) /\
  (forall row w,
     csv_write_row writer row w = csv_write_row writer (truncate_row row) w) /\
  (forall field i n w,
     writes_ok (file w) ->
     wrote ((if need_quote_of writer field then [QUOTE_CHAR] else []) ++
            escape (c_str field) ++
            (if need_quote_of writer field then [QUOTE_CHAR] else []) ++
            (if i <? n - 1 then c_str [w_field_delimiter writer; NUL] else []))
       w (fst (csv_write_field writer field i n w))
       (snd (csv_write_field writer field i n w))) /\
  (forall row field w,
     r_fields row = [field] -> nth 0 field NUL = NUL -> writes_ok (file w) ->
     wrote ([QUOTE_CHAR; QUOTE_CHAR] ++ newline_bytes writer) w
       (fst (csv_write_row writer row w)) (snd (csv_write_row writer row w))) /\
  (forall row field len w0 row' w0',
     csv_row_append_field row field len w0 = ((SUCCEED, row'), w0') ->
     r_fields row' = r_fields row ++ [block (firstn len field)] /\
     forall w,
       csv_write_row writer row' w =
       csv_write_row writer
         {| r_capacity := r_capacity row';
            r_fields := map truncate_field (r_fields row)
                          ++ [block (c_str (firstn len field))] |} w).
Proof.
  split; [|split; [|split; [|split]]].
  - intros. symmetry. apply csv_write_field_truncate.
  - intros. symmetry. apply csv_write_row_truncate.
  - intros field i n w Hok. exact (csv_write_field_ok writer field i n w Hok).
  - intros row field w Hr Hn Hok.
    pose proof (csv_write_row_ok writer row w Hok) as Hw. unfold wp, row_image in Hw.
    rewrite Hr, Hn in Hw. exact Hw.
  - intros row field len w0 row' w0' Happ.
    pose proof (wp_run _ _ _ _ _ (csv_row_append_field_spec row field len w0) Happ)
      as (_ & [(_ & Hfs & _)|(Hf & _)] & _); [|discriminate].
    cbn [snd] in Hfs. split; [exact Hfs|]. intros w.
    rewrite <- (csv_write_row_truncate writer row' w). unfold truncate_row.
    rewrite Hfs, map_app. cbn [map]. unfold truncate_field at 2.
    fold (block (firstn len field)). now rewrite c_str_block.
Qed.

Lemma fields_are_c_strings_witness :
  let writer := {| w_field_delimiter := COMMA_CHAR; quote_style := QUOTE_MINIMAL;
                   line_break := LINEBREAK_LF |} in
  let row := {| r_capacity := 32; r_fields := [] |} in
  let field := bytes "ab" ++ [NUL] ++ bytes "cd" in
  let row' := snd (fst (csv_row_append_field row field 5 (world0 []))) in
  csv_row_append_field row field 5 (world0 []) =
    ((SUCCEED, row'), snd (csv_row_append_field row field 5 (world0 []))) /\
  r_fields row' = [block field] /\
  wr (file (snd (csv_write_row writer row' (world0 [])))) = bytes "ab" ++ [LF_CHAR].
Proof.
  intros writer row field row'.
  assert (Happ : csv_row_append_field row field 5 (world0 []) =
                 ((SUCCEED, row'), snd (csv_row_append_field row field 5 (world0 []))))
    by reflexivity.
  destruct (fields_are_c_strings writer) as (_ & _ & _ & _ & H).
  destruct (H row field 5%nat (world0 []) row' _ Happ) as [Hfs Hwr].
  split; [exact Happ|]. split; [exact Hfs|].
  rewrite Hwr. reflexivity.
Defined.

(** ** The canonical out-of-memory error *)

Lemma csv_error_new_oom (msg : list char) w :
  csv_error_new CSV_ENOMEMORY msg w = (csv_error_oom, w).
Proof. reflexivity. Qed.

Lemma csv_error_free_oom w : csv_error_free csv_error_oom w = (tt, w).
Proof. reflexivity. Qed.

(** Evaluation of [csv_error_new] for a kind other than [CSV_ENOMEMORY],
    by what the next two allocations do. *)
Lemma csv_error_new_eval (code : Z) (msg : list char) w :
  code <> CSV_ENOMEMORY ->
  let e := heap_base + Z.of_nat (brk (heap w)) in
  let q := heap_base + Z.of_nat (S (brk (heap w))) in
  let r := csv_error_new code msg w in
  (fails_within_two (plan (heap w)) = true /\
   fst r = csv_error_oom /\
   (store (heap (snd r)) = store (heap w) \/
    store (heap (snd r)) = delete e (<[e := OError code NULL]> (store (heap w))))) \/
  (fails_within_two (plan (heap w)) = false /\
   fst r = e /\
   store (heap (snd r)) =
     <[q := OString (c_str msg ++ [NUL])]>
       (<[e := OError code q]> (<[e := OError code NULL]> (store (heap w))))).
Proof.
  intros Hne e q r.
  assert (Hr : r =
    match plan (heap w) with
    | false :: pl =>
        (csv_error_oom,
         {| file := file w;
            heap := {| store := store (heap w); brk := brk (heap w); plan := pl |};
            err := err w |})
    | _ :: false :: pl =>
        (csv_error_oom,
         {| file := file w;
            heap := {| store := delete e (<[e := OError code NULL]> (store (heap w)));
                       brk := S (brk (heap w)); plan := pl |};
            err := err w |})
    | pl =>
        (e,
         {| file := file w;
            heap := {| store := <[q := OString (c_str msg ++ [NUL])]>
                                  (<[e := OError code q]>
                                     (<[e := OError code NULL]> (store (heap w))));
                       brk := S (S (brk (heap w))); plan := tl (tl pl) |};
            err := err w |})
    end).
  { subst r e q. unfold csv_error_new. rewrite (proj2 (Z.eqb_neq _ _) Hne).
    unfold bind at 1. unfold malloc at 1.
    destruct (plan (heap w)) as [|[] pl] eqn:E.
    - rewrite heap_addr_not_null. unfold bind at 1. unfold poke at 1.
      unfold bind at 1. unfold malloc at 1. cbn [heap plan tl brk store file err].
      rewrite heap_addr_not_null. reflexivity.
    - rewrite heap_addr_not_null. unfold bind at 1. unfold poke at 1.
      unfold bind at 1. unfold malloc at 1. cbn [heap plan tl brk store file err].
      destruct pl as [|[] pl']; [rewrite heap_addr_not_null; reflexivity ..|].
      reflexivity.
    - reflexivity. }
  rewrite Hr. clear Hr.
  destruct (plan (heap w)) as [|[] [|[] pl]]; cbn [fst snd heap store fails_within_two];
    first [ left; repeat apply conj; auto; fail | right; repeat apply conj; auto; fail ].
Qed.

Lemma heap_addr_not_oom (n : nat) : heap_base + Z.of_nat n <> csv_error_oom.
Proof. unfold heap_base, csv_error_oom, GLOBAL_OOM_addr. lia. Qed.

(** C9.  Creating an error of kind [CSV_ENOMEMORY] allocates nothing and
    returns the address of the one global instance; for another kind the
    global instance is returned exactly when one of the two allocations
    fails, and then no block stays allocated.  [csv_error_free] on the
    global instance changes nothing; on another error it frees the message
    and the error, so that freeing an error [csv_error_new] has created
    restores the store. *)
Theorem canonical_oom :
  (forall msg w, csv_error_new CSV_ENOMEMORY msg w = (csv_error_oom, w)) /\
  (forall code msg w,
     code <> CSV_ENOMEMORY ->
     (fst (csv_error_new code msg w) = csv_error_oom <->
      fails_within_two (plan (heap w)) = true)) /\
  (forall code msg w,
     fresh (heap w) ->
     fst (csv_error_new code msg w) = csv_error_oom ->
     store (heap (snd (csv_error_new code msg w))) = store (heap w)) /\
  (forall w, csv_error_free csv_error_oom w = (tt, w)) /\
  (forall w e c q,
     error_code_at (heap w) e = Some c -> c <> CSV_ENOMEMORY ->
     message_at (heap w) e = Some q ->
     store (heap (snd (csv_error_free e w))) = delete e (delete q (store (heap w)))) /\
  (forall code msg w e w1,
     fresh (heap w) ->
     csv_error_new code msg w = (e, w1) -> e <> csv_error_oom ->
     error_code_at (heap w1) e = Some code /\
     (exists q, message_at (heap w1) e = Some q /\
                load (heap w1) q = Some (OString (c_str msg ++ [NUL]))) /\
     store (heap (snd (csv_error_free e w1))) = store (heap w)).
Proof.
  split; [|split; [|split; [|split; [|split]]]].
  - intros. reflexivity.
  - intros code msg w Hne.
    destruct (csv_error_new_eval code msg w Hne) as [(Hf & He & _)|(Hf & He & _)];
      rewrite He, Hf.
    + split; auto.
    + split; [intros H; now apply heap_addr_not_oom in H | discriminate].
  - intros code msg w Hfresh Hoom.
    destruct (Z.eq_dec code CSV_ENOMEMORY) as [->|Hne]; [reflexivity|].
    destruct (csv_error_new_eval code msg w Hne) as [(_ & _ & [Hs|Hs])|(_ & He & _)].
    + exact Hs.
    + rewrite Hs. rewrite delete_insert_eq. apply delete_id. apply Hfresh. lia.
    + rewrite He in Hoom. now apply heap_addr_not_oom in Hoom.
  - intros. reflexivity.
  - intros w e c q Hc Hne Hq. unfold csv_error_free. rewrite Hc, Hq.
    rewrite (proj2 (Z.eqb_neq _ _) Hne). reflexivity.
  - intros code msg w e w1 Hfresh Hnew Hoom.
    destruct (Z.eq_dec code CSV_ENOMEMORY) as [->|Hne].
    { rewrite csv_error_new_oom in Hnew. congruence. }
    pose proof (csv_error_new_eval code msg w Hne) as Hev. rewrite Hnew in Hev.
    cbn [fst snd] in Hev. destruct Hev as [(_ & He & _)|(_ & He & Hs)]; [congruence|].
    subst e.
    set (e := heap_base + Z.of_nat (brk (heap w))) in *.
    set (q := heap_base + Z.of_nat (S (brk (heap w)))) in *.
    assert (Hqe : q <> e) by (subst q e; lia).
    assert (Hle : load (heap w1) e = Some (OError code q)).
    { unfold load. subst e. rewrite static_obj_heap, Hs.
      rewrite lookup_insert_ne by exact Hqe. apply lookup_insert_eq. }
    assert (Hlq : load (heap w1) q = Some (OString (c_str msg ++ [NUL]))).
    { unfold load. subst q. rewrite static_obj_heap, Hs. apply lookup_insert_eq. }
    assert (Hc : error_code_at (heap w1) e = Some code)
      by (unfold error_code_at; now rewrite Hle).
    assert (Hm : message_at (heap w1) e = Some q)
      by (unfold message_at; now rewrite Hle).
    split; [exact Hc|]. split; [eauto|].
    unfold csv_error_free. rewrite Hc, Hm, (proj2 (Z.eqb_neq _ _) Hne).
    cbn. rewrite Hs. rewrite delete_insert_eq.
    rewrite insert_insert_eq, (delete_insert_ne _ q e) by exact Hqe.
    rewrite delete_insert_eq.
    rewrite (delete_id _ q) by (apply Hfresh; lia).
    apply delete_id. apply Hfresh. lia.
Qed.

Lemma fresh_mem0 : fresh mem0.
Proof. intros n _. apply lookup_empty. Qed.

Lemma canonical_oom_witness :
  let w := world0 [] in
  let r := csv_error_new CSV_EIO (lit "read failed") w in
  fresh (heap w) /\ fst r <> csv_error_oom /\
  error_code_at (heap (snd r)) (fst r) = Some CSV_EIO /\
  store (heap (snd (csv_error_free (fst r) (snd r)))) = store (heap w).
Proof.
  intros w r.
  assert (Hf : fresh (heap w)) by exact fresh_mem0.
  assert (Hne : fst r <> csv_error_oom) by discriminate.
  destruct canonical_oom as (_ & _ & _ & _ & _ & H).
  destruct (H CSV_EIO (lit "read failed") w (fst r) (snd r) Hf
              (surjective_pairing r) Hne) as (Hc & _ & Hs).
  split; [exact Hf|]. split; [exact Hne|]. split; [exact Hc | exact Hs].
Defined.

(** ** CR LF after a closing quote *)

(** C2, at a failing input.  The same row, quoted, ended by LF, by CR
    and by CR LF: the first two inputs parse to the one row, the third to
    that row followed by a row of zero fields, because the LF is still in
    the stream when the first call returns. *)
Theorem crlf_after_closing_quote :
  let parser := {| field_delimiter := COMMA_CHAR |} in
  let quoted_a := [QUOTE_CHAR] ++ bytes "a" ++ [QUOTE_CHAR] in
  let rows_of input := map r_fields (fst (parse_all parser (world0 input))) in
  rows_of (quoted_a ++ [LF_CHAR]) = [[lit "a"]] /\
  rows_of (quoted_a ++ [CR_CHAR]) = [[lit "a"]] /\
  rows_of (quoted_a ++ [CR_CHAR; LF_CHAR]) = [[lit "a"]; []] /\
  rd (file (snd (csv_parse_next_row parser (world0 (quoted_a ++ [CR_CHAR; LF_CHAR])))))
    = [LF_CHAR] /\
  rows_of (bytes "a" ++ [CR_CHAR; LF_CHAR]) = [[lit "a"]].
Proof. vm_compute. repeat split. Qed.

(** ** Writing, then parsing *)

(** C1, at a failing input.  One row of one field, written with every field
    quoted and CR LF line breaks, is read back as two rows. *)
Theorem round_trip_crlf :
  let writer := {| w_field_delimiter := COMMA_CHAR; quote_style := QUOTE_ALL;
                   line_break := LINEBREAK_CRLF |} in
  let parser := {| field_delimiter := COMMA_CHAR |} in
  let rows := [ {| r_capacity := 32; r_fields := [lit "a"] |} ] in
  let written := write_rows writer rows (world0 []) in
  let out := wr (file (snd written)) in
  let read := parse_all parser (world0 out) in
  fst written = SUCCEED /\
  out = [QUOTE_CHAR] ++ bytes "a" ++ [QUOTE_CHAR; CR_CHAR; LF_CHAR] /\
  map r_fields (fst read) = [[lit "a"]; []] /\
  err (snd read) = NULL /\
  map r_fields (fst read) <> map r_fields rows.
Proof. vm_compute. repeat split. discriminate. Qed.

(** ** Construction

    The configurations the statements above call valid are those the
    constructors accept. *)

Lemma is_valid_field_delimiter_cases (d : char) :
  is_valid_field_delimiter d = 0 \/ is_valid_field_delimiter d = 1.
Proof.
  unfold is_valid_field_delimiter, INVALID_FILED_DELIMITER_STR. cbn.
  destruct (Ascii.eqb CR_CHAR d); [now left|].
  destruct (Ascii.eqb LF_CHAR d); [now left|].
  destruct (Ascii.eqb QUOTE_CHAR d); [now left | now right].
Qed.

Lemma csv_writer_new_valid (d : char) (qs lb : Z) w (writer : csv_writer_t) :
  fst (csv_writer_new d qs lb w) = Some writer ->
  writer = {| w_field_delimiter := d; quote_style := qs; line_break := lb |} /\
  valid_writer writer.
Proof.
  unfold csv_writer_new.
  destruct (is_valid_field_delimiter_cases d) as [Hd|Hd]; rewrite Hd.
  { cbn [Z.eqb]. unfold bind. destruct (csv_error_new _ _ w). discriminate. }
  change (1 =? 0) with false. cbv iota.
  destruct (Z.eqb_spec qs QUOTE_ALL) as [Hq|Hq];
    [|destruct (Z.eqb_spec qs QUOTE_MINIMAL) as [Hq'|Hq']]; cbn [negb andb];
    try (unfold bind; destruct (csv_error_new _ _ w); discriminate).
  all: destruct (Z.eqb_spec lb LINEBREAK_LF) as [Hl|Hl];
    [|destruct (Z.eqb_spec lb LINEBREAK_CRLF) as [Hl'|Hl'];
      [|destruct (Z.eqb_spec lb LINEBREAK_CR) as [Hl''|Hl'']]]; cbn [negb andb];
    try (unfold bind; destruct (csv_error_new _ _ w); discriminate).
  all: unfold bind; destruct (xmalloc w) as [p w1]; destruct (p =? NULL);
    [discriminate|]; intros [= <-]; split; [reflexivity|];
    unfold valid_writer; cbn; auto 6.
Qed.

Lemma csv_writer_new_ok (writer : csv_writer_t) w :
  valid_writer writer -> never_oom (heap w) ->
  fst (csv_writer_new (w_field_delimiter writer) (quote_style writer)
         (line_break writer) w) = Some writer.
Proof.
  intros (Hd & Hq & Hl) Hok. unfold csv_writer_new. rewrite Hd.
  change (1 =? 0) with false. cbv iota.
  assert (Hq' : negb (quote_style writer =? QUOTE_ALL)
                && negb (quote_style writer =? QUOTE_MINIMAL) = false)
    by (destruct Hq as [-> | ->]; reflexivity).
  assert (Hl' : negb (line_break writer =? LINEBREAK_LF)
                && negb (line_break writer =? LINEBREAK_CRLF)
                && negb (line_break writer =? LINEBREAK_CR) = false)
    by (destruct Hl as [-> | [-> | ->]]; reflexivity).
  rewrite Hq', Hl'.
  pose proof (xmalloc_spec w) as Hx. unfold wp in Hx. unfold bind.
  destruct (xmalloc w) as [p w1]. cbn [fst snd] in Hx.
  destruct Hx as (_ & _ & _ & _ & Hp). destruct (Hp Hok) as [Hne _].
  rewrite (proj2 (Z.eqb_neq _ _) Hne). now destruct writer.
Qed.

Lemma csv_parser_new_with_field_delimiter_valid (d : char) w (parser : csv_parser_t) :
  fst (csv_parser_new_with_field_delimiter d w) = Some parser ->
  parser = {| field_delimiter := d |} /\ is_valid_field_delimiter d = 1.
Proof.
  unfold csv_parser_new_with_field_delimiter.
  destruct (is_valid_field_delimiter_cases d) as [Hd|Hd]; rewrite Hd.
  { cbn [Z.eqb]. unfold bind. destruct (csv_error_new _ _ w). discriminate. }
  change (1 =? 0) with false. cbv iota. unfold bind.
  destruct (csv_parser_new w) as [[p|] w1]; [|discriminate].
  intros [= <-]. auto.
Qed.

Lemma csv_parser_new_with_field_delimiter_ok (d : char) w :
  is_valid_field_delimiter d = 1 -> never_oom (heap w) ->
  fst (csv_parser_new_with_field_delimiter d w) = Some {| field_delimiter := d |}.
Proof.
  intros Hd Hok. unfold csv_parser_new_with_field_delimiter. rewrite Hd.
  change (1 =? 0) with false. cbv iota. unfold bind, csv_parser_new, bind.
  pose proof (xmalloc_spec w) as Hx. unfold wp in Hx.
  destruct (xmalloc w) as [p w1]. cbn [fst snd] in Hx.
  destruct Hx as (_ & _ & _ & _ & Hp). destruct (Hp Hok) as [Hne _].
  now rewrite (proj2 (Z.eqb_neq _ _) Hne).
Qed.

(** ** The caller's loop *)

Lemma parse_rows_spec (parser : csv_parser_t) : forall fuel w,
  never_oom (heap w) ->
  let res := parse_rows fuel parser w in
  let pure := scan_rows fuel (field_delimiter parser) (io_error (file w)) (rd (file w)) in
  map r_fields (fst res) = fst pure /\
  match snd pure with
  | None => err (snd res) = err w
  | Some code => error_code_at (heap (snd res)) (err (snd res)) = Some code
  end.
Proof.
  induction fuel as [|fuel IH]; intros w Hok; [cbn; auto|].
  cbn [parse_rows scan_rows]. unfold bind.
  pose proof (csv_parse_next_row_spec parser w) as Hc. unfold wp in Hc.
  destruct (csv_parse_next_row parser w) as [r w1]. cbn [fst snd] in Hc.
  destruct Hc as (Hfr & _ & _ & H4). destruct (H4 Hok) as [Hre Hok1]. clear H4.
  destruct (scan _ _ _ _ _ _ _) as [fs rest| |code]; cbn in Hre.
  - destruct Hre as ((row & -> & Hfs) & Hrd & He).
    specialize (IH w1 Hok1). cbn zeta in IH.
    destruct Hfr as (_ & Hio & _). rewrite Hio, Hrd in IH.
    destruct (parse_rows fuel parser w1) as [rows w2].
    destruct (scan_rows fuel _ _ rest) as [prows e]. cbn [fst snd] in *.
    destruct IH as [IH1 IH2]. split; [cbn; congruence|].
    destruct e; cbn; [exact IH2 | congruence].
  - destruct Hre as (-> & _ & He). cbn. auto.
  - destruct Hre as (-> & _ & Hc). cbn. auto.
Qed.

(** ** The distinguished shapes *)

(** The quoted last field of a row, from its second byte on: the row is
    returned with that field, and the bytes left unread are the terminator
    but for its first byte, then the rest. *)
Lemma scan_closing_quote (d : char) (io : bool) (s t rest : list char) :
  is_valid_field_delimiter d = 1 ->
  terminator t ->
  forall buf,
    scan d io (escape s ++ QUOTE_CHAR :: t ++ rest) ST_INFIELD true [] buf =
    Row [block (buf ++ s)] (tl t ++ rest).
Proof.
  intros Hd Ht.
  destruct (valid_delimiter_tests _ Hd) as (Hcr & Hlf & Hq).
  induction s as [|c s IH]; intros buf.
  - destruct Ht as [-> | [-> | ->]]; cbn; rewrite ?Hq, ?Hcr, ?Hlf; cbn;
      now rewrite app_nil_r.
  - cbn [escape]. destruct (Ascii.eqb c QUOTE_CHAR) eqn:Eq.
    + apply Ascii.eqb_eq in Eq. subst c. cbn. rewrite IH. now rewrite <- app_assoc.
    + cbn. rewrite Eq.
      destruct (is_eol c); [|destruct (is_delimiter d c)];
        rewrite IH, <- app_assoc; reflexivity.
Qed.

(** A row of one quoted field written with LF or CR, alone in the input. *)
Lemma scan_rows_quoted_line (d : char) (s : list char) (c : char) (fuel : nat) :
  is_valid_field_delimiter d = 1 ->
  is_eol c = true ->
  scan_rows (S (S fuel)) d false (QUOTE_CHAR :: escape s ++ [QUOTE_CHAR; c]) =
  ([[block s]], None).
Proof.
  intros Hd Hc.
  assert (Ht : terminator [c]).
  { unfold is_eol in Hc. apply orb_true_iff in Hc.
    destruct Hc as [H|H]; apply Ascii.eqb_eq in H; subst c; unfold terminator; auto. }
  pose proof (scan_closing_quote d false s [c] [] Hd Ht []) as H.
  cbn [app tl] in H.
  cbn [scan_rows scan]. change (Ascii.eqb QUOTE_CHAR QUOTE_CHAR) with true. cbv iota.
  rewrite H. reflexivity.
Qed.

(** X22.  The two distinguished shapes, read with any valid delimiter when
    memory suffices.  A call on the line of four double quotes followed by
    LF or by CR returns a row of one field holding one double quote, and on
    the line of two double quotes followed by LF or by CR a row of one
    empty field; it reads the line with its terminator and nothing more, and
    leaves [*err] as it was.  When such a line is all the input and the
    reading does not fail, the caller's loop yields that one row and ends
    without error. *)
Theorem quote_shapes (parser : csv_parser_t) (c : char) (w : world) :
  is_valid_field_delimiter (field_delimiter parser) = 1 ->
  never_oom (heap w) ->
  is_eol c = true ->
  (forall rest,
     rd (file w) = [QUOTE_CHAR; QUOTE_CHAR; QUOTE_CHAR; QUOTE_CHAR] ++ c :: rest ->
     let res := csv_parse_next_row parser w in
     exists row,
       fst res = Some row /\ r_fields row = [block [QUOTE_CHAR]] /\
       rd (file (snd res)) = rest /\ err (snd res) = err w) /\
  (forall rest,
     rd (file w) = [QUOTE_CHAR; QUOTE_CHAR] ++ c :: rest ->
     let res := csv_parse_next_row parser w in
     exists row,
       fst res = Some row /\ r_fields row = [block []] /\
       rd (file (snd res)) = rest /\ err (snd res) = err w) /\
  (io_error (file w) = false ->
   (rd (file w) = [QUOTE_CHAR; QUOTE_CHAR; QUOTE_CHAR; QUOTE_CHAR; c] ->
      map r_fields (fst (parse_all parser w)) = [[block [QUOTE_CHAR]]] /\
      err (snd (parse_all parser w)) = err w) /\
   (rd (file w) = [QUOTE_CHAR; QUOTE_CHAR; c] ->
      map r_fields (fst (parse_all parser w)) = [[block []]] /\
      err (snd (parse_all parser w)) = err w)).
Proof.
  intros Hd Hok Hc.
  assert (Ht : terminator [c]).
  { unfold is_eol in Hc. apply orb_true_iff in Hc.
    destruct Hc as [H|H]; apply Ascii.eqb_eq in H; subst c; unfold terminator; auto. }
  assert (Hcall : forall s rest,
            rd (file w) = QUOTE_CHAR :: escape s ++ QUOTE_CHAR :: c :: rest ->
            exists row,
              fst (csv_parse_next_row parser w) = Some row /\ r_fields row = [block s] /\
              rd (file (snd (csv_parse_next_row parser w))) = rest /\
              err (snd (csv_parse_next_row parser w)) = err w).
  { intros s rest Hrd.
    destruct (csv_parse_next_row parser w) as [r w'] eqn:Hcall.
    pose proof (parse_call_ok parser w r w' Hok Hcall) as Hre.
    rewrite Hrd in Hre. cbn [scan] in Hre.
    change (Ascii.eqb QUOTE_CHAR QUOTE_CHAR) with true in Hre. cbv iota in Hre.
    pose proof (scan_closing_quote (field_delimiter parser) (io_error (file w))
                  s [c] rest Hd Ht []) as Hs.
    cbn [app tl] in Hs. rewrite Hs in Hre.
    destruct Hre as ((row & -> & Hfs) & Hrest & He). exists row. auto. }
  split; [|split].
  - intros rest Hrd. exact (Hcall [QUOTE_CHAR] rest Hrd).
  - intros rest Hrd. exact (Hcall [] rest Hrd).
  - intros Hio.
    pose proof (parse_rows_spec parser (S (length (rd (file w)))) w Hok) as Hp.
    cbn zeta in Hp. rewrite Hio in Hp. fold (parse_all parser w) in Hp.
    split; intros Hrd; rewrite Hrd in Hp; cbn [length] in Hp.
    + rewrite (scan_rows_quoted_line _ [QUOTE_CHAR] c _ Hd Hc) in Hp. exact Hp.
    + rewrite (scan_rows_quoted_line _ [] c _ Hd Hc) in Hp. exact Hp.
Qed.

Lemma quote_shapes_witness :
  let parser := {| field_delimiter := COMMA_CHAR |} in
  let w := world0 [QUOTE_CHAR; QUOTE_CHAR; QUOTE_CHAR; QUOTE_CHAR; CR_CHAR] in
  is_valid_field_delimiter COMMA_CHAR = 1 /\ never_oom (heap w) /\
  is_eol CR_CHAR = true /\ io_error (file w) = false /\
  map r_fields (fst (parse_all parser w)) = [[block [QUOTE_CHAR]]] /\
  err (snd (parse_all parser w)) = err w.
Proof.
  intros parser w.
  destruct (quote_shapes parser CR_CHAR w eq_refl eq_refl eq_refl) as (_ & _ & H).
  destruct (H eq_refl) as [H4 _].
  exact (conj eq_refl (conj eq_refl (conj eq_refl (conj eq_refl (H4 eq_refl))))).
Defined.

(** C5, at a failing input.  The lines of four and of two double quotes
    ended by CR LF are each read as two rows, the second without fields:
    after the closing quote the LF is left unread (the defect shown by
    [crlf_after_closing_quote]).  Two double quotes that end the input
    without a terminator are a format error. *)
Theorem quote_shapes_crlf :
  let parser := {| field_delimiter := COMMA_CHAR |} in
  let rows_of input := map r_fields (fst (parse_all parser (world0 input))) in
  let four := [QUOTE_CHAR; QUOTE_CHAR; QUOTE_CHAR; QUOTE_CHAR] in
  let two := [QUOTE_CHAR; QUOTE_CHAR] in
  rows_of (four ++ [CR_CHAR; LF_CHAR]) = [[block [QUOTE_CHAR]]; []] /\
  rows_of (two ++ [CR_CHAR; LF_CHAR]) = [[block []]; []] /\
  rd (file (snd (csv_parse_next_row parser (world0 (four ++ [CR_CHAR; LF_CHAR])))))
    = [LF_CHAR] /\
  rows_of (four ++ [LF_CHAR]) = [[block [QUOTE_CHAR]]] /\
  rows_of two = [] /\
  error_code_at (heap (snd (csv_parse_next_row parser (world0 two))))
    (err (snd (csv_parse_next_row parser (world0 two)))) = Some CSV_EINVALID_FORMAT.
Proof. vm_compute. repeat split. Qed.

(** ** Empty row and empty single field, read back *)

(** X23.  Under every valid writer configuration, when no write fails,
    [csv_write_row] writes a row of zero fields as the line terminator
    alone and a row of one empty field as two double quotes followed by the
    line terminator.  Read with the same delimiter, when memory suffices
    and the reading does not fail, the first output gives back the row of
    zero fields and nothing else, whatever the line break; the second gives
    back the row of one empty field and nothing else when the line break is
    LF or CR. *)
Theorem empty_forms (writer : csv_writer_t) (row : csv_row_t) (w : world) :
  valid_writer writer ->
  writes_ok (file w) ->
  (r_fields row = [] ->
     wrote (newline_bytes writer) w
       (fst (csv_write_row writer row w)) (snd (csv_write_row writer row w))) /\
  (r_fields row = [block []] ->
     wrote ([QUOTE_CHAR; QUOTE_CHAR] ++ newline_bytes writer) w
       (fst (csv_write_row writer row w)) (snd (csv_write_row writer row w))) /\
  (forall w2,
     never_oom (heap w2) -> io_error (file w2) = false ->
     let parser := {| field_delimiter := w_field_delimiter writer |} in
     (rd (file w2) = newline_bytes writer ->
        map r_fields (fst (parse_all parser w2)) = [[]] /\
        err (snd (parse_all parser w2)) = err w2) /\
     (line_break writer <> LINEBREAK_CRLF ->
      rd (file w2) = [QUOTE_CHAR; QUOTE_CHAR] ++ newline_bytes writer ->
        map r_fields (fst (parse_all parser w2)) = [[block []]] /\
        err (snd (parse_all parser w2)) = err w2)).
Proof.
  intros Hv Hok.
  pose proof (csv_write_row_ok writer row w Hok) as Hw. unfold wp in Hw.
  split; [|split].
  - intros Hr. unfold row_image in Hw. now rewrite Hr in Hw.
  - intros Hr. unfold row_image in Hw. now rewrite Hr in Hw.
  - intros w2 Hm Hio parser.
    pose proof (newline_bytes_terminator writer Hv) as Ht.
    assert (Hd : is_valid_field_delimiter (field_delimiter parser) = 1) by apply Hv.
    pose proof (parse_rows_spec parser (S (length (rd (file w2)))) w2 Hm) as Hp.
    cbn zeta in Hp. rewrite Hio in Hp. fold (parse_all parser w2) in Hp.
    split.
    + intros Hrd. rewrite Hrd in Hp.
      destruct Ht as [Ht | [Ht | Ht]]; rewrite Ht in Hp; exact Hp.
    + intros Hnc Hrd. rewrite Hrd in Hp.
      destruct Ht as [Ht | [Ht | Ht]]; rewrite Ht in Hp.
      * cbn [app length] in Hp.
        rewrite (scan_rows_quoted_line _ [] LF_CHAR _ Hd eq_refl) in Hp. exact Hp.
      * cbn [app length] in Hp.
        rewrite (scan_rows_quoted_line _ [] CR_CHAR _ Hd eq_refl) in Hp. exact Hp.
      * exfalso. apply Hnc. unfold newline_bytes in Ht.
        destruct (line_break writer =? LINEBREAK_LF); [discriminate|].
        destruct (Z.eqb_spec (line_break writer) LINEBREAK_CRLF); [assumption|discriminate].
Qed.

Lemma empty_forms_witness :
  let writer := {| w_field_delimiter := COMMA_CHAR; quote_style := QUOTE_MINIMAL;
                   line_break := LINEBREAK_CR |} in
  let row := {| r_capacity := 32; r_fields := [block []] |} in
  let w := world0 [] in
  let out := wr (file (snd (csv_write_row writer row w))) in
  let read := parse_all {| field_delimiter := COMMA_CHAR |} (world0 out) in
  valid_writer writer /\ writes_ok (file w) /\ r_fields row = [block []] /\
  out = [QUOTE_CHAR; QUOTE_CHAR; CR_CHAR] /\
  map r_fields (fst read) = [r_fields row].
Proof.
  intros writer row w out read.
  assert (Hv : valid_writer writer).
  { split; [reflexivity|]. split; [right; reflexivity | right; right; reflexivity]. }
  assert (Hw : writes_ok (file w)) by reflexivity.
  destruct (empty_forms writer row w Hv Hw) as (_ & H2 & H3).
  destruct (H2 eq_refl) as (_ & Hout & _).
  assert (Ho : out = [QUOTE_CHAR; QUOTE_CHAR; CR_CHAR]) by exact Hout.
  destruct (H3 (world0 out) eq_refl eq_refl) as [_ H4].
  destruct (H4 ltac:(discriminate) Ho) as [Hr _].
  exact (conj Hv (conj Hw (conj eq_refl (conj Ho Hr)))).
Defined.

(** C7, at a failing input.  The row of one empty field, written with
    CR LF line breaks, is read back as two rows: the row of one empty field
    and a row of zero fields (the defect shown by [round_trip_crlf]). *)
Theorem empty_forms_crlf :
  let writer := {| w_field_delimiter := COMMA_CHAR; quote_style := QUOTE_MINIMAL;
                   line_break := LINEBREAK_CRLF |} in
  let parser := {| field_delimiter := COMMA_CHAR |} in
  let row := {| r_capacity := 32; r_fields := [block []] |} in
  let written := csv_write_row writer row (world0 []) in
  let out := wr (file (snd written)) in
  let read := parse_all parser (world0 out) in
  fst written = SUCCEED /\
  out = [QUOTE_CHAR; QUOTE_CHAR; CR_CHAR; LF_CHAR] /\
  map r_fields (fst read) = [[block []]; []] /\
  err (snd read) = NULL /\
  map r_fields (fst read) <> [r_fields row].
Proof. vm_compute. repeat split. discriminate. Qed.

(** ** Delimiters from 128 on *)

(** C3, at failing inputs.  The byte 255 is accepted as a delimiter; as a
    plain [char] it has the value of [EOF].  With it, a quoted field that
    ends the input is not a format error: the end of the input is taken for
    the delimiter, and the call returns the field and an empty one.  The
    byte 233 is accepted too and never equals a byte read: a closing quote
    followed by it is a format error. *)
Theorem invalid_format_signed_char :
  let quoted_a := [QUOTE_CHAR] ++ bytes "a" ++ [QUOTE_CHAR] in
  let d255 := "255"%char in
  let d233 := "233"%char in
  let res255 := csv_parse_next_row {| field_delimiter := d255 |} (world0 quoted_a) in
  let res233 := csv_parse_next_row {| field_delimiter := d233 |}
                  (world0 (quoted_a ++ [d233] ++ bytes "b" ++ [LF_CHAR])) in
  is_valid_field_delimiter d255 = 1 /\
  option_map r_fields (fst res255) = Some [lit "a"; lit ""] /\
  err (snd res255) = NULL /\
  is_valid_field_delimiter d233 = 1 /\
  fst res233 = None /\
  error_code_at (heap (snd res233)) (err (snd res233)) = Some CSV_EINVALID_FORMAT.
Proof. vm_compute. repeat split. Qed.

(** C6, at a failing input.  With the delimiter 233, the row [a] followed
    by the delimiter and LF is read as one field of two bytes, not as [a]
    and an empty field: the delimiter is never recognised. *)
Theorem trailing_delimiter_signed_char :
  let d233 := "233"%char in
  let parser := {| field_delimiter := d233 |} in
  let input := bytes "a" ++ [d233; LF_CHAR] in
  is_valid_field_delimiter d233 = 1 /\
  closed_fields d233 (bytes "a" ++ [d233]) [bytes "a"] /\
  map r_fields (fst (parse_all parser (world0 input))) = [[block (bytes "a" ++ [d233])]] /\
  map r_fields (fst (parse_all parser (world0 input))) <> [map block [bytes "a"; []]].
Proof.
  intros d233 parser input. split; [reflexivity|]. split.
  - apply (closed_cons d233 (bytes "a") (bytes "a") [] []);
      [now apply unquoted_text | apply closed_nil].
  - vm_compute. split; [reflexivity | discriminate].
Qed.

(** ** The last field of a row *)

Section LastField.

Variable d : char.
Hypothesis d_valid : is_valid_field_delimiter d = 1.
Hypothesis d_ascii : int_of_char d < 128.
Variable io : bool.

Lemma eol_not_d c : is_eol c = true -> Ascii.eqb c d = false.
Proof.
  intros H. destruct (Ascii.eqb c d) eqn:E; [|reflexivity].
  apply Ascii.eqb_eq in E. subst c. now rewrite (d_not_eol d d_valid) in H.
Qed.

Lemma scan_unquoted_eol s : forall c rest fs buf,
  forallb (is_plain d) s = true -> is_eol c = true ->
  scan d io (s ++ c :: rest) ST_INFIELD false fs buf =
  Row (close_field fs (buf ++ s)) (after_eol c rest).
Proof.
  induction s as [|x s IH]; intros c rest fs buf Hs Hc.
  - cbn; ascii_d. now rewrite (is_eol_not_quote c Hc), Hc, app_nil_r.
  - cbn in Hs; ascii_d_in Hs. apply andb_true_iff in Hs. destruct Hs as [Hx Hs].
    destruct (is_plain_tests d x Hx) as (H1 & H2 & H3).
    cbn; ascii_d. rewrite H1, H2, H3, IH by assumption. now rewrite <- app_assoc.
Qed.

Lemma scan_quoted_eol s : forall x rest fs buf,
  is_eol x = true ->
  scan d io (escape s ++ QUOTE_CHAR :: x :: rest) ST_INFIELD true fs buf =
  Row (close_field fs (buf ++ s)) rest.
Proof.
  induction s as [|c s IH]; intros x rest fs buf Hx.
  - cbn; ascii_d. now rewrite (is_eol_not_quote x Hx), (eol_not_d x Hx), Hx, app_nil_r.
  - cbn [escape]. destruct (Ascii.eqb c QUOTE_CHAR) eqn:Eq.
    + apply Ascii.eqb_eq in Eq. subst c. cbn; ascii_d. rewrite IH by assumption.
      now rewrite <- app_assoc.
    + cbn; ascii_d. rewrite Eq.
      destruct (is_eol c); [|destruct (Ascii.eqb c d)];
        rewrite IH by assumption; now rewrite <- app_assoc.
Qed.

Lemma scan_last_field e s c rest fs :
  field_text d e s -> is_eol c = true -> after_eol c rest = rest ->
  e <> [] \/ fs <> [] ->
  scan d io (e ++ c :: rest) ST_START false fs [] = Row (close_field fs s) rest.
Proof.
  intros [s' Hs|s'] Hc Hrest Hne.
  - destruct s' as [|x s'].
    + destruct Hne as [Hne|Hne]; [contradiction|].
      cbn; ascii_d. now rewrite (is_eol_not_quote c Hc), Hc, (length_pos_gtb _ Hne), Hrest.
    + cbn in Hs; ascii_d_in Hs. apply andb_true_iff in Hs. destruct Hs as [Hx Hs].
      destruct (is_plain_tests d x Hx) as (H1 & H2 & H3).
      cbn; ascii_d. rewrite H1, H2, H3. rewrite scan_unquoted_eol by assumption.
      now rewrite Hrest.
  - cbn; ascii_d. rewrite <- app_assoc. cbn; ascii_d. now rewrite scan_quoted_eol.
Qed.

End LastField.

(** ** The image of a legal row *)

Lemma c_str_no_nul (s : list char) : no_nul s = true -> c_str s = s.
Proof.
  induction s as [|c s IH]; [reflexivity|]. cbn. intros H.
  apply andb_true_iff in H. destruct H as [Hc Hs]. apply negb_true_iff in Hc.
  now rewrite Hc, IH.
Qed.

Lemma is_plain_negb (d c : char) : is_plain d c = negb (needs_quoting d c).
Proof.
  unfold is_plain, needs_quoting, is_eol.
  destruct (Ascii.eqb c CR_CHAR), (Ascii.eqb c LF_CHAR), (Ascii.eqb c QUOTE_CHAR),
    (Ascii.eqb c d); reflexivity.
Qed.

Lemma not_special_plain (d : char) (s : list char) :
  existsb (needs_quoting d) s = false ->
  forallb (is_plain d) s = true /\ escape s = s.
Proof.
  induction s as [|c s IH]; [auto|]. cbn. intros H.
  apply orb_false_iff in H. destruct H as [Hc Hs]. destruct (IH Hs) as [IH1 IH2].
  rewrite is_plain_negb, Hc, IH1, IH2. split; [reflexivity|].
  unfold needs_quoting in Hc. apply orb_false_iff in Hc. destruct Hc as [Hc _].
  apply orb_false_iff in Hc. destruct Hc as [_ Hc]. now rewrite Hc.
Qed.

Section RowImage.

Variable writer : csv_writer_t.
Hypothesis writer_valid : valid_writer writer.
Hypothesis d_not_nul : Ascii.eqb (w_field_delimiter writer) NUL = false.

Let d := w_field_delimiter writer.

Lemma field_image_text (s : list char) (i n : Z) :
  no_nul s = true ->
  exists e,
    field_text d e s /\ (s <> [] -> e <> []) /\
    field_image writer (block s) i n = e ++ (if i <? n - 1 then [d] else []).
Proof.
  intros Hs. unfold field_image, need_quote_of.
  rewrite c_str_block, (c_str_no_nul s Hs). fold d.
  rewrite (c_str_char d d_not_nul).
  destruct (quote_style writer =? QUOTE_ALL);
    [|destruct (existsb (needs_quoting d) s) eqn:Enq].
  - exists (QUOTE_CHAR :: escape s ++ [QUOTE_CHAR]).
    split; [apply quoted_text|]. split; [discriminate|].
    cbn. now rewrite <- app_assoc.
  - exists (QUOTE_CHAR :: escape s ++ [QUOTE_CHAR]).
    split; [apply quoted_text|]. split; [discriminate|].
    cbn. now rewrite <- app_assoc.
  - destruct (not_special_plain d s Enq) as [Hp He].
    exists s. split; [now apply unquoted_text|]. split; [auto|].
    cbn. now rewrite He.
Qed.

Lemma fields_image_split (n : Z) (ss : list (list char)) : forall i,
  ss <> [] -> forallb no_nul ss = true -> i + Z.of_nat (length ss) = n ->
  exists p e,
    fields_image writer (map block ss) i n = p ++ e /\
    closed_fields d p (List.removelast ss) /\
    field_text d e (List.last ss []) /\
    (List.last ss [] <> [] -> e <> []).
Proof.
  induction ss as [|s ss IH]; intros i Hne Hss Hn; [contradiction|].
  cbn [forallb] in Hss. apply andb_true_iff in Hss. destruct Hss as [Hs Hss].
  destruct (field_image_text s i n Hs) as (e & He & Hnil & Himg).
  destruct ss as [|s2 ss].
  - exists [], e. cbn [map fields_image]. rewrite Himg.
    replace (i <? n - 1) with false by (symmetry; apply Z.ltb_ge; cbn in Hn; lia).
    cbn. rewrite !app_nil_r. repeat apply conj; auto. apply closed_nil.
  - destruct (IH (i + 1) ltac:(discriminate) Hss ltac:(cbn [length] in *; lia))
      as (p & e' & Himg' & Hp & He' & Hnil').
    exists (e ++ d :: p), e'.
    change (map block (s :: s2 :: ss)) with (block s :: map block (s2 :: ss)).
    cbn [fields_image]. rewrite Himg, Himg'.
    replace (i <? n - 1) with true by (symmetry; apply Z.ltb_lt; cbn [length] in Hn; lia).
    rewrite <- !app_assoc. cbn [app].
    split; [reflexivity|]. split; [|split; assumption].
    change (List.removelast (s :: s2 :: ss)) with (s :: List.removelast (s2 :: ss)).
    now apply closed_cons.
Qed.

End RowImage.

Section RoundTrip.

Variable writer : csv_writer_t.
Hypothesis writer_valid : valid_writer writer.
Hypothesis d_not_nul : Ascii.eqb (w_field_delimiter writer) NUL = false.
Hypothesis not_crlf : line_break writer <> LINEBREAK_CRLF.
Hypothesis d_ascii : int_of_char (w_field_delimiter writer) < 128.

Let d := w_field_delimiter writer.

Lemma d_valid' : is_valid_field_delimiter d = 1.
Proof. apply writer_valid. Qed.

Lemma newline_single (rest : list char) :
  (line_break writer = LINEBREAK_CR -> no_lf_ahead rest) ->
  exists c, newline_bytes writer = [c] /\ is_eol c = true /\ after_eol c rest = rest /\
            Ascii.eqb c LF_CHAR = negb (line_break writer =? LINEBREAK_CR).
Proof.
  intros Hrest. destruct writer_valid as (_ & _ & [H|[H|H]]); [|contradiction|].
  - exists LF_CHAR. unfold newline_bytes. rewrite H. auto.
  - exists CR_CHAR. unfold newline_bytes. rewrite H. repeat apply conj; auto.
    specialize (Hrest H). unfold after_eol. cbn.
    destruct rest as [|x rest]; [reflexivity|]. cbn in Hrest. now rewrite Hrest.
Qed.

Lemma scan_row_image (io : bool) (row : csv_row_t) (rest : list char) :
  legal_row row ->
  (line_break writer = LINEBREAK_CR -> no_lf_ahead rest) ->
  scan d io (row_image writer row ++ rest) ST_START false [] [] =
  Row (r_fields row) rest.
Proof.
  intros (fs & Hfs & Hlegal) Hrest.
  destruct (newline_single rest Hrest) as (c & Hnl & Hc & Hafter & _).
  unfold row_image. rewrite Hfs, Hnl.
  destruct fs as [|s [|s2 ss]].
  - cbn. now rewrite (is_eol_not_quote c Hc), Hc, Hafter.
  - cbn [map]. destruct s as [|x s].
    + cbn [block app nth]. change (Ascii.eqb NUL NUL) with true. cbv iota.
      change (([QUOTE_CHAR; QUOTE_CHAR] ++ [c]) ++ rest)
        with ((QUOTE_CHAR :: escape [] ++ [QUOTE_CHAR]) ++ c :: rest).
      rewrite (scan_last_field d d_valid' d_ascii io _ [] c rest []
                 (quoted_text d []) Hc Hafter); [reflexivity|].
      left. discriminate.
    + cbn in Hlegal. rewrite andb_true_r in Hlegal.
      pose proof Hlegal as Hx. apply andb_true_iff in Hx. destruct Hx as [Hx _].
      apply negb_true_iff in Hx.
      cbn [block app nth]. rewrite Hx.
      destruct (fields_image_split writer d_not_nul 1 [x :: s] 0
                  ltac:(discriminate) ltac:(cbn; now rewrite Hlegal) eq_refl)
        as (p & e & Himg & Hp & He & Hne).
      cbn [List.removelast List.last] in Hp, He, Hne. inversion Hp; subst.
      change ([x :: s ++ [NUL]]) with (map block [x :: s]). rewrite Himg.
      cbn [app]. rewrite <- app_assoc. cbn [app].
      rewrite (scan_last_field d d_valid' d_ascii io e (x :: s) c rest [] He Hc Hafter);
        [reflexivity|].
      left. apply Hne. discriminate.
  - cbn [map]. cbv iota.
    change (block s :: block s2 :: map block ss) with (map block (s :: s2 :: ss)).
    set (fs := s :: s2 :: ss) in *.
    assert (Hlen : Z.of_nat (length (map block fs)) = Z.of_nat (length fs))
      by now rewrite length_map.
    rewrite Hlen.
    destruct (fields_image_split writer d_not_nul (Z.of_nat (length fs)) fs 0
                ltac:(discriminate) Hlegal ltac:(lia))
      as (p & e & Himg & Hp & He & Hne).
    rewrite Himg, <- !app_assoc. cbn [app].
    rewrite (scan_closed_fields d d_valid' d_ascii io p (List.removelast fs)) by exact Hp.
    cbn [app].
    rewrite (scan_last_field d d_valid' d_ascii io e (List.last fs []) c rest _ He Hc Hafter).
    + unfold close_field. change [List.last fs [] ++ [NUL]] with (map block [List.last fs []]).
      rewrite <- map_app, <- app_removelast_last by discriminate. reflexivity.
    + right. subst fs. cbn. destruct ss; discriminate.
Qed.

End RoundTrip.

Lemma scan_rows_image (writer : csv_writer_t) (rows : list csv_row_t) :
  valid_writer writer ->
  Ascii.eqb (w_field_delimiter writer) NUL = false ->
  line_break writer <> LINEBREAK_CRLF ->
  int_of_char (w_field_delimiter writer) < 128 ->
  Forall legal_row rows ->
  (forall fuel, (length rows < fuel)%nat ->
     scan_rows fuel (w_field_delimiter writer) false (rows_image writer rows) =
     (map r_fields rows, None)) /\
  (line_break writer = LINEBREAK_CR -> no_lf_ahead (rows_image writer rows)).
Proof.
  intros Hv Hd Hnc Ha Hrows. induction Hrows as [|row rows Hrow Hrows [IH1 IH2]].
  - split; [|intros _; exact I].
    intros [|fuel] Hf; [inversion Hf | reflexivity].
  - pose proof (scan_row_image writer Hv Hd Hnc Ha false row (rows_image writer rows)
                  Hrow IH2) as Hscan.
    split.
    + intros [|fuel] Hf; [inversion Hf|]. cbn [scan_rows rows_image].
      rewrite Hscan, IH1 by (cbn [length] in Hf; lia). reflexivity.
    + intros Hcr. cbn [rows_image].
      destruct (row_image writer row ++ rows_image writer rows) as [|c l] eqn:E;
        [exact I|].
      cbn. destruct (Ascii.eqb c LF_CHAR) eqn:Ec; [exfalso | reflexivity].
      apply Ascii.eqb_eq in Ec. subst c. cbn in Hscan. injection Hscan as Hnil _.
      unfold row_image in E. rewrite <- Hnil in E. unfold newline_bytes in E.
      rewrite Hcr in E. cbn in E. discriminate.
Qed.

Lemma write_rows_ok (writer : csv_writer_t) (rows : list csv_row_t) : forall w,
  writes_ok (file w) ->
  wp (write_rows writer rows) (wrote (rows_image writer rows) w) w.
Proof.
  induction rows as [|row rows IH]; intros w Hok.
  - apply wp_ret. now apply wrote_refl.
  - cbn [write_rows rows_image]. apply wp_bind.
    eapply wp_mono; [apply csv_write_row_ok; exact Hok|]. cbv beta.
    intros res w1 Hw1. pose proof Hw1 as (-> & _ & Hok1 & _).
    change (SUCCEED =? FAIL) with false. cbv iota.
    eapply wp_mono; [apply IH; exact Hok1|]. cbv beta. intros res w2 Hw2.
    apply (wrote_trans _ _ _ _ _ _ Hw1 Hw2).
Qed.

Lemma rows_image_length (writer : csv_writer_t) (rows : list csv_row_t) :
  (length rows <= length (rows_image writer rows))%nat.
Proof.
  induction rows as [|row rows IH]; [reflexivity|].
  cbn [rows_image length]. unfold row_image. rewrite !length_app.
  assert (1 <= length (newline_bytes writer))%nat.
  { unfold newline_bytes. destruct (_ =? _); [cbn; lia|]. destruct (_ =? _); cbn; lia. }
  lia.
Qed.

(** X13.  The round trip that does hold: with LF or CR line breaks and a
    valid delimiter other than NUL and below 128, legal rows written by
    [csv_write_row] are read back, field for field, by the caller's loop
    over [csv_parse_next_row] with the same delimiter, which ends without
    error. *)
Theorem round_trip_lf_cr (writer : csv_writer_t) (rows : list csv_row_t) (w : world) :
  valid_writer writer ->
  Ascii.eqb (w_field_delimiter writer) NUL = false ->
  line_break writer <> LINEBREAK_CRLF ->
  int_of_char (w_field_delimiter writer) < 128 ->
  Forall legal_row rows ->
  writes_ok (file w) ->
  wrote (rows_image writer rows) w
    (fst (write_rows writer rows w)) (snd (write_rows writer rows w)) /\
  forall w2,
    never_oom (heap w2) -> io_error (file w2) = false ->
    rd (file w2) = rows_image writer rows ->
    let read := parse_all {| field_delimiter := w_field_delimiter writer |} w2 in
    map r_fields (fst read) = map r_fields rows /\ err (snd read) = err w2.
Proof.
  intros Hv Hd Hnc Ha Hrows Hok.
  split; [exact (write_rows_ok writer rows w Hok)|].
  intros w2 Hm Hio Hrd read. subst read. unfold parse_all.
  pose proof (parse_rows_spec {| field_delimiter := w_field_delimiter writer |}
                (S (length (rd (file w2)))) w2 Hm) as Hp.
  cbn zeta in Hp. cbn [field_delimiter] in Hp. rewrite Hio, Hrd in Hp.
  destruct (scan_rows_image writer rows Hv Hd Hnc Ha Hrows) as [Hs _].
  rewrite Hs in Hp by (pose proof (rows_image_length writer rows); lia).
  rewrite Hrd. exact Hp.
Qed.

(** NUL passes [is_valid_field_delimiter], but [csv_write_char] hands
    [fputs] the string that starts with it, which is empty: the writer
    then puts nothing between the fields, and two fields are read back as
    one. *)
Lemma nul_delimiter_not_written :
  let writer := {| w_field_delimiter := NUL; quote_style := QUOTE_MINIMAL;
                   line_break := LINEBREAK_LF |} in
  let parser := {| field_delimiter := NUL |} in
  let rows := [ {| r_capacity := 32; r_fields := [lit "a"; lit "b"] |} ] in
  let out := wr (file (snd (write_rows writer rows (world0 [])))) in
  is_valid_field_delimiter NUL = 1 /\
  out = bytes "ab" ++ [LF_CHAR] /\
  map r_fields (fst (parse_all parser (world0 out))) = [[lit "ab"]].
Proof. vm_compute. repeat split. Qed.

(** ** Terminator insensitivity

    What the three terminators have in common, and where they differ. *)

Section Lines.

Variable d : char.
Hypothesis d_valid : is_valid_field_delimiter d = 1.
Hypothesis d_ascii : int_of_char d < 128.
Variable io : bool.

Lemma scan_last_unquoted s c rest fs :
  forallb (is_plain d) s = true -> is_eol c = true -> s <> [] \/ fs <> [] ->
  scan d io (s ++ c :: rest) ST_START false fs [] =
  Row (close_field fs s) (after_eol c rest).
Proof.
  intros Hs Hc Hne. destruct s as [|x s].
  - destruct Hne as [Hne|Hne]; [contradiction|].
    cbn; ascii_d. now rewrite (is_eol_not_quote c Hc), Hc, (length_pos_gtb _ Hne).
  - cbn in Hs; ascii_d_in Hs. apply andb_true_iff in Hs. destruct Hs as [Hx Hs].
    destruct (is_plain_tests d x Hx) as (H1 & H2 & H3).
    cbn; ascii_d. rewrite H1, H2, H3. now rewrite scan_unquoted_eol.
Qed.

Lemma scan_last_quoted s c rest fs :
  is_eol c = true ->
  scan d io ((QUOTE_CHAR :: escape s ++ [QUOTE_CHAR]) ++ c :: rest) ST_START false fs [] =
  Row (close_field fs s) rest.
Proof.
  intros Hc. cbn; ascii_d. rewrite <- app_assoc. cbn; ascii_d.
  now rewrite (scan_quoted_eol d d_valid d_ascii).
Qed.

(** The call on a line followed by CR or LF: the row of the line, and the
    bytes left unread.  After an unquoted field or on an empty line a CR
    takes a following LF with it; after a closing quote nothing more is
    read. *)
Lemma scan_line e fs q c l :
  line d e fs q -> is_eol c = true ->
  scan d io (e ++ c :: l) ST_START false [] [] =
  Row (map block fs) (if q then l else after_eol c l).
Proof.
  intros Hline Hc. destruct Hline as [|p fs s Hp Hs Hne|p fs s Hp].
  - cbn; ascii_d. now rewrite (is_eol_not_quote c Hc), Hc.
  - rewrite <- app_assoc, (scan_closed_fields d d_valid d_ascii io p fs) by exact Hp.
    cbn [app]. rewrite scan_last_unquoted; try assumption.
    + unfold close_field. now rewrite map_app.
    + destruct Hne as [Hne|Hne]; [now left | right].
      destruct fs; [contradiction | discriminate].
  - rewrite <- app_assoc, (scan_closed_fields d d_valid d_ascii io p fs) by exact Hp.
    rewrite scan_last_quoted by assumption.
    unfold close_field. cbn [app]. now rewrite map_app.
Qed.

Lemma scan_terminated_line e fs q t rest :
  line d e fs q -> terminator t ->
  (t = [CR_CHAR] -> no_lf_ahead rest) ->
  (q = true -> t <> [CR_CHAR; LF_CHAR]) ->
  scan d io (e ++ t ++ rest) ST_START false [] [] = Row (map block fs) rest.
Proof.
  intros Hline Ht Hcr Hq. destruct Ht as [-> | [-> | ->]]; cbn [app].
  - rewrite (scan_line e fs q LF_CHAR rest Hline eq_refl). now destruct q.
  - rewrite (scan_line e fs q CR_CHAR rest Hline eq_refl).
    specialize (Hcr eq_refl). destruct q; [reflexivity|].
    destruct rest as [|x rest]; [reflexivity|]. cbn in Hcr; ascii_d_in Hcr. cbn; ascii_d. now rewrite Hcr.
  - rewrite (scan_line e fs q CR_CHAR (LF_CHAR :: rest) Hline eq_refl).
    destruct q; [|reflexivity]. now destruct (Hq eq_refl).
Qed.

End Lines.

Lemma assemble_length (d : char) es fss ts :
  admissible d es fss ts -> (length es <= length (assemble es ts))%nat.
Proof.
  induction 1 as [|e fs q t es fss ts _ Ht _ _ _ IH]; [reflexivity|].
  cbn [assemble length]. rewrite !length_app.
  assert (1 <= length t)%nat by (destruct Ht as [-> | [-> | ->]]; cbn; lia).
  lia.
Qed.

Lemma scan_rows_admissible (d : char) es fss ts :
  is_valid_field_delimiter d = 1 ->
  int_of_char d < 128 ->
  admissible d es fss ts ->
  forall fuel, (length es < fuel)%nat ->
    scan_rows fuel d false (assemble es ts) = (map (map block) fss, None).
Proof.
  intros Hd Hasc. induction 1 as [|e fs q t es fss ts Hline Ht Hcr Hq _ IH].
  - intros [|fuel] Hf; [inversion Hf | reflexivity].
  - intros [|fuel] Hf; [inversion Hf|]. cbn [scan_rows assemble].
    rewrite (scan_terminated_line d Hd Hasc false e fs q t _ Hline Ht Hcr Hq).
    rewrite IH by (cbn [length] in Hf; lia). reflexivity.
Qed.

Lemma parse_admissible (parser : csv_parser_t) es fss ts (w : world) :
  is_valid_field_delimiter (field_delimiter parser) = 1 ->
  int_of_char (field_delimiter parser) < 128 ->
  admissible (field_delimiter parser) es fss ts ->
  never_oom (heap w) -> io_error (file w) = false ->
  rd (file w) = assemble es ts ->
  map r_fields (fst (parse_all parser w)) = map (map block) fss /\
  err (snd (parse_all parser w)) = err w.
Proof.
  intros Hd Hasc Ha Hm Hio Hrd. unfold parse_all.
  pose proof (parse_rows_spec parser (S (length (rd (file w)))) w Hm) as Hp.
  cbn zeta in Hp. rewrite Hio, Hrd in Hp.
  rewrite (scan_rows_admissible _ es fss ts Hd Hasc Ha) in Hp
    by (pose proof (assemble_length _ es fss ts Ha); lia).
  rewrite Hrd. exact Hp.
Qed.

(** X14.  With a valid delimiter below 128: lines that do not end with a
    closing quote may take any of the three terminators, lines that do may
    take LF or CR, as long as no lone CR comes directly before an LF: the
    caller's loop over [csv_parse_next_row] reads the same rows whatever the
    choice, and ends without error. *)
Theorem terminator_insensitivity (parser : csv_parser_t) es fss ts ts' (w w' : world) :
  is_valid_field_delimiter (field_delimiter parser) = 1 ->
  int_of_char (field_delimiter parser) < 128 ->
  admissible (field_delimiter parser) es fss ts ->
  admissible (field_delimiter parser) es fss ts' ->
  never_oom (heap w) -> io_error (file w) = false ->
  never_oom (heap w') -> io_error (file w') = false ->
  rd (file w) = assemble es ts -> rd (file w') = assemble es ts' ->
  map r_fields (fst (parse_all parser w)) = map r_fields (fst (parse_all parser w')) /\
  map r_fields (fst (parse_all parser w)) = map (map block) fss /\
  err (snd (parse_all parser w)) = err w /\
  err (snd (parse_all parser w')) = err w'.
Proof.
  intros Hd Hasc Ha Ha' Hm Hio Hm' Hio' Hrd Hrd'.
  destruct (parse_admissible parser es fss ts w Hd Hasc Ha Hm Hio Hrd) as [H1 H2].
  destruct (parse_admissible parser es fss ts' w' Hd Hasc Ha' Hm' Hio' Hrd') as [H3 H4].
  repeat apply conj; congruence.
Qed.

(** The proviso on a lone CR is needed whatever the parser does after a
    closing quote: the terminators of [a LF LF b] are two LF, and with the
    first replaced by CR the input is [a CR LF b], whose CR LF is one
    terminator. *)
Lemma cr_before_empty_line :
  let parser := {| field_delimiter := COMMA_CHAR |} in
  let read l := map r_fields (fst (parse_all parser (world0 l))) in
  read (bytes "a" ++ [LF_CHAR] ++ [LF_CHAR] ++ bytes "b") = [[lit "a"]; []; [lit "b"]] /\
  read (bytes "a" ++ [CR_CHAR] ++ [LF_CHAR] ++ bytes "b") = [[lit "a"]; [lit "b"]].
Proof. vm_compute. split; reflexivity. Qed.

(** The lines [a,b], the empty line, ["c"] and [d,] under two choices of
    terminators. *)
Example terminator_insensitivity_example :
  let parser := {| field_delimiter := COMMA_CHAR |} in
  let es := [bytes "a,b"; []; QUOTE_CHAR :: bytes "c" ++ [QUOTE_CHAR]; bytes "d,"] in
  let ts := [[CR_CHAR; LF_CHAR]; [LF_CHAR]; [CR_CHAR]; [CR_CHAR; LF_CHAR]] in
  let ts' := [[LF_CHAR]; [CR_CHAR]; [LF_CHAR]; [CR_CHAR]] in
  let read l := map r_fields (fst (parse_all parser (world0 l))) in
  read (assemble es ts) = read (assemble es ts') /\
  read (assemble es ts) = [[lit "a"; lit "b"]; []; [lit "c"]; [lit "d"; lit ""]].
Proof.
  intros parser es ts ts' read.
  assert (Hl1 : line COMMA_CHAR (bytes "a,b") [bytes "a"; bytes "b"] false).
  { apply (line_unquoted COMMA_CHAR (bytes "a,") [bytes "a"] (bytes "b"));
      [|reflexivity | now left].
    apply (closed_cons COMMA_CHAR (bytes "a") (bytes "a") [] []);
      [now apply unquoted_text | apply closed_nil]. }
  assert (Hl3 : line COMMA_CHAR (QUOTE_CHAR :: bytes "c" ++ [QUOTE_CHAR]) [bytes "c"] true).
  { apply (line_quoted COMMA_CHAR [] [] (bytes "c")). apply closed_nil. }
  assert (Hl4 : line COMMA_CHAR (bytes "d,") [bytes "d"; []] false).
  { apply (line_unquoted COMMA_CHAR (bytes "d,") [bytes "d"] []);
      [|reflexivity | right; discriminate].
    apply (closed_cons COMMA_CHAR (bytes "d") (bytes "d") [] []);
      [now apply unquoted_text | apply closed_nil]. }
  assert (Ha : admissible COMMA_CHAR es
                 [[bytes "a"; bytes "b"]; []; [bytes "c"]; [bytes "d"; []]] ts).
  { apply (admissible_cons _ _ _ false); [exact Hl1 | right; now right | discriminate | discriminate |].
    apply (admissible_cons _ _ _ false); [apply line_empty | now left | discriminate | discriminate |].
    apply (admissible_cons _ _ _ true); [exact Hl3 | right; now left | reflexivity | discriminate |].
    apply (admissible_cons _ _ _ false); [exact Hl4 | right; now right | discriminate | discriminate |].
    apply admissible_nil. }
  assert (Ha' : admissible COMMA_CHAR es
                  [[bytes "a"; bytes "b"]; []; [bytes "c"]; [bytes "d"; []]] ts').
  { apply (admissible_cons _ _ _ false); [exact Hl1 | now left | discriminate | discriminate |].
    apply (admissible_cons _ _ _ false); [apply line_empty | right; now left | reflexivity | discriminate |].
    apply (admissible_cons _ _ _ true); [exact Hl3 | now left | discriminate | discriminate |].
    apply (admissible_cons _ _ _ false); [exact Hl4 | right; now left | intros _; exact I | discriminate |].
    apply admissible_nil. }
  destruct (terminator_insensitivity parser es _ ts ts'
              (world0 (assemble es ts)) (world0 (assemble es ts'))
              eq_refl eq_refl Ha Ha' eq_refl eq_refl eq_refl eq_refl eq_refl eq_refl)
    as (H1 & H2 & _).
  exact (conj H1 H2).
Defined.

(** * Further properties *)

(** ** Errors in memory *)

Lemma never_oom_two (m : mem) : never_oom m -> fails_within_two (plan m) = false.
Proof.
  unfold never_oom. destruct (plan m) as [|[] [|[] pl]]; cbn; auto; discriminate.
Qed.

Lemma raised_oom w : err w = csv_error_oom -> raised CSV_ENOMEMORY out_of_memory w.
Proof. intros E. unfold raised. rewrite E. repeat apply conj; [discriminate | reflexivity ..]. Qed.

(** The world [csv_error_new] leaves, by what the next two allocations do. *)
Lemma csv_error_new_world (code : Z) (msg : list char) w :
  code <> CSV_ENOMEMORY ->
  let e := heap_base + Z.of_nat (brk (heap w)) in
  let q := heap_base + Z.of_nat (S (brk (heap w))) in
  csv_error_new code msg w =
    match plan (heap w) with
    | false :: pl =>
        (csv_error_oom,
         {| file := file w;
            heap := {| store := store (heap w); brk := brk (heap w); plan := pl |};
            err := err w |})
    | _ :: false :: pl =>
        (csv_error_oom,
         {| file := file w;
            heap := {| store := delete e (<[e := OError code NULL]> (store (heap w)));
                       brk := S (brk (heap w)); plan := pl |};
            err := err w |})
    | pl =>
        (e,
         {| file := file w;
            heap := {| store := <[q := OString (c_str msg ++ [NUL])]>
                                  (<[e := OError code q]>
                                     (<[e := OError code NULL]> (store (heap w))));
                       brk := S (S (brk (heap w))); plan := tl (tl pl) |};
            err := err w |})
    end.
Proof.
  intros Hne e q. subst e q. unfold csv_error_new. rewrite (proj2 (Z.eqb_neq _ _) Hne).
  unfold bind at 1. unfold malloc at 1.
  destruct (plan (heap w)) as [|[] pl] eqn:E.
  - rewrite heap_addr_not_null. unfold bind at 1. unfold poke at 1.
    unfold bind at 1. unfold malloc at 1. cbn [heap plan tl brk store file err].
    rewrite heap_addr_not_null. reflexivity.
  - rewrite heap_addr_not_null. unfold bind at 1. unfold poke at 1.
    unfold bind at 1. unfold malloc at 1. cbn [heap plan tl brk store file err].
    destruct pl as [|[] pl']; [rewrite heap_addr_not_null; reflexivity ..|].
    reflexivity.
  - reflexivity.
Qed.

(** An error object as [csv_error_new] lays it out. *)
Lemma raised_at (code : Z) (msg : list char) (n : nat) (s : gmap Z obj) b pl f :
  let e := heap_base + Z.of_nat n in
  let q := heap_base + Z.of_nat (S n) in
  raised code msg
    {| file := f;
       heap := {| store := <[q := OString (c_str msg ++ [NUL])]> (<[e := OError code q]> s);
                  brk := b; plan := pl |};
       err := e |}.
Proof.
  intros e q.
  assert (Hqe : q <> e) by (subst q e; lia).
  assert (Hle : load {| store := <[q := OString (c_str msg ++ [NUL])]> (<[e := OError code q]> s);
                        brk := b; plan := pl |} e = Some (OError code q)).
  { unfold load. subst e. rewrite static_obj_heap. cbn [store].
    rewrite lookup_insert_ne by exact Hqe. apply lookup_insert_eq. }
  unfold raised, error_code_at, error_message_at, message_at. cbn [err heap].
  rewrite Hle. repeat apply conj.
  - subst e. unfold heap_base, NULL. lia.
  - reflexivity.
  - unfold load. subst q. rewrite static_obj_heap. cbn [store].
    now rewrite lookup_insert_eq.
Qed.

(** [*err = csv_error_new(code, msg); return NULL;] when memory suffices. *)
Lemma raise_ok {A} (code : Z) (msg : list char) w :
  never_oom (heap w) -> code <> CSV_ENOMEMORY ->
  let res := (do e <- csv_error_new code msg; set_err e ;; ret (@None A)) w in
  fst res = None /\ file (snd res) = file w /\ raised code msg (snd res).
Proof.
  intros Hok Hne res. subst res. unfold bind, set_err, ret.
  rewrite (csv_error_new_world code msg w Hne).
  pose proof (never_oom_plan _ Hok) as Hpl.
  destruct (plan (heap w)) as [|[] pl]; [| |contradiction].
  - cbn [fst snd file heap]. split; [reflexivity | split; [reflexivity|]].
    rewrite insert_insert_eq. apply raised_at.
  - cbn [tl] in Hpl. destruct pl as [|[] pl]; [| |discriminate];
      cbn [fst snd file heap]; (split; [reflexivity | split; [reflexivity|]]);
      rewrite insert_insert_eq; apply raised_at.
Qed.

(** ** Construction of writers and parsers *)

Lemma is_valid_field_delimiter_test (d : char) :
  is_valid_field_delimiter d = if is_eol d || Ascii.eqb d QUOTE_CHAR then 0 else 1.
Proof.
  unfold is_valid_field_delimiter, INVALID_FILED_DELIMITER_STR, is_eol. cbn.
  rewrite (Ascii.eqb_sym CR_CHAR d), (Ascii.eqb_sym LF_CHAR d), (Ascii.eqb_sym QUOTE_CHAR d).
  destruct (Ascii.eqb d CR_CHAR), (Ascii.eqb d LF_CHAR), (Ascii.eqb d QUOTE_CHAR); reflexivity.
Qed.

(** X1.  When memory suffices, [csv_writer_new] checks the delimiter, then
    the quote style, then the line break, and the first check that fails
    decides the error: it returns [NULL] with [*err] pointing to an error of
    kind [CSV_EINVALID_FIELD_DELIMITER] (the delimiter is CR, LF or the
    double quote), [CSV_EINVALID_QUOTE_STYLE] or [CSV_EINVALID_LINEBREAK],
    whose message names the check.  Otherwise it returns a writer holding the
    three settings and leaves [*err] and the store as they were.  The stream
    is not touched either way. *)
Theorem csv_writer_new_outcome (d : char) (qs lb : Z) (w : world) :
  never_oom (heap w) ->
  let res := csv_writer_new d qs lb w in
  file (snd res) = file w /\
  if is_eol d || Ascii.eqb d QUOTE_CHAR then
    fst res = None /\
    raised CSV_EINVALID_FIELD_DELIMITER (lit "invalid field delimiter") (snd res)
  else if negb ((qs =? QUOTE_ALL) || (qs =? QUOTE_MINIMAL)) then
    fst res = None /\
    raised CSV_EINVALID_QUOTE_STYLE (lit "invalid quote style") (snd res)
  else if negb ((lb =? LINEBREAK_LF) || (lb =? LINEBREAK_CRLF) || (lb =? LINEBREAK_CR)) then
    fst res = None /\
    raised CSV_EINVALID_LINEBREAK (lit "invalid line break") (snd res)
  else
    fst res = Some {| w_field_delimiter := d; quote_style := qs; line_break := lb |} /\
    err (snd res) = err w /\ store (heap (snd res)) = store (heap w).
Proof.
  intros Hok res. subst res. unfold csv_writer_new.
  rewrite is_valid_field_delimiter_test.
  destruct (is_eol d || Ascii.eqb d QUOTE_CHAR).
  { change (0 =? 0) with true. cbv iota.
    destruct (raise_ok (A := csv_writer_t) CSV_EINVALID_FIELD_DELIMITER
                (lit "invalid field delimiter") w Hok ltac:(discriminate)) as (H1 & H2 & H3).
    auto. }
  change (1 =? 0) with false. cbv iota.
  rewrite <- negb_orb.
  destruct (negb ((qs =? QUOTE_ALL) || (qs =? QUOTE_MINIMAL))).
  { destruct (raise_ok (A := csv_writer_t) CSV_EINVALID_QUOTE_STYLE
                (lit "invalid quote style") w Hok ltac:(discriminate)) as (H1 & H2 & H3).
    auto. }
  rewrite <- !negb_orb.
  destruct (negb ((lb =? LINEBREAK_LF) || (lb =? LINEBREAK_CRLF) || (lb =? LINEBREAK_CR))).
  { destruct (raise_ok (A := csv_writer_t) CSV_EINVALID_LINEBREAK
                (lit "invalid line break") w Hok ltac:(discriminate)) as (H1 & H2 & H3).
    auto. }
  pose proof (xmalloc_spec w) as Hx. unfold wp in Hx. unfold bind.
  destruct (xmalloc w) as [p w1]. cbn [fst snd] in Hx.
  destruct Hx as (Hf & Hs & He & _ & Hp). destruct (Hp Hok) as [Hne _].
  rewrite (proj2 (Z.eqb_neq _ _) Hne). cbn. auto.
Qed.

Lemma csv_writer_new_outcome_witness :
  let w := world0 [] in
  never_oom (heap w) /\
  fst (csv_writer_new QUOTE_CHAR 7 7 w) = None /\
  raised CSV_EINVALID_FIELD_DELIMITER (lit "invalid field delimiter")
    (snd (csv_writer_new QUOTE_CHAR 7 7 w)) /\
  fst (csv_writer_new COMMA_CHAR 7 7 w) = None /\
  raised CSV_EINVALID_QUOTE_STYLE (lit "invalid quote style")
    (snd (csv_writer_new COMMA_CHAR 7 7 w)).
Proof.
  intros w.
  assert (Hok : never_oom (heap w)) by reflexivity.
  destruct (csv_writer_new_outcome QUOTE_CHAR 7 7 w Hok) as [_ [H1 H2]].
  destruct (csv_writer_new_outcome COMMA_CHAR 7 7 w Hok) as [_ [H3 H4]].
  exact (conj Hok (conj H1 (conj H2 (conj H3 H4)))).
Defined.

(** X2.  [csv_parser_new] gives a parser for the comma, and does what
    [csv_parser_new_with_field_delimiter] does for the comma, whatever the
    allocator does.  When memory suffices,
    [csv_parser_new_with_field_delimiter] returns [NULL] with an error of
    kind [CSV_EINVALID_FIELD_DELIMITER] in [*err] exactly for CR, LF and the
    double quote, and a parser for the byte given for every other byte. *)
Theorem csv_parser_new_outcome (d : char) (w : world) :
  csv_parser_new_with_field_delimiter COMMA_CHAR w = csv_parser_new w /\
  (never_oom (heap w) ->
   fst (csv_parser_new w) = Some {| field_delimiter := COMMA_CHAR |} /\
   err (snd (csv_parser_new w)) = err w /\
   let res := csv_parser_new_with_field_delimiter d w in
   file (snd res) = file w /\
   if is_eol d || Ascii.eqb d QUOTE_CHAR then
     fst res = None /\
     raised CSV_EINVALID_FIELD_DELIMITER (lit "invalid field delimiter") (snd res)
   else
     fst res = Some {| field_delimiter := d |} /\ err (snd res) = err w).
Proof.
  split.
  { unfold csv_parser_new_with_field_delimiter. cbn. unfold bind.
    destruct (csv_parser_new w) as [[p|] w1] eqn:E; [|reflexivity].
    unfold csv_parser_new, bind in E. destruct (xmalloc w) as [q w2].
    destruct (q =? NULL); [discriminate|]. now injection E as <- <-. }
  intros Hok.
  assert (Hnew : fst (csv_parser_new w) = Some {| field_delimiter := COMMA_CHAR |} /\
                 err (snd (csv_parser_new w)) = err w /\
                 file (snd (csv_parser_new w)) = file w).
  { unfold csv_parser_new, bind.
    pose proof (xmalloc_spec w) as Hx. unfold wp in Hx.
    destruct (xmalloc w) as [p w1]. cbn [fst snd] in Hx.
    destruct Hx as (Hf & _ & He & _ & Hp). destruct (Hp Hok) as [Hne _].
    rewrite (proj2 (Z.eqb_neq _ _) Hne). cbn. auto. }
  destruct Hnew as (N1 & N2 & N3). split; [exact N1 | split; [exact N2|]].
  intros res. subst res. unfold csv_parser_new_with_field_delimiter.
  rewrite is_valid_field_delimiter_test.
  destruct (is_eol d || Ascii.eqb d QUOTE_CHAR).
  { change (0 =? 0) with true. cbv iota.
    destruct (raise_ok (A := csv_parser_t) CSV_EINVALID_FIELD_DELIMITER
                (lit "invalid field delimiter") w Hok ltac:(discriminate)) as (H1 & H2 & H3).
    auto. }
  change (1 =? 0) with false. cbv iota. unfold bind.
  destruct (csv_parser_new w) as [[p|] w1]; [|discriminate]. cbn in *. auto.
Qed.

Lemma csv_parser_new_outcome_witness :
  let w := world0 [] in
  never_oom (heap w) /\
  fst (csv_parser_new_with_field_delimiter LF_CHAR w) = None /\
  raised CSV_EINVALID_FIELD_DELIMITER (lit "invalid field delimiter")
    (snd (csv_parser_new_with_field_delimiter LF_CHAR w)).
Proof.
  intros w.
  assert (Hok : never_oom (heap w)) by reflexivity.
  destruct (csv_parser_new_outcome LF_CHAR w) as [_ H].
  destruct (H Hok) as (_ & _ & _ & H1 & H2).
  exact (conj Hok (conj H1 H2)).
Defined.

(** ** The row container *)

Lemma quiet_refl w : quiet w w.
Proof. unfold quiet. auto. Qed.

Lemma quiet_trans w1 w2 w3 : quiet w1 w2 -> quiet w2 w3 -> quiet w1 w3.
Proof.
  unfold quiet. intros (A1 & A2 & A3) (B1 & B2 & B3).
  repeat apply conj; [congruence | congruence | lia].
Qed.

Lemma xmalloc_cases w :
  wp xmalloc (fun p w' =>
    quiet w w' /\
    ((p <> NULL /\ err w' = err w /\ ~ next_fails (heap w) /\
      plan (heap w') = tl (plan (heap w))) \/
     (p = NULL /\ err w' = csv_error_oom /\ next_fails (heap w)))) w.
Proof.
  unfold wp, xmalloc, bind, malloc, quiet, next_fails.
  destruct (plan (heap w)) as [|[] pl] eqn:E; cbn; rewrite ?heap_addr_not_null; cbn;
    (split; [repeat apply conj; auto; lia|]).
  - left. repeat apply conj; auto; [unfold heap_base, NULL; lia | intros [? ?]; discriminate].
  - left. repeat apply conj; auto; [unfold heap_base, NULL; lia | intros [? ?]; discriminate].
  - right. eauto.
Qed.

Lemma never_oom_not_fails (m : mem) : never_oom m -> ~ next_fails m.
Proof.
  intros Hok [pl E]. pose proof (never_oom_plan _ Hok) as H. now rewrite E in H.
Qed.

(** X3.  A call of [csv_row_append_field] on a row that holds no more
    fields than it has room for either succeeds or fails for lack of memory.
    When it succeeds the row has one field more: the new last field is a
    NUL-terminated copy of the first [len] bytes given, the fields it had
    are where they were, the room has doubled if the row was full and is
    unchanged otherwise, and [*err] is untouched.  When it fails the row
    holds the fields it held and [*err] points to the static out-of-memory
    error.  Neither the stream nor the store changes. *)
Theorem csv_row_append_field_outcome (row : csv_row_t) (field : list char) (len : nat)
    (w : world) :
  row_ok row -> (len <= length field)%nat ->
  let res := csv_row_append_field row field len w in
  let row' := snd (fst res) in
  quiet w (snd res) /\
  ((fst (fst res) = SUCCEED /\ err (snd res) = err w /\
    csv_row_field_count row' = csv_row_field_count row + 1 /\
    csv_row_field_get row' (csv_row_field_count row) = firstn len field ++ [NUL] /\
    (forall i, 0 <= i < csv_row_field_count row ->
       csv_row_field_get row' i = csv_row_field_get row i) /\
    r_capacity row' =
      (if csv_row_field_count row =? r_capacity row then 2 * r_capacity row
       else r_capacity row) /\
    row_ok row') \/
   (fst (fst res) = FAIL /\ err (snd res) = csv_error_oom /\
    r_fields row' = r_fields row /\ ~ never_oom (heap w))).
Proof.
  intros [Hcap Hlen] Hfield res row'. subst row' res.
  unfold csv_row_field_count, csv_row_field_get.
  assert (Happ : forall cap,
    0 < cap -> r_len row < cap ->
    let row1 := {| r_capacity := cap;
                   r_fields := r_fields row ++ [firstn len field ++ [NUL]] |} in
    r_len row1 = r_len row + 1 /\
    nth (Z.to_nat (r_len row)) (r_fields row1) [] = firstn len field ++ [NUL] /\
    (forall i, 0 <= i < r_len row ->
       nth (Z.to_nat i) (r_fields row1) [] = nth (Z.to_nat i) (r_fields row) []) /\
    row_ok row1).
  { intros cap Hc Hl row1. subst row1. unfold row_ok, r_len in *. cbn [r_fields r_capacity].
    rewrite length_app. cbn [length]. repeat apply conj; try lia.
    - rewrite Nat2Z.id. rewrite app_nth2 by lia. now rewrite Nat.sub_diag.
    - intros i Hi. apply app_nth1. lia. }
  change (wp (csv_row_append_field row field len) (fun rr w' =>
    quiet w w' /\
    ((fst rr = SUCCEED /\ err w' = err w /\
      r_len (snd rr) = r_len row + 1 /\
      nth (Z.to_nat (r_len row)) (r_fields (snd rr)) [] = firstn len field ++ [NUL] /\
      (forall i, 0 <= i < r_len row ->
         nth (Z.to_nat i) (r_fields (snd rr)) [] = nth (Z.to_nat i) (r_fields row) []) /\
      r_capacity (snd rr) =
        (if r_len row =? r_capacity row then 2 * r_capacity row else r_capacity row) /\
      row_ok (snd rr)) \/
     (fst rr = FAIL /\ err w' = csv_error_oom /\
      r_fields (snd rr) = r_fields row /\ ~ never_oom (heap w)))) w).
  unfold csv_row_append_field, csv_row_expand_fields.
  destruct (Z.geb_spec (r_len row) (r_capacity row)) as [Hfull|Hroom].
  - assert (Heq : r_len row = r_capacity row) by lia.
    rewrite (proj2 (Z.eqb_eq _ _) Heq).
    apply wp_bind, wp_bind. eapply wp_mono; [apply xmalloc_cases|]. cbv beta.
    intros p w1 [Hq1 H1].
    destruct H1 as [(Hp & He1 & Hnf1 & Hpl1)|(-> & He1 & Hf1)].
    2:{ cbn. apply wp_ret, wp_ret. cbn. split; [exact Hq1|]. right. repeat apply conj; auto.
        intros Hok. now apply (never_oom_not_fails _ Hok). }
    rewrite (proj2 (Z.eqb_neq _ _) Hp). apply wp_ret. change (SUCCEED =? FAIL) with false.
    cbv iota. apply wp_bind. eapply wp_mono; [apply xmalloc_cases|]. cbv beta.
    intros s w2 [Hq2 H2].
    assert (Hq : quiet w w2) by (eapply quiet_trans; eauto).
    destruct H2 as [(Hs & He2 & Hnf2 & Hpl2)|(-> & He2 & Hf2)].
    + rewrite (proj2 (Z.eqb_neq _ _) Hs). apply wp_ret. cbn [fst snd r_capacity r_fields].
      split; [exact Hq|]. left.
      destruct (Happ (r_capacity row * 2) ltac:(lia) ltac:(lia)) as (A1 & A2 & A3 & A4).
      split; [reflexivity|]. split; [congruence|]. split; [exact A1|].
      split; [exact A2|]. split; [exact A3|]. split; [lia | exact A4].
    + cbn. apply wp_ret. cbn. split; [exact Hq|]. right. repeat apply conj; auto.
      intros Hok. destruct Hf2 as [pl Hf2]. rewrite Hpl1 in Hf2.
      pose proof (never_oom_plan _ Hok) as H.
      destruct (plan (heap w)) as [|[] ?]; cbn in *; try discriminate; try contradiction.
      rewrite Hf2 in H. discriminate.
  - assert (Hne : r_len row <> r_capacity row) by lia.
    rewrite (proj2 (Z.eqb_neq _ _) Hne).
    apply wp_bind, wp_ret. change (SUCCEED =? FAIL) with false.
    cbv iota. apply wp_bind. eapply wp_mono; [apply xmalloc_cases|]. cbv beta.
    intros s w2 [Hq2 H2].
    destruct H2 as [(Hs & He2 & Hnf2 & Hpl2)|(-> & He2 & Hf2)].
    + rewrite (proj2 (Z.eqb_neq _ _) Hs). apply wp_ret. cbn [fst snd r_capacity r_fields].
      split; [exact Hq2|]. left.
      destruct (Happ (r_capacity row) ltac:(lia) ltac:(lia)) as (A1 & A2 & A3 & A4).
      split; [reflexivity|]. split; [congruence|]. split; [exact A1|].
      split; [exact A2|]. split; [exact A3|]. split; [reflexivity | exact A4].
    + cbn. apply wp_ret. cbn. split; [exact Hq2|]. right. repeat apply conj; auto.
      intros Hok. now apply (never_oom_not_fails _ Hok).
Qed.

Lemma csv_row_append_field_outcome_witness :
  let row := {| r_capacity := 32; r_fields := [] |} in
  let res := csv_row_append_field row (lit "ab") 2 (world0 []) in
  row_ok row /\ (2 <= length (lit "ab"))%nat /\
  fst (fst res) = SUCCEED /\
  csv_row_field_get (snd (fst res)) 0 = lit "ab".
Proof.
  intros row res.
  assert (Hrow : row_ok row) by (split; [reflexivity | discriminate]).
  assert (Hlen : (2 <= length (lit "ab"))%nat) by (cbn; lia).
  destruct (csv_row_append_field_outcome row (lit "ab") 2 (world0 []) Hrow Hlen)
    as [_ [(H1 & _ & _ & H2 & _)|(_ & _ & _ & H)]].
  - exact (conj Hrow (conj Hlen (conj H1 H2))).
  - exfalso. apply H. reflexivity.
Defined.

(** ** The parse buffer *)

(** X4.  A call of [buffer_putc] on a buffer that holds no more bytes than
    it has room for either succeeds, and then the buffer holds the bytes it
    held followed by the byte given, its room doubled if it was full and
    unchanged otherwise; or it fails for lack of memory, and then the buffer
    is as it was and [*err] points to the static out-of-memory error.  The
    room never falls short of the contents, so the copy of [capacity] bytes
    made when the buffer grows takes all of them. *)
Theorem buffer_putc_outcome (buffer : buffer_t) (c : char) (w : world) :
  buffer_ok buffer ->
  let res := buffer_putc buffer c w in
  let buffer' := snd (fst res) in
  quiet w (snd res) /\
  ((fst (fst res) = SUCCEED /\ err (snd res) = err w /\
    b_p buffer' = b_p buffer ++ [c] /\
    b_capacity buffer' =
      (if b_len buffer =? b_capacity buffer then 2 * b_capacity buffer
       else b_capacity buffer) /\
    buffer_ok buffer') \/
   (fst (fst res) = FAIL /\ err (snd res) = csv_error_oom /\
    buffer' = buffer /\ next_fails (heap w))).
Proof.
  intros [Hcap Hlen] res buffer'. subst buffer' res.
  change (wp (buffer_putc buffer c) (fun rb w' =>
    quiet w w' /\
    ((fst rb = SUCCEED /\ err w' = err w /\
      b_p (snd rb) = b_p buffer ++ [c] /\
      b_capacity (snd rb) =
        (if b_len buffer =? b_capacity buffer then 2 * b_capacity buffer
         else b_capacity buffer) /\
      buffer_ok (snd rb)) \/
     (fst rb = FAIL /\ err w' = csv_error_oom /\
      snd rb = buffer /\ next_fails (heap w)))) w).
  assert (Hput : forall cap, b_len buffer < cap ->
            buffer_ok {| b_capacity := cap; b_p := b_p buffer ++ [c] |}).
  { intros cap Hc. unfold buffer_ok, b_len in *. cbn [b_capacity b_p].
    rewrite length_app. cbn [length]. lia. }
  unfold buffer_putc. apply wp_bind.
  destruct (Z.geb_spec (b_len buffer) (b_capacity buffer)) as [Hfull|Hroom].
  - assert (Heq : b_len buffer = b_capacity buffer) by lia.
    rewrite (proj2 (Z.eqb_eq _ _) Heq).
    apply wp_bind. eapply wp_mono; [apply xmalloc_cases|]. cbv beta.
    intros p w1 [Hq1 H1].
    destruct H1 as [(Hp & He1 & _ & _)|(-> & He1 & Hf1)].
    + rewrite (proj2 (Z.eqb_neq _ _) Hp). apply wp_ret. change (SUCCEED =? FAIL) with false.
      cbv iota. apply wp_ret. cbn [fst snd b_capacity b_p].
      split; [exact Hq1|]. left.
      split; [reflexivity|]. split; [exact He1|]. split; [reflexivity|].
      split; [lia | apply Hput; lia].
    + cbn. apply wp_ret, wp_ret. cbn. split; [exact Hq1|]. right. auto.
  - assert (Hne : b_len buffer <> b_capacity buffer) by lia.
    rewrite (proj2 (Z.eqb_neq _ _) Hne).
    apply wp_ret. change (SUCCEED =? FAIL) with false. cbv iota. apply wp_ret.
    cbn [fst snd b_capacity b_p]. split; [apply quiet_refl|]. left.
    split; [reflexivity|]. split; [reflexivity|]. split; [reflexivity|].
    split; [reflexivity | apply Hput; lia].
Qed.

Lemma buffer_putc_outcome_witness :
  let buffer := {| b_capacity := 2; b_p := bytes "ab" |} in
  let res := buffer_putc buffer "c"%char (world0 []) in
  buffer_ok buffer /\
  b_p (snd (fst res)) = bytes "abc" /\ b_capacity (snd (fst res)) = 4.
Proof.
  intros buffer res.
  assert (Hb : buffer_ok buffer) by (split; [reflexivity | discriminate]).
  destruct (buffer_putc_outcome buffer "c"%char (world0 []) Hb)
    as [_ [(_ & _ & H1 & H2 & _)|(_ & _ & _ & [pl H])]].
  - exact (conj Hb (conj H1 H2)).
  - discriminate H.
Defined.

(** ** Running out of memory in a constructor *)

Lemma fails_within_two_cases (pl : list bool) :
  fails_within_two pl = true <->
  (exists pl', pl = false :: pl') \/ (exists b pl', pl = b :: false :: pl').
Proof.
  split.
  - destruct pl as [|[] [|[] pl]]; cbn; try discriminate; eauto.
  - intros [[pl' ->]|(b & pl' & ->)]; [reflexivity|]. now destruct b.
Qed.

(** X5.  [csv_row_new] and [buffer_new] make two allocations, the parser and
    writer constructors one.  Each returns [NULL] exactly when one of its
    allocations fails, and then [*err] points to the static out-of-memory
    error; otherwise [*err] is untouched, the new row is empty with room for
    32 fields and the new buffer is empty with room for 256 bytes.  The
    store and the stream are as they were in every case. *)
Theorem constructors_out_of_memory (w : world) :
  (let res := csv_row_new w in
   quiet w (snd res) /\
   if fails_within_two (plan (heap w))
   then fst res = None /\ err (snd res) = csv_error_oom
   else fst res = Some {| r_capacity := 32; r_fields := [] |} /\ err (snd res) = err w) /\
  (let res := buffer_new w in
   quiet w (snd res) /\
   if fails_within_two (plan (heap w))
   then fst res = None /\ err (snd res) = csv_error_oom
   else fst res = Some {| b_capacity := 256; b_p := [] |} /\ err (snd res) = err w) /\
  (let res := csv_parser_new w in
   quiet w (snd res) /\
   match plan (heap w) with
   | false :: _ => fst res = None /\ err (snd res) = csv_error_oom
   | _ => fst res = Some {| field_delimiter := COMMA_CHAR |} /\ err (snd res) = err w
   end) /\
  (let res := csv_writer_default w in
   quiet w (snd res) /\
   match plan (heap w) with
   | false :: _ => fst res = None /\ err (snd res) = csv_error_oom
   | _ => fst res = Some {| w_field_delimiter := COMMA_CHAR;
                            quote_style := QUOTE_MINIMAL;
                            line_break := LINEBREAK_LF |} /\
          err (snd res) = err w
   end).
Proof.
  unfold quiet.
  repeat apply conj;
    unfold csv_row_new, buffer_new, csv_parser_new, csv_writer_default, csv_writer_new,
      xmalloc, bind, malloc, set_err, ret;
    cbn;
    destruct (plan (heap w)) as [|[] [|[] pl]];
    repeat first [rewrite heap_addr_not_null | progress cbn];
    auto; try lia.
Qed.

(** ** What a call of the parser changes *)

Lemma read_on_refl w : read_on w w.
Proof. now exists []. Qed.

Lemma read_on_trans w1 w2 w3 : read_on w1 w2 -> read_on w2 w3 -> read_on w1 w3.
Proof.
  intros [p1 E1] [p2 E2]. exists (p1 ++ p2). now rewrite E1, E2, app_assoc.
Qed.

Lemma read_on_length w w' :
  read_on w w' -> (length (rd (file w')) <= length (rd (file w)))%nat.
Proof. intros [p E]. rewrite E, length_app. lia. Qed.

Lemma advance_refl w : advance w w.
Proof. unfold advance. auto using frame_refl, read_on_refl. Qed.

Lemma advance_trans w1 w2 w3 : advance w1 w2 -> advance w2 w3 -> advance w1 w3.
Proof.
  intros (A1 & A2 & A3 & A4 & A5) (B1 & B2 & B3 & B4 & B5). unfold advance.
  split; [eapply frame_trans; eauto|]. split; [eapply read_on_trans; eauto|].
  split; [congruence|]. split; [lia | congruence].
Qed.

Lemma advance_quiet w w1 : quiet w w1 -> err w1 = err w -> advance w w1.
Proof.
  intros (Hf & Hs & Hb) He. unfold advance.
  split; [now apply frame_file|]. split; [exists []; now rewrite Hf|]. auto.
Qed.

Lemma fresh_advance w w1 :
  store (heap w1) = store (heap w) -> (brk (heap w) <= brk (heap w1))%nat ->
  fresh (heap w) -> fresh (heap w1).
Proof. intros Hs Hb Hf n Hn. rewrite Hs. apply Hf. lia. Qed.

Lemma advance_fresh w w1 : advance w w1 -> fresh (heap w) -> fresh (heap w1).
Proof. intros (_ & _ & Hs & Hb & _). now apply fresh_advance. Qed.

Lemma null_outcome_advance w w1 w' :
  advance w w1 -> null_outcome w1 w' -> null_outcome w w'.
Proof.
  intros (Hfr & _ & Hs & Hb & He) [[E1 E2]|[[E1 E2]|(code & msg & Hp & n & Hn & E1 & E2)]].
  - left. split; congruence.
  - right; left. split; congruence.
  - right; right. exists code, msg. split.
    + destruct Hfr as (_ & _ & _ & _ & Hm). unfold parser_error in *. now rewrite <- Hm.
    + exists n. split; [lia|]. split; [exact E1|]. now rewrite <- Hs.
Qed.

Lemma call_inv_advance w w1 r w' :
  advance w w1 -> call_inv w1 r w' -> call_inv w r w'.
Proof.
  intros Ha (P1 & P2 & P3 & P4 & P5). pose proof Ha as (Hfr & Hrd & Hs & Hb & He).
  unfold call_inv. split; [eapply frame_trans; eauto|].
  split; [eapply read_on_trans; eauto|]. split; [lia|]. split; [exact P4|].
  destruct r.
  - destruct P5. split; congruence.
  - eapply null_outcome_advance; eauto.
Qed.

Lemma loop_run_intro w w2 row st r w' :
  advance w w2 ->
  (rd (file w) <> [] -> (length (rd (file w2)) < length (rd (file w)))%nat) ->
  (r <> None -> rd (file w) = [] -> st = ST_INFIELD \/ r_fields row <> []) ->
  call_inv w2 r w' -> loop_run w row st r w'.
Proof.
  intros Ha Hlt Hend Hc. unfold loop_run.
  split; [eapply call_inv_advance; eauto|]. split; [|exact Hend].
  intros Hne. destruct Hc as (_ & Hrd & _). apply read_on_length in Hrd.
  specialize (Hlt Hne). lia.
Qed.

(** *** The operations on the way *)

Lemma buffer_putc_quiet (buffer : buffer_t) (c : char) w :
  wp (buffer_putc buffer c) (fun rb w' =>
    quiet w w' /\
    ((fst rb = SUCCEED /\ err w' = err w) \/
     (fst rb = FAIL /\ err w' = csv_error_oom))) w.
Proof.
  unfold buffer_putc. apply wp_bind.
  destruct (b_len buffer >=? b_capacity buffer).
  - apply wp_bind. eapply wp_mono; [apply xmalloc_cases|]. cbv beta.
    intros p w1 [Hq [(Hp & He & _)|(-> & He & _)]].
    + rewrite (proj2 (Z.eqb_neq _ _) Hp). apply wp_ret, wp_ret. cbn. auto.
    + apply wp_ret, wp_ret. cbn. auto.
  - apply wp_ret, wp_ret. cbn. split; [apply quiet_refl | auto].
Qed.

Lemma csv_row_append_field_quiet (row : csv_row_t) (field : list char) (len : nat) w :
  wp (csv_row_append_field row field len) (fun rr w' =>
    quiet w w' /\
    ((fst rr = SUCCEED /\ err w' = err w) \/
     (fst rr = FAIL /\ err w' = csv_error_oom))) w.
Proof.
  unfold csv_row_append_field, csv_row_expand_fields. apply wp_bind.
  assert (Hnext : forall row1 w1, quiet w w1 -> err w1 = err w ->
    wp (do s <- xmalloc;
        if s =? NULL then ret (FAIL, row1)
        else ret (SUCCEED, {| r_capacity := r_capacity row1;
                              r_fields := r_fields row1 ++ [firstn len field ++ [NUL]] |}))
       (fun rr w' => quiet w w' /\
          ((fst rr = SUCCEED /\ err w' = err w) \/
           (fst rr = FAIL /\ err w' = csv_error_oom))) w1).
  { intros row1 w1 Hq1 He1. apply wp_bind. eapply wp_mono; [apply xmalloc_cases|].
    cbv beta. intros s w2 [Hq2 [(Hs & He & _)|(-> & He & _)]].
    + rewrite (proj2 (Z.eqb_neq _ _) Hs). apply wp_ret. cbn.
      split; [eapply quiet_trans; eauto | left; split; congruence].
    + apply wp_ret. cbn. split; [eapply quiet_trans; eauto | auto]. }
  destruct (r_len row >=? r_capacity row).
  - apply wp_bind. eapply wp_mono; [apply xmalloc_cases|]. cbv beta.
    intros p w1 [Hq [(Hp & He & _)|(-> & He & _)]].
    + rewrite (proj2 (Z.eqb_neq _ _) Hp). apply wp_ret. cbn [fst snd].
      change (SUCCEED =? FAIL) with false. cbv iota. now apply Hnext.
    + apply wp_ret. cbn. apply wp_ret. cbn. auto.
  - apply wp_ret. cbn [fst snd]. change (SUCCEED =? FAIL) with false. cbv iota.
    apply Hnext; [apply quiet_refl | reflexivity].
Qed.

Lemma two_xmalloc_quiet {A} (a : A) w :
  wp (do p <- xmalloc;
      if p =? NULL then ret None
      else do q <- xmalloc; if q =? NULL then ret None else ret (Some a))
     (fun o w' =>
        quiet w w' /\
        ((o = Some a /\ err w' = err w) \/ (o = None /\ err w' = csv_error_oom))) w.
Proof.
  apply wp_bind. eapply wp_mono; [apply xmalloc_cases|]. cbv beta.
  intros p w1 [Hq1 [(Hp & He1 & _)|(-> & He1 & _)]].
  2:{ apply wp_ret. auto. }
  rewrite (proj2 (Z.eqb_neq _ _) Hp).
  apply wp_bind. eapply wp_mono; [apply xmalloc_cases|]. cbv beta.
  intros q w2 [Hq2 [(Hq & He2 & _)|(-> & He2 & _)]].
  - rewrite (proj2 (Z.eqb_neq _ _) Hq). apply wp_ret.
    split; [eapply quiet_trans; eauto | left; split; congruence].
  - apply wp_ret. split; [eapply quiet_trans; eauto | auto].
Qed.

Lemma call_inv_quiet w w' (r : option csv_row_t) :
  quiet w w' -> fresh (heap w) ->
  match r with
  | Some _ => err w' = err w
  | None => err w' = err w \/ err w' = csv_error_oom
  end ->
  call_inv w r w'.
Proof.
  intros (Hf & Hs & Hb) Hfr He. unfold call_inv.
  split; [now apply frame_file|]. split; [exists []; now rewrite Hf|].
  split; [exact Hb|]. split; [eapply fresh_advance; eauto|].
  destruct r; [auto|]. destruct He; [left | right; left]; auto.
Qed.

Lemma fail_with_inv (code : Z) (msg : list char) row buffer w :
  fresh (heap w) -> parser_error code msg (file w) ->
  wp (fail_with code msg row buffer) (fun r w' => r = None /\ call_inv w None w') w.
Proof.
  intros Hf Hp.
  assert (Hne : code <> CSV_ENOMEMORY)
    by (destruct Hp as [[-> _]|[-> _]]; discriminate).
  unfold wp, fail_with, FAILURE_RETURN, csv_row_free, buffer_free, bind, set_err, ret.
  rewrite (csv_error_new_world code msg w Hne).
  set (e := heap_base + Z.of_nat (brk (heap w))).
  set (q := heap_base + Z.of_nat (S (brk (heap w)))).
  assert (Hqe : q <> e) by (subst q e; lia).
  assert (Hfail : forall pl b, (brk (heap w) <= b)%nat ->
    call_inv w None
      {| file := file w;
         heap := {| store := store (heap w); brk := b; plan := pl |};
         err := csv_error_oom |}).
  { intros pl b Hb. apply call_inv_quiet; [|exact Hf | now right].
    unfold quiet. cbn. auto. }
  assert (Hnew : forall pl,
    call_inv w None
      {| file := file w;
         heap := {| store := <[q := OString (c_str msg ++ [NUL])]>
                               (<[e := OError code q]>
                                  (<[e := OError code NULL]> (store (heap w))));
                    brk := S (S (brk (heap w))); plan := pl |};
         err := e |}).
  { intros pl. rewrite insert_insert_eq. unfold call_inv. cbn [file heap err store brk].
    split; [now apply frame_file|]. split; [now exists []|]. split; [lia|].
    split.
    - intros n Hn. cbn [store brk] in *.
      rewrite !lookup_insert_ne by (subst q e; lia). apply Hf. lia.
    - right; right. exists code, msg. split; [exact Hp|].
      exists (brk (heap w)). cbn [err heap store]. auto. }
  destruct (plan (heap w)) as [|[] [|[] pl]]; cbn [fst snd tl file heap err];
    (split; [reflexivity|]); auto.
  rewrite delete_insert_eq, delete_id by (apply Hf; lia). apply Hfail. lia.
Qed.

Lemma append_and_return_inv row buffer w :
  fresh (heap w) -> wp (append_and_return row buffer) (call_inv w) w.
Proof.
  intros Hf. unfold append_and_return, csv_row_append_field_with_buffer.
  apply wp_bind. eapply wp_mono; [apply csv_row_append_field_quiet|]. cbv beta.
  intros [res row1] w1 [Hq H]; cbn [fst snd] in *;
    destruct H as [[-> He]|[-> He]].
  - change (SUCCEED =? FAIL) with false. cbv iota. unfold buffer_free.
    apply wp_bind, wp_ret, wp_ret. now apply call_inv_quiet.
  - change (FAIL =? FAIL) with true. cbv iota.
    unfold FAILURE_RETURN, csv_row_free, buffer_free.
    apply wp_bind, wp_ret, wp_bind, wp_ret, wp_ret. apply call_inv_quiet; auto.
Qed.

(** A step that stores a byte and goes on. *)
Lemma putc_inv parser fuel row buffer x st' q' w :
  (forall buffer0 w2, (length (rd (file w2)) < fuel)%nat -> fresh (heap w2) ->
     wp (parse_loop fuel parser row buffer0 st' q') (call_inv w2) w2) ->
  (length (rd (file w)) < fuel)%nat -> fresh (heap w) ->
  wp (do '(res, buffer0) <- buffer_putc buffer x;
      if res =? FAIL then FAILURE_RETURN row buffer0
      else parse_loop fuel parser row buffer0 st' q')
     (call_inv w) w.
Proof.
  intros IH Hfuel Hf. apply wp_bind. eapply wp_mono; [apply buffer_putc_quiet|].
  cbv beta. intros [res buffer0] w1 [Hq H]; cbn [fst snd] in *;
    destruct H as [[-> He]|[-> He]].
  - change (SUCCEED =? FAIL) with false. cbv iota.
    pose proof (advance_quiet _ _ Hq He) as Ha.
    eapply wp_mono; [apply IH|].
    + destruct Hq as (-> & _). exact Hfuel.
    + eapply advance_fresh; eauto.
    + cbv beta. intros r w'. now apply call_inv_advance.
  - change (FAIL =? FAIL) with true. cbv iota.
    unfold FAILURE_RETURN, csv_row_free, buffer_free.
    apply wp_bind, wp_ret, wp_bind, wp_ret, wp_ret. apply call_inv_quiet; auto.
Qed.

(** A step that closes a field and goes on. *)
Lemma append_inv parser fuel row buffer w :
  (forall row0 buffer0 w2, (length (rd (file w2)) < fuel)%nat -> fresh (heap w2) ->
     wp (parse_loop fuel parser row0 buffer0 ST_START false) (call_inv w2) w2) ->
  (length (rd (file w)) < fuel)%nat -> fresh (heap w) ->
  wp (do '(res, row0) <- csv_row_append_field_with_buffer row buffer;
      if res =? FAIL then FAILURE_RETURN row0 buffer
      else parse_loop fuel parser row0 (buffer_reset buffer) ST_START false)
     (call_inv w) w.
Proof.
  intros IH Hfuel Hf. unfold csv_row_append_field_with_buffer.
  apply wp_bind. eapply wp_mono; [apply csv_row_append_field_quiet|].
  cbv beta. intros [res row0] w1 [Hq H]; cbn [fst snd] in *;
    destruct H as [[-> He]|[-> He]].
  - change (SUCCEED =? FAIL) with false. cbv iota.
    pose proof (advance_quiet _ _ Hq He) as Ha.
    eapply wp_mono; [apply IH|].
    + destruct Hq as (-> & _). exact Hfuel.
    + eapply advance_fresh; eauto.
    + cbv beta. intros r w'. now apply call_inv_advance.
  - change (FAIL =? FAIL) with true. cbv iota.
    unfold FAILURE_RETURN, csv_row_free, buffer_free.
    apply wp_bind, wp_ret, wp_bind, wp_ret, wp_ret. apply call_inv_quiet; auto.
Qed.

Lemma advance_read w w1 (pre : list char) :
  rd (file w) = pre ++ rd (file w1) -> frame w w1 -> heap w1 = heap w ->
  err w1 = err w -> advance w w1.
Proof.
  intros Hrd Hfr Hh He. unfold advance. split; [exact Hfr|].
  split; [now exists pre|]. rewrite Hh. auto.
Qed.

Lemma after_eol_suffix (c : char) (l : list char) : exists pre, l = pre ++ after_eol c l.
Proof.
  unfold after_eol. destruct (Ascii.eqb c CR_CHAR); [|now exists []].
  destruct l as [|x l]; [now exists []|].
  destruct (Ascii.eqb x LF_CHAR); [now exists [x] | now exists []].
Qed.

Lemma call_inv_row w w' (row : csv_row_t) :
  advance w w' -> fresh (heap w) -> call_inv w (Some row) w'.
Proof.
  intros Ha Hf. pose proof Ha as (Hfr & Hrd & Hs & Hb & He). unfold call_inv.
  split; [exact Hfr|]. split; [exact Hrd|]. split; [exact Hb|].
  split; [eapply advance_fresh; eauto | auto].
Qed.

Lemma call_inv_end w w' :
  advance w w' -> fresh (heap w) -> call_inv w None w'.
Proof.
  intros Ha Hf. pose proof Ha as (Hfr & Hrd & Hs & Hb & He). unfold call_inv.
  split; [exact Hfr|]. split; [exact Hrd|]. split; [exact Hb|].
  split; [eapply advance_fresh; eauto | left; auto].
Qed.

(** A run that ends in [fail_with], after some reading. *)
Lemma end_fail code msg row buffer w1 w2 :
  advance w1 w2 -> fresh (heap w1) -> parser_error code msg (file w1) ->
  wp (fail_with code msg row buffer) (call_inv w1) w2.
Proof.
  intros Ha Hf Hp. eapply wp_mono.
  - apply fail_with_inv; [eapply advance_fresh; eauto|].
    destruct Ha as ((_ & _ & _ & _ & Hm) & _). unfold parser_error in *. now rewrite Hm.
  - cbv beta. intros r w' [-> Hc]. eapply call_inv_advance; eauto.
Qed.

(** A run that ends in [append_and_return], after some reading. *)
Lemma end_append row buffer w1 w2 :
  advance w1 w2 -> fresh (heap w1) ->
  wp (append_and_return row buffer) (call_inv w1) w2.
Proof.
  intros Ha Hf. eapply wp_mono.
  - apply append_and_return_inv. eapply advance_fresh; eauto.
  - cbv beta. intros r w' Hc. eapply call_inv_advance; eauto.
Qed.

Lemma parse_loop_inv (parser : csv_parser_t) :
  forall fuel row buffer st q w,
    (length (rd (file w)) < fuel)%nat -> fresh (heap w) ->
    wp (parse_loop fuel parser row buffer st q) (loop_run w row st) w.
Proof.
  induction fuel as [|fuel IH]; intros row buffer st q w Hfuel Hf; [lia|].
  assert (IH' : forall row0 buffer0 st0 q0 w2,
            (length (rd (file w2)) < fuel)%nat -> fresh (heap w2) ->
            wp (parse_loop fuel parser row0 buffer0 st0 q0) (call_inv w2) w2).
  { intros. eapply wp_mono; [apply IH; assumption|]. cbv beta. intros r w' H1. apply H1. }
  clear IH. cbn [parse_loop]. apply wp_bind. unfold wp at 1.
  destruct (rd (file w)) as [|c l] eqn:E.
  - destruct (fgetc_nil w E) as (w1 & -> & Hrd & Hfr & Hh & He & Hio). cbn [fst snd].
    assert (Ha : advance w w1)
      by (apply (advance_read w w1 []); auto; now rewrite E, Hrd).
    assert (Hend : forall r w', call_inv w r w' ->
              (r <> None -> st = ST_INFIELD \/ r_fields row <> []) ->
              loop_run w row st r w').
    { intros r w' Hc H. apply (loop_run_intro w w); auto using advance_refl.
      intros Hne. now rewrite E in Hne. }
    destruct st; autorewrite with chr; cbn [negb].
    + apply wp_bind, wp_ferror. rewrite Hio.
      destruct (io_error (file w)) eqn:Eio.
      * apply wp_bind, wp_strerror_errno.
        eapply wp_mono; [apply fail_with_inv; [now rewrite Hh | now left]|].
        cbv beta. intros r w' [-> Hc]. apply Hend; [|congruence].
        eapply call_inv_advance; eauto.
      * destruct (r_len row >? 0) eqn:Elen.
        -- eapply wp_mono; [apply (end_append row buffer w w1 Ha Hf)|].
           cbv beta. intros r w' Hc. apply Hend; [exact Hc|].
           intros _. right. unfold r_len in Elen. destruct (r_fields row); [|discriminate].
           discriminate.
        -- unfold csv_row_free, buffer_free.
           apply wp_bind, wp_ret, wp_bind, wp_ret, wp_ret.
           apply Hend; [now apply call_inv_end | congruence].
    + apply wp_bind, wp_ferror. rewrite Hio.
      destruct (io_error (file w)) eqn:Eio.
      * apply wp_bind, wp_strerror_errno.
        eapply wp_mono; [apply fail_with_inv; [now rewrite Hh | now left]|].
        cbv beta. intros r w' [-> Hc]. apply Hend; [|congruence].
        eapply call_inv_advance; eauto.
      * destruct q.
        -- eapply wp_mono; [apply (end_fail _ _ row buffer w w1 Ha Hf); right; auto|].
           cbv beta. intros r w' Hc. apply Hend; auto.
        -- eapply wp_mono; [apply (end_append row buffer w w1 Ha Hf)|].
           cbv beta. intros r w' Hc. apply Hend; auto.
  - destruct (fgetc_cons c l w E) as (w1 & -> & Hrd & Hfr & Hh & He). cbn [fst snd].
    assert (Ha : advance w w1)
      by (apply (advance_read w w1 [c]); auto; now rewrite E, Hrd).
    assert (Hf1 : fresh (heap w1)) by now rewrite Hh.
    assert (Hl : (length (rd (file w1)) < fuel)%nat) by (rewrite Hrd; simpl in Hfuel; lia).
    apply (wp_mono _ (call_inv w1)).
    2:{ intros r w' Hc. apply (loop_run_intro w w1); auto.
        - intros _. rewrite E, Hrd. cbn. lia.
        - intros _ H. rewrite E in H. discriminate. }
    assert (Hquote : forall x l2 w2, rd (file w1) = x :: l2 ->
              rd (file w2) = l2 -> frame w1 w2 -> heap w2 = heap w1 -> err w2 = err w1 ->
              advance w1 w2 /\ fresh (heap w2) /\ (length (rd (file w2)) < fuel)%nat).
    { intros x l2 w2 E1 E2 F H1 H2. split; [|split].
      - apply (advance_read w1 w2 [x]); auto. now rewrite E1, E2.
      - now rewrite H1.
      - rewrite E2. rewrite E1 in Hl. cbn in Hl. lia. }
    assert (Heol : forall a row0 buffer0,
              wp (consume_end_of_line (int_of_char a);; append_and_return row0 buffer0)
                 (call_inv w1) w1).
    { intros a row0 buffer0. wp_call consume_end_of_line_spec.
      intros [] w2 (Hrd2 & Hfr2 & Hh2 & He2).
      destruct (after_eol_suffix a (rd (file w1))) as [pre Hpre].
      apply end_append; [|exact Hf1].
      apply (advance_read w1 w2 pre); auto. now rewrite Hrd2. }
    destruct st; chr.
    + (* ST_START *)
      destruct (Ascii.eqb c QUOTE_CHAR); [now apply IH'|].
      fold (is_eol c). destruct (is_eol c).
      { destruct (r_len row >? 0); [apply Heol|].
        wp_call consume_end_of_line_spec. intros [] w2 (Hrd2 & Hfr2 & Hh2 & He2).
        unfold buffer_free. apply wp_bind, wp_ret, wp_ret.
        destruct (after_eol_suffix c (rd (file w1))) as [pre Hpre].
        apply call_inv_row; [|exact Hf1].
        apply (advance_read w1 w2 pre); auto. now rewrite Hrd2. }
      destruct (is_delimiter (field_delimiter parser) c).
      { apply append_inv; auto. }
      apply putc_inv; auto.
    + (* ST_INFIELD *)
      destruct (Ascii.eqb c QUOTE_CHAR).
      { destruct q; cbn [negb].
        2:{ apply end_fail; [apply advance_refl | exact Hf1 | right; auto]. }
        apply wp_bind. unfold wp at 1.
        destruct l as [|x l2].
        - destruct (fgetc_nil w1 Hrd) as (w2 & -> & Hrd2 & Hfr2 & Hh2 & He2 & _).
          cbn [fst snd]. chr. cbn [orb].
          assert (Ha2 : advance w1 w2)
            by (apply (advance_read w1 w2 []); auto; now rewrite Hrd, Hrd2).
          destruct (eof_is_delimiter (field_delimiter parser)).
          { eapply wp_mono.
            - apply append_inv;
                [intros; now apply IH'
                | rewrite Hrd2; cbn in Hfuel |- *; lia | now rewrite Hh2].
            - intros r w'. now apply call_inv_advance. }
          apply end_fail; [exact Ha2 | exact Hf1 | right; auto].
        - destruct (fgetc_cons x l2 w1 Hrd) as (w2 & -> & Hrd2 & Hfr2 & Hh2 & He2).
          cbn [fst snd]. chr.
          destruct (Hquote x l2 w2 Hrd Hrd2 Hfr2 Hh2 He2) as (Ha2 & Hf2 & Hl2).
          assert (Hback : forall r w', call_inv w2 r w' -> call_inv w1 r w')
            by (intros r w'; now apply call_inv_advance).
          destruct (Ascii.eqb x QUOTE_CHAR).
          { eapply wp_mono; [apply putc_inv; auto | exact Hback]. }
          destruct (is_delimiter (field_delimiter parser) x).
          { eapply wp_mono; [apply append_inv; auto | exact Hback]. }
          fold (is_eol x). destruct (is_eol x).
          { wp_call consume_end_of_line_spec. intros [] w3 (Hrd3 & Hfr3 & Hh3 & He3).
            destruct (after_eol_suffix c (rd (file w2))) as [pre Hpre].
            apply end_append; [|exact Hf1].
            eapply advance_trans; [exact Ha2|].
            apply (advance_read w2 w3 pre); auto. now rewrite Hrd3. }
          apply end_fail; [exact Ha2 | exact Hf1 | right; auto]. }
      fold (is_eol c). destruct (is_eol c).
      { destruct q; [apply putc_inv; auto | apply Heol]. }
      destruct (is_delimiter (field_delimiter parser) c).
      { destruct q; [apply putc_inv; auto | apply append_inv; auto]. }
      apply putc_inv; auto.
Qed.

Lemma csv_parse_next_row_inv (parser : csv_parser_t) w :
  fresh (heap w) ->
  wp (csv_parse_next_row parser) (fun r w' =>
    call_inv w r w' /\
    (r <> None -> (length (rd (file w')) < length (rd (file w)))%nat)) w.
Proof.
  intros Hf. unfold csv_parse_next_row, buffer_new, csv_row_new.
  apply wp_bind. eapply wp_mono; [apply two_xmalloc_quiet|]. cbv beta.
  intros ob w1 [Hq1 [[-> He1]|[-> He1]]].
  2:{ apply wp_ret. split; [|congruence]. apply call_inv_quiet; auto. }
  pose proof (advance_quiet _ _ Hq1 He1) as Ha1.
  apply wp_bind. eapply wp_mono; [apply two_xmalloc_quiet|]. cbv beta.
  intros orow w2 [Hq2 [[-> He2]|[-> He2]]].
  2:{ apply wp_ret. split; [|congruence].
      apply call_inv_quiet; [eapply quiet_trans; eauto | exact Hf | now right]. }
  pose proof (advance_quiet _ _ Hq2 He2) as Ha2.
  assert (Ha : advance w w2) by (eapply advance_trans; eauto).
  assert (Hfile : file w2 = file w) by (destruct Hq1 as (? & _), Hq2 as (? & _); congruence).
  eapply wp_mono.
  - apply parse_loop_inv; [lia | eapply advance_fresh; eauto].
  - cbv beta. intros r w' (Hc & Hlt & Hend). split; [eapply call_inv_advance; eauto|].
    intros Hr. rewrite <- Hfile. apply Hlt. intros Hnil.
    destruct (Hend Hr Hnil) as [H|H]; [discriminate | now apply H].
Qed.

(** X6.  A call of [csv_parse_next_row] reads the stream forward and does
    nothing else to it, whatever the allocator does: nothing is written, the
    bytes left unread are a final part of those that were unread before, and
    a call that returns a row has taken at least one byte (so the caller's
    loop cannot go on for ever). *)
Theorem parse_reads_forward (parser : csv_parser_t) (w : world) :
  fresh (heap w) ->
  let res := csv_parse_next_row parser w in
  wr (file (snd res)) = wr (file w) /\
  wr_plan (file (snd res)) = wr_plan (file w) /\
  exists pre,
    rd (file w) = pre ++ rd (file (snd res)) /\
    (fst res <> None -> pre <> []).
Proof.
  intros Hf res. subst res.
  pose proof (csv_parse_next_row_inv parser w Hf) as H. unfold wp in H.
  destruct (csv_parse_next_row parser w) as [r w']. cbn [fst snd] in *.
  destruct H as [(Hfr & [pre Hrd] & _) Hlt].
  destruct Hfr as (_ & _ & Hwr & Hpl & _).
  split; [exact Hwr|]. split; [exact Hpl|].
  exists pre. split; [exact Hrd|].
  intros Hr Hpre. specialize (Hlt Hr). rewrite Hrd, Hpre in Hlt. cbn in Hlt. lia.
Qed.

Lemma parse_reads_forward_witness :
  let w := world0 (bytes "a,b" ++ [LF_CHAR] ++ bytes "c") in
  let res := csv_parse_next_row {| field_delimiter := COMMA_CHAR |} w in
  fresh (heap w) /\
  wr (file (snd res)) = [] /\
  exists pre, rd (file w) = pre ++ rd (file (snd res)) /\ (fst res <> None -> pre <> []).
Proof.
  intros w res.
  destruct (parse_reads_forward {| field_delimiter := COMMA_CHAR |} w fresh_mem0)
    as (H1 & _ & H2).
  exact (conj fresh_mem0 (conj H1 H2)).
Defined.

Lemma new_error_keeps code msg w w' p o :
  fresh (heap w) -> new_error code msg w w' ->
  store (heap w) !! p = Some o -> store (heap w') !! p = Some o.
Proof.
  intros Hf (n & Hn & _ & Hs) Hp. rewrite Hs.
  assert (H1 : p <> heap_base + Z.of_nat (S n)).
  { intros ->. rewrite Hf in Hp by lia. discriminate. }
  assert (H2 : p <> heap_base + Z.of_nat n).
  { intros ->. rewrite Hf in Hp by lia. discriminate. }
  now rewrite !lookup_insert_ne by congruence.
Qed.

(** X7.  What a call of [csv_parse_next_row] made with [*err = NULL] does to
    [*err] and to the store of error objects, whatever the allocator does.
    A call that returns a row leaves both as they were.  A call that returns
    [NULL] with [*err] still [NULL] has found the input at its end without
    read error, and leaves the store as it was.  Any other call that returns
    [NULL] leaves in [*err] either the static out-of-memory error, the store
    being as it was, or a new error object: of kind [CSV_EIO] with the text
    of [strerror(errno)], or of kind [CSV_EINVALID_FORMAT] with one of the
    three messages of the parser.  No object that was in the store is
    changed or freed. *)
Theorem parse_errors (parser : csv_parser_t) (w : world) :
  fresh (heap w) -> err w = NULL ->
  let res := csv_parse_next_row parser w in
  let w' := snd res in
  fresh (heap w') /\
  (forall p o, store (heap w) !! p = Some o -> store (heap w') !! p = Some o) /\
  match fst res with
  | Some _ => err w' = NULL /\ store (heap w') = store (heap w)
  | None =>
      (err w' = NULL /\ store (heap w') = store (heap w) /\
       rd (file w) = [] /\ io_error (file w) = false) \/
      (err w' = csv_error_oom /\ store (heap w') = store (heap w)) \/
      (exists code msg,
         parser_error code msg (file w) /\ new_error code msg w w' /\
         raised code msg w')
  end.
Proof.
  intros Hf He res w'. subst w' res.
  pose proof (csv_parse_next_row_inv parser w Hf) as H. unfold wp in H.
  pose proof (csv_parse_next_row_spec parser w) as Hpost. unfold wp in Hpost.
  destruct (csv_parse_next_row parser w) as [r w']. cbn [fst snd] in *.
  destruct H as [(_ & _ & _ & Hf' & Hr) _].
  destruct Hpost as (_ & _ & Hnone & _).
  split; [exact Hf'|]. destruct r as [row|].
  - destruct Hr as [E1 E2]. split; [intros p o; now rewrite E2|].
    split; [congruence | exact E2].
  - destruct Hr as [[E1 E2]|[[E1 E2]|(code & msg & Hp & Hn)]].
    + split; [intros p o; now rewrite E2|]. left.
      destruct (Hnone eq_refl) as [[Hne _]|(_ & Hrd & Hio)]; [congruence|].
      repeat apply conj; congruence.
    + split; [intros p o; now rewrite E2|]. right; left. auto.
    + split; [intros p o; now apply (new_error_keeps code msg)|].
      right; right. exists code, msg. split; [exact Hp|]. split; [exact Hn|].
      destruct Hn as (n & _ & En & Es).
      destruct w' as [f' [s' b' pl'] e']. cbn [err heap store] in *. subst e' s'.
      apply raised_at.
Qed.

Lemma parse_errors_witness :
  let w := world0 (bytes "ab" ++ [QUOTE_CHAR]) in
  let res := csv_parse_next_row {| field_delimiter := COMMA_CHAR |} w in
  fresh (heap w) /\ err w = NULL /\
  fst res = None /\
  raised CSV_EINVALID_FORMAT msg_should_be_quoted (snd res).
Proof.
  intros w res.
  pose proof (parse_errors {| field_delimiter := COMMA_CHAR |} w fresh_mem0 eq_refl) as H.
  cbv zeta in H. destruct H as (_ & _ & H).
  assert (Hres : fst res = None) by reflexivity.
  fold res in H. rewrite Hres in H.
  destruct H as [(H & _)|[(H & _)|(code & msg & Hp & _ & Hr)]].
  - vm_compute in H. discriminate H.
  - vm_compute in H. discriminate H.
  - destruct Hr as (R1 & R2 & R3).
    assert (Hc : code = CSV_EINVALID_FORMAT).
    { assert (E : error_code_at (heap (snd res)) (err (snd res)) = Some CSV_EINVALID_FORMAT)
        by reflexivity.
      rewrite E in R2. now injection R2. }
    assert (Hm : c_str msg ++ [NUL] = c_str msg_should_be_quoted ++ [NUL]).
    { assert (E : error_message_at (heap (snd res)) (err (snd res)) =
                  Some (c_str msg_should_be_quoted ++ [NUL])) by reflexivity.
      rewrite E in R3. now injection R3. }
    subst code. unfold raised. rewrite <- Hm.
    exact (conj fresh_mem0 (conj eq_refl (conj Hres (conj R1 (conj R2 R3))))).
Defined.

(** ** The bound on the loops *)

Lemma bind_ext {A B} (c : M A) (k1 k2 : A -> M B) w :
  (forall a w', c w = (a, w') -> k1 a w' = k2 a w') -> bind c k1 w = bind c k2 w.
Proof. intros H. unfold bind. destruct (c w) as [a w'] eqn:E. now apply H. Qed.

Lemma fgetc_unread w c w' :
  fgetc w = (c, w') -> (length (rd (file w')) <= length (rd (file w)))%nat.
Proof.
  unfold fgetc. destruct (rd (file w)) as [|x l]; intros [= <- <-]; cbn; lia.
Qed.

Lemma buffer_putc_unread buffer x w a w' :
  buffer_putc buffer x w = (a, w') -> length (rd (file w')) = length (rd (file w)).
Proof.
  intros E. destruct (wp_run _ _ _ _ _ (buffer_putc_quiet buffer x w) E) as [(-> & _) _].
  reflexivity.
Qed.

Lemma append_unread row buffer w a w' :
  csv_row_append_field_with_buffer row buffer w = (a, w') ->
  length (rd (file w')) = length (rd (file w)).
Proof.
  intros E. unfold csv_row_append_field_with_buffer in E.
  destruct (wp_run _ _ _ _ _ (csv_row_append_field_quiet _ _ _ w) E) as [(-> & _) _].
  reflexivity.
Qed.

Lemma fgetc_cases w c w' :
  fgetc w = (c, w') ->
  c = EOF \/
  exists a, c = int_of_char a /\ length (rd (file w)) = S (length (rd (file w'))).
Proof.
  unfold fgetc. destruct (rd (file w)) as [|x l]; intros [= <- <-]; [now left|].
  right. now exists x.
Qed.

(** Walk through the branches of the loop body, the same on both sides. *)
Ltac fuel_walk IH :=
  repeat first
    [ match goal with |- ?x = ?x => reflexivity end
    | match goal with
      | |- parse_loop _ _ _ _ _ _ _ = parse_loop _ _ _ _ _ _ _ => apply IH; lia
      end
    | apply bind_ext;
      let a := fresh "a" in let w' := fresh "w" in let E := fresh "E" in
      intros a w' E;
      first [ apply fgetc_unread in E
            | apply buffer_putc_unread in E
            | apply append_unread in E
            | clear E ]
    | match goal with
      | |- context [if ?b then _ else _] => destruct b
      | |- context [match ?x with _ => _ end] => destruct x
      end ].

Lemma parse_loop_fuel (parser : csv_parser_t) :
  forall fuel fuel' row buffer st q w,
    (length (rd (file w)) < fuel)%nat -> (length (rd (file w)) < fuel')%nat ->
    parse_loop fuel parser row buffer st q w = parse_loop fuel' parser row buffer st q w.
Proof.
  induction fuel as [|fuel IH]; intros [|fuel'] row buffer st q w H1 H2; try lia.
  cbn [parse_loop]. apply bind_ext. intros c w1 Ec.
  destruct (fgetc_cases _ _ _ Ec) as [->|(a & -> & Hl)].
  - destruct st; autorewrite with chr; cbv iota; reflexivity.
  - clear Ec. destruct st; fuel_walk IH.
Qed.

Lemma parse_rows_fuel (parser : csv_parser_t) :
  forall fuel fuel' w,
    fresh (heap w) ->
    (length (rd (file w)) < fuel)%nat -> (length (rd (file w)) < fuel')%nat ->
    parse_rows fuel parser w = parse_rows fuel' parser w.
Proof.
  induction fuel as [|fuel IH]; intros [|fuel'] w Hf H1 H2; try lia.
  cbn [parse_rows]. apply bind_ext. intros r w1 E.
  destruct r as [row|]; [|reflexivity].
  destruct (wp_run _ _ _ _ _ (csv_parse_next_row_inv parser w Hf) E)
    as [(_ & _ & _ & Hf1 & _) Hlt].
  specialize (Hlt ltac:(discriminate)).
  unfold bind. rewrite (IH fuel' w1) by (assumption || lia). reflexivity.
Qed.

(** ** The parser on the lines of the grammar *)

Section LineEnd.

Variable d : char.
Hypothesis d_valid : is_valid_field_delimiter d = 1.
Hypothesis d_ascii : int_of_char d < 128.
Variable io : bool.

Lemma scan_unquoted_end s : forall fs buf,
  forallb (is_plain d) s = true ->
  scan d io s ST_INFIELD false fs buf =
  if io then Err CSV_EIO else Row (close_field fs (buf ++ s)) [].
Proof.
  induction s as [|x s IH]; intros fs buf Hs.
  - cbn; ascii_d. now rewrite app_nil_r.
  - cbn in Hs; ascii_d_in Hs. apply andb_true_iff in Hs. destruct Hs as [Hx Hs].
    destruct (is_plain_tests d x Hx) as (H1 & H2 & H3).
    cbn; ascii_d. rewrite H1, H2, H3, IH by assumption. now rewrite <- app_assoc.
Qed.

Lemma scan_quoted_end s : forall fs buf,
  scan d io (escape s ++ [QUOTE_CHAR]) ST_INFIELD true fs buf = Err CSV_EINVALID_FORMAT.
Proof.
  induction s as [|c s IH]; intros fs buf; [cbn; ascii_d; reflexivity|].
  cbn [escape]. destruct (Ascii.eqb c QUOTE_CHAR) eqn:Eq.
  - apply Ascii.eqb_eq in Eq. subst c. cbn; ascii_d. apply IH.
  - cbn; ascii_d. rewrite Eq. destruct (is_eol c); [|destruct (Ascii.eqb c d)]; apply IH.
Qed.

Lemma scan_line_end e fs q :
  line d e fs q ->
  scan d io e ST_START false [] [] =
  if q then Err CSV_EINVALID_FORMAT
  else if io then Err CSV_EIO
  else match fs with
       | [] => End
       | _ => Row (map block fs) []
       end.
Proof.
  intros [|p fs' s Hp Hs Hne|p fs' s Hp].
  - cbn; ascii_d. now destruct io.
  - rewrite <- (app_nil_r (p ++ s)), <- app_assoc.
    rewrite (scan_closed_fields d d_valid d_ascii io p fs') by exact Hp.
    rewrite app_nil_r. cbn [app].
    assert (Hres : Row (close_field (map block fs') s) [] =
                   match fs' ++ [s] with
                   | [] => End
                   | _ => Row (map block (fs' ++ [s])) []
                   end).
    { unfold close_field. rewrite map_app. cbn; ascii_d. now destruct fs'. }
    rewrite <- Hres. clear Hres.
    destruct s as [|x s].
    + destruct Hne as [Hne|Hne]; [contradiction|].
      assert (Hlen : (Z.of_nat (length (map block fs')) >? 0) = true).
      { apply length_pos_gtb. destruct fs'; [contradiction | discriminate]. }
      cbn; ascii_d. now rewrite Hlen.
    + cbn in Hs; ascii_d_in Hs. apply andb_true_iff in Hs. destruct Hs as [Hx Hs].
      destruct (is_plain_tests d x Hx) as (H1 & H2 & H3).
      cbn; ascii_d. rewrite H1, H2, H3. now rewrite scan_unquoted_end.
  - rewrite <- (app_nil_r (p ++ _)), <- app_assoc.
    rewrite (scan_closed_fields d d_valid d_ascii io p fs') by exact Hp.
    rewrite app_nil_r. cbn; ascii_d. apply scan_quoted_end.
Qed.

End LineEnd.

(** X9.  The parser on a well-formed line.  For a valid delimiter below 128
    and when memory suffices, a line made of fields in plain or quoted form
    joined by the delimiter and followed by CR or LF is returned as the row
    of the fields' contents, with [*err] untouched, whether or not a read
    error lies ahead.  After a line that ends in a plain field, or an empty line,
    a CR takes a directly following LF with it; after a line that ends with
    a closing quote nothing more than the CR or LF is read. *)
Theorem parse_line (parser : csv_parser_t) (e : list char) (fs : list (list char))
    (q : bool) (c : char) (rest : list char) (w : world) :
  is_valid_field_delimiter (field_delimiter parser) = 1 ->
  int_of_char (field_delimiter parser) < 128 ->
  never_oom (heap w) ->
  line (field_delimiter parser) e fs q -> is_eol c = true ->
  rd (file w) = e ++ c :: rest ->
  let res := csv_parse_next_row parser w in
  exists row,
    fst res = Some row /\ r_fields row = map block fs /\
    rd (file (snd res)) = (if q then rest else after_eol c rest) /\
    err (snd res) = err w.
Proof.
  intros Hd Hasc Hok Hline Hc Hrd res. subst res.
  destruct (csv_parse_next_row parser w) as [r w'] eqn:Hcall.
  pose proof (parse_call_ok parser w r w' Hok Hcall) as Hre.
  rewrite Hrd, (scan_line _ Hd Hasc _ e fs q c rest Hline Hc) in Hre.
  destruct Hre as ((row & -> & Hfs) & Hrest & He). exists row. auto.
Qed.

Lemma parse_line_witness :
  let parser := {| field_delimiter := COMMA_CHAR |} in
  let e := bytes "a," ++ QUOTE_CHAR :: escape (bytes "b,c") ++ [QUOTE_CHAR] in
  let w := world0 (e ++ CR_CHAR :: LF_CHAR :: bytes "x") in
  let res := csv_parse_next_row parser w in
  is_valid_field_delimiter COMMA_CHAR = 1 /\ int_of_char COMMA_CHAR < 128 /\
  never_oom (heap w) /\
  exists row,
    fst res = Some row /\ r_fields row = [lit "a"; lit "b,c"] /\
    rd (file (snd res)) = LF_CHAR :: bytes "x" /\ err (snd res) = err w.
Proof.
  intros parser e w res.
  assert (Hline : line COMMA_CHAR e [bytes "a"; bytes "b,c"] true).
  { apply (line_quoted COMMA_CHAR (bytes "a,") [bytes "a"] (bytes "b,c")).
    apply (closed_cons COMMA_CHAR (bytes "a") (bytes "a") [] []);
      [now apply unquoted_text | apply closed_nil]. }
  exact (conj eq_refl (conj eq_refl (conj eq_refl
           (parse_line parser e _ true CR_CHAR (LF_CHAR :: bytes "x") w
              eq_refl eq_refl eq_refl Hline eq_refl eq_refl)))).
Defined.

(** X10.  The parser on a last line without terminator.  For a valid
    delimiter below 128 and when memory suffices: if the line ends with a
    closing quote the call fails with [CSV_EINVALID_FORMAT], also when the
    reading stopped there for a read error; otherwise a read error makes the call
    fail with [CSV_EIO], the fields read being dropped; otherwise the line is
    returned as a row if it has a byte, and the end of the input is reported
    if it has none. *)
Theorem parse_last_line (parser : csv_parser_t) (e : list char) (fs : list (list char))
    (q : bool) (w : world) :
  is_valid_field_delimiter (field_delimiter parser) = 1 ->
  int_of_char (field_delimiter parser) < 128 ->
  never_oom (heap w) ->
  line (field_delimiter parser) e fs q ->
  rd (file w) = e ->
  let res := csv_parse_next_row parser w in
  if q then fails_with CSV_EINVALID_FORMAT res
  else if io_error (file w) then fails_with CSV_EIO res
  else match fs with
       | [] => fst res = None /\ err (snd res) = err w
       | _ => exists row,
                fst res = Some row /\ r_fields row = map block fs /\
                rd (file (snd res)) = [] /\ err (snd res) = err w
       end.
Proof.
  intros Hd Hasc Hok Hline Hrd res. subst res.
  destruct (csv_parse_next_row parser w) as [r w'] eqn:Hcall.
  pose proof (parse_call_ok parser w r w' Hok Hcall) as Hre.
  rewrite Hrd, (scan_line_end _ Hd Hasc _ e fs q Hline) in Hre.
  unfold fails_with. cbn [fst snd].
  destruct q; [exact Hre|]. destruct (io_error (file w)); [exact Hre|].
  destruct fs as [|f fs'].
  - destruct Hre as (-> & _ & He). auto.
  - destruct Hre as ((row & -> & Hfs) & Hrest & He). exists row. auto.
Qed.

Lemma parse_last_line_witness :
  let parser := {| field_delimiter := COMMA_CHAR |} in
  let e := bytes "a,b" in
  let w := world0 e in
  let w_err := {| file := {| rd := e; rd_fail := true; ferr := false; wr := [];
                             wr_plan := []; errmsg := lit "Input/output error" |};
                  heap := mem0; err := NULL |} in
  is_valid_field_delimiter COMMA_CHAR = 1 /\ int_of_char COMMA_CHAR < 128 /\
  never_oom (heap w) /\
  (exists row, fst (csv_parse_next_row parser w) = Some row /\
               r_fields row = [lit "a"; lit "b"]) /\
  fails_with CSV_EIO (csv_parse_next_row parser w_err).
Proof.
  intros parser e w w_err.
  assert (Hline : line COMMA_CHAR e [bytes "a"; bytes "b"] false).
  { apply (line_unquoted COMMA_CHAR (bytes "a,") [bytes "a"] (bytes "b"));
      [|reflexivity | now left].
    apply (closed_cons COMMA_CHAR (bytes "a") (bytes "a") [] []);
      [now apply unquoted_text | apply closed_nil]. }
  pose proof (parse_last_line parser e _ false w eq_refl eq_refl eq_refl Hline eq_refl) as H1.
  pose proof (parse_last_line parser e _ false w_err eq_refl eq_refl eq_refl Hline eq_refl) as H2.
  cbv zeta in H1, H2.
  change (io_error (file w)) with false in H1.
  change (io_error (file w_err)) with true in H2. cbv iota in H1, H2. cbn [app] in H1.
  destruct H1 as (row & R1 & R2 & _).
  exact (conj eq_refl (conj eq_refl (conj eq_refl (conj (ex_intro _ row (conj R1 R2)) H2)))).
Defined.

(** ** The writer, whatever the stream does *)

Lemma write_outcome_ret w : write_outcome [] w SUCCEED w.
Proof. unfold write_outcome. rewrite app_nil_r. auto 8. Qed.

(** One [fputs]: all of the string, or nothing. *)
Lemma csv_write_str_cases (writer : csv_writer_t) (str : list char) w :
  wp (csv_write_str writer str) (fun res w' =>
    write_outcome (c_str str) w res w' /\
    (res = FAIL -> wr (file w') = wr (file w))) w.
Proof.
  unfold wp, csv_write_str, bind, fputs, strerror_errno, set_err, ret.
  destruct (wr_plan (file w)) as [|[] pl] eqn:E; cbn [fst snd].
  - change (1 <? 0) with false. cbv iota. cbn [fst snd].
    split; [|discriminate]. unfold write_outcome. cbn. auto 8.
  - change (1 <? 0) with false. cbv iota. cbn [fst snd].
    split; [|discriminate]. unfold write_outcome. cbn. auto 8.
  - change (EOF <? 0) with true. cbv iota. cbn [errmsg file].
    rewrite (csv_error_new_world CSV_EIO (errmsg (file w)) _ ltac:(discriminate)).
    cbn [heap file err plan brk store].
    assert (Hout : forall w', rd (file w') = rd (file w) -> errmsg (file w') = errmsg (file w) ->
              wr (file w') = wr (file w) -> ferr (file w') = true ->
              (err w' = csv_error_oom \/ raised CSV_EIO (errmsg (file w)) w') ->
              write_outcome (c_str str) w FAIL w' /\ (FAIL = FAIL -> wr (file w') = wr (file w))).
    { intros w' H1 H2 H3 H4 H5. split; [|auto]. unfold write_outcome.
      split; [exact H1|]. split; [exact H2|]. right. split; [reflexivity|].
      split; [|auto]. exists [], (c_str str). now rewrite app_nil_r. }
    destruct (plan (heap w)) as [|[] [|[] pl']]; cbn [fst snd tl];
      apply Hout; cbn [file heap err rd errmsg wr ferr]; auto;
      right; rewrite insert_insert_eq; apply raised_at.
Qed.

Lemma csv_write_str_outcome (writer : csv_writer_t) (str : list char) w :
  wp (csv_write_str writer str) (write_outcome (c_str str) w) w.
Proof.
  eapply wp_mono; [apply csv_write_str_cases|]. cbv beta. now intros res w' [H _].
Qed.

(** A call, then another one unless the first failed. *)
Lemma write_outcome_seq (out1 out2 : list char) (c2 : M Z) w res1 w1 :
  write_outcome out1 w res1 w1 ->
  wp c2 (write_outcome out2 w1) w1 ->
  wp (if res1 =? FAIL then ret FAIL else c2) (write_outcome (out1 ++ out2) w) w1.
Proof.
  intros (Hrd & Hm & [(-> & Hwr & He & Hh)|(-> & (p & s & Hp & Hwr) & Hfe & Herr)]) H2.
  - change (SUCCEED =? FAIL) with false. cbv iota.
    eapply wp_mono; [exact H2|]. cbv beta.
    intros res w2 (Hrd2 & Hm2 & [(-> & Hwr2 & He2 & Hh2)|(-> & (p & s & Hp & Hwr2) & Hfe & Herr)]);
      unfold write_outcome; (split; [congruence|]); (split; [congruence|]).
    + left. rewrite Hwr2, Hwr, <- app_assoc. repeat apply conj; congruence.
    + right. split; [reflexivity|]. split; [|split; [exact Hfe|]].
      * exists (out1 ++ p), s. rewrite Hp, Hwr2, Hwr, <- !app_assoc. auto.
      * now rewrite <- Hm.
  - change (FAIL =? FAIL) with true. cbv iota. apply wp_ret.
    unfold write_outcome. split; [exact Hrd|]. split; [exact Hm|].
    right. split; [reflexivity|]. split; [|auto].
    exists p, (s ++ out2). rewrite Hp, <- app_assoc. auto.
Qed.

Lemma write_content_outcome (writer : csv_writer_t) (p : list char) : forall w,
  wp (write_content writer p) (write_outcome (escape (c_str p)) w) w.
Proof.
  induction p as [|c p IH]; intros w; [apply wp_ret, write_outcome_ret|].
  cbn [write_content c_str]. destruct (Ascii.eqb c NUL) eqn:En.
  { apply wp_ret, write_outcome_ret. }
  cbn [escape]. apply wp_bind. destruct (Ascii.eqb c QUOTE_CHAR) eqn:Eq.
  - eapply wp_mono; [apply csv_write_str_outcome|]. cbv beta. intros res w1 H1.
    apply (write_outcome_seq [QUOTE_CHAR; QUOTE_CHAR] _ _ w res w1 H1). apply IH.
  - unfold csv_write_char.
    eapply wp_mono; [apply csv_write_str_outcome|]. cbv beta. intros res w1 H1.
    rewrite (c_str_char c En) in H1.
    apply (write_outcome_seq [c] _ _ w res w1 H1). apply IH.
Qed.

Lemma csv_write_field_outcome (writer : csv_writer_t) (field : list char) (i n : Z) w :
  wp (csv_write_field writer field i n) (write_outcome (field_image writer field i n) w) w.
Proof.
  unfold csv_write_field, field_image, need_quote_of.
  rewrite scan_need_quote_spec.
  set (nq := if quote_style writer =? QUOTE_ALL then true
             else existsb (needs_quoting (w_field_delimiter writer)) (c_str field)).
  assert (Hlast : forall w0,
            wp (if i <? n - 1 then csv_write_char writer (w_field_delimiter writer)
                else ret SUCCEED)
               (write_outcome (if i <? n - 1 then c_str [w_field_delimiter writer; NUL]
                               else []) w0) w0).
  { intros w0. destruct (i <? n - 1);
      [apply csv_write_str_outcome | apply wp_ret, write_outcome_ret]. }
  destruct nq; cbn [andb].
  - apply wp_bind. unfold csv_write_char at 1.
    eapply wp_mono; [apply csv_write_str_outcome|]. cbv beta. intros r1 w1 H1.
    apply (write_outcome_seq _ _ _ w r1 w1 H1).
    apply wp_bind. eapply wp_mono; [apply write_content_outcome|]. cbv beta.
    intros res w2 H2. apply (write_outcome_seq _ _ _ w1 res w2 H2).
    apply wp_bind. unfold csv_write_char at 1.
    eapply wp_mono; [apply csv_write_str_outcome|]. cbv beta. intros r3 w3 H3.
    apply (write_outcome_seq _ _ _ w2 r3 w3 H3). apply Hlast.
  - apply wp_bind, wp_ret. cbv iota. cbn [app].
    apply wp_bind. eapply wp_mono; [apply write_content_outcome|]. cbv beta.
    intros res w2 H2. apply (write_outcome_seq _ _ _ w res w2 H2).
    apply wp_bind, wp_ret. cbv iota. apply Hlast.
Qed.

Lemma write_fields_outcome (writer : csv_writer_t) (fields : list (list char)) :
  forall i n w,
    wp (write_fields writer fields i n) (write_outcome (fields_image writer fields i n) w) w.
Proof.
  induction fields as [|f fields IH]; intros i n w; [apply wp_ret, write_outcome_ret|].
  cbn [write_fields fields_image]. apply wp_bind.
  eapply wp_mono; [apply csv_write_field_outcome|]. cbv beta. intros res w1 H1.
  apply (write_outcome_seq _ _ _ w res w1 H1). apply IH.
Qed.

Lemma newline_bytes_not_nil (writer : csv_writer_t) : newline_bytes writer <> [].
Proof.
  unfold newline_bytes. destruct (_ =? _); [discriminate|]. destruct (_ =? _); discriminate.
Qed.

(** The part of [csv_write_row] before the line break, and what it adds. *)
Lemma csv_write_row_body (writer : csv_writer_t) (row : csv_row_t) (Q : Z -> world -> Prop) w :
  (forall body, row_image writer row = body ++ newline_bytes writer ->
     forall res w1, write_outcome body w res w1 ->
       wp (if res =? FAIL then ret FAIL else csv_write_newline writer) Q w1) ->
  wp (csv_write_row writer row) Q w.
Proof.
  intros HQ. unfold csv_write_row, csv_row_field_count, r_len, csv_row_field_get.
  apply wp_bind.
  set (body := match r_fields row with
               | [] => []
               | [field] =>
                   if Ascii.eqb (nth 0 field NUL) NUL then [QUOTE_CHAR; QUOTE_CHAR]
                   else fields_image writer [field] 0 1
               | fields => fields_image writer fields 0 (Z.of_nat (length fields))
               end).
  assert (H1 : wp (if Z.of_nat (length (r_fields row)) =? 0 then ret SUCCEED
                   else if (Z.of_nat (length (r_fields row)) =? 1)
                           && Ascii.eqb (nth 0 (nth (Z.to_nat 0) (r_fields row) []) NUL) NUL
                   then csv_write_str writer DOUBLE_QUOTES_STR
                   else write_fields writer (r_fields row) 0
                          (Z.of_nat (length (r_fields row))))
                  (write_outcome body w) w).
  { subst body. destruct (r_fields row) as [|f [|f2 fs]].
    - apply wp_ret, write_outcome_ret.
    - change (Z.of_nat (length [f])) with 1.
      change (1 =? 0) with false. change (1 =? 1) with true.
      change (Z.to_nat 0) with O. cbn [nth andb].
      destruct (Ascii.eqb (nth 0 f NUL) NUL).
      + exact (csv_write_str_outcome writer DOUBLE_QUOTES_STR w).
      + exact (write_fields_outcome writer [f] 0 1 w).
    - replace (Z.of_nat (length (f :: f2 :: fs)) =? 0) with false
        by (symmetry; apply Z.eqb_neq; cbn [length]; lia).
      replace (Z.of_nat (length (f :: f2 :: fs)) =? 1) with false
        by (symmetry; apply Z.eqb_neq; cbn [length]; lia).
      cbn [andb]. exact (write_fields_outcome writer _ 0 _ w). }
  eapply wp_mono; [exact H1|]. cbv beta. intros res w1 Hw1.
  now apply (HQ body).
Qed.

Lemma csv_write_newline_cases (writer : csv_writer_t) w :
  wp (csv_write_newline writer) (fun res w' =>
    write_outcome (newline_bytes writer) w res w' /\
    (res = FAIL -> wr (file w') = wr (file w))) w.
Proof.
  unfold csv_write_newline, newline_bytes.
  destruct (line_break writer =? LINEBREAK_LF);
    [|destruct (line_break writer =? LINEBREAK_CRLF)];
    apply csv_write_str_cases.
Qed.

(** X11.  [csv_write_row], whatever the stream and the allocator do.  Either
    it returns 0 and has added to the stream the row's image: its fields,
    each read up to its first NUL, in plain or quoted form and joined by the
    delimiter, then the line break; [*err] and the memory are untouched.  Or
    it returns -1, and then it stopped early: what it has added is a first
    part of the image that falls short of it, the stream's error indicator
    is set,
    and [*err] points to an error of kind [CSV_EIO] with the text of
    [strerror(errno)], or to the static out-of-memory error.  It returns 0
    whenever no write fails, and never reads from the stream. *)
Theorem csv_write_row_outcome (writer : csv_writer_t) (row : csv_row_t) (w : world) :
  let res := csv_write_row writer row w in
  write_outcome (row_image writer row) w (fst res) (snd res) /\
  (fst res = FAIL ->
   exists p s, row_image writer row = p ++ s /\ s <> [] /\
               wr (file (snd res)) = wr (file w) ++ p) /\
  (writes_ok (file w) -> fst res = SUCCEED).
Proof.
  intros res. subst res.
  split; [|split].
  - change (wp (csv_write_row writer row) (write_outcome (row_image writer row) w) w).
    apply csv_write_row_body. intros body -> res w1 H1.
    apply (write_outcome_seq _ _ _ w res w1 H1).
    eapply wp_mono; [apply csv_write_newline_cases|]. cbv beta. now intros r w' [H _].
  - change (wp (csv_write_row writer row) (fun res w' =>
      res = FAIL ->
      exists p s, row_image writer row = p ++ s /\ s <> [] /\
                  wr (file w') = wr (file w) ++ p) w).
    apply csv_write_row_body.
    pose proof (newline_bytes_not_nil writer) as Hnl.
    intros body -> res w1 (_ & _ & [(-> & Hwr & _)|(-> & (p & s & Hp & Hwr) & _)]).
    + change (SUCCEED =? FAIL) with false. cbv iota.
      eapply wp_mono; [apply csv_write_newline_cases|]. cbv beta.
      intros r w2 [_ H2] Hr.
      exists body, (newline_bytes writer). rewrite (H2 Hr), Hwr. auto.
    + change (FAIL =? FAIL) with true. cbv iota. apply wp_ret. intros _.
      exists p, (s ++ newline_bytes writer). rewrite Hp, <- app_assoc.
      split; [reflexivity|]. split; [|exact Hwr].
      destruct s; [exact Hnl | discriminate].
  - intros Hok. pose proof (csv_write_row_ok writer row w Hok) as H.
    unfold wp, wrote in H. apply H.
Qed.

(** ** The format of a written row *)

Section RowFormat.

Variable writer : csv_writer_t.
Hypothesis d_not_nul : Ascii.eqb (w_field_delimiter writer) NUL = false.

Let d := w_field_delimiter writer.

Lemma field_form_plain (n : nat) (s : list char) :
  (n <> 1%nat \/ s <> []) ->
  field_form writer n s =
  if (quote_style writer =? QUOTE_ALL) || existsb (needs_quoting d) s
  then QUOTE_CHAR :: escape s ++ [QUOTE_CHAR] else s.
Proof.
  intros H. unfold field_form.
  assert (E : Nat.eqb n 1 && Nat.eqb (length s) 0 = false).
  { destruct H as [H|H].
    - now rewrite (proj2 (Nat.eqb_neq _ _) H).
    - destruct s; [contradiction|]. cbn. apply andb_false_r. }
  rewrite E. now rewrite orb_false_r.
Qed.

Lemma field_image_form (s : list char) (i n : Z) :
  no_nul s = true ->
  field_image writer (block s) i n =
  (if (quote_style writer =? QUOTE_ALL) || existsb (needs_quoting d) s
   then QUOTE_CHAR :: escape s ++ [QUOTE_CHAR] else s) ++
  (if i <? n - 1 then [d] else []).
Proof.
  intros Hs. unfold field_image, need_quote_of.
  rewrite c_str_block, (c_str_no_nul s Hs), (c_str_char _ d_not_nul).
  fold d. destruct (quote_style writer =? QUOTE_ALL); cbn [orb].
  - cbn [app]. now rewrite <- !app_assoc.
  - destruct (existsb (needs_quoting d) s) eqn:E.
    + cbn [app]. now rewrite <- !app_assoc.
    + destruct (not_special_plain d s E) as [_ ->]. reflexivity.
Qed.

Lemma fields_image_join (n : Z) (ss : list (list char)) : forall i,
  forallb no_nul ss = true -> ss <> [] ->
  n = i + Z.of_nat (length ss) ->
  fields_image writer (map block ss) i n =
  join d (map (fun s => if (quote_style writer =? QUOTE_ALL)
                           || existsb (needs_quoting d) s
                        then QUOTE_CHAR :: escape s ++ [QUOTE_CHAR] else s) ss).
Proof.
  induction ss as [|s ss IH]; intros i Hs Hne Hn; [contradiction|].
  cbn in Hs. apply andb_true_iff in Hs. destruct Hs as [Hs Hss].
  cbn [map fields_image]. rewrite (field_image_form s i n Hs).
  destruct ss as [|s2 ss].
  - cbn [length] in Hn. replace (i <? n - 1) with false by (symmetry; apply Z.ltb_ge; lia).
    cbn. now rewrite !app_nil_r.
  - replace (i <? n - 1) with true
      by (symmetry; apply Z.ltb_lt; cbn [length] in Hn; lia).
    rewrite (IH (i + 1)); [|exact Hss | discriminate | cbn [length] in *; lia].
    cbn [map join]. now rewrite <- app_assoc.
Qed.

Lemma row_image_join (row : csv_row_t) (ss : list (list char)) :
  r_fields row = map block ss -> forallb no_nul ss = true ->
  row_image writer row =
  join d (map (field_form writer (length ss)) ss) ++ newline_bytes writer.
Proof.
  intros Hrow Hs. unfold row_image. rewrite Hrow. f_equal.
  destruct ss as [|s [|s2 ss]].
  - reflexivity.
  - cbn [map length join]. destruct s as [|x s].
    + cbn. unfold field_form. cbn. now rewrite orb_true_r.
    + cbn in Hs. rewrite andb_true_r in Hs.
      pose proof Hs as Hx. apply andb_true_iff in Hx. destruct Hx as [Hx _].
      apply negb_true_iff in Hx. cbn [block app nth]. rewrite Hx.
      change ([x :: s ++ [NUL]]) with (map block [x :: s]).
      rewrite (fields_image_join 1 [x :: s] 0);
        [|cbn; now rewrite Hs | discriminate | reflexivity].
      cbn [map join]. rewrite field_form_plain by (right; discriminate). reflexivity.
  - set (l := s :: s2 :: ss) in *.
    change (fields_image writer (map block l) 0 (Z.of_nat (length (map block l))) =
            join d (map (field_form writer (length l)) l)).
    rewrite length_map.
    rewrite (fields_image_join (Z.of_nat (length l)) l 0 Hs);
      [|discriminate | lia].
    f_equal. apply map_ext_in. intros a _. symmetry. apply field_form_plain.
    left. subst l. cbn [length]. lia.
Qed.

End RowFormat.

(** X12.  The format of a written row.  For a delimiter other than NUL and
    when no write fails, [csv_write_row] on a row whose fields are the
    NUL-free byte strings [ss] adds to the stream the forms of the fields
    joined by the delimiter, then the line break; a field is put between
    quotes, its quotes doubled, if all fields are to be quoted, if it holds a
    CR, an LF, a quote or the delimiter, or if it is empty and alone in its
    row, and is written as it is otherwise.  A row without fields gives the
    line break alone. *)
Theorem csv_write_row_format (writer : csv_writer_t) (row : csv_row_t)
    (ss : list (list char)) (w : world) :
  Ascii.eqb (w_field_delimiter writer) NUL = false ->
  r_fields row = map block ss -> forallb no_nul ss = true ->
  writes_ok (file w) ->
  let res := csv_write_row writer row w in
  wrote (join (w_field_delimiter writer) (map (field_form writer (length ss)) ss)
           ++ newline_bytes writer) w (fst res) (snd res).
Proof.
  intros Hd Hrow Hs Hok res. subst res.
  rewrite <- (row_image_join writer Hd row ss Hrow Hs).
  exact (csv_write_row_ok writer row w Hok).
Qed.

Lemma csv_write_row_format_witness :
  let writer := {| w_field_delimiter := COMMA_CHAR; quote_style := QUOTE_MINIMAL;
                   line_break := LINEBREAK_CRLF |} in
  let ss := [bytes "a"; bytes "b,c"; []; [QUOTE_CHAR]] in
  let row := {| r_capacity := 32; r_fields := map block ss |} in
  let res := csv_write_row writer row (world0 []) in
  writes_ok (file (world0 [])) /\
  fst res = SUCCEED /\
  wr (file (snd res)) =
    bytes "a," ++ QUOTE_CHAR :: bytes "b,c" ++ QUOTE_CHAR :: bytes ",," ++
    [QUOTE_CHAR; QUOTE_CHAR; QUOTE_CHAR; QUOTE_CHAR; CR_CHAR; LF_CHAR].
Proof.
  intros writer ss row res.
  destruct (csv_write_row_format writer row ss (world0 []) eq_refl eq_refl eq_refl eq_refl)
    as (H1 & H2 & _).
  exact (conj eq_refl (conj H1 H2)).
Defined.

Lemma round_trip_lf_cr_example :
  let writer := {| w_field_delimiter := COMMA_CHAR; quote_style := QUOTE_MINIMAL;
                   line_break := LINEBREAK_CR |} in
  let rows := [ {| r_capacity := 32; r_fields := [lit "a"; lit "b,c"] |};
                {| r_capacity := 32; r_fields := [] |};
                {| r_capacity := 32; r_fields := [lit ""] |} ] in
  let written := write_rows writer rows (world0 []) in
  let read := parse_all {| field_delimiter := COMMA_CHAR |}
                (world0 (wr (file (snd written)))) in
  valid_writer writer /\ Forall legal_row rows /\
  fst written = SUCCEED /\
  map r_fields (fst read) = map r_fields rows.
Proof.
  intros writer rows written read.
  assert (Hv : valid_writer writer) by (unfold valid_writer; cbn; auto 6).
  assert (Hrows : Forall legal_row rows).
  { repeat constructor.
    - now exists [bytes "a"; bytes "b,c"].
    - now exists [].
    - now exists [[]]. }
  destruct (round_trip_lf_cr writer rows (world0 []) Hv eq_refl ltac:(discriminate)
              eq_refl Hrows eq_refl) as [(H1 & H2 & _) Hread].
  destruct (Hread (world0 (wr (file (snd written)))) eq_refl eq_refl
              H2) as [H3 _].
  exact (conj Hv (conj Hrows (conj H1 H3))).
Defined.

(** ** Dumping a table, then reading the file *)

Lemma firstn_c_str (s : list char) : firstn (strlen s) s = c_str s.
Proof.
  unfold strlen. induction s as [|c s IH]; [reflexivity|].
  cbn [c_str]. destruct (Ascii.eqb c NUL); [reflexivity|].
  cbn [length firstn]. now rewrite IH.
Qed.

Lemma no_nul_c_str (s : list char) : no_nul (c_str s) = true.
Proof.
  induction s as [|c s IH]; [reflexivity|].
  cbn [c_str]. destruct (Ascii.eqb c NUL) eqn:E; [reflexivity|].
  change (negb (Ascii.eqb c NUL) && no_nul (c_str s) = true). now rewrite E, IH.
Qed.

Lemma row_image_fields (writer : csv_writer_t) (row row' : csv_row_t) :
  r_fields row = r_fields row' -> row_image writer row = row_image writer row'.
Proof. unfold row_image. now intros ->. Qed.

Lemma dumped_refl w : writes_ok (file w) -> never_oom (heap w) -> dumped [] w w.
Proof. unfold dumped. rewrite app_nil_r. auto. Qed.

Lemma dumped_trans out1 out2 w w1 w2 :
  dumped out1 w w1 -> dumped out2 w1 w2 -> dumped (out1 ++ out2) w w2.
Proof.
  unfold dumped. intros (A1 & A2 & A3 & A4 & A5) (B1 & B2 & B3 & B4 & B5).
  rewrite B1, A1, <- app_assoc. repeat apply conj; congruence.
Qed.

(** Appending to the row when memory suffices. *)
Lemma append_field_dumped (row : csv_row_t) (field : list char) (len : nat) w :
  writes_ok (file w) -> never_oom (heap w) ->
  wp (csv_row_append_field row field len) (fun rr w' =>
    fst rr = SUCCEED /\
    r_fields (snd rr) = r_fields row ++ [block (firstn len field)] /\
    dumped [] w w') w.
Proof.
  intros Hw Hok. eapply wp_mono; [apply csv_row_append_field_spec|]. cbv beta.
  intros rr w' (Hf & Hr & Hn). destruct (Hn Hok) as [Hs Hok'].
  destruct Hr as [(_ & Hfs & He)|(Hfail & _)]; [|rewrite Hs in Hfail; discriminate].
  split; [exact Hs|]. split; [exact Hfs|].
  unfold dumped. rewrite Hf, app_nil_r. auto.
Qed.

Lemma append_names_dumped (fields : list MYSQL_FIELD) : forall row w,
  writes_ok (file w) -> never_oom (heap w) ->
  wp (append_names row fields) (fun rr w' =>
    fst rr = SUCCEED /\
    r_fields (snd rr) =
      r_fields row ++ map (fun f => block (firstn (name_length f) (name f))) fields /\
    dumped [] w w') w.
Proof.
  induction fields as [|f fields IH]; intros row w Hw Hok.
  - apply wp_ret. cbn. rewrite app_nil_r. auto using dumped_refl.
  - cbn [append_names]. apply wp_bind.
    eapply wp_mono; [apply append_field_dumped; assumption|]. cbv beta.
    intros [res row1] w1 (Hres & Hfs & Hd). cbn [fst snd] in *. subst res.
    change (SUCCEED =? -1) with false. cbv iota.
    pose proof Hd as (_ & Hw1 & _ & _ & Hok1).
    eapply wp_mono; [apply IH; assumption|]. cbv beta.
    intros rr w2 (Hres & Hfs2 & Hd2). split; [exact Hres|]. split.
    + rewrite Hfs2, Hfs, <- app_assoc. reflexivity.
    + apply (dumped_trans [] [] _ _ _ Hd Hd2).
Qed.

Lemma wp_some {A} (c : M A) (Q : A -> world -> Prop) w :
  wp c Q w -> wp (some c) (defined Q) w.
Proof. unfold some. intros H. apply wp_bind. eapply wp_mono; [exact H|]. now intros a w'. Qed.

Lemma no_null_strings (rows : list MYSQL_ROW) :
  Forall (Forall (fun v => v <> None)) rows -> exists vals, rows = map strings vals.
Proof.
  induction 1 as [|row rows Hrow _ [vals ->]]; [now exists []|].
  assert (Hr : exists values, row = strings values).
  { clear -Hrow. induction Hrow as [|v row Hv _ [values ->]]; [now exists []|].
    destruct v as [s|]; [|contradiction]. now exists (s :: values). }
  destruct Hr as [values ->]. now exists (values :: vals).
Qed.

Lemma append_values_dumped (values : list (list char)) : forall row w,
  writes_ok (file w) -> never_oom (heap w) ->
  wp (append_values row (length values) (strings values)) (defined (fun rr w' =>
    fst rr = SUCCEED /\
    r_fields (snd rr) = r_fields row ++ map (fun v => block (c_str v)) values /\
    dumped [] w w')) w.
Proof.
  induction values as [|v values IH]; intros row w Hw Hok.
  - apply wp_ret. cbn. rewrite app_nil_r. auto using dumped_refl.
  - cbn [append_values strings map length]. apply wp_bind.
    eapply wp_mono; [apply append_field_dumped; assumption|]. cbv beta.
    intros [res row1] w1 (Hres & Hfs & Hd). cbn [fst snd] in *. subst res.
    change (SUCCEED =? -1) with false. cbv iota.
    pose proof Hd as (_ & Hw1 & _ & _ & Hok1).
    eapply wp_mono; [apply IH; assumption|]. cbv beta.
    intros [rr|] w2; [|contradiction]. intros (Hres & Hfs2 & Hd2).
    split; [exact Hres|]. split.
    + rewrite Hfs2, Hfs, firstn_c_str, <- app_assoc. reflexivity.
    + apply (dumped_trans [] [] _ _ _ Hd Hd2).
Qed.

Lemma csv_write_row_dumped (writer : csv_writer_t) (row : csv_row_t) w :
  writes_ok (file w) -> never_oom (heap w) ->
  wp (csv_write_row writer row) (fun res w' =>
    res = SUCCEED /\ dumped (row_image writer row) w w') w.
Proof.
  intros Hw Hok. eapply wp_mono; [apply csv_write_row_ok; exact Hw|]. cbv beta.
  intros res w' (Hres & Hwr & Hw' & Hrd & Hh & He). split; [exact Hres|].
  unfold dumped. rewrite Hh. auto.
Qed.

Lemma dump_rows_dumped (writer : csv_writer_t) (n : nat) (rows : list (list (list char))) :
  forall row w,
    r_fields row = [] -> writes_ok (file w) -> never_oom (heap w) ->
    Forall (fun r => length r = n) rows ->
    wp (dump_rows writer row n (map strings rows)) (defined (fun rr w' =>
      fst rr = SUCCEED /\
      dumped (rows_image writer (map (fun r => row_of (map c_str r)) rows)) w w')) w.
Proof.
  induction rows as [|r rows IH]; intros row w Hrow Hw Hok Hlen.
  - apply wp_ret. cbn. auto using dumped_refl.
  - inversion Hlen as [|? ? Hr Hrows]; subst.
    cbn [dump_rows map]. apply wp_bind.
    eapply wp_mono; [apply append_values_dumped; assumption|]. cbv beta.
    intros [[res row1]|] w1; [|contradiction]. intros (Hres & Hfs & Hd1).
    cbn [fst snd] in *. subst res.
    change (SUCCEED =? -1) with false. cbv iota.
    pose proof Hd1 as (_ & Hw1 & _ & _ & Hok1).
    apply wp_bind.
    eapply wp_mono; [apply csv_write_row_dumped; assumption|]. cbv beta.
    intros res w2 (-> & Hd2).
    change (SUCCEED =? -1) with false. cbv iota.
    pose proof Hd2 as (_ & Hw2 & _ & _ & Hok2).
    eapply wp_mono; [apply (IH (csv_row_reset row1)); auto|]. cbv beta.
    intros [rr|] w3; [|contradiction]. intros (Hres & Hd3). split; [exact Hres|].
    cbn [map rows_image].
    rewrite (row_image_fields writer (row_of (map c_str r)) row1).
    + apply (dumped_trans [] _ _ _ _ Hd1). apply (dumped_trans _ _ _ _ _ Hd2 Hd3).
    + rewrite Hfs, Hrow. cbn [app row_of r_fields]. now rewrite map_map.
Qed.

Lemma legal_row_of_c_str (values : list (list char)) :
  legal_row (row_of (map c_str values)).
Proof.
  exists (map c_str values). split; [reflexivity|].
  induction values as [|v values IH]; [reflexivity|].
  cbn [map forallb]. now rewrite no_nul_c_str, IH.
Qed.

Lemma dump_result_ok (fields : list MYSQL_FIELD) (rows : list (list (list char))) w :
  never_oom (heap w) -> writes_ok (file w) -> err w = NULL ->
  Forall (fun f => name_length f = strlen (name f)) fields ->
  Forall (fun r => length r = length fields) rows ->
  wp (dump_result {| res_fields := fields; res_rows := map strings rows |})
    (fun r w' =>
       r = Some 0 /\ err w' = NULL /\
       wr (file w') =
         wr (file w) ++
         rows_image {| w_field_delimiter := COMMA_CHAR; quote_style := QUOTE_MINIMAL;
                       line_break := LINEBREAK_LF |}
           (map row_of (map (fun f => c_str (name f)) fields :: map (map c_str) rows))) w.
Proof.
  intros Hok Hw He0 Hnames Hrows.
  set (writer := {| w_field_delimiter := COMMA_CHAR; quote_style := QUOTE_MINIMAL;
                    line_break := LINEBREAK_LF |}).
  unfold dump_result. cbn [res_fields res_rows].
  apply wp_bind.
  assert (Hwriter : wp csv_writer_default (fun o w1 =>
            o = Some writer /\ file w1 = file w /\ err w1 = NULL /\
            never_oom (heap w1)) w).
  { unfold csv_writer_default, csv_writer_new. cbn [Z.eqb negb andb].
    replace (is_valid_field_delimiter COMMA_CHAR =? 0) with false by reflexivity.
    cbv iota. cbn.
    apply wp_bind. eapply wp_mono; [apply xmalloc_spec|]. cbv beta.
    intros p w1 (Hf1 & _ & He1 & _ & Hn1). destruct (Hn1 Hok) as [Hp Hok1].
    rewrite (proj2 (Z.eqb_neq _ _) Hp). apply wp_ret.
    repeat apply conj; auto. rewrite (He1 Hp). exact He0. }
  eapply wp_mono; [exact Hwriter|]. cbv beta. clear Hwriter.
  intros o w1 (-> & Hf1 & He1 & Hok1).
  apply wp_bind. eapply wp_mono; [apply csv_row_new_spec|]. cbv beta.
  intros orow w2 (Hf2 & Hr2 & Hn2). destruct (Hn2 Hok1) as [Hsome Hok2].
  destruct Hr2 as [(row & -> & Hfs & He2)|(-> & _)]; [|contradiction].
  assert (Hw2 : writes_ok (file w2)) by (rewrite Hf2, Hf1; exact Hw).
  apply wp_bind.
  eapply wp_mono; [apply append_names_dumped; assumption|]. cbv beta.
  intros [r3 row3] w3 (Hr3 & Hfs3 & Hd3). cbn [fst snd] in *. subst r3.
  change (SUCCEED =? -1) with false. cbv iota.
  pose proof Hd3 as (_ & Hw3 & _ & _ & Hok3).
  apply wp_bind.
  eapply wp_mono; [apply csv_write_row_dumped; assumption|]. cbv beta.
  intros r4 w4 (-> & Hd4).
  change (SUCCEED =? -1) with false. cbv iota.
  pose proof Hd4 as (_ & Hw4 & _ & _ & Hok4).
  apply wp_bind.
  eapply wp_mono; [apply (dump_rows_dumped writer (length fields) rows
                            (csv_row_reset row3)); auto|]. cbv beta.
  intros [[r5 row5]|] w5; [|contradiction]. intros (Hr5 & Hd5).
  cbn [fst snd] in *. subst r5.
  change (SUCCEED =? -1) with false. cbv iota.
  unfold csv_row_free. apply wp_bind, wp_ret, wp_ret.
  pose proof (dumped_trans _ _ _ _ _ Hd3 (dumped_trans _ _ _ _ _ Hd4 Hd5))
    as (Hwr & _ & _ & He & _).
  split; [reflexivity|]. split; [congruence|].
  rewrite Hwr, Hf2, Hf1. cbn [app]. f_equal.
  cbn [map rows_image]. f_equal; [|now rewrite map_map].
  apply row_image_fields.
  rewrite Hfs3, Hfs. cbn [app row_of r_fields]. rewrite map_map.
  apply map_ext_in. intros f Hin.
  rewrite List.Forall_forall in Hnames. rewrite (Hnames f Hin). now rewrite firstn_c_str.
Qed.

Lemma read_table (table : list (list (list char))) w :
  Forall legal_row (map row_of table) ->
  never_oom (heap w) -> io_error (file w) = false ->
  rd (file w) =
    rows_image {| w_field_delimiter := COMMA_CHAR; quote_style := QUOTE_MINIMAL;
                  line_break := LINEBREAK_LF |} (map row_of table) ->
  map r_fields (fst (parse_all {| field_delimiter := COMMA_CHAR |} w)) =
    map (map block) table /\
  err (snd (parse_all {| field_delimiter := COMMA_CHAR |} w)) = err w.
Proof.
  set (writer := {| w_field_delimiter := COMMA_CHAR; quote_style := QUOTE_MINIMAL;
                    line_break := LINEBREAK_LF |}).
  intros Hlegal Hm Hio Hrd. unfold parse_all.
  pose proof (parse_rows_spec {| field_delimiter := COMMA_CHAR |}
                (S (length (rd (file w)))) w Hm) as Hp.
  cbn zeta in Hp. cbn [field_delimiter] in Hp. rewrite Hio, Hrd in Hp.
  assert (Hv : valid_writer writer) by (unfold valid_writer; cbn; auto 6).
  destruct (scan_rows_image writer (map row_of table) Hv eq_refl
              ltac:(discriminate) eq_refl Hlegal) as [Hs _].
  cbn [w_field_delimiter writer] in Hs.
  rewrite Hs in Hp
    by (pose proof (rows_image_length writer (map row_of table)); lia).
  rewrite Hrd. cbn [fst snd] in Hp. rewrite map_map in Hp. exact Hp.
Qed.

(** X15.  The dump example, then the reading example.  When the name of
    the table has at most 251 bytes, the file opens, the query succeeds and
    gives a result without SQL NULL in which the columns' names are C
    strings of the lengths reported for them and every row has one value
    per column, and no allocation and no write fails, [dump_table_to_csv]
    returns 0 without an error and has added to the file the image of the
    header row and of every row of values, written with the default writer
    (comma, minimal quoting, LF) from one row object that is filled, written
    and reset in turn.  The loop of the reading example over
    [csv_parse_next_row], with the parser for the comma, reads that file back
    as the names followed by the rows of values, string for string, and ends
    without error. *)
Theorem dump_then_read (env : dump_env) (table : list char) (result : MYSQL_RES)
    (w : world) :
  (strlen table <= 251)%nat ->
  fopen env = true -> mysql_query env = 0 -> mysql_use_result env = Some result ->
  Forall (fun f => name_length f = strlen (name f)) (res_fields result) ->
  rectangular result -> no_null result ->
  never_oom (heap w) -> writes_ok (file w) ->
  let res := dump_table_to_csv env table w in
  let rows := map (fun f => c_str (name f)) (res_fields result)
              :: map (map string_of) (res_rows result) in
  let writer := {| w_field_delimiter := COMMA_CHAR; quote_style := QUOTE_MINIMAL;
                   line_break := LINEBREAK_LF |} in
  let out := rows_image writer (map row_of rows) in
  fst res = Some 0 /\ err (snd res) = NULL /\
  wr (file (snd res)) = wr (file w) ++ out /\
  forall w2,
    never_oom (heap w2) -> io_error (file w2) = false -> rd (file w2) = out ->
    let read := parse_all {| field_delimiter := COMMA_CHAR |} w2 in
    map r_fields (fst read) = map (map block) rows /\ err (snd read) = err w2.
Proof.
  intros Hlen Hopen Hquery Hres Hnames Hrect Hnull Hok Hw. cbv zeta.
  destruct result as [fields rrows]. unfold no_null, rectangular in *.
  cbn [res_fields res_rows] in *.
  destruct (no_null_strings rrows Hnull) as [vals ->].
  assert (Hvals : map (map string_of) (map strings vals) = map (map c_str) vals).
  { rewrite map_map. apply map_ext. intros r. unfold strings. now rewrite map_map. }
  rewrite Hvals.
  assert (Hrows : Forall (fun r => length r = length fields) vals).
  { apply List.Forall_forall. intros r Hin.
    rewrite List.Forall_forall in Hrect.
    rewrite <- (Hrect (strings r)); [unfold strings; now rewrite length_map|].
    now apply in_map. }
  assert (Hrun : wp (dump_table_to_csv env table) (fun r w' =>
            r = Some 0 /\ err w' = NULL /\
            wr (file w') =
              wr (file w) ++
              rows_image {| w_field_delimiter := COMMA_CHAR; quote_style := QUOTE_MINIMAL;
                            line_break := LINEBREAK_LF |}
                (map row_of (map (fun f => c_str (name f)) fields :: map (map c_str) vals))) w).
  { unfold dump_table_to_csv. apply wp_bind, wp_set_err.
    rewrite Hopen, Hquery, Hres. cbn [negb Z.eqb].
    destruct (Z.ltb_spec 256 (Z.of_nat (strlen table) + 5)) as [?|_]; [lia|].
    destruct (Z.ltb_spec 1024 (Z.of_nat (strlen table) + 17)) as [?|_]; [lia|].
    exact (dump_result_ok fields vals {| file := file w; heap := heap w; err := NULL |}
             Hok Hw eq_refl Hnames Hrows). }
  destruct Hrun as (H1 & H2 & H3).
  split; [exact H1|]. split; [exact H2|]. split; [exact H3|].
  intros w2 Hm Hio Hrd. apply read_table; try assumption.
  cbn [map]. constructor.
  - rewrite <- (map_map name c_str). apply legal_row_of_c_str.
  - apply List.Forall_forall. intros r Hin. apply in_map_iff in Hin.
    destruct Hin as (fs & <- & Hin). apply in_map_iff in Hin.
    destruct Hin as (r0 & <- & _). apply legal_row_of_c_str.
Qed.

Lemma dump_then_read_witness :
  let result := {| res_fields := [ {| name := lit "id"; name_length := 2 |};
                                   {| name := lit "note"; name_length := 4 |} ];
                   res_rows := [ strings [lit "1"; lit "a,b"];
                                 strings [lit "2"; lit ""] ] |} in
  let env := {| fopen := true; mysql_query := 0; mysql_use_result := Some result |} in
  let table := lit "t" in
  let w := world0 [] in
  let res := dump_table_to_csv env table w in
  (strlen table <= 251)%nat /\ rectangular result /\ no_null result /\
  never_oom (heap w) /\ writes_ok (file w) /\
  fst res = Some 0 /\
  wr (file (snd res)) =
    bytes "id,note" ++ [LF_CHAR] ++
    bytes "1," ++ [QUOTE_CHAR] ++ bytes "a,b" ++ [QUOTE_CHAR; LF_CHAR] ++
    bytes "2," ++ [LF_CHAR] /\
  map r_fields
    (fst (parse_all {| field_delimiter := COMMA_CHAR |}
            (world0 (wr (file (snd res)))))) =
  [[lit "id"; lit "note"]; [lit "1"; lit "a,b"]; [lit "2"; lit ""]].
Proof.
  intros result env table w res.
  assert (Hlen : (strlen table <= 251)%nat) by (cbn; lia).
  assert (Hnames : Forall (fun f => name_length f = strlen (name f)) (res_fields result))
    by (repeat constructor).
  assert (Hrect : rectangular result) by (repeat constructor).
  assert (Hnull : no_null result) by (repeat constructor; discriminate).
  destruct (dump_then_read env table result w Hlen eq_refl eq_refl eq_refl
              Hnames Hrect Hnull eq_refl eq_refl)
    as (H1 & _ & H2 & H3).
  destruct (H3 (world0 (wr (file (snd res)))) eq_refl eq_refl H2) as [H4 _].
  exact (conj Hlen (conj Hrect (conj Hnull (conj eq_refl (conj eq_refl
           (conj H1 (conj H2 H4))))))).
Defined.

(** * The containers in memory: properties *)

(** ** The monad *)

Lemma mwp_ret {A} (a : A) (Q : A -> Mem.state -> Prop) s : Q a s -> Mem.mwp (Mem.mret a) Q s.
Proof. exact (fun H => H). Qed.

Lemma mwp_bind {A B} (c : Mem.MM A) (k : A -> Mem.MM B) (Q : B -> Mem.state -> Prop) s :
  Mem.mwp c (fun a s' => Mem.mwp (k a) Q s') s -> Mem.mwp (Mem.mbind c k) Q s.
Proof. unfold Mem.mwp, Mem.mbind. now destruct (c s) as [[a s']|]. Qed.

Lemma mwp_mono {A} (c : Mem.MM A) (Q Q' : A -> Mem.state -> Prop) s :
  Mem.mwp c Q s -> (forall a s', Q a s' -> Q' a s') -> Mem.mwp c Q' s.
Proof. unfold Mem.mwp. destruct (c s) as [[a s']|]; auto. Qed.

Lemma mwp_load p b (Q : Mem.block -> Mem.state -> Prop) s :
  Mem.cells s !! p = Some b -> Q b s -> Mem.mwp (Mem.load p) Q s.
Proof. unfold Mem.mwp, Mem.load. now intros ->. Qed.

Lemma mwp_store p b (Q : unit -> Mem.state -> Prop) s :
  is_Some (Mem.cells s !! p) ->
  Q tt {| Mem.base := Mem.base s; Mem.cells := <[p := b]> (Mem.cells s) |} ->
  Mem.mwp (Mem.store p b) Q s.
Proof. unfold Mem.mwp, Mem.store. now intros [b0 ->]. Qed.

Lemma mwp_free p (Q : unit -> Mem.state -> Prop) s :
  p <> NULL -> is_Some (Mem.cells s !! p) ->
  Q tt {| Mem.base := Mem.base s; Mem.cells := delete p (Mem.cells s) |} ->
  Mem.mwp (Mem.free p) Q s.
Proof.
  unfold Mem.mwp, Mem.free. intros Hp [b0 ->].
  now destruct (Z.eqb_spec p NULL).
Qed.

Lemma mwp_free_null (Q : unit -> Mem.state -> Prop) s :
  Q tt s -> Mem.mwp (Mem.free NULL) Q s.
Proof. exact (fun H => H). Qed.

(** A loop keeps what its body keeps. *)
Lemma mwp_for_loop (I : Z -> Mem.state -> Prop) body count from s :
  I from s ->
  (forall i s', from <= i < from + Z.of_nat count -> I i s' ->
     Mem.mwp (body i) (fun _ s'' => I (i + 1) s'') s') ->
  Mem.mwp (Mem.for_loop count from body) (fun _ s' => I (from + Z.of_nat count) s') s.
Proof.
  revert from s. induction count as [|n IH]; intros from s H0 Hstep.
  - cbn. unfold Mem.mwp, Mem.mret. now replace (from + Z.of_nat 0) with from by lia.
  - cbn [Mem.for_loop]. apply mwp_bind.
    eapply mwp_mono; [apply Hstep; [lia | exact H0]|].
    intros u s' H1. cbn beta.
    replace (from + Z.of_nat (S n)) with (from + 1 + Z.of_nat n) by lia.
    apply IH; [exact H1|]. intros i s'' Hi. apply Hstep. lia.
Qed.

Lemma mwp_for (I : Z -> Mem.state -> Prop) body from to s :
  from <= to ->
  I from s ->
  (forall i s', from <= i < to -> I i s' ->
     Mem.mwp (body i) (fun _ s'' => I (i + 1) s'') s') ->
  Mem.mwp (Mem.for_ from to body) (fun _ s' => I to s') s.
Proof.
  intros Hle H0 Hstep. unfold Mem.for_.
  eapply mwp_mono.
  - apply (mwp_for_loop I); [exact H0|]. intros i s' Hi. apply Hstep. lia.
  - intros u s' H. cbn beta in H. now replace (from + Z.of_nat (Z.to_nat (to - from))) with to in H by lia.
Qed.

(** ** Memory steps against the embedding with values *)

Lemma sim_ret {A B} (a : A) (b : B) (R : A -> B -> Mem.state -> Prop) s :
  R a b s -> Mem.sim (Mem.mret a) (ret b) R s.
Proof. unfold Mem.sim, Mem.mwp, Mem.mret, ret. cbn. auto. Qed.

Lemma sim_bind {A A' B B'} (cm : Mem.MM A) (ca : M B) (km : A -> Mem.MM A') (ka : B -> M B')
    (R : A' -> B' -> Mem.state -> Prop) s :
  Mem.sim cm ca (fun a b s' => Mem.sim (km a) (ka b) R s') s ->
  Mem.sim (Mem.mbind cm km) (bind ca ka) R s.
Proof.
  unfold Mem.sim, Mem.mwp, Mem.mbind, bind.
  destruct (cm s) as [[a s']|]; [|easy]. intros [Hb H].
  destruct (ca (Mem.base s)) as [b w']. cbn [fst snd] in *. subst w'. exact H.
Qed.

(** A step that works on the blocks only has no counterpart. *)
Lemma sim_mem {A A' B'} (cm : Mem.MM A) (km : A -> Mem.MM A') (ca : M B')
    (R : A' -> B' -> Mem.state -> Prop) s :
  Mem.mwp cm (fun a s' => Mem.base s' = Mem.base s /\ Mem.sim (km a) ca R s') s ->
  Mem.sim (Mem.mbind cm km) ca R s.
Proof.
  unfold Mem.sim, Mem.mwp, Mem.mbind.
  destruct (cm s) as [[a s']|]; [|easy]. intros [Hb H]. now rewrite Hb in H.
Qed.

Lemma sim_mono {A B} (cm : Mem.MM A) (ca : M B) (R R' : A -> B -> Mem.state -> Prop) s :
  Mem.sim cm ca R s -> (forall a b s', R a b s' -> R' a b s') -> Mem.sim cm ca R' s.
Proof.
  unfold Mem.sim. intros H HR. eapply mwp_mono; [exact H|].
  cbn beta. intros a s' [Hb Hr]. auto.
Qed.

Lemma sim_lift {A A' B'} (c : M A) (km : A -> Mem.MM A') (ka : A -> M B')
    (R : A' -> B' -> Mem.state -> Prop) s :
  Mem.sim (km (fst (c (Mem.base s)))) (ka (fst (c (Mem.base s)))) R
    {| Mem.base := snd (c (Mem.base s)); Mem.cells := Mem.cells s |} ->
  Mem.sim (Mem.mbind (Mem.lift c) km) (bind c ka) R s.
Proof.
  intros H. apply sim_bind. unfold Mem.sim at 1, Mem.mwp, Mem.lift.
  destruct (c (Mem.base s)) as [a w']. cbn [fst snd Mem.base] in *. auto.
Qed.


Lemma xmalloc_run w :
  exists p w', xmalloc w = (p, w') /\ quiet w w' /\
    ((p = NULL /\ brk (heap w') = brk (heap w)) \/
     (p = heap_base + Z.of_nat (brk (heap w)) /\ brk (heap w') = S (brk (heap w)))).
Proof.
  unfold xmalloc, bind, malloc, quiet.
  destruct (plan (heap w)) as [|[] pl] eqn:E; cbn; rewrite ?heap_addr_not_null; cbn;
    eexists _, _; (split; [reflexivity|]); cbn; (split; [repeat apply conj; auto; lia|]); auto.
Qed.

Lemma sim_alloc {A' B'} blk (km : Z -> Mem.MM A') (ka : Z -> M B')
    (R : A' -> B' -> Mem.state -> Prop) s :
  (forall w', quiet (Mem.base s) w' -> brk (heap w') = brk (heap (Mem.base s)) ->
     Mem.sim (km NULL) (ka NULL) R {| Mem.base := w'; Mem.cells := Mem.cells s |}) ->
  (forall w' p, quiet (Mem.base s) w' ->
     p = heap_base + Z.of_nat (brk (heap (Mem.base s))) ->
     brk (heap w') = S (brk (heap (Mem.base s))) ->
     Mem.sim (km p) (ka p) R {| Mem.base := w'; Mem.cells := <[p := blk]> (Mem.cells s) |}) ->
  Mem.sim (Mem.mbind (Mem.alloc blk) km) (bind xmalloc ka) R s.
Proof.
  intros Hnull Hnew. apply sim_bind.
  unfold Mem.sim at 1, Mem.mwp, Mem.alloc, Mem.mbind, Mem.lift.
  destruct (xmalloc_run (Mem.base s)) as (p & w' & -> & Hq & [[-> Hb]|[-> Hb]]); cbn [fst snd].
  - change (NULL =? NULL) with true. cbn. split; [reflexivity|]. now apply Hnull.
  - rewrite heap_addr_not_null. cbn. split; [reflexivity|]. now apply Hnew.
Qed.

(** ** Reads and writes *)

Lemma mwp_slot_get a i l q (Q : Z -> Mem.state -> Prop) s :
  Mem.cells s !! a = Some (Mem.BSlots l) -> 0 <= i -> l !! Z.to_nat i = Some q ->
  Q q s -> Mem.mwp (Mem.slot_get a i) Q s.
Proof.
  intros Ha Hi Hq H. unfold Mem.slot_get. apply mwp_bind. eapply mwp_load; [exact Ha|].
  destruct (Z.ltb_spec i 0); [lia|]. now rewrite Hq.
Qed.

Lemma mwp_slot_set a i q l (Q : unit -> Mem.state -> Prop) s :
  Mem.cells s !! a = Some (Mem.BSlots l) -> 0 <= i < Z.of_nat (length l) ->
  Q tt {| Mem.base := Mem.base s;
          Mem.cells := <[a := Mem.BSlots (<[Z.to_nat i := q]> l)]> (Mem.cells s) |} ->
  Mem.mwp (Mem.slot_set a i q) Q s.
Proof.
  intros Ha Hi H. unfold Mem.slot_set. apply mwp_bind. eapply mwp_load; [exact Ha|].
  destruct (Z.leb_spec 0 i); [|lia]. destruct (Z.ltb_spec i (Z.of_nat (length l))); [|lia].
  cbn. apply mwp_store; [rewrite Ha; eauto | exact H].
Qed.

Lemma mwp_char_get a i l c (Q : char -> Mem.state -> Prop) s :
  Mem.cells s !! a = Some (Mem.BChars l) -> 0 <= i -> l !! Z.to_nat i = Some c ->
  Q c s -> Mem.mwp (Mem.char_get a i) Q s.
Proof.
  intros Ha Hi Hq H. unfold Mem.char_get. apply mwp_bind. eapply mwp_load; [exact Ha|].
  destruct (Z.ltb_spec i 0); [lia|]. now rewrite Hq.
Qed.

Lemma mwp_char_set a i c l (Q : unit -> Mem.state -> Prop) s :
  Mem.cells s !! a = Some (Mem.BChars l) -> 0 <= i < Z.of_nat (length l) ->
  Q tt {| Mem.base := Mem.base s;
          Mem.cells := <[a := Mem.BChars (<[Z.to_nat i := c]> l)]> (Mem.cells s) |} ->
  Mem.mwp (Mem.char_set a i c) Q s.
Proof.
  intros Ha Hi H. unfold Mem.char_set. apply mwp_bind. eapply mwp_load; [exact Ha|].
  destruct (Z.leb_spec 0 i); [|lia]. destruct (Z.ltb_spec i (Z.of_nat (length l))); [|lia].
  cbn. apply mwp_store; [rewrite Ha; eauto | exact H].
Qed.

Lemma mwp_row_get row len capacity fields (Q : Z * Z * Z -> Mem.state -> Prop) s :
  Mem.cells s !! row = Some (Mem.BRow len capacity fields) ->
  Q (len, capacity, fields) s -> Mem.mwp (Mem.row_get row) Q s.
Proof.
  intros Ha H. unfold Mem.row_get. apply mwp_bind. now eapply mwp_load; [exact Ha|].
Qed.

Lemma mwp_buffer_get buffer len capacity p (Q : Z * Z * Z -> Mem.state -> Prop) s :
  Mem.cells s !! buffer = Some (Mem.BBuffer len capacity p) ->
  Q (len, capacity, p) s -> Mem.mwp (Mem.buffer_get buffer) Q s.
Proof.
  intros Ha H. unfold Mem.buffer_get. apply mwp_bind. now eapply mwp_load; [exact Ha|].
Qed.

Lemma mwp_chars_get p chars (Q : list char -> Mem.state -> Prop) s :
  Mem.cells s !! p = Some (Mem.BChars chars) ->
  Q chars s -> Mem.mwp (Mem.chars_get p) Q s.
Proof.
  intros Ha H. unfold Mem.chars_get. apply mwp_bind. now eapply mwp_load; [exact Ha|].
Qed.

(** ** Arrays filled from the front *)

Lemma insert_boundary {A} (pre : list A) (x f : A) (m : nat) :
  <[length pre := x]> (pre ++ repeat f (S m)) = (pre ++ [x]) ++ repeat f m.
Proof.
  induction pre as [|a pre IH]; cbn; [reflexivity|]. f_equal. exact IH.
Qed.

Lemma insert_end {A} (pre : list A) (x y : A) :
  <[length pre := x]> (pre ++ [y]) = pre ++ [x].
Proof. induction pre as [|a pre IH]; cbn; [reflexivity|]. f_equal. exact IH. Qed.

Lemma take_insert_snoc {A} (l : list A) (n : nat) (x : A) :
  (n < length l)%nat -> firstn (S n) (<[n := x]> l) = firstn n l ++ [x].
Proof.
  intros H. rewrite (take_S_r _ n x) by now apply list_lookup_insert_eq.
  now rewrite take_insert_ge by lia.
Qed.

Lemma repeat_snoc {A} (x : A) (n : nat) : repeat x (S n) = repeat x n ++ [x].
Proof. induction n as [|n IH]; cbn; [reflexivity|]. f_equal. exact IH. Qed.


Lemma boundary_step {A} (l : list A) (x f : A) (i m : nat) :
  l !! i = Some x -> (i < m)%nat ->
  <[i := x]> (firstn i l ++ repeat f (m - i)) = firstn (S i) l ++ repeat f (m - S i).
Proof.
  intros Hx Hm. replace (m - i)%nat with (S (m - S i)) by lia.
  assert (Hl : length (firstn i l) = i).
  { apply length_take_le. apply lookup_lt_Some in Hx. lia. }
  rewrite <- Hl at 1. rewrite insert_boundary. now rewrite (take_S_r l i x Hx).
Qed.

Lemma state_eta s : s = {| Mem.base := Mem.base s; Mem.cells := Mem.cells s |}.
Proof. now destruct s. Qed.

(** [for (i = from; i < to; i++) a[i] = NULL;] *)
Lemma fill_slots a pre m from to s :
  Mem.cells s !! a = Some (Mem.BSlots (pre ++ repeat Mem.junk m)) ->
  from = Z.of_nat (length pre) -> to = from + Z.of_nat m ->
  Mem.mwp (Mem.for_ from to (fun i => Mem.slot_set a i NULL))
    (fun _ s' => s' = {| Mem.base := Mem.base s;
                         Mem.cells := <[a := Mem.BSlots (pre ++ repeat NULL m)]> (Mem.cells s) |}) s.
Proof.
  intros Ha -> ->.
  eapply mwp_mono.
  - apply (mwp_for (fun i s' => exists k, i = Z.of_nat (length pre) + Z.of_nat k /\ (k <= m)%nat /\
        s' = {| Mem.base := Mem.base s;
                Mem.cells := <[a := Mem.BSlots ((pre ++ repeat NULL k) ++ repeat Mem.junk (m - k))]>
                               (Mem.cells s) |})); [lia| |].
    + exists 0%nat. split; [lia|]. split; [lia|].
      cbn [repeat]. rewrite app_nil_r, Nat.sub_0_r, insert_id by exact Ha. apply state_eta.
    + intros i s' Hi (k & -> & Hk & ->).
      assert (Hlen : Z.to_nat (Z.of_nat (length pre) + Z.of_nat k) = length (pre ++ repeat NULL k)).
      { rewrite length_app, repeat_length. lia. }
      eapply mwp_slot_set; [cbn; apply lookup_insert_eq| |].
      * rewrite !length_app, !repeat_length. lia.
      * exists (S k). split; [lia|]. split; [lia|]. cbn [Mem.base Mem.cells].
        rewrite insert_insert_eq. do 3 f_equal.
        rewrite Hlen. replace (m - k)%nat with (S (m - S k)) by lia.
        rewrite insert_boundary. rewrite repeat_snoc. now rewrite <- !app_assoc.
  - cbn beta. intros _ s' (k & Hk & Hle & ->).
    assert (k = m) by lia. subst k. now rewrite Nat.sub_diag, app_nil_r.
Qed.

(** [for (i = 0; i < n; i++) dst[i] = src[i];] on arrays of pointers. *)
Lemma copy_slots src dst l n m s :
  src <> dst ->
  Mem.cells s !! src = Some (Mem.BSlots l) ->
  Mem.cells s !! dst = Some (Mem.BSlots (repeat Mem.junk m)) ->
  (n <= length l)%nat -> (n <= m)%nat ->
  Mem.mwp (Mem.for_ 0 (Z.of_nat n)
             (fun i => Mem.mbind (Mem.slot_get src i) (fun q => Mem.slot_set dst i q)))
    (fun _ s' => s' = {| Mem.base := Mem.base s;
                         Mem.cells := <[dst := Mem.BSlots (firstn n l ++ repeat Mem.junk (m - n))]>
                                        (Mem.cells s) |}) s.
Proof.
  intros Hne Hs Hd Hn Hm.
  eapply mwp_mono.
  - apply (mwp_for (fun i s' => 0 <= i /\
        s' = {| Mem.base := Mem.base s;
                Mem.cells := <[dst := Mem.BSlots (firstn (Z.to_nat i) l ++
                                                    repeat Mem.junk (m - Z.to_nat i))]>
                               (Mem.cells s) |})); [lia| |].
    + split; [lia|]. cbn. rewrite Nat.sub_0_r, insert_id by exact Hd. apply state_eta.
    + intros i s' Hi [_ ->].
      destruct (lookup_lt_is_Some_2 l (Z.to_nat i)) as [q Hq]; [lia|].
      apply mwp_bind. eapply mwp_slot_get; [cbn; rewrite lookup_insert_ne by auto; exact Hs|lia|exact Hq|].
      eapply mwp_slot_set; [cbn; apply lookup_insert_eq| |].
      * rewrite length_app, repeat_length, length_take_le by lia. lia.
      * split; [lia|]. cbn [Mem.base Mem.cells]. rewrite insert_insert_eq. do 3 f_equal.
        replace (Z.to_nat (i + 1)) with (S (Z.to_nat i)) by lia.
        apply boundary_step; [exact Hq | lia].
  - cbn beta. intros _ s' [_ ->]. now rewrite Nat2Z.id.
Qed.

(** [for (i = 0; i < n; i++) dst[i] = src[i];] on arrays of bytes. *)
Lemma copy_chars src dst l n m s :
  src <> dst ->
  Mem.cells s !! src = Some (Mem.BChars l) ->
  Mem.cells s !! dst = Some (Mem.BChars (repeat NUL m)) ->
  (n <= length l)%nat -> (n <= m)%nat ->
  Mem.mwp (Mem.for_ 0 (Z.of_nat n)
             (fun i => Mem.mbind (Mem.char_get src i) (fun x => Mem.char_set dst i x)))
    (fun _ s' => s' = {| Mem.base := Mem.base s;
                         Mem.cells := <[dst := Mem.BChars (firstn n l ++ repeat NUL (m - n))]>
                                        (Mem.cells s) |}) s.
Proof.
  intros Hne Hs Hd Hn Hm.
  eapply mwp_mono.
  - apply (mwp_for (fun i s' => 0 <= i /\
        s' = {| Mem.base := Mem.base s;
                Mem.cells := <[dst := Mem.BChars (firstn (Z.to_nat i) l ++
                                                    repeat NUL (m - Z.to_nat i))]>
                               (Mem.cells s) |})); [lia| |].
    + split; [lia|]. cbn. rewrite Nat.sub_0_r, insert_id by exact Hd. apply state_eta.
    + intros i s' Hi [_ ->].
      destruct (lookup_lt_is_Some_2 l (Z.to_nat i)) as [q Hq]; [lia|].
      apply mwp_bind. eapply mwp_char_get; [cbn; rewrite lookup_insert_ne by auto; exact Hs|lia|exact Hq|].
      eapply mwp_char_set; [cbn; apply lookup_insert_eq| |].
      * rewrite length_app, repeat_length, length_take_le by lia. lia.
      * split; [lia|]. cbn [Mem.base Mem.cells]. rewrite insert_insert_eq. do 3 f_equal.
        replace (Z.to_nat (i + 1)) with (S (Z.to_nat i)) by lia.
        apply boundary_step; [exact Hq | lia].
  - cbn beta. intros _ s' [_ ->]. now rewrite Nat2Z.id.
Qed.

(** [for (i = 0; i < len; i++) s[i] = field[i];] *)
Lemma copy_field dst (field : list char) n m s :
  Mem.cells s !! dst = Some (Mem.BChars (repeat NUL m)) ->
  (n <= length field)%nat -> (n <= m)%nat ->
  Mem.mwp (Mem.for_ 0 (Z.of_nat n)
             (fun i => match field !! Z.to_nat i with
                       | Some c => Mem.char_set dst i c
                       | None => Mem.undefined
                       end))
    (fun _ s' => s' = {| Mem.base := Mem.base s;
                         Mem.cells := <[dst := Mem.BChars (firstn n field ++ repeat NUL (m - n))]>
                                        (Mem.cells s) |}) s.
Proof.
  intros Hd Hn Hm.
  eapply mwp_mono.
  - apply (mwp_for (fun i s' => 0 <= i /\
        s' = {| Mem.base := Mem.base s;
                Mem.cells := <[dst := Mem.BChars (firstn (Z.to_nat i) field ++
                                                    repeat NUL (m - Z.to_nat i))]>
                               (Mem.cells s) |})); [lia| |].
    + split; [lia|]. cbn. rewrite Nat.sub_0_r, insert_id by exact Hd. apply state_eta.
    + intros i s' Hi [_ ->].
      destruct (lookup_lt_is_Some_2 field (Z.to_nat i)) as [q Hq]; [lia|].
      rewrite Hq.
      eapply mwp_char_set; [cbn; apply lookup_insert_eq| |].
      * rewrite length_app, repeat_length, length_take_le by lia. lia.
      * split; [lia|]. cbn [Mem.base Mem.cells]. rewrite insert_insert_eq. do 3 f_equal.
        replace (Z.to_nat (i + 1)) with (S (Z.to_nat i)) by lia.
        apply boundary_step; [exact Hq | lia].
  - cbn beta. intros _ s' [_ ->]. now rewrite Nat2Z.id.
Qed.


(** ** Blocks taken away *)

Lemma lookup_without_in ps m k : elem_of k ps -> Mem.without ps m !! k = None.
Proof.
  unfold Mem.without. induction ps as [|p ps IH]; cbn; intros H.
  - now apply elem_of_nil in H.
  - destruct (decide (k = p)) as [->|Hne]; [apply lookup_delete_eq|].
    rewrite lookup_delete_ne by auto. apply IH.
    apply elem_of_cons in H. destruct H; [contradiction|assumption].
Qed.

Lemma lookup_without_notin ps m k : ~ elem_of k ps -> Mem.without ps m !! k = m !! k.
Proof.
  unfold Mem.without. induction ps as [|p ps IH]; cbn; intros H; [reflexivity|].
  rewrite not_elem_of_cons in H. destruct H as [Hne H].
  rewrite lookup_delete_ne by auto. now apply IH.
Qed.

Lemma without_cons p ps m : Mem.without (p :: ps) m = delete p (Mem.without ps m).
Proof. reflexivity. Qed.

Lemma without_snoc ps q m : Mem.without (ps ++ [q]) m = delete q (Mem.without ps m).
Proof.
  unfold Mem.without. induction ps as [|p ps IH]; cbn; [reflexivity|].
  rewrite IH. apply delete_delete.
Qed.

Lemma without_app ps qs m : Mem.without (ps ++ qs) m = Mem.without ps (Mem.without qs m).
Proof. unfold Mem.without. apply foldr_app. Qed.

(** What a change that keeps [without] leaves of the blocks outside. *)
Lemma frame_lookup fp fp' (m m' : gmap Z Mem.block) k b :
  Mem.without fp' m' = Mem.without fp m ->
  ~ elem_of k fp -> m !! k = Some b ->
  m' !! k = Some b /\ ~ elem_of k fp'.
Proof.
  intros He Hk Hb.
  assert (H : Mem.without fp' m' !! k = Some b).
  { rewrite He, lookup_without_notin by exact Hk. exact Hb. }
  destruct (decide (elem_of k fp')) as [Hin|Hout].
  - rewrite lookup_without_in in H by exact Hin. discriminate.
  - rewrite lookup_without_notin in H by exact Hout. auto.
Qed.

Lemma lookup_repeat {A} (x : A) (n i : nat) : (i < n)%nat -> repeat x n !! i = Some x.
Proof.
  revert i. induction n as [|n IH]; intros [|i] H; cbn; try lia; [reflexivity|].
  apply IH. lia.
Qed.

Lemma not_in_take {A} (l : list A) (i : nat) (q : A) :
  NoDup l -> l !! i = Some q -> ~ elem_of q (firstn i l).
Proof.
  intros Hnd Hq Hin. apply elem_of_take in Hin. destruct Hin as (j & Hj & Hlt).
  pose proof (NoDup_lookup _ _ _ _ Hnd Hj Hq). lia.
Qed.

(** [for (i = 0; i < capacity; i++) free(fields[i]);] *)
Lemma free_fields fields ptrs k s :
  Mem.cells s !! fields = Some (Mem.BSlots (ptrs ++ repeat NULL k)) ->
  NoDup ptrs ->
  Forall (fun q => q <> NULL /\ q <> fields /\ is_Some (Mem.cells s !! q)) ptrs ->
  Mem.mwp (Mem.for_ 0 (Z.of_nat (length ptrs + k))
             (fun i => Mem.mbind (Mem.slot_get fields i) (fun q => Mem.free q)))
    (fun _ s' => s' = {| Mem.base := Mem.base s;
                         Mem.cells := Mem.without ptrs (Mem.cells s) |}) s.
Proof.
  intros Hf Hnd Hall.
  eapply mwp_mono.
  - apply (mwp_for (fun i s' => 0 <= i /\
        s' = {| Mem.base := Mem.base s;
                Mem.cells := Mem.without (firstn (Z.to_nat i) ptrs) (Mem.cells s) |})); [lia| |].
    + split; [lia|]. cbn. apply state_eta.
    + intros i s' Hi [_ ->].
      assert (Hfl : Mem.without (firstn (Z.to_nat i) ptrs) (Mem.cells s) !! fields =
                    Some (Mem.BSlots (ptrs ++ repeat NULL k))).
      { rewrite lookup_without_notin; [exact Hf|]. intros Hin.
        apply elem_of_take in Hin. destruct Hin as (j & Hj & _).
        apply (Forall_lookup_1 _ _ _ _ Hall) in Hj. now destruct Hj as (_ & ? & _). }
      apply mwp_bind.
      destruct (ptrs !! Z.to_nat i) as [q|] eqn:Hq.
      * eapply mwp_slot_get; [exact Hfl | lia | apply lookup_app_l_Some; exact Hq |].
        destruct (Forall_lookup_1 _ _ _ _ Hall Hq) as (Hq0 & _ & Hlive).
        apply mwp_free; [exact Hq0| |].
        -- cbn. rewrite lookup_without_notin; [exact Hlive|]. now apply not_in_take.
        -- split; [lia|]. cbn [Mem.base Mem.cells].
           replace (Z.to_nat (i + 1)) with (S (Z.to_nat i)) by lia.
           rewrite (take_S_r ptrs _ q Hq). now rewrite without_snoc.
      * apply lookup_ge_None in Hq.
        eapply mwp_slot_get; [exact Hfl | lia | |].
        -- rewrite lookup_app_r by exact Hq. apply lookup_repeat. lia.
        -- apply mwp_free_null. split; [lia|].
           rewrite !take_ge by lia. reflexivity.
  - cbn beta. intros _ s' [_ ->]. rewrite take_ge; [reflexivity|lia].
Qed.

(** [for (i = 0; i < len; i++) { free(fields[i]); fields[i] = NULL; }] *)
Lemma reset_fields fields ptrs k s :
  Mem.cells s !! fields = Some (Mem.BSlots (ptrs ++ repeat NULL k)) ->
  NoDup ptrs ->
  Forall (fun q => q <> NULL /\ q <> fields /\ is_Some (Mem.cells s !! q)) ptrs ->
  Mem.mwp (Mem.for_ 0 (Z.of_nat (length ptrs))
             (fun i => Mem.mbind (Mem.slot_get fields i)
                         (fun q => Mem.mbind (Mem.free q)
                                     (fun _ => Mem.slot_set fields i NULL))))
    (fun _ s' => s' = {| Mem.base := Mem.base s;
                         Mem.cells := <[fields := Mem.BSlots (repeat NULL (length ptrs + k))]>
                                        (Mem.without ptrs (Mem.cells s)) |}) s.
Proof.
  intros Hf Hnd Hall.
  assert (Hnf : forall n, ~ elem_of fields (firstn n ptrs)).
  { intros n Hin. apply elem_of_take in Hin. destruct Hin as (j & Hj & _).
    apply (Forall_lookup_1 _ _ _ _ Hall) in Hj. now destruct Hj as (_ & ? & _). }
  eapply mwp_mono.
  - apply (mwp_for (fun i s' => 0 <= i /\
        s' = {| Mem.base := Mem.base s;
                Mem.cells :=
                  <[fields := Mem.BSlots (repeat NULL (Z.to_nat i) ++
                                          skipn (Z.to_nat i) ptrs ++ repeat NULL k)]>
                    (Mem.without (firstn (Z.to_nat i) ptrs) (Mem.cells s)) |})); [lia| |].
    + split; [lia|]. cbn. rewrite insert_id by exact Hf. apply state_eta.
    + intros i s' Hi [_ ->].
      destruct (lookup_lt_is_Some_2 ptrs (Z.to_nat i)) as [q Hq]; [lia|].
      destruct (Forall_lookup_1 _ _ _ _ Hall Hq) as (Hq0 & Hqf & Hlive).
      apply mwp_bind.
      eapply mwp_slot_get; [cbn; apply lookup_insert_eq | lia | |].
      { rewrite lookup_app_r by (rewrite repeat_length; lia).
        rewrite repeat_length, Nat.sub_diag.
        apply lookup_app_l_Some. rewrite lookup_drop, Nat.add_0_r. exact Hq. }
      apply mwp_bind. apply mwp_free; [exact Hq0| |].
      { cbn. rewrite lookup_insert_ne by auto.
        rewrite lookup_without_notin; [exact Hlive|]. now apply not_in_take. }
      eapply mwp_slot_set.
      { cbn. rewrite lookup_delete_ne by auto. apply lookup_insert_eq. }
      { rewrite !length_app, repeat_length, length_drop. lia. }
      split; [lia|]. cbn [Mem.base Mem.cells].
      rewrite <- insert_delete_ne by auto. rewrite insert_insert_eq.
      replace (Z.to_nat (i + 1)) with (S (Z.to_nat i)) by lia.
      rewrite (take_S_r ptrs _ q Hq), without_snoc. do 3 f_equal.
      rewrite (drop_S ptrs q _ Hq).
      rewrite repeat_snoc, <- app_assoc.
      rewrite insert_app_r_alt by (rewrite repeat_length; lia).
      rewrite repeat_length, Nat.sub_diag. reflexivity.
  - cbn beta. intros _ s' [_ ->]. rewrite Nat2Z.id, take_ge, drop_ge by lia.
    cbn [app]. now rewrite repeat_app.
Qed.


(** ** Allocated blocks *)

Lemma allocated_new s n :
  Mem.allocated s -> (brk (heap (Mem.base s)) <= n)%nat ->
  Mem.cells s !! (heap_base + Z.of_nat n) = None.
Proof.
  intros Ha Hn. destruct (Mem.cells s !! (heap_base + Z.of_nat n)) eqn:E; [|reflexivity].
  assert (H : is_Some (Mem.cells s !! (heap_base + Z.of_nat n))) by (rewrite E; eauto).
  apply Ha in H. lia.
Qed.

Lemma allocated_live s k : Mem.allocated s -> is_Some (Mem.cells s !! k) -> k <> NULL.
Proof. intros Ha H. apply Ha in H. unfold heap_base, NULL in *. lia. Qed.

Lemma allocated_mono s w' m' :
  Mem.allocated s ->
  (brk (heap (Mem.base s)) <= brk (heap w'))%nat ->
  (forall k, is_Some (m' !! k) ->
     is_Some (Mem.cells s !! k) \/
     heap_base <= k < heap_base + Z.of_nat (brk (heap w'))) ->
  Mem.allocated {| Mem.base := w'; Mem.cells := m' |}.
Proof.
  intros Ha Hb Hm k Hk. cbn in *. destruct (Hm k Hk) as [H|H]; [|exact H].
  apply Ha in H. lia.
Qed.

(** The same blocks, or fewer, with [malloc] further on. *)
Lemma allocated_sub s w' m' :
  Mem.allocated s ->
  (brk (heap (Mem.base s)) <= brk (heap w'))%nat ->
  (forall k, is_Some (m' !! k) -> is_Some (Mem.cells s !! k)) ->
  Mem.allocated {| Mem.base := w'; Mem.cells := m' |}.
Proof. intros Ha Hb Hm. apply (allocated_mono s); auto. Qed.


Lemma is_Some_insert (m : gmap Z Mem.block) a b k :
  is_Some (<[a := b]> m !! k) -> k = a \/ is_Some (m !! k).
Proof.
  destruct (decide (k = a)) as [->|Hne]; [now left|].
  rewrite lookup_insert_ne by auto. now right.
Qed.

Lemma is_Some_delete (m : gmap Z Mem.block) a k :
  is_Some (delete a m !! k) -> is_Some (m !! k).
Proof.
  destruct (decide (k = a)) as [->|Hne].
  - rewrite lookup_delete_eq. now intros [? ?].
  - now rewrite lookup_delete_ne by auto.
Qed.

Lemma is_Some_without ps (m : gmap Z Mem.block) k :
  is_Some (Mem.without ps m !! k) -> is_Some (m !! k).
Proof.
  destruct (decide (elem_of k ps)) as [Hin|Hout].
  - rewrite lookup_without_in by exact Hin. now intros [? ?].
  - now rewrite lookup_without_notin by exact Hout.
Qed.

(** Which blocks a state built by writes, frees and allocations holds. *)
Ltac live_in H :=
  repeat first
    [ apply is_Some_delete in H
    | apply is_Some_without in H
    | apply is_Some_insert in H; destruct H as [H|H] ].

Ltac allocated_from Ha :=
  let k := fresh "k" in
  let Hk := fresh "Hk" in
  apply (allocated_mono _ _ _ Ha); cbn [Mem.base Mem.cells];
  [ lia
  | intros k Hk; live_in Hk;
    first [ left; exact Hk
          | left; subst k;
            match goal with H : _ !! ?x = Some _ |- is_Some (_ !! ?x) => rewrite H; eauto end
          | right; subst k; repeat match goal with x := _ |- _ => subst x end;
            cbn [Mem.base Mem.cells] in *; lia ] ].

Lemma heap_addr_not_null_neq (n : nat) : heap_base + Z.of_nat n <> NULL.
Proof. unfold heap_base, NULL. lia. Qed.

(** ** The row container in memory *)

Lemma sim_csv_row_new s :
  Mem.allocated s ->
  Mem.sim Mem.csv_row_new csv_row_new
    (fun row ra s' =>
       Mem.allocated s' /\
       match ra with
       | None => row = NULL /\ Mem.cells s' = Mem.cells s
       | Some r =>
           row <> NULL /\
           exists fields,
             Mem.row_at (Mem.cells s') row r fields [] /\
             Mem.without [row; fields] (Mem.cells s') = Mem.cells s
       end) s.
Proof.
  intros Ha. unfold Mem.csv_row_new, csv_row_new.
  apply sim_alloc.
  - intros w' Hq Hb. change (NULL =? NULL) with true. cbn match.
    apply sim_ret. split; [allocated_from Ha | auto].
  - intros w' row Hq -> Hb. rewrite heap_addr_not_null.
    set (row := heap_base + Z.of_nat (brk (heap (Mem.base s)))).
    assert (Hrow : Mem.cells s !! row = None) by now apply allocated_new.
    apply sim_mem. apply mwp_store; [cbn; rewrite lookup_insert_eq; eauto|].
    cbn [Mem.base Mem.cells]. split; [reflexivity|]. rewrite insert_insert_eq.
    apply sim_alloc; cbn [Mem.base Mem.cells].
    + intros w2 Hq2 Hb2. change (NULL =? NULL) with true. cbn match.
      apply sim_mem. apply mwp_free; [apply heap_addr_not_null_neq| cbn; rewrite lookup_insert_eq; eauto |].
      cbn [Mem.base Mem.cells]. split; [reflexivity|].
      rewrite delete_insert_eq, delete_id by exact Hrow.
      apply sim_ret. split; [allocated_from Ha | auto].
    + intros w2 fields Hq2 -> Hb2. rewrite heap_addr_not_null. rewrite Hb.
      set (fields := heap_base + Z.of_nat (S (brk (heap (Mem.base s))))).
      assert (Hne : row <> fields) by (unfold row, fields; lia).
      assert (Hfields : Mem.cells s !! fields = None) by (apply allocated_new; [exact Ha|lia]).
      apply sim_mem. apply mwp_store; [cbn; rewrite lookup_insert_ne, lookup_insert_eq by auto; eauto|].
      cbn [Mem.base Mem.cells]. split; [reflexivity|].
      apply sim_mem. eapply mwp_mono.
      { apply (fill_slots fields [] 32).
        - cbn. rewrite lookup_insert_ne, lookup_insert_eq by auto. reflexivity.
        - reflexivity.
        - reflexivity. }
      cbn beta. intros _ s' ->. cbn [Mem.base Mem.cells app]. split; [reflexivity|].
      apply sim_ret. split; [|split; [apply heap_addr_not_null_neq|]].
      * allocated_from Ha.
      * exists fields. split.
        -- unfold Mem.row_at. cbn.
           rewrite lookup_insert_ne, lookup_insert_eq by auto.
           rewrite lookup_insert_eq.
           repeat apply conj; try reflexivity; try constructor; try lia; now cbn.
        -- cbn. apply map_eq. intros k.
           destruct (decide (k = row)) as [->|H1]; [rewrite lookup_delete_eq; now rewrite Hrow|].
           rewrite lookup_delete_ne by auto.
           destruct (decide (k = fields)) as [->|H2]; [rewrite lookup_delete_eq; now rewrite Hfields|].
           rewrite lookup_delete_ne by auto.
           now rewrite !lookup_insert_ne by auto.
Qed.


(** What [row_at] says of the addresses involved. *)
Lemma row_at_facts s row r fields ptrs :
  Mem.allocated s -> Mem.row_at (Mem.cells s) row r fields ptrs ->
  row <> NULL /\ fields <> NULL /\ row <> fields /\
  ~ elem_of row ptrs /\ ~ elem_of fields ptrs /\
  Forall (fun q => q <> NULL /\ q <> fields /\ is_Some (Mem.cells s !! q)) ptrs /\
  length ptrs = length (r_fields r) /\
  Z.of_nat (length ptrs + (Z.to_nat (r_capacity r) - length ptrs)) = r_capacity r.
Proof.
  intros Ha (Hrow & Hfields & Hptrs & Hnd & Hnul & Hcap & Hlen).
  assert (Hkind : forall q, elem_of q ptrs -> exists f, Mem.cells s !! q = Some (Mem.BChars f)).
  { intros q Hq. apply list_elem_of_lookup_1 in Hq. destruct Hq as [i Hi].
    destruct (Forall2_lookup_l _ _ _ _ _ Hptrs Hi) as (f & _ & Hf). eauto. }
  pose proof (Forall2_length _ _ _ Hptrs) as Hl.
  unfold r_len in Hlen.
  repeat apply conj.
  - apply (allocated_live s); [exact Ha|]. rewrite Hrow. eauto.
  - apply (allocated_live s); [exact Ha|]. rewrite Hfields. eauto.
  - intros ->. congruence.
  - intros Hin. destruct (Hkind _ Hin) as [f Hf]. congruence.
  - intros Hin. destruct (Hkind _ Hin) as [f Hf]. congruence.
  - apply Forall_forall. intros q Hq. destruct (Hkind _ Hq) as [f Hf].
    repeat apply conj.
    + apply (allocated_live s); [exact Ha|]. rewrite Hf. eauto.
    + intros ->. congruence.
    + rewrite Hf. eauto.
  - exact Hl.
  - lia.
Qed.

Ltac row_facts Ha Hr :=
  let H := fresh "H" in
  pose proof (row_at_facts _ _ _ _ _ Ha Hr) as H;
  destruct H as (Hrow0 & Hfields0 & Hrf & Hrp & Hfp & Hlive & Hlen & Hcap);
  pose proof Hr as (Hrow & Hfields & Hptrs & Hnd & Hnul & Hok).

(** Lookups in a memory built by writes and frees. *)
Ltac in_list :=
  repeat first [rewrite elem_of_cons | rewrite elem_of_app | rewrite elem_of_nil];
  intuition congruence.

Ltac lookups :=
  cbn [Mem.base Mem.cells];
  repeat first
    [ rewrite lookup_insert_eq
    | rewrite lookup_delete_eq
    | rewrite lookup_insert_ne by (first [assumption | congruence])
    | rewrite lookup_delete_ne by (first [assumption | congruence])
    | rewrite lookup_without_in by in_list
    | rewrite lookup_without_notin by in_list ].

Lemma mwp_csv_row_free s row r fields ptrs :
  Mem.allocated s -> Mem.row_at (Mem.cells s) row r fields ptrs ->
  Mem.mwp (Mem.csv_row_free row)
    (fun _ s' => s' = {| Mem.base := Mem.base s;
                         Mem.cells := Mem.without (row :: fields :: ptrs) (Mem.cells s) |}) s.
Proof.
  intros Ha Hr. row_facts Ha Hr.
  unfold Mem.csv_row_free. apply mwp_bind. eapply mwp_row_get; [exact Hrow|]. cbn beta iota.
  apply mwp_bind. rewrite <- Hcap. eapply mwp_mono.
  { apply (free_fields fields ptrs); [exact Hfields | exact Hnd | exact Hlive]. }
  cbn beta. intros _ s' ->.
  apply mwp_bind. apply mwp_free; [exact Hfields0 | cbn; lookups; rewrite Hfields; eauto |].
  apply mwp_free; [exact Hrow0 | cbn; lookups; rewrite Hrow; eauto |].
  reflexivity.
Qed.


Lemma mwp_csv_row_reset s row r fields ptrs :
  Mem.allocated s -> Mem.row_at (Mem.cells s) row r fields ptrs ->
  Mem.mwp (Mem.csv_row_reset row)
    (fun _ s' =>
       Mem.base s' = Mem.base s /\ Mem.allocated s' /\
       Mem.row_at (Mem.cells s') row (csv_row_reset r) fields [] /\
       Mem.without [row; fields] (Mem.cells s') =
         Mem.without (row :: fields :: ptrs) (Mem.cells s)) s.
Proof.
  intros Ha Hr. row_facts Ha Hr.
  unfold Mem.csv_row_reset. apply mwp_bind. eapply mwp_row_get; [exact Hrow|]. cbn beta iota.
  apply mwp_bind. unfold r_len. rewrite <- Hlen. eapply mwp_mono.
  { apply (reset_fields fields ptrs); [exact Hfields | exact Hnd | exact Hlive]. }
  cbn beta. intros _ s' ->.
  apply mwp_store; [cbn; lookups; rewrite Hrow; eauto|].
  cbn [Mem.base Mem.cells]. split; [reflexivity|]. split; [allocated_from Ha|]. split.
  - unfold Mem.row_at, csv_row_reset. cbn [r_capacity r_fields r_len length app].
    lookups. rewrite Nat.sub_0_r.
    replace (length ptrs + (Z.to_nat (r_capacity r) - length ptrs))%nat
      with (Z.to_nat (r_capacity r)) by lia.
    repeat apply conj; try reflexivity; try constructor; try apply Hok.
    unfold r_len. cbn. destruct Hok. lia.
  - apply map_eq. intros k. rewrite !without_cons.
    destruct (decide (k = row)) as [->|H1]; [now lookups|].
    destruct (decide (k = fields)) as [->|H2]; [now lookups|].
    lookups. destruct (decide (elem_of k ptrs)); now lookups.
Qed.


Lemma fields_frame (m m' : gmap Z Mem.block) ptrs (fs : list (list char)) :
  Forall2 (fun q f => m !! q = Some (Mem.BChars f)) ptrs fs ->
  (forall q, elem_of q ptrs -> m' !! q = m !! q) ->
  Forall2 (fun q f => m' !! q = Some (Mem.BChars f)) ptrs fs.
Proof.
  induction 1 as [|q f ptrs fs Hq _ IH]; intros Hm; constructor.
  - rewrite Hm by apply list_elem_of_here. exact Hq.
  - apply IH. intros q' Hq'. apply Hm. now apply list_elem_of_further.
Qed.

Lemma sim_csv_row_expand_fields s row r fields ptrs :
  Mem.allocated s -> Mem.row_at (Mem.cells s) row r fields ptrs ->
  Mem.sim (Mem.csv_row_expand_fields row) (csv_row_expand_fields r)
    (fun res x s' =>
       res = fst x /\ Mem.allocated s' /\
       (fst x <> FAIL -> r_len (snd x) < r_capacity (snd x)) /\
       exists fields',
         Mem.row_at (Mem.cells s') row (snd x) fields' ptrs /\
         Mem.without (row :: fields' :: ptrs) (Mem.cells s') =
           Mem.without (row :: fields :: ptrs) (Mem.cells s)) s.
Proof.
  intros Ha Hr. row_facts Ha Hr.
  unfold Mem.csv_row_expand_fields, csv_row_expand_fields.
  apply sim_mem. eapply mwp_row_get; [exact Hrow|]. cbn beta iota zeta.
  split; [reflexivity|].
  apply sim_alloc.
  - intros w' Hq Hb. change (NULL =? NULL) with true. cbn match.
    apply sim_ret. cbn [fst snd Mem.cells]. split; [reflexivity|].
    split; [allocated_from Ha|]. split; [congruence|]. exists fields. auto.
  - intros w' nf Hq Hnf Hb. rewrite Hnf at 1 2. rewrite heap_addr_not_null.
    assert (Hnew : Mem.cells s !! nf = None) by (subst nf; now apply allocated_new).
    assert (Hn1 : nf <> row) by congruence.
    assert (Hn2 : nf <> fields) by congruence.
    assert (Hn3 : ~ elem_of nf ptrs).
    { intros Hin. rewrite Forall_forall in Hlive. destruct (Hlive _ Hin) as (_ & _ & [? ?]). congruence. }
    destruct Hok as [Hc0 Hlc]. unfold r_len in *.
    set (m := Z.to_nat (r_capacity r * 2)).
    apply sim_mem. eapply mwp_mono.
    { rewrite <- Hlen.
      apply (copy_slots fields nf (ptrs ++ repeat NULL (Z.to_nat (r_capacity r) - length ptrs))
               (length ptrs) m).
      - congruence.
      - cbn. lookups. exact Hfields.
      - cbn. lookups. reflexivity.
      - rewrite length_app. lia.
      - unfold m. lia. }
    cbn beta. intros _ s' ->. cbn [Mem.base Mem.cells]. split; [reflexivity|].
    rewrite insert_insert_eq, take_app_length.
    apply sim_mem. eapply mwp_mono.
    { apply (fill_slots nf ptrs (m - length ptrs)).
      - cbn. lookups. reflexivity.
      - now rewrite Hlen.
      - unfold m. lia. }
    cbn beta. intros _ s' ->. cbn [Mem.base Mem.cells]. split; [reflexivity|].
    rewrite insert_insert_eq.
    apply sim_mem. apply mwp_free; [exact Hfields0 | cbn; lookups; rewrite Hfields; eauto|].
    cbn [Mem.base Mem.cells]. split; [reflexivity|].
    apply sim_mem. apply mwp_store; [cbn; lookups; rewrite Hrow; eauto|].
    cbn [Mem.base Mem.cells]. split; [reflexivity|].
    apply sim_ret. cbn [fst snd Mem.cells]. split; [reflexivity|].
    split; [allocated_from Ha|]. split; [intros _; unfold r_len; cbn; lia|].
    exists nf. split.
    + unfold Mem.row_at. cbn [r_capacity r_fields]. unfold r_len. cbn [r_fields].
      repeat apply conj.
      * now lookups.
      * now lookups.
      * apply (fields_frame (Mem.cells s)); [exact Hptrs|].
        intros q Hin. assert (q <> row /\ q <> fields /\ q <> nf) as (? & ? & ?).
        { repeat apply conj; intros ->; contradiction. }
        now lookups.
      * exact Hnd.
      * exact Hnul.
      * cbn. lia.
      * unfold r_len. cbn. lia.
    + apply map_eq. intros k. rewrite !without_cons.
      destruct (decide (k = row)) as [->|H1]; [now lookups|].
      destruct (decide (k = nf)) as [->|H2]; [lookups; now rewrite Hnew|].
      destruct (decide (k = fields)) as [->|H3]; [lookups|].
      * destruct (decide (elem_of fields ptrs)); [contradiction|]. now lookups.
      * lookups. destruct (decide (elem_of k ptrs)); now lookups.
Qed.


(** The second half of [csv_row_append_field]: the row has a free slot. *)
Lemma sim_append_tail s row r fields ptrs (field field' : list char) (len len' : nat) :
  Mem.allocated s -> Mem.row_at (Mem.cells s) row r fields ptrs ->
  r_len r < r_capacity r ->
  (len <= length field)%nat -> firstn len field = firstn len' field' ->
  Mem.sim
    (Mem.mbind (Mem.alloc (Mem.BChars (repeat NUL (len + 1))))
       (fun s0 =>
          if s0 =? NULL then Mem.mret FAIL
          else
            Mem.mbind
              (Mem.for_ 0 (Z.of_nat len)
                 (fun i => match field !! Z.to_nat i with
                           | Some c => Mem.char_set s0 i c
                           | None => Mem.undefined
                           end))
              (fun _ =>
                 Mem.mbind (Mem.char_set s0 (Z.of_nat len) NUL)
                   (fun _ =>
                      Mem.mbind (Mem.row_get row)
                        (fun x =>
                           match x with
                           | (rlen, capacity, fields) =>
                               Mem.mbind (Mem.slot_set fields rlen s0)
                                 (fun _ =>
                                    Mem.mbind (Mem.store row (Mem.BRow (rlen + 1) capacity fields))
                                      (fun _ => Mem.mret SUCCEED))
                           end)))))
    (bind xmalloc
       (fun s0 =>
          if s0 =? NULL then ret (FAIL, r)
          else ret (SUCCEED,
                    {| r_capacity := r_capacity r;
                       r_fields := r_fields r ++ [firstn len' field' ++ [NUL]] |})))
    (fun res x s' =>
       res = fst x /\ Mem.allocated s' /\
       exists ptrs',
         Mem.row_at (Mem.cells s') row (snd x) fields ptrs' /\
         Mem.without (row :: fields :: ptrs') (Mem.cells s') =
           Mem.without (row :: fields :: ptrs) (Mem.cells s)) s.
Proof.
  intros Ha Hr Hfree Hle Hfield. row_facts Ha Hr.
  apply sim_alloc.
  - intros w' Hq Hb. change (NULL =? NULL) with true. cbn match.
    apply sim_ret. cbn [fst snd Mem.cells]. split; [reflexivity|].
    split; [allocated_from Ha|]. exists ptrs. auto.
  - intros w' q Hq Hnq Hb. rewrite Hnq at 1 2. rewrite heap_addr_not_null.
    assert (Hnew : Mem.cells s !! q = None) by (subst q; now apply allocated_new).
    assert (Hn1 : q <> row) by congruence.
    assert (Hn2 : q <> fields) by congruence.
    assert (Hn3 : ~ elem_of q ptrs).
    { intros Hin. rewrite Forall_forall in Hlive. destruct (Hlive _ Hin) as (_ & _ & [? ?]). congruence. }
    destruct Hok as [Hc0 Hlc]. unfold r_len in *.
    apply sim_mem. eapply mwp_mono.
    { apply (copy_field q field len (len + 1)); [cbn; now lookups | exact Hle | lia]. }
    cbn beta. intros _ s' ->. cbn [Mem.base Mem.cells]. split; [reflexivity|].
    rewrite insert_insert_eq. replace (len + 1 - len)%nat with 1%nat by lia.
    apply sim_mem. eapply mwp_char_set; [cbn; now lookups | |].
    { rewrite length_app, length_take_le by exact Hle. cbn. lia. }
    cbn [Mem.base Mem.cells]. split; [reflexivity|]. rewrite insert_insert_eq.
    assert (Hl : Z.to_nat (Z.of_nat len) = length (firstn len field)).
    { rewrite length_take_le by exact Hle. lia. }
    rewrite Hl, insert_end.
    apply sim_mem. eapply mwp_row_get; [cbn; lookups; exact Hrow|].
    cbn [Mem.base Mem.cells]. split; [reflexivity|].
    apply sim_mem. eapply mwp_slot_set; [cbn; lookups; exact Hfields| |].
    { rewrite length_app, repeat_length. lia. }
    cbn [Mem.base Mem.cells]. split; [reflexivity|].
    apply sim_mem. apply mwp_store; [cbn; lookups; rewrite Hrow; eauto|].
    cbn [Mem.base Mem.cells]. split; [reflexivity|].
    apply sim_ret. cbn [fst snd Mem.cells]. split; [reflexivity|].
    split; [allocated_from Ha|]. exists (ptrs ++ [q]). split.
    + unfold Mem.row_at. cbn [r_capacity r_fields]. unfold r_len. cbn [r_fields].
      repeat apply conj.
      * lookups. do 2 f_equal. rewrite length_app. cbn. lia.
      * lookups. do 2 f_equal. rewrite <- Hlen, Nat2Z.id.
        replace (Z.to_nat (r_capacity r) - length ptrs)%nat
          with (S (Z.to_nat (r_capacity r) - length (ptrs ++ [q]))).
        { apply insert_boundary. }
        rewrite length_app. cbn. lia.
      * apply Forall2_app.
        -- apply (fields_frame (Mem.cells s)); [exact Hptrs|].
           intros k Hin. assert (k <> row /\ k <> fields /\ k <> q) as (? & ? & ?).
           { repeat apply conj; intros ->; contradiction. }
           now lookups.
        -- constructor; [|constructor]. lookups. now rewrite Hfield.
      * apply NoDup_app. repeat apply conj; [exact Hnd| |apply NoDup_singleton].
        intros k Hin Hk. apply list_elem_of_singleton in Hk. congruence.
      * apply Forall_app. split; [exact Hnul|]. constructor; [|constructor].
        apply elem_of_app. right. apply list_elem_of_here.
      * cbn. lia.
      * unfold r_len. cbn [r_fields r_capacity]. rewrite length_app. cbn. lia.
    + apply map_eq. intros k. rewrite !without_cons.
      destruct (decide (k = row)) as [->|H1]; [now lookups|].
      destruct (decide (k = fields)) as [->|H2]; [now lookups|].
      destruct (decide (k = q)) as [->|H3]; [lookups; now rewrite Hnew|].
      destruct (decide (elem_of k ptrs)); now lookups.
Qed.

Lemma sim_csv_row_append_field s row r fields ptrs (field field' : list char) (len len' : nat) :
  Mem.allocated s -> Mem.row_at (Mem.cells s) row r fields ptrs ->
  (len <= length field)%nat -> firstn len field = firstn len' field' ->
  Mem.sim (Mem.csv_row_append_field row field len) (csv_row_append_field r field' len')
    (fun res x s' =>
       res = fst x /\ Mem.allocated s' /\
       exists fields' ptrs',
         Mem.row_at (Mem.cells s') row (snd x) fields' ptrs' /\
         Mem.without (row :: fields' :: ptrs') (Mem.cells s') =
           Mem.without (row :: fields :: ptrs) (Mem.cells s)) s.
Proof.
  intros Ha Hr Hle Hfield. pose proof Hr as (Hrow & _ & _ & _ & _ & Hok).
  unfold Mem.csv_row_append_field, csv_row_append_field.
  apply sim_mem. eapply mwp_row_get; [exact Hrow|]. cbn beta iota.
  split; [reflexivity|]. apply sim_bind.
  destruct (r_len r >=? r_capacity r) eqn:Hfull.
  - eapply sim_mono; [apply (sim_csv_row_expand_fields s row r fields ptrs Ha Hr)|].
    cbn beta. intros res [resa r1] s1 (-> & Ha1 & Hroom & fields1 & Hr1 & Hw1).
    cbn [fst snd] in *.
    destruct (Z.eqb_spec resa FAIL) as [->|Hres].
    + apply sim_ret. cbn [fst snd]. eauto 8.
    + eapply sim_mono.
      { apply (sim_append_tail s1 row r1 fields1 ptrs field field' len len'); auto. }
      cbn beta. intros res x s' (-> & Ha' & ptrs' & Hr' & Hw').
      split; [reflexivity|]. split; [exact Ha'|]. exists fields1, ptrs'.
      split; [exact Hr'|]. now rewrite Hw'.
  - apply sim_ret. change (SUCCEED =? FAIL) with false. cbn match.
    eapply sim_mono.
    { apply (sim_append_tail s row r fields ptrs field field' len len'); auto. lia. }
    cbn beta. intros res x s' (-> & Ha' & ptrs' & Hr' & Hw'). eauto 8.
Qed.


Lemma mwp_csv_row_field_count s row r fields ptrs (Q : Z -> Mem.state -> Prop) :
  Mem.row_at (Mem.cells s) row r fields ptrs ->
  Q (csv_row_field_count r) s -> Mem.mwp (Mem.csv_row_field_count row) Q s.
Proof.
  intros (Hrow & _) H. unfold Mem.csv_row_field_count.
  apply mwp_bind. eapply mwp_row_get; [exact Hrow|]. exact H.
Qed.

(** ** The parse buffer in memory *)

Lemma buffer_at_facts s buffer b p :
  Mem.allocated s -> Mem.buffer_at (Mem.cells s) buffer b p ->
  buffer <> NULL /\ p <> NULL /\ buffer <> p.
Proof.
  intros Ha (Hb & (chars & Hp & _) & _). repeat apply conj.
  - apply (allocated_live s); [exact Ha|]. rewrite Hb. eauto.
  - apply (allocated_live s); [exact Ha|]. rewrite Hp. eauto.
  - intros ->. congruence.
Qed.

Lemma sim_buffer_new s :
  Mem.allocated s ->
  Mem.sim Mem.buffer_new buffer_new
    (fun buffer ba s' =>
       Mem.allocated s' /\
       match ba with
       | None => buffer = NULL /\ Mem.cells s' = Mem.cells s
       | Some b =>
           buffer <> NULL /\
           exists p,
             Mem.buffer_at (Mem.cells s') buffer b p /\
             Mem.without [buffer; p] (Mem.cells s') = Mem.cells s
       end) s.
Proof.
  intros Ha. unfold Mem.buffer_new, buffer_new.
  apply sim_alloc.
  - intros w' Hq Hb. change (NULL =? NULL) with true. cbn match.
    apply sim_ret. split; [allocated_from Ha | auto].
  - intros w' buffer Hq Hbuf Hb. rewrite Hbuf at 1 2. rewrite heap_addr_not_null.
    assert (Hnew : Mem.cells s !! buffer = None) by (subst buffer; now apply allocated_new).
    assert (Hb0 : buffer <> NULL) by (subst buffer; apply heap_addr_not_null_neq).
    apply sim_mem. apply mwp_store; [cbn; lookups; eauto|].
    cbn [Mem.base Mem.cells]. split; [reflexivity|]. rewrite insert_insert_eq.
    apply sim_alloc; cbn [Mem.base Mem.cells].
    + intros w2 Hq2 Hb2. change (NULL =? NULL) with true. cbn match.
      apply sim_mem. apply mwp_free; [exact Hb0 | cbn; lookups; eauto |].
      cbn [Mem.base Mem.cells]. split; [reflexivity|].
      rewrite delete_insert_eq, delete_id by exact Hnew.
      apply sim_ret. split; [allocated_from Ha | auto].
    + intros w2 p Hq2 Hp Hb2. rewrite Hp at 1 2. rewrite heap_addr_not_null. rewrite Hb in Hp.
      assert (Hne : buffer <> p) by (subst buffer p; lia).
      assert (Hnewp : Mem.cells s !! p = None) by (subst p; apply allocated_new; [exact Ha|lia]).
      apply sim_mem. apply mwp_store; [cbn; lookups; eauto|].
      cbn [Mem.base Mem.cells]. split; [reflexivity|].
      apply sim_ret. split; [allocated_from Ha|]. split; [exact Hb0|].
      exists p. split.
      * unfold Mem.buffer_at, buffer_ok, b_len. cbn [b_capacity b_p length].
        split; [now lookups|]. split; [|cbn; lia].
        exists (repeat NUL 256). split; [now lookups|]. split; reflexivity.
      * apply map_eq. intros k. rewrite !without_cons.
        destruct (decide (k = buffer)) as [->|H1]; [lookups; now rewrite Hnew|].
        destruct (decide (k = p)) as [->|H2]; [lookups; now rewrite Hnewp|].
        now lookups.
Qed.

Lemma mwp_buffer_free s buffer b p :
  Mem.allocated s -> Mem.buffer_at (Mem.cells s) buffer b p ->
  Mem.mwp (Mem.buffer_free buffer)
    (fun _ s' => s' = {| Mem.base := Mem.base s;
                         Mem.cells := Mem.without [buffer; p] (Mem.cells s) |}) s.
Proof.
  intros Ha Hb. destruct (buffer_at_facts _ _ _ _ Ha Hb) as (Hb0 & Hp0 & Hne).
  destruct Hb as (Hbuf & (chars & Hp & _) & _).
  unfold Mem.buffer_free. apply mwp_bind. eapply mwp_buffer_get; [exact Hbuf|]. cbn beta iota.
  apply mwp_bind. apply mwp_free; [exact Hp0 | rewrite Hp; eauto|].
  apply mwp_free; [exact Hb0 | cbn; lookups; rewrite Hbuf; eauto|].
  reflexivity.
Qed.

Lemma mwp_buffer_reset s buffer b p :
  Mem.allocated s -> Mem.buffer_at (Mem.cells s) buffer b p ->
  Mem.mwp (Mem.buffer_reset buffer)
    (fun _ s' =>
       s' = {| Mem.base := Mem.base s;
               Mem.cells := <[buffer := Mem.BBuffer 0 (b_capacity b) p]> (Mem.cells s) |} /\
       Mem.buffer_at (Mem.cells s') buffer (buffer_reset b) p) s.
Proof.
  intros Ha Hb. destruct (buffer_at_facts _ _ _ _ Ha Hb) as (Hb0 & Hp0 & Hne).
  destruct Hb as (Hbuf & (chars & Hp & Hl & _) & Hok).
  unfold Mem.buffer_reset. apply mwp_bind. eapply mwp_buffer_get; [exact Hbuf|]. cbn beta iota.
  apply mwp_store; [rewrite Hbuf; eauto|]. split; [reflexivity|].
  unfold Mem.buffer_at, buffer_reset, buffer_ok, b_len in *. cbn [Mem.cells b_capacity b_p length].
  split; [now lookups|]. split; [|cbn; lia].
  exists chars. split; [now lookups|]. split; [exact Hl|reflexivity].
Qed.

Lemma sim_buffer_putc s buffer b p c :
  Mem.allocated s -> Mem.buffer_at (Mem.cells s) buffer b p ->
  Mem.sim (Mem.buffer_putc buffer c) (buffer_putc b c)
    (fun res x s' =>
       res = fst x /\ Mem.allocated s' /\
       exists p',
         Mem.buffer_at (Mem.cells s') buffer (snd x) p' /\
         Mem.without [buffer; p'] (Mem.cells s') = Mem.without [buffer; p] (Mem.cells s)) s.
Proof.
  intros Ha Hb. destruct (buffer_at_facts _ _ _ _ Ha Hb) as (Hb0 & Hp0 & Hne).
  destruct Hb as (Hbuf & (chars & Hp & Hl & Hpre) & Hc0 & Hlc). unfold b_len in *.
  unfold Mem.buffer_putc, buffer_putc.
  apply sim_mem. eapply mwp_buffer_get; [exact Hbuf|]. cbn beta iota.
  split; [reflexivity|]. apply sim_bind. unfold b_len.
  destruct (Z.of_nat (length (b_p b)) >=? b_capacity b) eqn:Hfull.
  - cbn zeta. apply sim_alloc.
    + intros w' Hq Hbk. change (NULL =? NULL) with true. cbn match.
      apply sim_ret. change (FAIL =? FAIL) with true. cbn match.
      apply sim_ret. cbn [fst snd Mem.cells]. split; [reflexivity|].
      split; [allocated_from Ha|]. exists p. split; [|reflexivity].
      unfold Mem.buffer_at, buffer_ok, b_len. eauto 8.
    + intros w' np Hq Hnp Hbk. rewrite Hnp at 1 2. rewrite heap_addr_not_null.
      assert (Hnew : Mem.cells s !! np = None) by (subst np; now apply allocated_new).
      assert (Hn1 : np <> buffer) by congruence.
      assert (Hn2 : np <> p) by congruence.
      assert (Hlen : Z.of_nat (length (b_p b)) = b_capacity b) by lia.
      apply sim_mem. eapply mwp_mono.
      { replace (b_capacity b) with (Z.of_nat (Z.to_nat (b_capacity b))) at 1 by lia.
        apply (copy_chars p np chars (Z.to_nat (b_capacity b)) (Z.to_nat (b_capacity b * 2))).
        - congruence.
        - cbn. lookups. exact Hp.
        - cbn. now lookups.
        - lia.
        - lia. }
      cbn beta. intros _ s' ->. cbn [Mem.base Mem.cells]. split; [reflexivity|].
      rewrite insert_insert_eq.
      apply sim_mem. apply mwp_store; [cbn; lookups; rewrite Hbuf; eauto|].
      cbn [Mem.base Mem.cells]. split; [reflexivity|].
      apply sim_mem. apply mwp_free; [exact Hp0 | cbn; lookups; rewrite Hp; eauto|].
      cbn [Mem.base Mem.cells]. split; [reflexivity|].
      apply sim_mem. apply mwp_store; [cbn; lookups; eauto|].
      cbn [Mem.base Mem.cells]. split; [reflexivity|].
      apply sim_ret. change (SUCCEED =? FAIL) with false. cbn match.
      apply sim_mem. eapply mwp_buffer_get; [cbn; now lookups|].
      cbn [Mem.base Mem.cells]. split; [reflexivity|].
      apply sim_mem. eapply mwp_char_set; [cbn; now lookups| |].
      { rewrite length_app, repeat_length, length_take_le by lia. lia. }
      cbn [Mem.base Mem.cells]. split; [reflexivity|].
      apply sim_mem. apply mwp_store; [cbn; lookups; eauto|].
      cbn [Mem.base Mem.cells]. split; [reflexivity|].
      apply sim_ret. cbn [fst snd Mem.cells b_capacity b_p]. split; [reflexivity|].
      split; [allocated_from Ha|]. exists np. split.
      * unfold Mem.buffer_at, buffer_ok, b_len. cbn [b_capacity b_p].
        rewrite length_app. cbn [length].
        split; [lookups; do 2 f_equal; lia|]. split; [|lia].
        eexists. split; [now lookups|]. split.
        -- rewrite length_insert, length_app, repeat_length, length_take_le by lia. lia.
        -- replace (length (b_p b) + 1)%nat with (S (length (b_p b))) by lia.
           replace (Z.to_nat (Z.of_nat (length (b_p b)))) with (length (b_p b)) by lia.
           rewrite take_insert_snoc
             by (rewrite length_app, repeat_length, length_take_le by lia; lia).
           rewrite take_app_le by (rewrite length_take_le by lia; lia).
           rewrite take_take, Nat.min_l by lia. now rewrite Hpre.
      * apply map_eq. intros k. rewrite !without_cons.
        destruct (decide (k = buffer)) as [->|H1]; [now lookups|].
        destruct (decide (k = np)) as [->|H2]; [lookups; now rewrite Hnew|].
        destruct (decide (k = p)) as [->|H3]; now lookups.
  - apply sim_ret. change (SUCCEED =? FAIL) with false. cbn match.
    apply sim_mem. eapply mwp_buffer_get; [exact Hbuf|].
    split; [reflexivity|].
    apply sim_mem. eapply mwp_char_set; [exact Hp| lia |].
    cbn [Mem.base Mem.cells]. split; [reflexivity|].
    apply sim_mem. apply mwp_store; [cbn; lookups; rewrite Hbuf; eauto|].
    cbn [Mem.base Mem.cells]. split; [reflexivity|].
    apply sim_ret. cbn [fst snd Mem.cells b_capacity b_p]. split; [reflexivity|].
    split; [allocated_from Ha|]. exists p. split.
    + unfold Mem.buffer_at, buffer_ok, b_len. cbn [b_capacity b_p].
      rewrite length_app. cbn [length].
      split; [lookups; do 2 f_equal; lia|]. split; [|lia].
      eexists. split; [now lookups|]. split.
      * now rewrite length_insert.
      * replace (length (b_p b) + 1)%nat with (S (length (b_p b))) by lia.
        replace (Z.to_nat (Z.of_nat (length (b_p b)))) with (length (b_p b)) by lia.
        rewrite take_insert_snoc by lia. now rewrite Hpre.
    + apply map_eq. intros k. rewrite !without_cons.
      destruct (decide (k = buffer)) as [->|H1]; [now lookups|].
      destruct (decide (k = p)) as [->|H2]; now lookups.
Qed.

(** ** The parser in memory *)

Lemma parsing_base m0 s row r buffer b w' :
  Mem.parsing m0 s row r buffer b ->
  (brk (heap (Mem.base s)) <= brk (heap w'))%nat ->
  Mem.parsing m0 {| Mem.base := w'; Mem.cells := Mem.cells s |} row r buffer b.
Proof.
  intros (Ha & H) Hb. split; [|exact H]. allocated_from Ha.
Qed.


Lemma without_comm ps qs (m : gmap Z Mem.block) :
  Mem.without ps (Mem.without qs m) = Mem.without qs (Mem.without ps m).
Proof.
  apply map_eq. intros k.
  destruct (decide (elem_of k ps)) as [Hp|Hp]; destruct (decide (elem_of k qs)) as [Hq|Hq];
    repeat first [ rewrite lookup_without_in by assumption
                 | rewrite lookup_without_notin by assumption ]; reflexivity.
Qed.

Lemma row_at_frame (m m' : gmap Z Mem.block) row r fields ptrs :
  Mem.row_at m row r fields ptrs ->
  m' !! row = m !! row -> m' !! fields = m !! fields ->
  (forall q, elem_of q ptrs -> m' !! q = m !! q) ->
  Mem.row_at m' row r fields ptrs.
Proof.
  intros (H1 & H2 & H3 & H4 & H5) Hr Hf Hp. unfold Mem.row_at.
  rewrite Hr, Hf. split; [exact H1|]. split; [exact H2|].
  split; [now apply (fields_frame m)|]. auto.
Qed.

Lemma buffer_at_frame (m m' : gmap Z Mem.block) buffer b p :
  Mem.buffer_at m buffer b p ->
  m' !! buffer = m !! buffer -> m' !! p = m !! p ->
  Mem.buffer_at m' buffer b p.
Proof.
  intros (H1 & (chars & H2 & H3) & H4) Hb Hp. unfold Mem.buffer_at.
  rewrite Hb, Hp. eauto 8.
Qed.

(** The row and the buffer of a call are apart. *)
Lemma apart (m : gmap Z Mem.block) row r fields ptrs buffer b p :
  Mem.row_at m row r fields ptrs -> Mem.buffer_at m buffer b p ->
  ~ elem_of p ptrs ->
  ~ elem_of buffer (row :: fields :: ptrs) /\ ~ elem_of p (row :: fields :: ptrs) /\
  ~ elem_of row [buffer; p] /\ ~ elem_of fields [buffer; p] /\
  (forall q, elem_of q ptrs -> ~ elem_of q [buffer; p]).
Proof.
  intros (Hrow & Hfields & Hptrs & _) (Hbuf & (chars & Hp & _) & _) Hpp.
  assert (Hkind : forall q, elem_of q ptrs -> exists f, m !! q = Some (Mem.BChars f)).
  { intros q Hq. apply list_elem_of_lookup_1 in Hq. destruct Hq as [i Hi].
    destruct (Forall2_lookup_l _ _ _ _ _ Hptrs Hi) as (f & _ & Hf). eauto. }
  assert (Hbp : ~ elem_of buffer ptrs).
  { intros Hin. destruct (Hkind _ Hin) as [f Hf]. congruence. }
  assert (buffer <> row) by congruence.
  assert (buffer <> fields) by congruence.
  assert (p <> row) by congruence.
  assert (p <> fields) by congruence.
  repeat apply conj; try in_list.
  intros q Hq. assert (q <> buffer) by (intros ->; contradiction).
  assert (q <> p) by (intros ->; contradiction). in_list.
Qed.

(** A step on the row leaves the buffer alone, a step on the buffer the row. *)
Lemma parsing_row m0 s s' row r r' buffer b fields ptrs p fields' ptrs' :
  Mem.row_at (Mem.cells s) row r fields ptrs ->
  Mem.buffer_at (Mem.cells s) buffer b p ->
  ~ elem_of p ptrs ->
  Mem.without (buffer :: p :: row :: fields :: ptrs) (Mem.cells s) = m0 ->
  Mem.allocated s' ->
  Mem.row_at (Mem.cells s') row r' fields' ptrs' ->
  Mem.without (row :: fields' :: ptrs') (Mem.cells s') =
    Mem.without (row :: fields :: ptrs) (Mem.cells s) ->
  Mem.parsing m0 s' row r' buffer b.
Proof.
  intros Hr Hb Hpp Hm Ha' Hr' Hw.
  destruct (apart _ _ _ _ _ _ _ _ Hr Hb Hpp) as (A1 & A2 & _).
  pose proof Hb as (Hbuf & (chars & Hp & _) & _).
  destruct (frame_lookup _ _ _ _ _ _ Hw A1 Hbuf) as [Hbuf' B1].
  destruct (frame_lookup _ _ _ _ _ _ Hw A2 Hp) as [Hp' B2].
  split; [exact Ha'|]. exists fields', ptrs', p. split; [|split; [|split]].
  - exact Hr'.
  - apply (buffer_at_frame (Mem.cells s)); [exact Hb | congruence | congruence].
  - intros Hin. apply B2. in_list.
  - rewrite <- Hm. rewrite !(without_cons buffer), !(without_cons p). now rewrite Hw.
Qed.

Lemma parsing_buffer m0 s s' row r buffer b b' fields ptrs p p' :
  Mem.row_at (Mem.cells s) row r fields ptrs ->
  Mem.buffer_at (Mem.cells s) buffer b p ->
  ~ elem_of p ptrs ->
  Mem.without (buffer :: p :: row :: fields :: ptrs) (Mem.cells s) = m0 ->
  Mem.allocated s' ->
  Mem.buffer_at (Mem.cells s') buffer b' p' ->
  Mem.without [buffer; p'] (Mem.cells s') = Mem.without [buffer; p] (Mem.cells s) ->
  Mem.parsing m0 s' row r buffer b'.
Proof.
  intros Hr Hb Hpp Hm Ha' Hb' Hw.
  destruct (apart _ _ _ _ _ _ _ _ Hr Hb Hpp) as (_ & _ & A1 & A2 & A3).
  pose proof Hr as (Hrow & Hfields & Hptrs & _).
  destruct (frame_lookup _ _ _ _ _ _ Hw A1 Hrow) as [Hrow' B1].
  destruct (frame_lookup _ _ _ _ _ _ Hw A2 Hfields) as [Hfields' B2].
  assert (B3 : forall q, elem_of q ptrs ->
             Mem.cells s' !! q = Mem.cells s !! q /\ ~ elem_of q [buffer; p']).
  { intros q Hq. apply list_elem_of_lookup_1 in Hq as Hi. destruct Hi as [i Hi].
    destruct (Forall2_lookup_l _ _ _ _ _ Hptrs Hi) as (f & _ & Hf).
    destruct (frame_lookup _ _ _ _ _ _ Hw (A3 q Hq) Hf) as [Hf' B3]. split; [congruence|exact B3]. }
  split; [exact Ha'|]. exists fields, ptrs, p'. split; [|split; [|split]].
  - apply (row_at_frame (Mem.cells s)); [exact Hr | congruence | congruence |].
    intros q Hq. now apply B3.
  - exact Hb'.
  - intros Hin. apply (B3 p' Hin). in_list.
  - rewrite <- Hm.
    change (buffer :: p' :: row :: fields :: ptrs) with ([buffer; p'] ++ row :: fields :: ptrs).
    change (buffer :: p :: row :: fields :: ptrs) with ([buffer; p] ++ row :: fields :: ptrs).
    rewrite !without_app, (without_comm [buffer; p']), (without_comm [buffer; p]).
    now rewrite Hw.
Qed.

Lemma sim_base {A B} (cm : Mem.MM A) (ca : M B) (R : A -> B -> Mem.state -> Prop) s :
  Mem.sim cm ca R s ->
  Mem.sim cm ca
    (fun a b s' => R a b s' /\ Mem.base s' = snd (ca (Mem.base s)) /\ b = fst (ca (Mem.base s))) s.
Proof.
  unfold Mem.sim, Mem.mwp. destruct (cm s) as [[a s']|]; [|easy]. intros [Hb H]. auto.
Qed.

Lemma sim_FAILURE_RETURN m0 s row r buffer b :
  Mem.parsing m0 s row r buffer b ->
  Mem.sim (Mem.FAILURE_RETURN row buffer) (FAILURE_RETURN r b) (Mem.returned m0) s.
Proof.
  intros (Ha & fields & ptrs & p & Hr & Hb & Hpp & Hm).
  destruct (apart _ _ _ _ _ _ _ _ Hr Hb Hpp) as (A1 & A2 & _).
  change (FAILURE_RETURN r b) with (ret (@None csv_row_t)).
  unfold Mem.FAILURE_RETURN.
  apply sim_mem. eapply mwp_mono; [apply (mwp_csv_row_free s row r fields ptrs Ha Hr)|].
  cbn beta. intros _ s' ->. split; [reflexivity|].
  apply sim_mem. eapply mwp_mono.
  { apply (mwp_buffer_free _ buffer b p); [allocated_from Ha|].
    apply (buffer_at_frame (Mem.cells s)); [exact Hb | |]; cbn [Mem.cells]; now rewrite lookup_without_notin. }
  cbn beta. intros _ s' ->. split; [reflexivity|].
  apply sim_ret. split; [allocated_from Ha|]. split; [reflexivity|]. exact Hm.
Qed.


Lemma sim_csv_row_append_field_with_buffer m0 s row r buffer b :
  Mem.parsing m0 s row r buffer b ->
  Mem.sim (Mem.csv_row_append_field_with_buffer row buffer)
    (csv_row_append_field_with_buffer r b)
    (fun res x s' =>
       res = fst x /\ Mem.parsing m0 s' row (snd x) buffer b /\
       file (Mem.base s') = file (Mem.base s)) s.
Proof.
  intros (Ha & fields & ptrs & p & Hr & Hb & Hpp & Hm).
  pose proof Hb as (Hbuf & (chars & Hp & Hl & Hpre) & Hc0 & Hlc). unfold b_len in *.
  unfold Mem.csv_row_append_field_with_buffer, csv_row_append_field_with_buffer.
  apply sim_mem. eapply mwp_buffer_get; [exact Hbuf|]. cbn beta iota. split; [reflexivity|].
  apply sim_mem. eapply mwp_chars_get; [exact Hp|]. split; [reflexivity|].
  destruct (Z.ltb_spec (Z.of_nat (length (b_p b))) 0); [lia|].
  rewrite Nat2Z.id.
  eapply sim_mono.
  { apply sim_base.
    apply (sim_csv_row_append_field s row r fields ptrs chars (b_p b)
             (length (b_p b)) (length (b_p b)) Ha Hr); [lia|].
    rewrite Hpre. now rewrite firstn_all. }
  cbn beta. intros res x s' ((-> & Ha' & fields' & ptrs' & Hr' & Hw) & Hbase & _).
  split; [reflexivity|]. split.
  - exact (parsing_row m0 s s' row r (snd x) buffer b fields ptrs p fields' ptrs'
             Hr Hb Hpp Hm Ha' Hr' Hw).
  - rewrite Hbase.
    pose proof (csv_row_append_field_quiet r (b_p b) (length (b_p b)) (Mem.base s)) as Hq.
    unfold wp in Hq. now destruct Hq as ((? & _) & _).
Qed.

(** [buffer_free(buffer); return row;] *)
Lemma sim_return_row m0 s row r buffer b :
  Mem.parsing m0 s row r buffer b ->
  Mem.sim (Mem.mbind (Mem.buffer_free buffer) (fun _ => Mem.mret row))
    (bind (buffer_free b) (fun _ => ret (Some r))) (Mem.returned m0) s.
Proof.
  intros (Ha & fields & ptrs & p & Hr & Hb & Hpp & Hm).
  destruct (apart _ _ _ _ _ _ _ _ Hr Hb Hpp) as (_ & _ & A1 & A2 & A3).
  destruct (row_at_facts _ _ _ _ _ Ha Hr) as (Hrow0 & _).
  change (bind (buffer_free b) (fun _ => ret (Some r))) with (ret (Some r)).
  apply sim_mem. eapply mwp_mono; [apply (mwp_buffer_free s buffer b p Ha Hb)|].
  cbn beta. intros _ s' ->. split; [reflexivity|].
  apply sim_ret. split; [allocated_from Ha|]. split; [exact Hrow0|].
  exists fields, ptrs. cbn [Mem.cells]. split.
  - apply (row_at_frame (Mem.cells s)); [exact Hr | | |].
    + now rewrite lookup_without_notin.
    + now rewrite lookup_without_notin.
    + intros q Hq. rewrite lookup_without_notin; [reflexivity|]. now apply A3.
  - rewrite without_comm. exact Hm.
Qed.

Lemma sim_append_and_return m0 s row r buffer b :
  Mem.parsing m0 s row r buffer b ->
  Mem.sim (Mem.append_and_return row buffer) (append_and_return r b) (Mem.returned m0) s.
Proof.
  intros Hp. unfold Mem.append_and_return, append_and_return.
  apply sim_bind. eapply sim_mono; [apply (sim_csv_row_append_field_with_buffer m0), Hp|].
  cbn beta. intros res [resa r'] s' (-> & Hp' & _). cbn [fst snd] in *.
  destruct (resa =? FAIL).
  - now apply sim_FAILURE_RETURN.
  - now apply sim_return_row.
Qed.

Lemma sim_append_and_go m0 s row r buffer b (k : Mem.MM Z) (ka : csv_row_t -> M (option csv_row_t)) :
  Mem.parsing m0 s row r buffer b ->
  (forall s' r',
     Mem.parsing m0 s' row r' buffer (buffer_reset b) ->
     file (Mem.base s') = file (Mem.base s) ->
     Mem.sim k (ka r') (Mem.returned m0) s') ->
  Mem.sim (Mem.append_and_go row buffer k)
    (bind (csv_row_append_field_with_buffer r b)
       (fun x => match x with
                 | (res, row) => if res =? FAIL then FAILURE_RETURN row b else ka row
                 end))
    (Mem.returned m0) s.
Proof.
  intros Hp Hk. unfold Mem.append_and_go.
  apply sim_bind. eapply sim_mono; [apply (sim_csv_row_append_field_with_buffer m0), Hp|].
  cbn beta. intros res [resa r'] s' (-> & Hp' & Hf). cbn [fst snd] in *.
  destruct (resa =? FAIL).
  - now apply sim_FAILURE_RETURN.
  - destruct Hp' as (Ha & fields & ptrs & p & Hr & Hb & Hpp & Hm).
    apply sim_mem. eapply mwp_mono; [apply (mwp_buffer_reset s' buffer b p Ha Hb)|].
    cbn beta. intros _ s2 [-> Hb2]. cbn [Mem.base]. split; [reflexivity|].
    apply Hk; [|exact Hf].
    pose proof Hb as (Hbuf & _).
    apply (parsing_buffer m0 s' _ row r' buffer b (buffer_reset b) fields ptrs p p Hr Hb Hpp Hm).
    + allocated_from Ha.
    + exact Hb2.
    + cbn [Mem.cells]. rewrite !without_cons. apply map_eq. intros a.
      destruct (decide (a = buffer)) as [->|H1]; [now lookups|].
      destruct (decide (a = p)) as [->|H2]; now lookups.
Qed.

Lemma sim_putc_and_go m0 s row r buffer b c (k : Mem.MM Z) (ka : buffer_t -> M (option csv_row_t)) :
  Mem.parsing m0 s row r buffer b ->
  (forall s' b',
     Mem.parsing m0 s' row r buffer b' ->
     file (Mem.base s') = file (Mem.base s) ->
     Mem.sim k (ka b') (Mem.returned m0) s') ->
  Mem.sim (Mem.putc_and_go row buffer c k)
    (bind (buffer_putc b c)
       (fun x => match x with
                 | (res, buffer) => if res =? FAIL then FAILURE_RETURN r buffer else ka buffer
                 end))
    (Mem.returned m0) s.
Proof.
  intros (Ha & fields & ptrs & p & Hr & Hb & Hpp & Hm) Hk. unfold Mem.putc_and_go.
  apply sim_bind. eapply sim_mono; [apply sim_base, (sim_buffer_putc s buffer b p c Ha Hb)|].
  cbn beta. intros res [resa b'] s' ((-> & Ha' & p' & Hb' & Hw) & Hbase & _). cbn [fst snd] in *.
  assert (Hp' : Mem.parsing m0 s' row r buffer b').
  { exact (parsing_buffer m0 s s' row r buffer b b' fields ptrs p p' Hr Hb Hpp Hm Ha' Hb' Hw). }
  destruct (resa =? FAIL).
  - now apply sim_FAILURE_RETURN.
  - apply Hk; [exact Hp'|]. rewrite Hbase.
    pose proof (buffer_putc_quiet b c (Mem.base s)) as Hq.
    unfold wp in Hq. now destruct Hq as ((? & _) & _).
Qed.

Lemma csv_error_new_brk code msg w :
  (brk (heap w) <= brk (heap (snd (csv_error_new code msg w))))%nat /\
  file (snd (csv_error_new code msg w)) = file w.
Proof.
  unfold csv_error_new. destruct (code =? CSV_ENOMEMORY); [cbn; auto|].
  unfold bind, malloc, poke, free, ret.
  destruct (plan (heap w)) as [|[] [|[] pl]]; cbn; rewrite ?heap_addr_not_null; cbn;
    rewrite ?heap_addr_not_null; cbn; split; auto; lia.
Qed.

Lemma sim_fail_with m0 s row r buffer b code msg :
  Mem.parsing m0 s row r buffer b ->
  Mem.sim (Mem.fail_with code msg row buffer) (fail_with code msg r b) (Mem.returned m0) s.
Proof.
  intros Hp. unfold Mem.fail_with, fail_with.
  apply sim_lift. apply sim_lift. cbn [Mem.base Mem.cells set_err snd fst].
  apply sim_FAILURE_RETURN.
  assert (H := parsing_base m0 s row r buffer b
            {| file := file (snd (csv_error_new code msg (Mem.base s)));
               heap := heap (snd (csv_error_new code msg (Mem.base s)));
               err := fst (csv_error_new code msg (Mem.base s)) |} Hp).
  apply H. cbn. apply csv_error_new_brk.
Qed.


Lemma fgetc_heap w : heap (snd (fgetc w)) = heap w.
Proof. unfold fgetc. now destruct (rd (file w)). Qed.

Lemma consume_end_of_line_heap c w : heap (snd (consume_end_of_line c w)) = heap w.
Proof.
  unfold consume_end_of_line. destruct (c =? int_of_plain_char CR_CHAR); [|reflexivity].
  unfold bind, fgetc. destruct (rd (file w)) as [|x l]; cbn.
  - reflexivity.
  - now destruct (negb (int_of_char x =? int_of_plain_char LF_CHAR) && negb (int_of_char x =? EOF)).
Qed.

(** After a lifted call that leaves the allocator alone. *)
Lemma parsing_lift {A} (c : M A) m0 s row r buffer b :
  Mem.parsing m0 s row r buffer b ->
  heap (snd (c (Mem.base s))) = heap (Mem.base s) ->
  Mem.parsing m0 {| Mem.base := snd (c (Mem.base s)); Mem.cells := Mem.cells s |}
    row r buffer b.
Proof. intros Hp Hh. apply parsing_base; [exact Hp|]. rewrite Hh. lia. Qed.

Ltac not_eof :=
  let H := fresh in
  intros H;
  repeat match goal with
         | E : (_ =? _) = _ |- _ => rewrite H in E; vm_compute in E; try discriminate E
         | E : (_ =? _) || (_ =? _) = _ |- _ => rewrite H in E; vm_compute in E; try discriminate E
         end.

Lemma sim_parse_loop parser m0 fuel :
  forall s row r buffer b st q,
    Mem.parsing m0 s row r buffer b ->
    (length (rd (file (Mem.base s))) < fuel)%nat ->
    Mem.sim (Mem.parse_loop fuel parser row buffer st q) (parse_loop fuel parser r b st q)
      (Mem.returned m0) s.
Proof.
  induction fuel as [|fuel IH]; intros s row r buffer b st q Hp Hfuel; [lia|].
  cbn [Mem.parse_loop parse_loop]. apply sim_lift.
  assert (Hp1 := parsing_lift fgetc m0 s row r buffer b Hp (fgetc_heap _)).
  assert (Hrec : fst (fgetc (Mem.base s)) <> EOF ->
                 (length (rd (file (snd (fgetc (Mem.base s))))) < fuel)%nat).
  { destruct (fgetc (Mem.base s)) as [c w1] eqn:E. cbn [fst snd].
    destruct (fgetc_cases _ _ _ E) as [->|(a & _ & Hl)]; [congruence|lia]. }
  set (s1 := {| Mem.base := snd (fgetc (Mem.base s)); Mem.cells := Mem.cells s |}) in *.
  change (snd (fgetc (Mem.base s))) with (Mem.base s1) in Hrec.
  set (c := fst (fgetc (Mem.base s))) in *. clearbody s1 c. clear Hp Hfuel s.
  assert (Hgo : forall s' r' b' st' q',
            Mem.parsing m0 s' row r' buffer b' ->
            file (Mem.base s') = file (Mem.base s1) -> c <> EOF ->
            Mem.sim (Mem.parse_loop fuel parser row buffer st' q')
              (parse_loop fuel parser r' b' st' q') (Mem.returned m0) s').
  { intros s' r' b' st' q' Hp' Hf' Hc. apply IH; [exact Hp'|]. rewrite Hf'. now apply Hrec. }
  assert (Hcount : forall (k : Z * Z * Z -> Mem.MM Z) (ka : M (option csv_row_t)),
            (forall capacity fields, Mem.sim (k (r_len r, capacity, fields)) ka
                                       (Mem.returned m0) s1) ->
            Mem.sim (Mem.mbind (Mem.row_get row) k) ka (Mem.returned m0) s1).
  { intros k ka H. apply sim_mem.
    destruct Hp1 as (_ & fields & ptrs & p & (Hrow & _) & _).
    eapply mwp_row_get; [exact Hrow|]. split; [reflexivity|apply H]. }
  assert (Heol : forall c0 (k : Mem.MM Z) (ka : M (option csv_row_t)),
            (forall s', Mem.parsing m0 s' row r buffer b -> Mem.cells s' = Mem.cells s1 ->
                        Mem.sim k ka (Mem.returned m0) s') ->
            Mem.sim (Mem.mbind (Mem.lift (consume_end_of_line c0)) (fun _ => k))
              (bind (consume_end_of_line c0) (fun _ => ka)) (Mem.returned m0) s1).
  { intros c0 k ka H. apply sim_lift. apply H; [|reflexivity].
    apply parsing_lift; [exact Hp1 | apply consume_end_of_line_heap]. }
  destruct st.
  - destruct (c =? int_of_plain_char QUOTE_CHAR) eqn:E1.
    { apply Hgo; [exact Hp1 | reflexivity | not_eof]. }
    destruct (c =? EOF) eqn:E2.
    { apply sim_lift. cbn [ferror fst snd Mem.base Mem.cells]. rewrite <- state_eta.
      destruct (ferr (file (Mem.base s1))).
      - apply sim_lift. cbn [strerror_errno fst snd]. rewrite <- state_eta.
        now apply sim_fail_with.
      - apply Hcount. intros capacity fields. cbn beta iota. destruct (r_len r >? 0).
        + now apply sim_append_and_return.
        + exact (sim_FAILURE_RETURN m0 s1 row r buffer b Hp1). }
    destruct ((c =? int_of_plain_char CR_CHAR) || (c =? int_of_plain_char LF_CHAR)) eqn:E3.
    { apply Heol. intros s' Hp' Hc'.
      apply sim_mem. destruct Hp' as (Ha' & fields & ptrs & p & Hr & Hrest).
      eapply mwp_row_get; [apply Hr|]. split; [reflexivity|]. cbn beta iota.
      assert (Hp' : Mem.parsing m0 s' row r buffer b) by (split; eauto 8).
      destruct (r_len r >? 0).
      - now apply sim_append_and_return.
      - now apply sim_return_row. }
    destruct (c =? int_of_plain_char (field_delimiter parser)) eqn:E4.
    { apply sim_append_and_go; [exact Hp1|]. intros s' r' Hp' Hf'.
      apply Hgo; [exact Hp' | exact Hf' | not_eof]. }
    apply sim_putc_and_go; [exact Hp1|]. intros s' b' Hp' Hf'.
    apply Hgo; [exact Hp' | exact Hf' | not_eof].
  - destruct (c =? int_of_plain_char QUOTE_CHAR) eqn:E1.
    { destruct q; cbn [negb]; [|now apply sim_fail_with].
      apply sim_lift.
      assert (Hp2 := parsing_lift fgetc m0 s1 row r buffer b Hp1 (fgetc_heap _)).
      assert (Hgo2 : forall s' r' b' st' q',
                Mem.parsing m0 s' row r' buffer b' ->
                file (Mem.base s') = file (snd (fgetc (Mem.base s1))) ->
                Mem.sim (Mem.parse_loop fuel parser row buffer st' q')
                  (parse_loop fuel parser r' b' st' q') (Mem.returned m0) s').
      { intros s' r' b' st' q' Hp' Hf'. apply IH; [exact Hp'|]. rewrite Hf'.
        assert (Hc : c <> EOF) by not_eof.
        pose proof (Hrec Hc).
        destruct (fgetc (Mem.base s1)) as [la w2] eqn:E. cbn [snd].
        pose proof (fgetc_unread _ _ _ E). lia. }
      set (s2 := {| Mem.base := snd (fgetc (Mem.base s1)); Mem.cells := Mem.cells s1 |}) in *.
      change (snd (fgetc (Mem.base s1))) with (Mem.base s2) in Hgo2.
      set (lookahead := fst (fgetc (Mem.base s1))). clearbody s2 lookahead.
      destruct (lookahead =? int_of_plain_char QUOTE_CHAR).
      { apply sim_putc_and_go; [exact Hp2|]. intros s' b' Hp' Hf'. now apply Hgo2. }
      destruct (lookahead =? int_of_plain_char (field_delimiter parser)).
      { apply sim_append_and_go; [exact Hp2|]. intros s' r' Hp' Hf'. now apply Hgo2. }
      destruct ((lookahead =? int_of_plain_char CR_CHAR) || (lookahead =? int_of_plain_char LF_CHAR)).
      { apply sim_lift. apply sim_append_and_return.
        apply parsing_lift; [exact Hp2 | apply consume_end_of_line_heap]. }
      now apply sim_fail_with. }
    destruct (c =? EOF) eqn:E2.
    { apply sim_lift. cbn [ferror fst snd Mem.base Mem.cells]. rewrite <- state_eta.
      destruct (ferr (file (Mem.base s1))).
      - apply sim_lift. cbn [strerror_errno fst snd]. rewrite <- state_eta.
        now apply sim_fail_with.
      - destruct q; [now apply sim_fail_with | now apply sim_append_and_return]. }
    destruct ((c =? int_of_plain_char CR_CHAR) || (c =? int_of_plain_char LF_CHAR)) eqn:E3.
    { destruct q.
      - apply sim_putc_and_go; [exact Hp1|]. intros s' b' Hp' Hf'.
        apply Hgo; [exact Hp' | exact Hf' | not_eof].
      - apply Heol. intros s' Hp' _. now apply sim_append_and_return. }
    destruct (c =? int_of_plain_char (field_delimiter parser)) eqn:E4.
    { destruct q.
      - apply sim_putc_and_go; [exact Hp1|]. intros s' b' Hp' Hf'.
        apply Hgo; [exact Hp' | exact Hf' | not_eof].
      - apply sim_append_and_go; [exact Hp1|]. intros s' r' Hp' Hf'.
        apply Hgo; [exact Hp' | exact Hf' | not_eof]. }
    apply sim_putc_and_go; [exact Hp1|]. intros s' b' Hp' Hf'.
    apply Hgo; [exact Hp' | exact Hf' | not_eof].
Qed.

Lemma buffer_new_plan w :
  if fails_within_two (plan (heap w)) then fst (buffer_new w) = None
  else fst (buffer_new w) = Some {| b_capacity := 256; b_p := [] |} /\
       plan (heap (snd (buffer_new w))) = tl (tl (plan (heap w))).
Proof.
  unfold buffer_new, xmalloc, bind, malloc, set_err, ret.
  destruct (plan (heap w)) as [|[] [|[] pl]]; cbn;
    repeat first [rewrite heap_addr_not_null | progress cbn]; auto.
Qed.

Lemma csv_row_new_plan w :
  if fails_within_two (plan (heap w))
  then fst (csv_row_new w) = None /\ err (snd (csv_row_new w)) = csv_error_oom
  else fst (csv_row_new w) = Some {| r_capacity := 32; r_fields := [] |}.
Proof.
  unfold csv_row_new, xmalloc, bind, malloc, set_err, ret.
  destruct (plan (heap w)) as [|[] [|[] pl]]; cbn;
    repeat first [rewrite heap_addr_not_null | progress cbn]; auto.
Qed.

(** The blocks of a buffer that nothing else holds. *)
Lemma buffer_alone (m m1 : gmap Z Mem.block) buffer p :
  Mem.buffer_at m1 buffer {| b_capacity := 256; b_p := [] |} p ->
  buffer <> p ->
  Mem.without [buffer; p] m1 = m ->
  Mem.buffer_left m m1.
Proof.
  intros (Hbuf & (chars & Hp & Hl & _) & _) Hne Hw.
  exists buffer, p, chars. cbn in Hbuf, Hl. subst m.
  split; [apply lookup_without_in; in_list|].
  split; [apply lookup_without_in; in_list|].
  split; [exact Hne|]. split; [exact Hl|].
  apply map_eq. intros k. rewrite !without_cons.
  destruct (decide (k = buffer)) as [->|H1]; [lookups; exact Hbuf|].
  destruct (decide (k = p)) as [->|H2]; [lookups; exact Hp|].
  now lookups.
Qed.

Lemma sim_csv_parse_next_row (parser : csv_parser_t) (s : Mem.state) :
  Mem.allocated s ->
  Mem.sim (Mem.csv_parse_next_row parser) (csv_parse_next_row parser)
    (fun res ra s' =>
       Mem.allocated s' /\
       if Mem.row_fails_after_buffer (plan (heap (Mem.base s)))
       then res = NULL /\ ra = None /\ err (Mem.base s') = csv_error_oom /\
            Mem.buffer_left (Mem.cells s) (Mem.cells s')
       else Mem.returned (Mem.cells s) res ra s') s.
Proof.
  intros Ha. unfold Mem.csv_parse_next_row, csv_parse_next_row, Mem.row_fails_after_buffer.
  apply sim_bind. eapply sim_mono; [apply sim_base, (sim_buffer_new s Ha)|].
  cbn beta. intros buffer ob s1 ((Ha1 & H1) & Hbase1 & ->).
  pose proof (buffer_new_plan (Mem.base s)) as Hpl.
  destruct (fails_within_two (plan (heap (Mem.base s)))).
  - rewrite Hpl in *. destruct H1 as [-> Hc]. change (NULL =? NULL) with true. cbn match.
    apply sim_ret. cbn [negb andb]. unfold Mem.returned. auto.
  - destruct Hpl as [Hsome Hplan]. rewrite <- Hbase1 in Hplan. rewrite Hsome in H1 |- *.
    destruct H1 as (Hb0 & p & Hb & Hw).
    destruct (buffer_at_facts _ _ _ _ Ha1 Hb) as (_ & _ & Hbp).
    destruct (Z.eqb_spec buffer NULL) as [|_]; [contradiction|].
    apply sim_bind. eapply sim_mono; [apply sim_base, (sim_csv_row_new s1 Ha1)|].
    cbn beta. intros row orow s2 ((Ha2 & H2) & Hbase2 & ->).
    pose proof (csv_row_new_plan (Mem.base s1)) as Hpl2. rewrite Hplan in Hpl2.
    cbn [negb andb].
    destruct (fails_within_two (tl (tl (plan (heap (Mem.base s)))))).
    + destruct Hpl2 as [Hnone Herr]. rewrite Hnone in *. destruct H2 as [-> Hc].
      change (NULL =? NULL) with true. cbn match.
      apply sim_ret. split; [exact Ha2|]. split; [reflexivity|]. split; [reflexivity|]. split.
      * now rewrite Hbase2.
      * rewrite Hc. exact (buffer_alone _ _ buffer p Hb Hbp Hw).
    + rewrite Hpl2 in H2 |- *. destruct H2 as (Hrow0 & fields & Hr & Hw2).
      destruct (Z.eqb_spec row NULL) as [|_]; [contradiction|].
      change (Mem.sim
                (Mem.parse_loop (S (length (rd (file (Mem.base s2))))) parser row buffer
                   ST_START false)
                (parse_loop (S (length (rd (file (Mem.base s2))))) parser
                   {| r_capacity := 32; r_fields := [] |} {| b_capacity := 256; b_p := [] |}
                   ST_START false)
                (fun res ra s' => Mem.allocated s' /\ Mem.returned (Mem.cells s) res ra s') s2).
      apply (sim_mono _ _ (Mem.returned (Mem.cells s))).
      2:{ intros res ra s' H. split; [apply H | exact H]. }
      apply (sim_parse_loop parser (Mem.cells s)); [|lia].
      pose proof Hb as (Hbuf & (chars & Hp & _) & _).
      assert (Hw2' : Mem.without [row; fields] (Mem.cells s2) = Mem.without [] (Mem.cells s1))
        by exact Hw2.
      destruct (frame_lookup _ _ _ _ _ _ Hw2' (not_elem_of_nil _) Hbuf) as [Hbuf2 B1].
      destruct (frame_lookup _ _ _ _ _ _ Hw2' (not_elem_of_nil _) Hp) as [Hp2 B2].
      split; [exact Ha2|]. exists fields, [], p. split; [exact Hr|]. split; [|split].
      * apply (buffer_at_frame (Mem.cells s1)); [exact Hb | congruence | congruence].
      * apply not_elem_of_nil.
      * rewrite !(without_cons buffer), !(without_cons p). rewrite Hw2. exact Hw.
Qed.

(** ** The reading example in memory *)

Lemma existsb_NUL (f : list char) :
  elem_of NUL f -> existsb (fun c => Ascii.eqb c NUL) f = true.
Proof.
  intros H. apply existsb_exists. exists NUL. split; [now apply list_elem_of_In|reflexivity].
Qed.

Lemma mwp_field_at q f (Q : list char -> Mem.state -> Prop) s :
  Mem.cells s !! q = Some (Mem.BChars f) -> elem_of NUL f ->
  Q f s -> Mem.mwp (Mem.field_at q) Q s.
Proof.
  intros Hq Hn H. unfold Mem.field_at. apply mwp_bind.
  eapply mwp_chars_get; [exact Hq|]. now rewrite existsb_NUL.
Qed.

Lemma mwp_string_at q f (Q : list char -> Mem.state -> Prop) s :
  Mem.cells s !! q = Some (Mem.BChars f) -> elem_of NUL f ->
  Q (c_str f) s -> Mem.mwp (Mem.string_at q) Q s.
Proof.
  intros Hq Hn H. unfold Mem.string_at. apply mwp_bind.
  eapply mwp_field_at; [exact Hq | exact Hn | exact H].
Qed.

Lemma mwp_print_fields s row r fields ptrs :
  Mem.row_at (Mem.cells s) row r fields ptrs ->
  forall count i,
    (i + count = length (r_fields r))%nat ->
    Mem.mwp (Mem.print_fields count row (Z.of_nat i))
      (fun strs s' => s' = s /\ strs = map c_str (skipn i (r_fields r))) s.
Proof.
  intros (Hrow & Hfields & Hptrs & Hnd & Hnul & Hok).
  induction count as [|count IH]; intros i Hi.
  - cbn. unfold Mem.mwp, Mem.mret. split; [reflexivity|]. rewrite drop_ge by lia. reflexivity.
  - cbn [Mem.print_fields].
    destruct (lookup_lt_is_Some_2 (r_fields r) i) as [f Hf]; [lia|].
    destruct (Forall2_lookup_r _ _ _ _ _ Hptrs Hf) as (q & Hq & Hqf).
    apply mwp_bind. unfold Mem.csv_row_field_get. apply mwp_bind.
    eapply mwp_row_get; [exact Hrow|]. cbn beta iota.
    eapply mwp_slot_get; [exact Hfields | lia | |].
    { rewrite Nat2Z.id. apply lookup_app_l_Some. exact Hq. }
    apply mwp_bind. eapply mwp_string_at; [exact Hqf | exact (Forall_lookup_1 _ _ _ _ Hnul Hf) |].
    apply mwp_bind. replace (Z.of_nat i + 1) with (Z.of_nat (S i)) by lia.
    eapply mwp_mono; [apply IH; lia|].
    cbn beta. intros strs s' [-> ->]. split; [reflexivity|].
    now rewrite (drop_S _ _ _ Hf).
Qed.


Lemma row_fails_after_buffer_oom (m : mem) :
  Mem.row_fails_after_buffer (plan m) = true -> ~ never_oom m.
Proof.
  unfold Mem.row_fails_after_buffer, never_oom.
  destruct (plan m) as [|[] [|[] [|[] [|[] pl]]]]; cbn; intros H1 H2; congruence.
Qed.

Lemma sim_read_rows (parser : csv_parser_t) (fuel : nat) :
  forall s,
    Mem.allocated s -> fresh (heap (Mem.base s)) ->
    (length (rd (file (Mem.base s))) < fuel)%nat ->
    Mem.sim (Mem.read_rows fuel parser) (parse_rows fuel parser)
      (fun out rows s' =>
         out = map (fun r => map c_str (r_fields r)) rows /\
         Mem.allocated s' /\
         (Mem.cells s' = Mem.cells s \/
          (Mem.buffer_left (Mem.cells s) (Mem.cells s') /\
           ~ never_oom (heap (Mem.base s))))) s.
Proof.
  induction fuel as [|fuel IH]; intros s Ha Hf Hfuel; [lia|].
  cbn [Mem.read_rows parse_rows]. apply sim_bind.
  eapply sim_mono; [apply sim_base, (sim_csv_parse_next_row parser s Ha)|].
  cbn beta. intros res ra s1 ((Ha1 & H) & Hbase & ->).
  pose proof (csv_parse_next_row_inv parser (Mem.base s) Hf) as Hinv. unfold wp in Hinv.
  pose proof (csv_parse_next_row_spec parser (Mem.base s)) as Hspec. unfold wp in Hspec.
  rewrite <- Hbase in Hinv, Hspec. destruct Hinv as [(_ & _ & Hbrk & Hf1 & _) Hlt].
  destruct Hspec as (_ & _ & _ & Hoom).
  destruct (Mem.row_fails_after_buffer (plan (heap (Mem.base s)))) eqn:Hcond.
  - destruct H as (-> & -> & He & Hleft). change (NULL =? NULL) with true. cbn match.
    apply sim_ret. cbn [map]. split; [reflexivity|]. split; [exact Ha1|]. right.
    split; [exact Hleft|]. now apply row_fails_after_buffer_oom.
  - destruct H as [_ H].
    destruct (fst (csv_parse_next_row parser (Mem.base s))) as [r|].
    + destruct H as (Hres & fields & ptrs & Hr & Hw).
      destruct (Z.eqb_spec res NULL) as [|_]; [contradiction|].
      apply sim_mem. eapply mwp_csv_row_field_count; [exact Hr|]. split; [reflexivity|].
      unfold csv_row_field_count, r_len. rewrite Nat2Z.id.
      apply sim_mem. eapply mwp_mono; [apply (mwp_print_fields s1 res r fields ptrs Hr _ O); lia|].
      cbn beta. intros strs s' [-> ->]. split; [reflexivity|]. cbn [skipn].
      apply sim_mem. eapply mwp_mono; [apply (mwp_csv_row_free s1 res r fields ptrs Ha1 Hr)|].
      cbn beta. intros _ s' ->. cbn [Mem.base]. split; [reflexivity|]. rewrite Hw.
      apply sim_bind. eapply sim_mono.
      { apply IH; cbn [Mem.base Mem.cells].
        - apply (allocated_sub s); [exact Ha | exact Hbrk | auto].
        - exact Hf1.
        - specialize (Hlt ltac:(discriminate)). lia. }
      cbn beta. intros out rows s' (-> & Ha' & Hc). apply sim_ret.
      split; [reflexivity|]. split; [exact Ha'|].
      destruct Hc as [Hc|[Hc Hno]]; [now left|]. right. split; [exact Hc|].
      intros Hok. apply Hno. now apply Hoom.
    + destruct H as [-> Hc]. change (NULL =? NULL) with true. cbn match.
      apply sim_ret. cbn [map]. auto.
Qed.


Lemma mwp_lift {A} (c : M A) (Q : A -> Mem.state -> Prop) s :
  Q (fst (c (Mem.base s))) {| Mem.base := snd (c (Mem.base s)); Mem.cells := Mem.cells s |} ->
  Mem.mwp (Mem.lift c) Q s.
Proof. unfold Mem.mwp, Mem.lift. now destruct (c (Mem.base s)). Qed.

(** What the caller's loop leaves of [*err] and the store: what its last
    call, the one that returned [NULL], has made of them. *)
Lemma parse_rows_store (parser : csv_parser_t) (fuel : nat) :
  forall w,
    fresh (heap w) -> err w = NULL -> (length (rd (file w)) < fuel)%nat ->
    wp (parse_rows fuel parser) (fun _ w' =>
      exists w1,
        fresh (heap w1) /\ err w1 = NULL /\ store (heap w1) = store (heap w) /\
        null_outcome w1 w') w.
Proof.
  induction fuel as [|fuel IH]; intros w Hf He Hfuel; [lia|].
  cbn [parse_rows]. apply wp_bind.
  eapply wp_mono; [apply (csv_parse_next_row_inv parser w Hf)|].
  cbn beta. intros [row|] w1 [(_ & _ & _ & Hf1 & H) Hlt].
  - destruct H as [He1 Hs1]. specialize (Hlt ltac:(discriminate)). apply wp_bind.
    eapply wp_mono; [apply IH; [exact Hf1 | congruence | lia]|].
    cbn beta. intros rows w2 (w3 & A1 & A2 & A3 & A4). apply wp_ret.
    exists w3. repeat apply conj; auto. congruence.
  - apply wp_ret. exists w. auto.
Qed.

Lemma csv_error_free_new_error code msg w w' :
  fresh (heap w) -> code <> CSV_ENOMEMORY -> new_error code msg w w' ->
  err w' <> NULL /\
  store (heap (snd (csv_error_free (err w') w'))) = store (heap w).
Proof.
  intros Hfresh Hne (n & Hn & He & Hs). rewrite He.
  set (e := heap_base + Z.of_nat n) in *.
  set (q := heap_base + Z.of_nat (S n)) in *.
  assert (Hqe : q <> e) by (subst q e; lia).
  assert (Hle : load (heap w') e = Some (OError code q)).
  { unfold load. subst e. rewrite static_obj_heap, Hs.
    rewrite lookup_insert_ne by exact Hqe. apply lookup_insert_eq. }
  assert (Hc : error_code_at (heap w') e = Some code)
    by (unfold error_code_at; now rewrite Hle).
  assert (Hm : message_at (heap w') e = Some q)
    by (unfold message_at; now rewrite Hle).
  split; [apply heap_addr_not_null_neq|].
  unfold csv_error_free. rewrite Hc, Hm, (proj2 (Z.eqb_neq _ _) Hne).
  cbn. rewrite Hs. rewrite delete_insert_eq.
  rewrite (delete_insert_ne _ q e) by exact Hqe.
  rewrite delete_insert_eq.
  rewrite (delete_id _ q) by (apply Hfresh; lia).
  apply delete_id. apply Hfresh. lia.
Qed.

Lemma parser_error_code code msg f : parser_error code msg f -> code <> CSV_ENOMEMORY.
Proof. intros [[-> _]|[-> _]]; discriminate. Qed.

Theorem read_csv_memory (parser : csv_parser_t) (s : Mem.state) :
  Mem.allocated s -> fresh (heap (Mem.base s)) -> err (Mem.base s) = NULL ->
  Mem.mwp (Mem.read_csv parser)
    (fun out s' =>
       out = map (fun r => map c_str (r_fields r)) (fst (parse_all parser (Mem.base s))) /\
       store (heap (Mem.base s')) = store (heap (Mem.base s)) /\
       (Mem.cells s' = Mem.cells s \/
        (Mem.buffer_left (Mem.cells s) (Mem.cells s') /\ ~ never_oom (heap (Mem.base s))))) s.
Proof.
  intros Ha Hf He. unfold Mem.read_csv. apply mwp_bind.
  pose proof (sim_read_rows parser (S (length (rd (file (Mem.base s))))) s Ha Hf
                ltac:(lia)) as Hsim.
  pose proof (parse_rows_store parser (S (length (rd (file (Mem.base s))))) (Mem.base s)
                Hf He ltac:(lia)) as Hst.
  unfold wp in Hst. unfold Mem.sim in Hsim.
  change (parse_rows (S (length (rd (file (Mem.base s))))) parser (Mem.base s))
    with (parse_all parser (Mem.base s)) in *.
  eapply mwp_mono; [exact Hsim|]. cbn beta.
  intros out s1 (Hbase & -> & Ha1 & Hcells).
  rewrite <- Hbase in Hst. destruct Hst as (w1 & Hf1 & He1 & Hs1 & Hout).
  pose proof Hcells as Hc.
  apply mwp_bind. apply mwp_lift. cbn [fst snd Mem.base Mem.cells].
  apply mwp_bind.
  destruct Hout as [[He2 Hs2]|[[He2 Hs2]|(code & msg & Hpe & Hnew)]].
  - rewrite He2, He1. change (NULL =? NULL) with true. cbn match.
    apply mwp_ret. apply mwp_ret. cbn [Mem.base Mem.cells]. split; [reflexivity|].
    split; [congruence | exact Hc].
  - rewrite He2. change (csv_error_oom =? NULL) with false. cbn match.
    apply mwp_lift. rewrite csv_error_free_oom. cbn [fst snd Mem.base Mem.cells].
    apply mwp_ret. cbn [Mem.base Mem.cells]. split; [reflexivity|].
    split; [congruence | exact Hc].
  - destruct (csv_error_free_new_error code msg w1 (Mem.base s1) Hf1
                (parser_error_code _ _ _ Hpe) Hnew) as [Hnn Hfree].
    destruct (Z.eqb_spec (err (Mem.base s1)) NULL) as [|_]; [contradiction|].
    apply mwp_lift. cbn [fst snd Mem.base Mem.cells].
    apply mwp_ret. cbn [Mem.base Mem.cells]. split; [reflexivity|].
    split; [congruence | exact Hc].
Qed.

(** ** The memory at program start *)

Lemma allocated_state0 (w : world) :
  Mem.allocated {| Mem.base := w; Mem.cells := ∅ |}.
Proof. intros k [b Hb]. cbn in Hb. rewrite lookup_empty in Hb. discriminate. Qed.

(** X8.  Both loops end.  In the embedding on blocks a loop that has not
    returned when its bound is used up has no result.  The loop of
    [csv_parse_next_row], started with its row and its buffer in memory,
    returns within one iteration more than there are unread bytes, whatever
    the allocator does: run with any bound above their number it has a
    result, which is the one of the loop on values, and that one is the same
    for every such bound.  The caller's loop over [csv_parse_next_row] ends
    within one call more than there are unread bytes, in the same sense. *)
Theorem parse_loops_end (parser : csv_parser_t) :
  (forall fuel m0 s row r buffer b st q,
     Mem.parsing m0 s row r buffer b ->
     (length (rd (file (Mem.base s))) < fuel)%nat ->
     Mem.sim (Mem.parse_loop fuel parser row buffer st q)
       (parse_loop fuel parser r b st q) (Mem.returned m0) s /\
     forall fuel', (length (rd (file (Mem.base s))) < fuel')%nat ->
       parse_loop fuel parser r b st q (Mem.base s) =
       parse_loop fuel' parser r b st q (Mem.base s)) /\
  (forall fuel s,
     Mem.allocated s -> fresh (heap (Mem.base s)) ->
     (length (rd (file (Mem.base s))) < fuel)%nat ->
     Mem.sim (Mem.read_rows fuel parser) (parse_rows fuel parser)
       (fun out rows _ => out = map (fun r => map c_str (r_fields r)) rows) s /\
     forall fuel', (length (rd (file (Mem.base s))) < fuel')%nat ->
       parse_rows fuel parser (Mem.base s) = parse_rows fuel' parser (Mem.base s)).
Proof.
  split.
  - intros fuel m0 s row r buffer b st q Hp Hfuel. split.
    + now apply sim_parse_loop.
    + intros fuel' Hfuel'. now apply parse_loop_fuel.
  - intros fuel s Ha Hf Hfuel. split.
    + eapply sim_mono; [now apply sim_read_rows|]. cbn beta.
      intros out rows s' (H & _). exact H.
    + intros fuel' Hfuel'. now apply parse_rows_fuel.
Qed.

Lemma parse_loops_end_witness :
  let parser := {| field_delimiter := COMMA_CHAR |} in
  let s := {| Mem.base := world0 (bytes "a,b" ++ [LF_CHAR] ++ bytes "c"); Mem.cells := ∅ |} in
  Mem.allocated s /\ fresh (heap (Mem.base s)) /\
  (length (rd (file (Mem.base s))) < 6)%nat /\
  Mem.sim (Mem.read_rows 6 parser) (parse_rows 6 parser)
    (fun out rows _ => out = map (fun r => map c_str (r_fields r)) rows) s.
Proof.
  intros parser s.
  assert (H1 : (length (rd (file (Mem.base s))) < 6)%nat) by (cbn; lia).
  exact (conj (allocated_state0 _) (conj fresh_mem0 (conj H1
           (proj1 (proj2 (parse_loops_end parser) 6%nat s
                     (allocated_state0 _) fresh_mem0 H1))))).
Defined.

Lemma mwp_csv_row_field_get s row r fields ptrs idx :
  Mem.row_at (Mem.cells s) row r fields ptrs ->
  0 <= idx < csv_row_field_count r ->
  Mem.mwp (Mem.csv_row_field_get row idx)
    (fun q s' => s' = s /\ Mem.cells s !! q = Some (Mem.BChars (csv_row_field_get r idx))) s.
Proof.
  intros (Hrow & Hfields & Hptrs & _) Hidx. unfold csv_row_field_count, r_len in Hidx.
  destruct (lookup_lt_is_Some_2 (r_fields r) (Z.to_nat idx)) as [f Hf]; [lia|].
  destruct (Forall2_lookup_r _ _ _ _ _ Hptrs Hf) as (q & Hq & Hqf).
  unfold Mem.csv_row_field_get. apply mwp_bind.
  eapply mwp_row_get; [exact Hrow|]. cbn beta iota.
  eapply mwp_slot_get; [exact Hfields | lia | apply lookup_app_l_Some; exact Hq |].
  split; [reflexivity|]. unfold csv_row_field_get.
  rewrite (nth_lookup_Some _ _ _ _ Hf). exact Hqf.
Qed.

(** X16.  The row container in memory agrees with the row as a value.
    [csv_row_new] gives [NULL] and leaves the memory as it was, or gives the
    address of an empty row with room for 32 fields, in two new blocks.  On
    a row in memory, [csv_row_append_field] with a length within the bytes
    given reads and writes live blocks only, returns what it returns on the
    value and leaves that row in memory, with the new field in a block of
    its own; [csv_row_field_count] and [csv_row_field_get] with an index
    below the count read the count and the address of the field's block. *)
Theorem row_in_memory (s : Mem.state) :
  Mem.allocated s ->
  Mem.sim Mem.csv_row_new csv_row_new
    (fun row ra s' =>
       Mem.allocated s' /\
       match ra with
       | None => row = NULL /\ Mem.cells s' = Mem.cells s
       | Some r =>
           row <> NULL /\
           exists fields,
             Mem.row_at (Mem.cells s') row r fields [] /\
             Mem.without [row; fields] (Mem.cells s') = Mem.cells s
       end) s /\
  forall row r fields ptrs,
    Mem.row_at (Mem.cells s) row r fields ptrs ->
    (forall field len,
       (len <= length field)%nat ->
       Mem.sim (Mem.csv_row_append_field row field len) (csv_row_append_field r field len)
         (fun res x s' =>
            res = fst x /\ Mem.allocated s' /\
            exists fields' ptrs',
              Mem.row_at (Mem.cells s') row (snd x) fields' ptrs' /\
              Mem.without (row :: fields' :: ptrs') (Mem.cells s') =
                Mem.without (row :: fields :: ptrs) (Mem.cells s)) s) /\
    Mem.mwp (Mem.csv_row_field_count row)
      (fun n s' => s' = s /\ n = csv_row_field_count r) s /\
    (forall idx,
       0 <= idx < csv_row_field_count r ->
       Mem.mwp (Mem.csv_row_field_get row idx)
         (fun q s' =>
            s' = s /\ Mem.cells s !! q = Some (Mem.BChars (csv_row_field_get r idx))) s).
Proof.
  intros Ha. split; [exact (sim_csv_row_new s Ha)|].
  intros row r fields ptrs Hr. split; [|split].
  - intros field len Hlen.
    exact (sim_csv_row_append_field s row r fields ptrs field field len len Ha Hr Hlen eq_refl).
  - eapply mwp_csv_row_field_count; [exact Hr|]. auto.
  - intros idx Hidx. exact (mwp_csv_row_field_get s row r fields ptrs idx Hr Hidx).
Qed.

Lemma row_in_memory_witness :
  let s := {| Mem.base := world0 []; Mem.cells := ∅ |} in
  Mem.allocated s /\
  Mem.sim Mem.csv_row_new csv_row_new
    (fun row ra s' =>
       Mem.allocated s' /\
       match ra with
       | None => row = NULL /\ Mem.cells s' = Mem.cells s
       | Some r =>
           row <> NULL /\
           exists fields,
             Mem.row_at (Mem.cells s') row r fields [] /\
             Mem.without [row; fields] (Mem.cells s') = Mem.cells s
       end) s.
Proof.
  intros s.
  exact (conj (allocated_state0 (world0 []))
              (proj1 (row_in_memory s (allocated_state0 (world0 []))))).
Defined.

(** X17.  Releasing a row in memory.  [csv_row_reset] frees the blocks of
    the fields and leaves the row in memory, empty and with the capacity it
    had; [csv_row_free] frees every block of the row and nothing else.
    Neither touches a block that is not live, nor the stream, [*err] or the
    errors. *)
Theorem row_release (s : Mem.state) (row : Z) (r : csv_row_t) (fields : Z) (ptrs : list Z) :
  Mem.allocated s ->
  Mem.row_at (Mem.cells s) row r fields ptrs ->
  Mem.mwp (Mem.csv_row_reset row)
    (fun _ s' =>
       Mem.base s' = Mem.base s /\ Mem.allocated s' /\
       Mem.row_at (Mem.cells s') row (csv_row_reset r) fields [] /\
       Mem.without [row; fields] (Mem.cells s') =
         Mem.without (row :: fields :: ptrs) (Mem.cells s)) s /\
  Mem.mwp (Mem.csv_row_free row)
    (fun _ s' =>
       Mem.base s' = Mem.base s /\
       Mem.cells s' = Mem.without (row :: fields :: ptrs) (Mem.cells s)) s.
Proof.
  intros Ha Hr. split; [exact (mwp_csv_row_reset s row r fields ptrs Ha Hr)|].
  eapply mwp_mono; [exact (mwp_csv_row_free s row r fields ptrs Ha Hr)|].
  cbn beta. intros _ s' ->. auto.
Qed.


Lemma row_release_witness :
  let s := {| Mem.base := {| file := stream []; 
                             heap := {| store := ∅; brk := 3; plan := [] |};
                             err := NULL |};
              Mem.cells := <[16 := Mem.BRow 1 32 17]>
                             (<[17 := Mem.BSlots (18 :: repeat NULL 31)]>
                                (<[18 := Mem.BChars (bytes "a" ++ [NUL])]> ∅)) |} in
  let r := {| r_capacity := 32; r_fields := [bytes "a" ++ [NUL]] |} in
  Mem.allocated s /\
  Mem.row_at (Mem.cells s) 16 r 17 [18] /\
  Mem.mwp (Mem.csv_row_free 16)
    (fun _ s' =>
       Mem.base s' = Mem.base s /\
       Mem.cells s' = Mem.without [16; 17; 18] (Mem.cells s)) s.
Proof.
  intros s r.
  assert (Ha : Mem.allocated s).
  { intros k Hk. cbn in Hk. live_in Hk; [subst k; cbn; unfold heap_base; lia ..|].
    rewrite lookup_empty in Hk. now destruct Hk. }
  assert (Hr : Mem.row_at (Mem.cells s) 16 r 17 [18]).
  { unfold Mem.row_at. cbn [Mem.cells s]. split; [reflexivity|]. split; [reflexivity|].
    split; [repeat constructor|]. split; [repeat constructor; apply not_elem_of_nil|].
    split; [|subst r; unfold row_ok, r_len; cbn; lia].
    constructor; [|constructor]. apply elem_of_app. right. apply list_elem_of_here. }
  exact (conj Ha (conj Hr (proj2 (row_release s 16 r 17 [18] Ha Hr)))).
Defined.

(** X18.  The parse buffer in memory agrees with the buffer as a value.
    [buffer_new] gives [NULL] and leaves the memory as it was, or gives an
    empty buffer with room for 256 bytes, in two new blocks.  On a buffer in
    memory, [buffer_putc] reads and writes live blocks only and within their
    bounds, returns what it returns on the value and leaves that buffer in
    memory, in two blocks as before; [buffer_reset] empties it in place;
    [buffer_free] frees its two blocks and nothing else. *)
Theorem buffer_in_memory (s : Mem.state) :
  Mem.allocated s ->
  Mem.sim Mem.buffer_new buffer_new
    (fun buffer ba s' =>
       Mem.allocated s' /\
       match ba with
       | None => buffer = NULL /\ Mem.cells s' = Mem.cells s
       | Some b =>
           buffer <> NULL /\
           exists p,
             Mem.buffer_at (Mem.cells s') buffer b p /\
             Mem.without [buffer; p] (Mem.cells s') = Mem.cells s
       end) s /\
  forall buffer b p,
    Mem.buffer_at (Mem.cells s) buffer b p ->
    (forall c,
       Mem.sim (Mem.buffer_putc buffer c) (buffer_putc b c)
         (fun res x s' =>
            res = fst x /\ Mem.allocated s' /\
            exists p',
              Mem.buffer_at (Mem.cells s') buffer (snd x) p' /\
              Mem.without [buffer; p'] (Mem.cells s') =
                Mem.without [buffer; p] (Mem.cells s)) s) /\
    Mem.mwp (Mem.buffer_reset buffer)
      (fun _ s' =>
         Mem.base s' = Mem.base s /\
         Mem.buffer_at (Mem.cells s') buffer (buffer_reset b) p /\
         Mem.without [buffer; p] (Mem.cells s') = Mem.without [buffer; p] (Mem.cells s)) s /\
    Mem.mwp (Mem.buffer_free buffer)
      (fun _ s' =>
         Mem.base s' = Mem.base s /\
         Mem.cells s' = Mem.without [buffer; p] (Mem.cells s)) s.
Proof.
  intros Ha. split; [exact (sim_buffer_new s Ha)|].
  intros buffer b p Hb. split; [|split].
  - intros c. exact (sim_buffer_putc s buffer b p c Ha Hb).
  - destruct (buffer_at_facts _ _ _ _ Ha Hb) as (_ & _ & Hne).
    eapply mwp_mono; [exact (mwp_buffer_reset s buffer b p Ha Hb)|].
    cbn beta. intros _ s' [-> Hb']. split; [reflexivity|]. split; [exact Hb'|].
    cbn [Mem.cells]. rewrite !without_cons. apply map_eq. intros a.
    destruct (decide (a = buffer)) as [->|H1]; [now lookups|].
    destruct (decide (a = p)) as [->|H2]; now lookups.
  - eapply mwp_mono; [exact (mwp_buffer_free s buffer b p Ha Hb)|].
    cbn beta. intros _ s' ->. auto.
Qed.

Lemma buffer_in_memory_witness :
  let s := {| Mem.base := world0 []; Mem.cells := ∅ |} in
  Mem.allocated s /\
  Mem.sim Mem.buffer_new buffer_new
    (fun buffer ba s' =>
       Mem.allocated s' /\
       match ba with
       | None => buffer = NULL /\ Mem.cells s' = Mem.cells s
       | Some b =>
           buffer <> NULL /\
           exists p,
             Mem.buffer_at (Mem.cells s') buffer b p /\
             Mem.without [buffer; p] (Mem.cells s') = Mem.cells s
       end) s.
Proof.
  intros s.
  exact (conj (allocated_state0 (world0 []))
              (proj1 (buffer_in_memory s (allocated_state0 (world0 []))))).
Defined.

(** X19.  A call of [csv_parse_next_row] in memory.  The call touches live
    blocks only, within their bounds, and frees no block twice; it returns
    and leaves of the stream, [*err] and the errors what the call on values
    does.  If [buffer_new] succeeds and an allocation of [csv_row_new] then
    fails, it returns [NULL] with [*err] at the static out-of-memory error
    and the two blocks of the buffer stay allocated.  In every other case:
    when it returns a row, the row is in memory with the fields of the row
    as a value, in blocks that were not allocated before, and no other
    block has come or gone; when it returns [NULL], the memory holds the
    blocks it held before the call. *)
Theorem csv_parse_next_row_memory (parser : csv_parser_t) (s : Mem.state) :
  Mem.allocated s ->
  Mem.sim (Mem.csv_parse_next_row parser) (csv_parse_next_row parser)
    (fun res ra s' =>
       Mem.allocated s' /\
       if Mem.row_fails_after_buffer (plan (heap (Mem.base s)))
       then res = NULL /\ ra = None /\ err (Mem.base s') = csv_error_oom /\
            Mem.buffer_left (Mem.cells s) (Mem.cells s')
       else Mem.returned (Mem.cells s) res ra s') s.
Proof. intros Ha. exact (sim_csv_parse_next_row parser s Ha). Qed.

Lemma csv_parse_next_row_memory_witness :
  let parser := {| field_delimiter := COMMA_CHAR |} in
  let s := {| Mem.base := world0 (bytes "a,b" ++ [LF_CHAR]); Mem.cells := ∅ |} in
  Mem.allocated s /\
  Mem.sim (Mem.csv_parse_next_row parser) (csv_parse_next_row parser)
    (fun res ra s' =>
       Mem.allocated s' /\
       if Mem.row_fails_after_buffer (plan (heap (Mem.base s)))
       then res = NULL /\ ra = None /\ err (Mem.base s') = csv_error_oom /\
            Mem.buffer_left (Mem.cells s) (Mem.cells s')
       else Mem.returned (Mem.cells s) res ra s') s.
Proof.
  intros parser s.
  exact (conj (allocated_state0 _)
              (csv_parse_next_row_memory parser s (allocated_state0 _))).
Defined.

(** X20.  The reading example in memory: the loop over
    [csv_parse_next_row] that prints the fields of each row and frees the
    row, then [csv_error_free] on the error left, if any.  From a state
    with [*err = NULL] the run touches live blocks only, every field it
    prints is NUL-terminated within its block, and what it prints is the
    fields of the rows the loop yields on values, each up to its NUL.  At
    the end every error block is freed; and the memory holds the blocks it
    held at the start, unless an allocation failed, in which case the two
    blocks of a buffer may be left. *)
Theorem read_csv_in_memory (parser : csv_parser_t) (s : Mem.state) :
  Mem.allocated s -> fresh (heap (Mem.base s)) -> err (Mem.base s) = NULL ->
  Mem.mwp (Mem.read_csv parser)
    (fun out s' =>
       out = map (fun r => map c_str (r_fields r)) (fst (parse_all parser (Mem.base s))) /\
       store (heap (Mem.base s')) = store (heap (Mem.base s)) /\
       (Mem.cells s' = Mem.cells s \/
        (Mem.buffer_left (Mem.cells s) (Mem.cells s') /\ ~ never_oom (heap (Mem.base s))))) s.
Proof. intros Ha Hf He. exact (read_csv_memory parser s Ha Hf He). Qed.

Lemma read_csv_in_memory_witness :
  let parser := {| field_delimiter := COMMA_CHAR |} in
  let s := {| Mem.base := world0 (bytes "a,b" ++ [LF_CHAR] ++ bytes "c"); Mem.cells := ∅ |} in
  Mem.allocated s /\ fresh (heap (Mem.base s)) /\ err (Mem.base s) = NULL /\
  Mem.mwp (Mem.read_csv parser)
    (fun out s' =>
       out = map (fun r => map c_str (r_fields r)) (fst (parse_all parser (Mem.base s))) /\
       store (heap (Mem.base s')) = store (heap (Mem.base s)) /\
       (Mem.cells s' = Mem.cells s \/
        (Mem.buffer_left (Mem.cells s) (Mem.cells s') /\ ~ never_oom (heap (Mem.base s))))) s.
Proof.
  intros parser s.
  exact (conj (allocated_state0 _) (conj fresh_mem0 (conj eq_refl
           (read_csv_in_memory parser s (allocated_state0 _) fresh_mem0 eq_refl)))).
Defined.

(** ** The dump example in memory *)


























(** ** Errors raised and freed *)


























(** X27.  An SQL NULL in the table.  [mysql_fetch_row] gives a null pointer
    for an SQL NULL, and the loop over the values passes every [row[i]] to
    [strlen] without a test: on a table of one column [id] whose only row
    holds an SQL NULL, with a stream and an allocator that never fail, the
    call has written the header line when it reaches the value, and has no
    defined result; with the value 7 in place of the NULL it returns 0,
    on values and in memory, having written the two lines. *)
Theorem dump_null_value :
  let fields := [{| name := lit "id"; name_length := 2 |}] in
  let env rows := {| fopen := true; mysql_query := 0;
                     mysql_use_result := Some {| res_fields := fields; res_rows := rows |} |} in
  let s := {| Mem.base := world0 []; Mem.cells := ∅ |} in
  Mem.dump_table_to_csv (env [[None]]) (lit "t") s = None /\
  fst (dump_table_to_csv (env [[None]]) (lit "t") (world0 [])) = None /\
  wr (file (snd (dump_table_to_csv (env [[None]]) (lit "t") (world0 [])))) =
    bytes "id" ++ [LF_CHAR] /\
  fst (dump_table_to_csv (env [[Some (lit "7")]]) (lit "t") (world0 [])) = Some 0 /\
  wr (file (snd (dump_table_to_csv (env [[Some (lit "7")]]) (lit "t") (world0 [])))) =
    bytes "id" ++ [LF_CHAR] ++ bytes "7" ++ [LF_CHAR] /\
  option_map fst (Mem.dump_table_to_csv (env [[Some (lit "7")]]) (lit "t") s) = Some 0.
Proof. vm_compute. repeat split; reflexivity. Qed.
